(** * Trace-emitting sorting generators of [algos.js]

    The five generators of [window.Algos.generators] (bubble, quick, merge,
    heap, radix) are embedded as resumption trees: a generator is a tree
    whose nodes are the effects the JavaScript body performs on the shared
    array ([arr.length], [arr[i]], [arr[i] = v], a value comparison) and its
    [yield]s.  Nothing runs until the driver pulls; the array is not stored
    in the tree but handed to every pull, as the generator and the driver
    share one array object.  Comparisons of values (array elements, the
    scaled values of radixGen) are nodes of the tree, so that a log shows
    where they stand among the steps; tests on indices and counters are
    evaluated in place.

    Numbers.  The working array holds finite JavaScript numbers (the driver
    fills it with [Math.random()] or [i / (n - 1)]).  They are modelled as
    exact rationals [Q]; [<], [>], [<=] are exact on finite doubles, and
    [Math.floor(x * 1000)], [v / 1000] of [radixGen] and the products of
    the pixel heights are taken exactly: the rounding of doubles is not
    modelled.  A rounded product can fall on the other side of an
    integer or of a half than the exact one, so what is stated of the
    values that arithmetic produces is stated with a margin or of what
    rounding keeps: orders, bounds, and the shape of the steps.  Indices
    and loop counters are [Z]: several of them reach [-1] in the
    source. *)

From Stdlib Require Import ZArith QArith Qround Lia Lqa Bool.
From Stdlib Require Import Sorted Permutation.
From stdpp Require Import base tactics option list sorting.

Local Open Scope Z_scope.

(** ** Step descriptors *)

(** [{type:"compare",a,b}] ([b] is absent in quickGen and radixGen),
    [{type:"swap",a,b}], [{type:"set",i,value}], [{type:"done"}]. *)
Inductive step : Type :=
| compare (a : Z) (b : option Z)
| swap (a b : Z)
| set (i : Z) (value : option Q)
| done.

Definition is_done (s : step) : bool :=
  match s with done => true | _ => false end.

Definition is_set (s : step) : bool :=
  match s with set _ _ => true | _ => false end.

Definition is_compare (s : step) : bool :=
  match s with compare _ _ => true | _ => false end.

(** ** The shared array *)

(** [a.length] *)
Definition len {A} (a : list A) : Z := Z.of_nat (length a).

(** [arr[i]]: [None] is JavaScript's [undefined] (index outside the array). *)
Definition get (a : list Q) (i : Z) : option Q :=
  if i <? 0 then None else a !! Z.to_nat i.

(** [arr[i] = v].  Inside the array this overwrites slot [i].  Outside,
    or when [v] is [undefined], JavaScript would grow the array or leave a
    hole in it; the array then stops being a dense list of numbers and the
    model gives no array ([None]): the run ends as [Escaped] below. *)
Definition put (a : list Q) (i : Z) (v : option Q) : option (list Q) :=
  match v with
  | Some q =>
      if (0 <=? i) && (i <? len a)
      then Some (<[Z.to_nat i := q]> a) else None
  | None => None
  end.

(** The relational operators on values that may be [undefined]: a
    comparison with [undefined] is [false]. *)
Inductive cmpop : Type := Lt | Gt | Le.

Definition Qltb (x y : Q) : bool :=
  match (x ?= y)%Q with Datatypes.Lt => true | _ => false end.

Definition js_cmp (op : cmpop) (x y : option Q) : bool :=
  match x, y with
  | Some p, Some q =>
      match op with
      | Lt => Qltb p q
      | Gt => Qltb q p
      | Le => negb (Qltb q p)
      end
  | _, _ => false
  end.

(** ** Generators as resumption trees *)

(** How a generator body can end. *)
Inductive outcome (R : Type) : Type :=
| Returned (r : R)      (* the body ran to its end *)
| OutOfFuel             (* a loop of the model used up its fuel *)
| Escaped               (* a write left the dense array, see [put] *)
| TypeError.            (* [buckets[d].push] on an undefined bucket *)
Arguments Returned {R} r.
Arguments OutOfFuel {R}.
Arguments Escaped {R}.
Arguments TypeError {R}.

Inductive gen (R : Type) : Type :=
| Ret (r : R)
| Yield (s : step) (k : gen R)
| Len (k : Z -> gen R)                              (* arr.length *)
| Load (i : Z) (k : option Q -> gen R)              (* arr[i] *)
| Store (i : Z) (v : option Q) (k : gen R)          (* arr[i] = v *)
| Cmp (op : cmpop) (x y : option Q) (k : bool -> gen R)  (* x op y *)
| Copy (k : list Q -> gen R)                        (* arr.slice / arr.map *)
| Halt (o : outcome False).
Arguments Ret {R} r.
Arguments Yield {R} s k.
Arguments Len {R} k.
Arguments Load {R} i k.
Arguments Store {R} i v k.
Arguments Cmp {R} op x y k.
Arguments Copy {R} k.
Arguments Halt {R} o.

Definition abnormal {R} (o : outcome False) : outcome R :=
  match o with
  | Returned f => match f with end
  | OutOfFuel => OutOfFuel
  | Escaped => Escaped
  | TypeError => TypeError
  end.

(** Sequencing; [yield* g] is [bind g (fun _ => ...)]. *)
Fixpoint bind {R S} (g : gen R) (f : R -> gen S) : gen S :=
  match g with
  | Ret r => f r
  | Yield s k => Yield s (bind k f)
  | Len k => Len (fun n => bind (k n) f)
  | Load i k => Load i (fun v => bind (k v) f)
  | Store i v k => Store i v (bind k f)
  | Cmp op x y k => Cmp op x y (fun b => bind (k b) f)
  | Copy k => Copy (fun a => bind (k a) f)
  | Halt o => Halt o
  end.

Declare Scope gen_scope.
Delimit Scope gen_scope with gen.
Notation "x <- m ;; k" := (bind m (fun x => k))
  (at level 100, m at next level, right associativity) : gen_scope.
Notation "m ;; k" := (bind m (fun _ => k))
  (at level 100, k at level 200, right associativity) : gen_scope.
Notation "'yield' s ;; k" := (Yield s k)
  (at level 100, s at next level, right associativity) : gen_scope.
Notation "x <- 'arr[' i ] ;; k" := (Load i (fun x => k))
  (at level 100, right associativity) : gen_scope.
Notation "'arr[' i ] ':=' v ;; k" := (Store i v k)
  (at level 100, v at next level, right associativity) : gen_scope.
Notation "b <- x 'js<' y ;; k" := (Cmp Lt x y (fun b => k))
  (at level 100, x at next level, y at next level, right associativity) : gen_scope.
Notation "b <- x 'js>' y ;; k" := (Cmp Gt x y (fun b => k))
  (at level 100, x at next level, y at next level, right associativity) : gen_scope.
Notation "b <- x 'js<=' y ;; k" := (Cmp Le x y (fun b => k))
  (at level 100, x at next level, y at next level, right associativity) : gen_scope.
Notation "n <- 'arr.length' ;; k" := (Len (fun n => k))
  (at level 100, right associativity) : gen_scope.

Local Open Scope gen_scope.

(** ** Driving a generator *)

(** One call of [genIter.next()] on a suspended body: run to the next
    [yield] ([Item]: the step, the suspended rest, the array as it is now)
    or to the end of the body ([End]). *)
Inductive pulled (R : Type) : Type :=
| Item (s : step) (rest : gen R) (a : list Q)
| End (o : outcome R) (a : list Q).
Arguments Item {R} s rest a.
Arguments End {R} o a.

Fixpoint next {R} (g : gen R) (a : list Q) : pulled R :=
  match g with
  | Ret r => End (Returned r) a
  | Yield s k => Item s k a
  | Len k => next (k (len a)) a
  | Load i k => next (k (get a i)) a
  | Store i v k =>
      match put a i v with
      | Some a' => next k a'
      | None => End Escaped a
      end
  | Cmp op x y k => next (k (js_cmp op x y)) a
  | Copy k => next (k a) a
  | Halt o => End (abnormal o) a
  end.

(** The iterator object: [Some g] while suspended at [g], [None] once the
    body has ended (a finished generator stays finished). *)
Definition iterator (R : Type) : Type := option (gen R).

Definition pull {R} (it : iterator R) (a : list Q)
  : option step * iterator R * list Q :=
  match it with
  | None => (None, None, a)
  | Some g =>
      match next g a with
      | Item s k a' => (Some s, Some k, a')
      | End _ a' => (None, None, a')
      end
  end.

(** [k] pulls in a row: the steps received, the iterator and the array
    left behind. *)
Fixpoint pulls {R} (k : nat) (it : iterator R) (a : list Q)
  : list step * iterator R * list Q :=
  match k with
  | O => ([], it, a)
  | S k' =>
      match pull it a with
      | (Some s, it', a') =>
          let '(ss, it'', a'') := pulls k' it' a' in (s :: ss, it'', a'')
      | (None, it', a') => ([], it', a')
      end
  end.

(** Driving to exhaustion: every step with the array as it was when the
    step was yielded, the final array and how the body ended. *)
Fixpoint run {R} (g : gen R) (a : list Q)
  : list (step * list Q) * list Q * outcome R :=
  match g with
  | Ret r => ([], a, Returned r)
  | Yield s k => let '(tr, a', o) := run k a in ((s, a) :: tr, a', o)
  | Len k => run (k (len a)) a
  | Load i k => run (k (get a i)) a
  | Store i v k =>
      match put a i v with
      | Some a' => run k a'
      | None => ([], a, Escaped)
      end
  | Cmp op x y k => run (k (js_cmp op x y)) a
  | Copy k => run (k a) a
  | Halt o => ([], a, abnormal o)
  end.

(** Everything a full run does to the array and every comparison it
    makes, in order, with its [yield]s in between. *)
Inductive event : Type :=
| EYield (s : step)
| ELoad (i : Z)
| EStore (i : Z) (v : option Q)
| ECmp (op : cmpop) (x y : option Q).

Fixpoint events {R} (g : gen R) (a : list Q) : list event :=
  match g with
  | Ret _ => []
  | Yield s k => EYield s :: events k a
  | Len k => events (k (len a)) a
  | Load i k => ELoad i :: events (k (get a i)) a
  | Store i v k =>
      EStore i v ::
      match put a i v with
      | Some a' => events k a'
      | None => []
      end
  | Cmp op x y k => ECmp op x y :: events (k (js_cmp op x y)) a
  | Copy k => events (k a) a
  | Halt _ => []
  end.

Definition steps_of {R} (g : gen R) (a : list Q) : list step :=
  map fst (fst (fst (run g a))).
Definition final_of {R} (g : gen R) (a : list Q) : list Q :=
  snd (fst (run g a)).
Definition outcome_of {R} (g : gen R) (a : list Q) : outcome R :=
  snd (run g a).

(** ** The algorithms *)

(** [function swap(arr, i, j) { const t = arr[i]; arr[i] = arr[j]; arr[j] = t; }] *)
Definition swap_ (i j : Z) : gen unit :=
  t <- arr[ i ] ;;
  x <- arr[ j ] ;;
  arr[ i ] := x ;;
  arr[ j ] := t ;;
  Ret tt.

(** *** bubbleGen *)

(** Every [for(;;)] and [while] loop of the source is a [Fixpoint] on its
    own [fuel]; a loop nested in it starts with the whole [budget]. *)

(** The inner [for (let j = 0; j < n - 1 - i; j++)]; returns [swapped]. *)
Fixpoint bubble_inner (fuel : nat) (n i j : Z) (swapped : bool) : gen bool :=
  match fuel with
  | O => Halt OutOfFuel
  | S fuel' =>
      if j <? n - 1 - i then
        yield (compare j (Some (j + 1))) ;;
        x <- arr[ j ] ;;
        y <- arr[ j + 1 ] ;;
        b <- x js> y ;;
        if b then
          swap_ j (j + 1) ;;
          yield (swap j (j + 1)) ;;
          bubble_inner fuel' n i (j + 1) true
        else bubble_inner fuel' n i (j + 1) swapped
      else Ret swapped
  end.

(** The outer [for (let i = 0; i < n; i++)] with its [break]. *)
Fixpoint bubble_outer (budget fuel : nat) (n i : Z) : gen unit :=
  match fuel with
  | O => Halt OutOfFuel
  | S fuel' =>
      if i <? n then
        swapped <- bubble_inner budget n i 0 false ;;
        if negb swapped then Ret tt
        else bubble_outer budget fuel' n (i + 1)
      else Ret tt
  end.

Definition bubbleGen (fuel : nat) : gen unit :=
  n <- arr.length ;;
  bubble_outer fuel fuel n 0 ;;
  yield done ;;
  Ret tt.

(** *** quickGen *)

(** [while (arr[i] < pivot) { yield {type:"compare", a:i}; i++; }] *)
Fixpoint scan_left (fuel : nat) (pivot : option Q) (i : Z) : gen Z :=
  match fuel with
  | O => Halt OutOfFuel
  | S fuel' =>
      x <- arr[ i ] ;;
      b <- x js< pivot ;;
      if b then
        yield (compare i None) ;;
        scan_left fuel' pivot (i + 1)
      else Ret i
  end.

(** [while (arr[j] > pivot) { yield {type:"compare", a:j}; j--; }] *)
Fixpoint scan_right (fuel : nat) (pivot : option Q) (j : Z) : gen Z :=
  match fuel with
  | O => Halt OutOfFuel
  | S fuel' =>
      x <- arr[ j ] ;;
      b <- x js> pivot ;;
      if b then
        yield (compare j None) ;;
        scan_right fuel' pivot (j - 1)
      else Ret j
  end.

(** [while (i <= j) { ... }]; returns the final [(i, j)]. *)
Fixpoint partition (budget fuel : nat) (pivot : option Q) (i j : Z)
  : gen (Z * Z) :=
  match fuel with
  | O => Halt OutOfFuel
  | S fuel' =>
      if i <=? j then
        i1 <- scan_left budget pivot i ;;
        j1 <- scan_right budget pivot j ;;
        if i1 <=? j1 then
          swap_ i1 j1 ;;
          yield (swap i1 j1) ;;
          partition budget fuel' pivot (i1 + 1) (j1 - 1)
        else partition budget fuel' pivot i1 j1
      else Ret (i, j)
  end.

(** [while (stack.length) { const [l, r] = stack.pop(); ... }]; the head of
    the list is the top of the stack. *)
Fixpoint quick_loop (budget fuel : nat) (stack : list (Z * Z)) : gen unit :=
  match fuel with
  | O => Halt OutOfFuel
  | S fuel' =>
      match stack with
      | [] => Ret tt
      | (l, r) :: stack0 =>
          if l >=? r then quick_loop budget fuel' stack0
          else
            pivot <- arr[ (l + r) / 2 ] ;;
            ij <- partition budget budget pivot l r ;;
            let '(i, j) := ij in
            let stack1 := if l <? j then (l, j) :: stack0 else stack0 in
            let stack2 := if i <? r then (i, r) :: stack1 else stack1 in
            quick_loop budget fuel' stack2
      end
  end.

Definition quickGen (fuel : nat) : gen unit :=
  n <- arr.length ;;
  quick_loop fuel fuel [(0, n - 1)] ;;
  yield done ;;
  Ret tt.

(** *** mergeGen *)

(** [Array.prototype.slice(s, e)]: a negative bound counts from the end,
    both are clamped to the array. *)
Definition js_slice {A} (a : list A) (s e : Z) : list A :=
  let n := len a in
  let s' := if s <? 0 then Z.max (n + s) 0 else Z.min s n in
  let e' := if e <? 0 then Z.max (n + e) 0 else Z.min e n in
  take (Z.to_nat (e' - s')) (drop (Z.to_nat s') a).

(** [arr[k] = v; yield {type:"set", i:k, value:arr[k]};] *)
Definition write_set (k : Z) (v : option Q) : gen unit :=
  arr[ k ] := v ;;
  w <- arr[ k ] ;;
  yield (set k w) ;;
  Ret tt.

(** [while (i < left.length && j < right.length) { ... }] *)
Fixpoint merge_both (fuel : nat) (left right : list Q) (l m i j k : Z)
  : gen (Z * Z * Z) :=
  match fuel with
  | O => Halt OutOfFuel
  | S fuel' =>
      if (i <? len left) && (j <? len right) then
        yield (compare (l + i) (Some (m + 1 + j))) ;;
        b <- get left i js<= get right j ;;
        if b then
          write_set k (get left i) ;;
          merge_both fuel' left right l m (i + 1) j (k + 1)
        else
          write_set k (get right j) ;;
          merge_both fuel' left right l m i (j + 1) (k + 1)
      else Ret (i, j, k)
  end.

(** [while (i < buf.length) { arr[k] = buf[i++]; yield set; k++; }] *)
Fixpoint merge_drain (fuel : nat) (buf : list Q) (i k : Z) : gen Z :=
  match fuel with
  | O => Halt OutOfFuel
  | S fuel' =>
      if i <? len buf then
        write_set k (get buf i) ;;
        merge_drain fuel' buf (i + 1) (k + 1)
      else Ret k
  end.

(** The body of [mergeRange] after its two recursive calls. *)
Definition merge_phase (budget : nat) (l m r : Z) : gen unit :=
  Copy (fun a1 =>
  let left := js_slice a1 l (m + 1) in
  Copy (fun a2 =>
  let right := js_slice a2 (m + 1) (r + 1) in
  ijk <- merge_both budget left right l m 0 0 l ;;
  let '(i, j, k) := ijk in
  k1 <- merge_drain budget left i k ;;
  merge_drain budget right j k1 ;;
  Ret tt)).

Fixpoint mergeRange (budget fuel : nat) (l r : Z) : gen unit :=
  match fuel with
  | O => Halt OutOfFuel
  | S fuel' =>
      if l >=? r then Ret tt
      else
        let m := (l + r) / 2 in
        mergeRange budget fuel' l m ;;
        mergeRange budget fuel' (m + 1) r ;;
        merge_phase budget l m r
  end.

Definition mergeGen (fuel : nat) : gen unit :=
  n <- arr.length ;;
  mergeRange fuel fuel 0 (n - 1) ;;
  yield done ;;
  Ret tt.

(** *** heapGen *)

(** [function* siftDown(start, end)], a [while (true)] on [root]. *)
Fixpoint siftDown (fuel : nat) (root end_ : Z) : gen unit :=
  match fuel with
  | O => Halt OutOfFuel
  | S fuel' =>
      let child := 2 * root + 1 in
      if child >? end_ then Ret tt
      else
        child <-
          (if child + 1 <=? end_ then
             yield (compare child (Some (child + 1))) ;;
             x <- arr[ child ] ;;
             y <- arr[ child + 1 ] ;;
             b <- x js< y ;;
             Ret (if b then child + 1 else child)
           else Ret child) ;;
        yield (compare root (Some child)) ;;
        x <- arr[ root ] ;;
        y <- arr[ child ] ;;
        b <- x js< y ;;
        if b then
          swap_ root child ;;
          yield (swap root child) ;;
          siftDown fuel' child end_
        else Ret tt
  end.

(** [for (let start = Math.floor((n - 2) / 2); start >= 0; start--)] *)
Fixpoint heap_build (budget fuel : nat) (n start : Z) : gen unit :=
  match fuel with
  | O => Halt OutOfFuel
  | S fuel' =>
      if start >=? 0 then
        siftDown budget start (n - 1) ;;
        heap_build budget fuel' n (start - 1)
      else Ret tt
  end.

(** [for (let end = n - 1; end > 0; end--)] *)
Fixpoint heap_extract (budget fuel : nat) (end_ : Z) : gen unit :=
  match fuel with
  | O => Halt OutOfFuel
  | S fuel' =>
      if end_ >? 0 then
        swap_ 0 end_ ;;
        yield (swap 0 end_) ;;
        siftDown budget 0 (end_ - 1) ;;
        heap_extract budget fuel' (end_ - 1)
      else Ret tt
  end.

Definition heapGen (fuel : nat) : gen unit :=
  n <- arr.length ;;
  heap_build fuel fuel n ((n - 2) / 2) ;;
  heap_extract fuel fuel (n - 1) ;;
  yield done ;;
  Ret tt.

(** *** radixGen *)

Definition scale : Z := 1000.

(** [Math.trunc] and the remainder operator [%] (sign of the dividend). *)
Definition Qtrunc (x : Q) : Z :=
  if Qltb x 0 then Qceiling x else Qfloor x.

Definition js_rem (x y : Q) : Q :=
  (x - y * inject_Z (Qtrunc (x / y)))%Q.

(** [Math.floor((v / exp) % 10)] *)
Definition digit (v exp : Z) : Z :=
  Qfloor (js_rem (inject_Z v / inject_Z exp) (inject_Z 10)).

(** [for (const v of A) if (v > max) max = v;] *)
Fixpoint radix_max_loop (A : list Z) (max : Z) : gen Z :=
  match A with
  | [] => Ret max
  | v :: A' =>
      b <- Some (inject_Z v) js> Some (inject_Z max) ;;
      radix_max_loop A' (if b then v else max)
  end.

(** [buckets[d].push(v)]; [None] when [buckets[d]] is [undefined]. *)
Definition bucket_push (buckets : list (list Z)) (d v : Z)
  : option (list (list Z)) :=
  if (0 <=? d) && (d <? len buckets) then
    match buckets !! Z.to_nat d with
    | Some bk => Some (<[Z.to_nat d := bk ++ [v]]> buckets)
    | None => None
    end
  else None.

(** [for (let i = 0; i < n; i++) { const d = ...; yield compare; push }] *)
Fixpoint radix_distribute (fuel : nat) (n : Z) (A : list Z) (exp : Z)
  (buckets : list (list Z)) (i : Z) : gen (list (list Z)) :=
  match fuel with
  | O => Halt OutOfFuel
  | S fuel' =>
      if i <? n then
        match (if i <? 0 then None else A !! Z.to_nat i) with
        | Some v =>
            let d := digit v exp in
            yield (compare i None) ;;
            match bucket_push buckets d v with
            | Some buckets' => radix_distribute fuel' n A exp buckets' (i + 1)
            | None => Halt TypeError
            end
        | None =>
            (* [A[i]] is [undefined], [d] is [NaN] *)
            yield (compare i None) ;;
            Halt TypeError
        end
      else Ret buckets
  end.

(** [A[idx] = val] on the local array.  Inside [A] this overwrites slot
    [idx].  Outside, JavaScript would grow [A] (and [arr], written at the
    same index on the next line); as for [put] the model gives no array
    then, and the run ends as [Escaped]. *)
Definition local_set (A : list Z) (idx val : Z) : option (list Z) :=
  if (0 <=? idx) && (idx <? len A) then Some (<[Z.to_nat idx := val]> A)
  else None.

(** [for (const val of bucket) { A[idx] = val; arr[idx] = val / scale;
    yield set; idx++; }]; returns [A] and [idx]. *)
Fixpoint radix_collect_bucket (bucket : list Z) (A : list Z) (idx : Z)
  : gen (list Z * Z) :=
  match bucket with
  | [] => Ret (A, idx)
  | val :: bucket' =>
      match local_set A idx val with
      | Some A' =>
          write_set idx (Some (inject_Z val / inject_Z scale)%Q) ;;
          radix_collect_bucket bucket' A' (idx + 1)
      | None => Halt Escaped
      end
  end.

(** [for (let b = 0; b < 10; b++) for (const val of buckets[b]) ...] *)
Fixpoint radix_collect (fuel : nat) (buckets : list (list Z)) (b : Z)
  (A : list Z) (idx : Z) : gen (list Z) :=
  match fuel with
  | O => Halt OutOfFuel
  | S fuel' =>
      if b <? 10 then
        match (if b <? 0 then None else buckets !! Z.to_nat b) with
        | Some bucket =>
            Aidx <- radix_collect_bucket bucket A idx ;;
            radix_collect fuel' buckets (b + 1) (fst Aidx) (snd Aidx)
        | None => Halt TypeError
        end
      else Ret A
  end.

(** [while (Math.floor(max / exp) > 0) { ...; exp *= 10; }] *)
Fixpoint radix_passes (budget fuel : nat) (n max : Z) (A : list Z) (exp : Z)
  : gen unit :=
  match fuel with
  | O => Halt OutOfFuel
  | S fuel' =>
      b <- Some (inject_Z (Qfloor (inject_Z max / inject_Z exp))) js> Some 0%Q ;;
      if b then
        buckets <- radix_distribute budget n A exp (replicate 10 []) 0 ;;
        A' <- radix_collect budget buckets 0 A 0 ;;
        radix_passes budget fuel' n max A' (exp * 10)
      else Ret tt
  end.

Definition radixGen (fuel : nat) : gen unit :=
  n <- arr.length ;;
  Copy (fun a0 =>
  let A := map (fun x => Qfloor (x * inject_Z scale)) a0 in
  max <- radix_max_loop A 0 ;;
  radix_passes fuel fuel n max A 1 ;;
  yield done ;;
  Ret tt).



(** ** Steps, traces and the judgement on loops *)

(** [inb n i]: [i] is an index of an array of length [n]. *)
Definition inb (n i : Z) : Prop := 0 <= i < n.

(** Every index a step carries is an index of an array of length [n]. *)
Definition step_ok (n : Z) (s : step) : Prop :=
  match s with
  | compare a b =>
      inb n a /\ match b with Some b' => inb n b' | None => True end
  | swap a b => inb n a /\ inb n b
  | set i _ => inb n i
  | done => True
  end.

(** The value at index [i] ([0] outside the array). *)
Definition val (a : list Q) (i : Z) : Q := default 0%Q (get a i).

Definition upd (a : list Q) (i : Z) (v : Q) : list Q :=
  <[Z.to_nat i := v]> a.

(** The array with slots [i] and [j] exchanged. *)
Definition exchange (a : list Q) (i j : Z) : list Q :=
  upd (upd a i (val a j)) j (val a i).

(** What a step reports, applied to a copy of the array: a [swap]
    exchanges two slots, a [set] overwrites one, [compare] and [done]
    change nothing. *)
Definition replay1 (s : step) (a : list Q) : list Q :=
  match s with
  | swap i j =>
      match get a i, get a j with
      | Some x, Some y => upd (upd a i y) j x
      | _, _ => a
      end
  | set i v => match put a i v with Some a' => a' | None => a end
  | compare _ _ => a
  | done => a
  end.

Definition replay (ss : list step) (a : list Q) : list Q :=
  fold_left (fun b s => replay1 s b) ss a.

(** A trace is faithful from [a] to [a']: every snapshot is the previous
    one with just that step applied, and the array at the end is the last
    snapshot. *)
Fixpoint faithful (a : list Q) (tr : list (step * list Q)) (a' : list Q)
  : Prop :=
  match tr with
  | [] => a' = a
  | (s, b) :: tr' => b = replay1 s a /\ faithful b tr' a'
  end.

(** [within lo hi i]: index [i] lies in [lo..hi]. *)
Definition within (lo hi i : Z) : Prop := lo <= i <= hi.

(** Every index the log reads or writes satisfies [J]. *)
Definition accesses (J : Z -> Prop) (evs : list event) : Prop :=
  Forall (fun e => match e with
                   | ELoad i => J i
                   | EStore i _ => J i
                   | _ => True
                   end) evs.

(** The judgement the loops are verified with: from [a] the body [g] runs
    to its end, its trace is faithful, every item of the trace satisfies
    [I], every index it reads or writes satisfies [J], and the final array
    and the returned value satisfy [P]. *)
Definition triple {R} (I : step * list Q -> Prop) (J : Z -> Prop)
  (g : gen R) (a : list Q) (P : list Q -> R -> Prop) : Prop :=
  exists tr a' r,
    run g a = (tr, a', Returned r) /\ faithful a tr a' /\
    Forall I tr /\ accesses J (events g a) /\ P a' r.

(** The item invariant shared by all five generators: indices inside an
    array of length [n], the array still of that length, no [done]. *)
Definition item_ok (n : Z) (it : step * list Q) : Prop :=
  step_ok n (fst it) /\ len (snd it) = n /\ is_done (fst it) = false.

(** Non-decreasing between indices [lo] and [hi] inclusive. *)
Definition sorted_on (a : list Q) (lo hi : Z) : Prop :=
  forall i j, lo <= i -> i <= j -> j <= hi -> (val a i <= val a j)%Q.

(** The two arrays agree outside [lo..hi]. *)
Definition same_outside (a b : list Q) (lo hi : Z) : Prop :=
  forall i, i < lo \/ hi < i -> get b i = get a i.

(** The registry [Algos.generators]. *)
Inductive algo : Type := bubble | quick | merge | heap | radix.

Definition generator (alg : algo) (fuel : nat) : gen unit :=
  match alg with
  | bubble => bubbleGen fuel
  | quick => quickGen fuel
  | merge => mergeGen fuel
  | heap => heapGen fuel
  | radix => radixGen fuel
  end.

(** ** Invariants of bubbleGen *)

(** Every slot [m] of the last [i] slots holds a value that is at least
    every value before it: the tail is sorted and in its final place. *)
Definition suffix_done (a : list Q) (n i : Z) : Prop :=
  forall k m, 0 <= k -> k <= m -> n - i <= m -> m < n ->
    (val a k <= val a m)%Q.

(** What bubbleGen's steps look like: adjacent indices, and a [swap]
    reports an exchange that has put the strictly smaller value first. *)
Definition bubble_item (n : Z) (it : step * list Q) : Prop :=
  item_ok n it /\
  match fst it with
  | compare x (Some y) => y = x + 1
  | swap x y => y = x + 1 /\ (val (snd it) x < val (snd it) y)%Q
  | _ => False
  end.

(** ** Invariants of quickGen *)

(** Every index a step carries lies in [lo..hi]. *)
Definition step_within (lo hi : Z) (s : step) : Prop :=
  match s with
  | compare a b =>
      lo <= a <= hi /\
      match b with Some b' => lo <= b' <= hi | None => True end
  | swap a b => lo <= a <= hi /\ lo <= b <= hi
  | set i _ => lo <= i <= hi
  | done => True
  end.

Definition range_item (n lo hi : Z) (it : step * list Q) : Prop :=
  item_ok n it /\ step_within lo hi (fst it).

(** Every value of [b] in [lo..hi] is a value [a] had in [lo..hi]. *)
Definition from_range (a b : list Q) (lo hi : Z) : Prop :=
  forall k, lo <= k -> k <= hi ->
    exists k', lo <= k' /\ k' <= hi /\ val b k = val a k'.

(** The state in which the partition loop of range [l..r] leaves the
    array [b] (it started from [a]): pointers [i] and [j] have crossed,
    values left of [i] are at most the pivot, values right of [j] at
    least the pivot, and both new ranges are strictly smaller. *)
Definition partitioned (a b : list Q) (l r : Z) (pv : Q) (i j : Z) : Prop :=
  len b = len a /\ Permutation a b /\
  same_outside a b l r /\ from_range a b l r /\
  j < i /\ l < i /\ i <= r + 1 /\ l - 1 <= j /\ j < r /\
  (forall k, l <= k -> k < i -> (val b k <= pv)%Q) /\
  (forall k, j < k -> k <= r -> (pv <= val b k)%Q).

(** The pending ranges are pairwise disjoint. *)
Fixpoint disjoint_ranges (st : list (Z * Z)) : Prop :=
  match st with
  | [] => True
  | lr :: st' =>
      Forall (fun lr' => snd lr < fst lr' \/ snd lr' < fst lr) st' /\
      disjoint_ranges st'
  end.

(** Two slots are in order unless one pending range holds them both. *)
Definition pending (st : list (Z * Z)) (a : list Q) (n : Z) : Prop :=
  forall p q, 0 <= p -> p < q -> q < n ->
    (val a p <= val a q)%Q \/
    exists lr, In lr st /\ fst lr <= p /\ q <= snd lr.

(** The number of iterations the pending ranges can still cost. *)
Fixpoint stack_weight (st : list (Z * Z)) : Z :=
  match st with
  | [] => 0
  | lr :: st' => 2 * Z.max 0 (snd lr - fst lr) + 1 + stack_weight st'
  end.

(** The pending ranges after the popped range [l..r] was partitioned
    with final pointers [i] and [j]: what the two [stack.push] leave. *)
Definition push_ranges (st : list (Z * Z)) (l r i j : Z) : list (Z * Z) :=
  let stack1 := if l <? j then (l, j) :: st else st in
  if i <? r then (i, r) :: stack1 else stack1.

(** ** Invariants of heapGen *)

(** [c] is a child of node [p] in the implicit binary tree. *)
Definition child_of (p c : Z) : Prop := c = 2 * p + 1 \/ c = 2 * p + 2.

(** Max-heap order on the nodes [lo..hi], except at node [root]. *)
Definition heap_except (a : list Q) (lo hi root : Z) : Prop :=
  forall p c, lo <= p -> child_of p c -> c <= hi -> p <> root ->
    (val a c <= val a p)%Q.

(** The parent of [root] is at least the children of [root]. *)
Definition grand_ok (a : list Q) (lo hi root : Z) : Prop :=
  forall p c, lo <= p -> child_of p root -> child_of root c -> c <= hi ->
    (val a c <= val a p)%Q.

(** Max-heap order on the nodes [lo..hi]. *)
Definition heap_on (a : list Q) (lo hi : Z) : Prop :=
  forall p c, lo <= p -> child_of p c -> c <= hi -> (val a c <= val a p)%Q.

(** ** Invariants of mergeGen *)

(** The slots [lo .. hi - 1] of the array, as a list. *)
Definition seg (a : list Q) (lo hi : Z) : list Q :=
  take (Z.to_nat (hi - lo)) (drop (Z.to_nat lo) a).

(** [<=] on values is decidable and total: the functional merge of two
    lists ([list_merge Qle]) takes from the left list on ties, as the
    [left[i] <= right[j]] test of [mergeRange] does. *)
#[export] Instance Qle_dec : RelDecision Qle :=
  fun x y => match Qlt_le_dec y x with
             | left H => right (Qlt_not_le _ _ H)
             | right H => left H
             end.

#[export] Instance Qle_total : Total Qle.
Proof.
  intros x y. destruct (Qlt_le_dec y x) as [H|H]; [right|left]; auto.
  now apply Qlt_le_weak.
Qed.

#[export] Instance Qle_trans_inst : Transitive Qle := Qle_trans.

(** ** The functional reading of radixGen *)

(** [Math.floor(x * scale)] and [v / scale]. *)
Definition scale_floor (x : Q) : Z := Qfloor (x * inject_Z scale).
Definition unscale (v : Z) : Q := (inject_Z v / inject_Z scale)%Q.

(** The largest scaled value, [0] for the empty array: what the search
    [radix_max_loop] returns. *)
Definition radix_max (A : list Z) : Z :=
  fold_left (fun max v => if v >? max then v else max) A 0.

(** The log of that search: one comparison per element and no step. *)
Fixpoint max_log (A : list Z) (max : Z) : list event :=
  match A with
  | [] => []
  | v :: A' =>
      ECmp Gt (Some (inject_Z v)) (Some (inject_Z max)) ::
      max_log A' (if v >? max then v else max)
  end.

Definition digits10 : list Z := [0; 1; 2; 3; 4; 5; 6; 7; 8; 9].

(** The values of [l] whose digit at [exp] is [d], in their order. *)
Definition bucket_of (exp : Z) (l : list Z) (d : Z) : list Z :=
  filter (fun v => digit v exp = d) l.

(** One pass: the ten buckets, concatenated. *)
Definition radix_pass (exp : Z) (l : list Z) : list Z :=
  concat (map (bucket_of exp l) digits10).

(** Ordered by the digits below [exp]. *)
Definition le_mod (exp : Z) (x y : Z) : Prop := x mod exp <= y mod exp.

(** [y] is [x] moved by less than 0.002.  This is how far radixGen moves
    a value when it scales it by 1000, rounds it down and scales it
    back: in exact arithmetic the value goes down by less than 0.001,
    and the margin leaves room for the rounding of the product and of
    the quotient in floating point, which can also take the value up. *)
Definition near (x y : Q) : Prop :=
  (x - (2 # 1000) < y)%Q /\ (y < x + (2 # 1000))%Q.

(** ** Compare steps and comparisons *)

(** In a log: every value comparison comes right after a [compare] step,
    with nothing but reads of the array in between. [armed] tells whether
    such a step is pending. *)
Fixpoint announced (armed : bool) (evs : list event) : Prop :=
  match evs with
  | [] => True
  | EYield s :: evs' => announced (is_compare s) evs'
  | ELoad _ :: evs' => announced armed evs'
  | EStore _ _ :: evs' => announced false evs'
  | ECmp _ _ _ :: evs' => armed = true /\ announced false evs'
  end.

(** The same on the resumption tree, whatever the array holds; [K] is
    what is required where the body returns. *)
Fixpoint ann {R} (armed : bool) (g : gen R) (K : bool -> R -> Prop) : Prop :=
  match g with
  | Ret r => K armed r
  | Yield s k => ann (is_compare s) k K
  | Len k => forall n, ann armed (k n) K
  | Load _ k => forall v, ann armed (k v) K
  | Store _ _ k => ann false k K
  | Cmp _ _ _ k => armed = true /\ forall b, ann false (k b) K
  | Copy k => forall a, ann armed (k a) K
  | Halt _ => True
  end.

(** The opposite, in a log: no value comparison comes after a [compare]
    step with nothing but reads of the array in between. *)
Fixpoint unannounced (armed : bool) (evs : list event) : Prop :=
  match evs with
  | [] => True
  | EYield s :: evs' => unannounced (is_compare s) evs'
  | ELoad _ :: evs' => unannounced armed evs'
  | EStore _ _ :: evs' => unannounced false evs'
  | ECmp _ _ _ :: evs' => armed = false /\ unannounced false evs'
  end.

Fixpoint unann {R} (armed : bool) (g : gen R) (K : bool -> R -> Prop) : Prop :=
  match g with
  | Ret r => K armed r
  | Yield s k => unann (is_compare s) k K
  | Len k => forall n, unann armed (k n) K
  | Load _ k => forall v, unann armed (k v) K
  | Store _ _ k => unann false k K
  | Cmp _ _ _ k => armed = false /\ forall b, unann false (k b) K
  | Copy k => forall a, unann armed (k a) K
  | Halt _ => True
  end.

(** The log of a scan of quickGen's partition that inspects the slots
    [i], [i + step], ... and stops at [stop]: each slot it passes is
    read, compared, and only then reported; the slot it stops at is read
    and compared, and not reported. *)
Fixpoint scan_log (op : cmpop) (a : list Q) (pivot : option Q)
  (passed : nat) (i step : Z) : list event :=
  match passed with
  | O => [ELoad i; ECmp op (get a i) pivot]
  | S passed' =>
      ELoad i :: ECmp op (get a i) pivot :: EYield (compare i None) ::
      scan_log op a pivot passed' (i + step) step
  end.

(** ** Fuel and domain of the five generators *)

(** Fuel that lets every loop of every generator run to its end on [A]. *)
Definition enough (A : list Q) (fuel : nat) : Prop :=
  (2 * length A + 12 <= fuel)%nat.

(** radixGen assumes its input in [0,1) (comment in the source); the
    other generators take any numbers. *)
Definition in_domain (alg : algo) (A : list Q) : Prop :=
  match alg with
  | radix => Forall (fun x => (0 <= x)%Q /\ (x < 1)%Q) A
  | _ => True
  end.

(** ** Fuel is not observable *)

(** [approx g g']: the body [g'] is [g] with more fuel; the two agree
    except where [g] has run out of fuel. *)
Inductive approx {R : Type} : gen R -> gen R -> Prop :=
| approx_fuel g' : approx (Halt OutOfFuel) g'
| approx_Ret r : approx (Ret r) (Ret r)
| approx_Yield s k k' : approx k k' -> approx (Yield s k) (Yield s k')
| approx_Len k k' :
    (forall n, approx (k n) (k' n)) -> approx (Len k) (Len k')
| approx_Load i k k' :
    (forall v, approx (k v) (k' v)) -> approx (Load i k) (Load i k')
| approx_Store i v k k' : approx k k' -> approx (Store i v k) (Store i v k')
| approx_Cmp op x y k k' :
    (forall b, approx (k b) (k' b)) -> approx (Cmp op x y k) (Cmp op x y k')
| approx_Copy k k' :
    (forall a, approx (k a) (k' a)) -> approx (Copy k) (Copy k')
| approx_Halt o : approx (Halt o) (Halt o).

From Stdlib Require String.
Import String.StringSyntax.
Delimit Scope string_scope with string.

(** ** The steps each generator can yield *)

(** Every [yield] of a body satisfies [P], whatever the array holds and
    whichever way its tests go. *)
Fixpoint yields {R} (P : step -> Prop) (g : gen R) : Prop :=
  match g with
  | Ret _ => True
  | Yield s k => P s /\ yields P k
  | Len k => forall n, yields P (k n)
  | Load _ k => forall v, yields P (k v)
  | Store _ _ k => yields P k
  | Cmp _ _ _ k => forall b, yields P (k b)
  | Copy k => forall a, yields P (k a)
  | Halt _ => True
  end.

(** The step descriptors of each generator, as its [yield] statements
    write them: bubbleGen compares and swaps neighbours; quickGen and
    radixGen compare with one index; mergeGen and radixGen report writes
    with [set] and never [swap]; the others never [set]. *)
Definition vocabulary (alg : algo) (s : step) : bool :=
  match s with
  | done => true
  | compare a (Some b) =>
      match alg with
      | bubble => b =? a + 1
      | merge | heap => true
      | quick | radix => false
      end
  | compare a None =>
      match alg with quick | radix => true | _ => false end
  | swap a b =>
      match alg with
      | bubble => b =? a + 1
      | quick | heap => true
      | merge | radix => false
      end
  | set _ _ =>
      match alg with merge | radix => true | _ => false end
  end.

(** ** Counting steps *)

Definition is_swap (s : step) : bool :=
  match s with swap _ _ => true | _ => false end.

Definition count_steps (p : step -> bool) (ss : list step) : nat :=
  length (List.filter p ss).

(** The number of values of [l] strictly below [x]. *)
Definition below (x : Q) (l : list Q) : nat :=
  length (List.filter (fun y => Qltb y x) l).

(** The number of inversions of an array: the pairs of slots [i < j]
    whose values are strictly out of order, [l[j] < l[i]]. *)
Fixpoint inversions (l : list Q) : nat :=
  match l with
  | [] => 0
  | x :: l' => below x l' + inversions l'
  end.

(** [compare(j, j+1)] for [m] neighbouring pairs from slot [j] on. *)
Fixpoint compares_from (j : Z) (m : nat) : list step :=
  match m with
  | O => []
  | S m' => compare j (Some (j + 1)) :: compares_from (j + 1) m'
  end.

(** ** The synchronous variant bubbleSync *)

(** [bubbleSync] works on [a = arr.slice()]: in the three definitions
    below the array of the tree is that copy, and [arr[i]] reads [a[i]].
    The inner [for (let j = 0; j < a.length - 1 - i; j++)]. *)
Fixpoint bubbleSync_inner (fuel : nat) (i j : Z) : gen unit :=
  match fuel with
  | O => Halt OutOfFuel
  | S fuel' =>
      n <- arr.length ;;
      if j <? n - 1 - i then
        x <- arr[ j ] ;;
        y <- arr[ j + 1 ] ;;
        b <- x js> y ;;
        if b then
          t <- arr[ j ] ;;
          v <- arr[ j + 1 ] ;;
          arr[ j ] := v ;;
          arr[ j + 1 ] := t ;;
          bubbleSync_inner fuel' i (j + 1)
        else bubbleSync_inner fuel' i (j + 1)
      else Ret tt
  end.

(** The outer [for (let i = 0; i < a.length; i++)]: no early exit. *)
Fixpoint bubbleSync_outer (budget fuel : nat) (i : Z) : gen unit :=
  match fuel with
  | O => Halt OutOfFuel
  | S fuel' =>
      n <- arr.length ;;
      if i <? n then
        bubbleSync_inner budget i 0 ;;
        bubbleSync_outer budget fuel' (i + 1)
      else Ret tt
  end.

(** [bubbleSync(arr)]: the loops run on a copy, which is returned; the
    argument is left as it was. *)
Definition bubbleSync (fuel : nat) (arr : list Q) : outcome (list Q) :=
  match run (bubbleSync_outer fuel fuel 0) arr with
  | (_, a, Returned _) => Returned a
  | (_, _, OutOfFuel) => OutOfFuel
  | (_, _, Escaped) => Escaped
  | (_, _, TypeError) => TypeError
  end.

(** ** The steps of radixGen *)

(** [compare(i)] for [m] slots from slot [i] on. *)
Fixpoint compares1_from (i : Z) (m : nat) : list step :=
  match m with
  | O => []
  | S m' => compare i None :: compares1_from (i + 1) m'
  end.

(** [set(idx, v / scale)] for the values [vs], from slot [idx] on. *)
Fixpoint sets_from (idx : Z) (vs : list Z) : list step :=
  match vs with
  | [] => []
  | v :: vs' => set idx (Some (unscale v)) :: sets_from (idx + 1) vs'
  end.

(** The steps of [p] passes from the digit at [exp] on, over the scaled
    values [S]: each pass yields a compare step per slot, then a set
    step per slot with the values in their new order. *)
Fixpoint radix_steps (p : nat) (exp : Z) (S : list Z) : list step :=
  match p with
  | O => []
  | Datatypes.S p' =>
      compares1_from 0 (length S) ++ sets_from 0 (radix_pass exp S) ++
      radix_steps p' (exp * 10) (radix_pass exp S)
  end.

(** ** The steps of mergeGen *)

(** The slots the [set] steps of a list of steps write, in order. *)
Definition set_indices (ss : list step) : list Z :=
  omap (fun s => match s with set i _ => Some i | _ => None end) ss.

(** The values the [set] steps of a list of steps report, in order. *)
Definition set_values (ss : list step) : list Q :=
  omap (fun s => match s with set _ (Some v) => Some v | _ => None end) ss.

(** A compare step, or a [set] step that carries a value. *)
Definition valued (s : step) : bool :=
  match s with
  | compare _ _ => true
  | set _ (Some _) => true
  | _ => false
  end.

(** * The driver of [app.js]

    The page state the driver works on is a record: the bars of the
    board with their pixel heights and class lists, the counters and
    what the two statistics elements show, the flags, the spinner and
    the Start/Stop button.  Time is not modelled: [sleep] changes no
    state, and what the user clicks during the sleeps of a step and
    during the wait of a paused loop is given by a schedule.
    [Math.random] is a parameter: the sequence of values it returns
    during a call. *)

(** ** Arrays for the board *)

(** [randomArray(n)]: [for (let i = 0; i < n; i++) arr.push(Math.random())];
    [rnd k] is the value of the call number [k] of [Math.random]. *)
Definition randomArray (rnd : nat -> Q) (n : Z) : list Q :=
  map rnd (seq 0 (Z.to_nat n)).

(** [arr[i] = i / (n - 1)] for [i] from [0] to [n - 1]. *)
Definition staircase (n : Z) : list Q :=
  map (fun i => (inject_Z i / inject_Z (n - 1))%Q) (seqZ 0 n).

(** The Fisher-Yates loop [for (let i = n - 1; i > 0; i--)], at index
    [i], the call number [t] of [Math.random] being the next:
    [j = Math.floor(Math.random() * (i + 1))], then the two slots are
    exchanged. *)
Fixpoint shuffle (rnd : nat -> Q) (t : nat) (i : nat) : gen unit :=
  match i with
  | O => Ret tt
  | S i' =>
      let j := Qfloor (rnd t * inject_Z (Z.of_nat i + 1)) in
      swap_ (Z.of_nat i) j ;;
      shuffle rnd (S t) i'
  end.

(** [staircaseArray(n)] *)
Definition staircaseArray (rnd : nat -> Q) (n : Z) : outcome (list Q) :=
  if n <=? 1 then Returned [0%Q]
  else
    match run (shuffle rnd 0 (Z.to_nat (n - 1))) (staircase n) with
    | (_, arr, Returned _) => Returned arr
    | (_, _, OutOfFuel) => OutOfFuel
    | (_, _, Escaped) => Escaped
    | (_, _, TypeError) => TypeError
    end.

(** ** The board *)

(** A bar: its [style.height], in pixels, and its [classList]. *)
Record bar : Type := Bar { height : Z; classList : list String.string }.

Definition class_contains (c : String.string) (l : list String.string) : bool :=
  existsb (String.eqb c) l.

Definition class_add (c : String.string) (l : list String.string) : list String.string :=
  if class_contains c l then l else l ++ [c].

Definition class_remove (c : String.string) (l : list String.string) : list String.string :=
  List.filter (fun d => negb (String.eqb c d)) l.

(** [bars[i]]: a bar, or [undefined]. *)
Definition bar_at (bars : list bar) (i : Z) : option bar :=
  if i <? 0 then None else bars !! Z.to_nat i.

(** [board.clientHeight || 400] *)
Definition board_height (clientHeight : Z) : Z :=
  if clientHeight =? 0 then 400 else clientHeight.

(** [Math.round]: the nearest integer, a tie going up. *)
Definition js_round (x : Q) : Z := Qfloor (x + (1 # 2)).

(** [Math.max(8, Math.round(value * bh))] *)
Definition hpx (bh : Z) (value : Q) : Z :=
  Z.max 8 (js_round (value * inject_Z bh)).

(** [renderArray(arr)]: one bar of class ["bar"] per value. *)
Definition renderArray (clientHeight : Z) (arr : list Q) : list bar :=
  let bh := board_height clientHeight in
  map (fun v => Bar (hpx bh v) ["bar"%string]) arr.

(** [if (bars[i]) ...]: the bar [i] changed by [f], nothing when
    [bars[i]] is [undefined]. *)
Definition with_bar (i : Z) (f : bar -> bar) (bars : list bar) : list bar :=
  match bar_at bars i with
  | Some b => <[Z.to_nat i := f b]> bars
  | None => bars
  end.

Definition mark (i : Z) (cls : String.string) (bars : list bar) : list bar :=
  with_bar i (fun b => Bar (height b) (class_add cls (classList b))) bars.

Definition unmark (i : Z) (cls : String.string) (bars : list bar) : list bar :=
  with_bar i (fun b => Bar (height b) (class_remove cls (classList b))) bars.

(** [setHeight(i, value)].  For an [undefined] value the height string
    would be ["NaNpx"], which is no height: the style is left as it
    was. *)
Definition setHeight (clientHeight : Z) (i : Z) (value : option Q)
  (bars : list bar) : list bar :=
  match value with
  | Some v =>
      with_bar i
        (fun b => Bar (hpx (board_height clientHeight) v) (classList b)) bars
  | None => bars
  end.

(** [swapVisual(i, j)]: the two height strings change places; [None] is
    the [TypeError] of [bars[i].style] on an [undefined] bar, thrown
    before anything is written. *)
Definition swapVisual (i j : Z) (bars : list bar) : option (list bar) :=
  match bar_at bars i, bar_at bars j with
  | Some bi, Some bj =>
      let bars1 := <[Z.to_nat i := Bar (height bj) (classList bi)]> bars in
      Some (with_bar j (fun b => Bar (height bi) (classList b)) bars1)
  | _, _ => None
  end.

(** [for (let k = 0; k < bars.length; k++) mark(k, cls)] *)
Definition mark_all (cls : String.string) (bars : list bar) : list bar :=
  fold_left (fun bs k => mark k cls bs) (seqZ 0 (len bars)) bars.

(** ** The page state *)

Record ui : Type := Ui {
  bars : list bar;
  comparisons : Z;
  swaps : Z;
  comparisons_text : Z;      (* comparisonsEl.textContent *)
  swaps_text : Z;            (* swapsEl.textContent *)
  running : bool;
  paused : bool;
  stoppedByUser : bool;
  staircaseOn : bool;
  staircaseReverted : bool;
  staircasePrepared : bool;
  spinner : bool;            (* the element "__spinner" is in the button *)
  startStop_text : String.string;
  startStop_classes : list String.string;
  pause_text : String.string
}.

Definition set_bars (f : list bar -> list bar) (u : ui) : ui :=
  Ui (f (bars u)) (comparisons u) (swaps u) (comparisons_text u) (swaps_text u)
     (running u) (paused u) (stoppedByUser u) (staircaseOn u)
     (staircaseReverted u) (staircasePrepared u) (spinner u)
     (startStop_text u) (startStop_classes u) (pause_text u).

Definition set_counters (c s : Z) (u : ui) : ui :=
  Ui (bars u) c s (comparisons_text u) (swaps_text u)
     (running u) (paused u) (stoppedByUser u) (staircaseOn u)
     (staircaseReverted u) (staircasePrepared u) (spinner u)
     (startStop_text u) (startStop_classes u) (pause_text u).

(** [setStats()] *)
Definition setStats (u : ui) : ui :=
  Ui (bars u) (comparisons u) (swaps u) (comparisons u) (swaps u)
     (running u) (paused u) (stoppedByUser u) (staircaseOn u)
     (staircaseReverted u) (staircasePrepared u) (spinner u)
     (startStop_text u) (startStop_classes u) (pause_text u).

Definition set_flags (r p s : bool) (u : ui) : ui :=
  Ui (bars u) (comparisons u) (swaps u) (comparisons_text u) (swaps_text u)
     r p s (staircaseOn u) (staircaseReverted u) (staircasePrepared u)
     (spinner u) (startStop_text u) (startStop_classes u) (pause_text u).

Definition set_prepared (b : bool) (u : ui) : ui :=
  Ui (bars u) (comparisons u) (swaps u) (comparisons_text u) (swaps_text u)
     (running u) (paused u) (stoppedByUser u) (staircaseOn u)
     (staircaseReverted u) b (spinner u)
     (startStop_text u) (startStop_classes u) (pause_text u).

Definition set_spinner (b : bool) (u : ui) : ui :=
  Ui (bars u) (comparisons u) (swaps u) (comparisons_text u) (swaps_text u)
     (running u) (paused u) (stoppedByUser u) (staircaseOn u)
     (staircaseReverted u) (staircasePrepared u) b
     (startStop_text u) (startStop_classes u) (pause_text u).

(** [startStopBtn.textContent = "Start"; classList.remove("danger");
    classList.add("primary")] *)
Definition button_start (u : ui) : ui :=
  Ui (bars u) (comparisons u) (swaps u) (comparisons_text u) (swaps_text u)
     (running u) (paused u) (stoppedByUser u) (staircaseOn u)
     (staircaseReverted u) (staircasePrepared u) (spinner u)
     "Start"%string
     (class_add "primary"%string (class_remove "danger"%string (startStop_classes u)))
     (pause_text u).

Definition set_pause_text (t : String.string) (u : ui) : ui :=
  Ui (bars u) (comparisons u) (swaps u) (comparisons_text u) (swaps_text u)
     (running u) (paused u) (stoppedByUser u) (staircaseOn u)
     (staircaseReverted u) (staircasePrepared u) (spinner u)
     (startStop_text u) (startStop_classes u) t.

(** [addSpinner()] appends the spinner unless it is there already;
    [removeSpinner()] removes it if it is there. *)
Definition addSpinner (u : ui) : ui := set_spinner true u.
Definition removeSpinner (u : ui) : ui := set_spinner false u.

(** The click handler of the Start/Stop button while a run is on: it
    acts as Stop. *)
Definition stop_click (u : ui) : ui :=
  button_start (set_pause_text "Pause"%string (set_flags false false true u)).

(** The click handler of the Pause button (the space key does the same
    while a run is on):
    [if (!running) return; paused = !paused;
     pauseBtn.textContent = paused ? "Resume" : "Pause"]. *)
Definition pause_click (u : ui) : ui :=
  if running u then
    set_pause_text (if paused u then "Pause"%string else "Resume"%string)
      (set_flags (running u) (negb (paused u)) (stoppedByUser u) u)
  else u.

(** ** The user *)

(** When the user clicks Stop, if ever: while step number [t] is on show
    (the loop is suspended in a [sleep] of that step), or while the
    loop, paused, waits in [waitWhilePaused] before it pulls step
    number [t].  The model follows one click on Stop: a second click
    on the button would act as Start and begin another run on the page
    of the first. *)
Inductive stop_time : Type :=
| NoStop
| DuringStep (t : nat)
| WhilePaused (t : nat).

(** What the user does while a run is on: [toggles t] is how many times
    Pause is clicked while step number [t] is on show; [stop] is when
    Stop is clicked; [resumes t] says whether, when the loop waits
    paused before it pulls step number [t], the user ever resumes. *)
Record user : Type := User {
  toggles : nat -> nat;
  stop : stop_time;
  resumes : nat -> bool
}.

(** Nobody touches the page. *)
Definition nobody : user := User (fun _ => 0%nat) NoStop (fun _ => true).

(** The clicks made while step number [t] is on show.  A click on Stop
    sets [paused] to [false] and the clicks on Pause after it do
    nothing, so the order of the clicks of one step does not matter. *)
Definition during (usr : user) (t : nat) (u : ui) : ui :=
  let u1 := Nat.iter (toggles usr t) pause_click u in
  match stop usr with
  | DuringStep t' => if Nat.eqb t' t then stop_click u1 else u1
  | _ => u1
  end.

(** [await waitWhilePaused()] before step number [t] is pulled: the
    promise resolves at the first poll that finds [paused] false,
    which a click on Stop or on Resume brings about; [None] when
    neither comes. *)
Definition waitWhilePaused (usr : user) (t : nat) (u : ui) : option ui :=
  let resumed := if resumes usr t then Some (pause_click u) else None in
  match stop usr with
  | WhilePaused t' => if Nat.eqb t' t then Some (stop_click u) else resumed
  | _ => resumed
  end.

(** ** playGenerator *)

(** What one turn of the loop does with the step it has pulled: the
    state it leaves, and whether it left by the [TypeError] of
    [swapVisual]. *)
Definition handle (clientHeight : Z) (action : step) (u : ui) : ui * bool :=
  match action with
  | compare a b =>
      let u1 := setStats (set_counters (comparisons u + 1) (swaps u) u) in
      let both (f : Z -> String.string -> list bar -> list bar) (bs : list bar) :=
        let bs1 := f a "compared"%string bs in
        match b with Some b' => f b' "compared"%string bs1 | None => bs1 end in
      (set_bars (fun bs => both unmark (both mark bs)) u1, false)
  | swap a b =>
      let u1 := setStats (set_counters (comparisons u) (swaps u + 1) u) in
      let marked := mark b "active"%string (mark a "active"%string (bars u1)) in
      match swapVisual a b marked with
      | Some swapped =>
          (set_bars
             (fun _ => unmark b "active"%string (unmark a "active"%string swapped))
             u1, false)
      | None => (set_bars (fun _ => marked) u1, true)
      end
  | set i value => (set_bars (setHeight clientHeight i value) u, false)
  | done => (set_bars (mark_all "sorted"%string) u, false)
  end.

(** How the loop of [playGenerator] was left. *)
Inductive loop_end : Type :=
| Stopped              (* [if (!running) break] *)
| Exhausted            (* [if (res.done) break] *)
| Finished             (* the [break] after a ["done"] step *)
| Threw                (* the generator or [swapVisual] threw *)
| Waiting              (* paused for good: [waitWhilePaused] never resolves *)
| NoFuel.              (* the model's loop ran out of fuel *)

(** The [while (true)] loop; [t] counts the steps pulled so far.
    [running] is tested at the top of the loop only: after the wait of
    a paused loop the next step is pulled whatever ended the wait. *)
Fixpoint play_loop (fuel : nat) (clientHeight : Z) (usr : user)
  (t : nat) (genIter : gen unit) (array : list Q) (u : ui)
  : ui * list Q * loop_end :=
  match fuel with
  | O => (u, array, NoFuel)
  | S fuel' =>
      if negb (running u) then (u, array, Stopped)
      else
        match (if paused u then waitWhilePaused usr t u else Some u) with
        | None => (u, array, Waiting)
        | Some uw =>
            match next genIter array with
            | End (Returned _) array' => (uw, array', Exhausted)
            | End _ array' => (uw, array', Threw)
            | Item action rest array' =>
                let '(u1, threw) := handle clientHeight action uw in
                if threw then (u1, array', Threw)
                else if is_done action then (u1, array', Finished)
                else
                  play_loop fuel' clientHeight usr (S t) rest array'
                    (during usr t u1)
            end
        end
  end.

(** [animateStaircase()] *)
Definition animateStaircase (clientHeight : Z) (bars : list bar) : list bar :=
  let n := len bars in
  if n <=? 1 then bars
  else
    let shown :=
      fold_left
        (fun bs i =>
           let v := (inject_Z i / inject_Z (n - 1))%Q in
           unmark i "active"%string (mark i "active"%string (setHeight clientHeight i (Some v) bs)))
        (seqZ 0 n) bars in
    mark_all "sorted"%string shown.

(** [playGenerator(generator)] on the live [array]: the state of the
    page and the array when its promise settles, and how the loop was
    left.  When something threw, the promise is rejected where it
    threw, and a loop that waits paused for good never gets there: the
    code after the loop is not run. *)
Definition playGenerator (fuel : nat) (clientHeight : Z)
  (usr : user) (generator : gen unit) (array : list Q) (u : ui)
  : ui * list Q * loop_end :=
  let u0 :=
    addSpinner
      (setStats (set_counters 0 0 (set_flags true false false u))) in
  match play_loop fuel clientHeight usr 0 generator array u0 with
  | (u1, array', Threw) => (u1, array', Threw)
  | (u1, array', Waiting) => (u1, array', Waiting)
  | (u1, array', NoFuel) => (u1, array', NoFuel)
  | (u1, array', e) =>
      let u2 := set_flags false false (stoppedByUser u1) u1 in
      let u3 :=
        if negb (stoppedByUser u2) && staircaseOn u2 &&
           negb (staircaseReverted u2) && negb (staircasePrepared u2)
        then set_bars (animateStaircase clientHeight) u2 else u2 in
      (button_start (removeSpinner (set_prepared false u3)), array', e)
  end.

(** ** isSortedVisible *)

(** [for (let i = 1; i < heights.length; i++)
      if (heights[i - 1] > heights[i]) return false;] *)
Fixpoint heights_in_order (heights : list Z) : bool :=
  match heights with
  | x :: ((y :: _) as rest) => if x >? y then false else heights_in_order rest
  | _ => true
  end.

Definition isSortedVisible (bars : list bar) : bool :=
  if forallb (fun b => class_contains "sorted"%string (classList b)) bars then true
  else heights_in_order (map height bars).

(** ** Reading the driver on a trace *)

(** The board shows the array: every bar has the pixel height of its
    value. *)
Definition shows (bh : Z) (bars : list bar) (array : list Q) : Prop :=
  map height bars = map (hpx bh) array.

(** No bar carries the class [cls]; every bar carries it. *)
Definition unmarked (cls : String.string) (bars : list bar) : Prop :=
  Forall (fun b => class_contains cls (classList b) = false) bars.

Definition all_marked (cls : String.string) (bars : list bar) : Prop :=
  Forall (fun b => class_contains cls (classList b) = true) bars.

(** The loop of [playGenerator] on the trace of the run it drives; [o]
    is how the generator body ends and [a_end] the array then; [a] is
    the array as it is at the top of the loop. *)
Fixpoint play_trace (clientHeight : Z) (usr : user) (t : nat)
  (tr : list (step * list Q)) (o : outcome unit) (a_end : list Q)
  (a : list Q) (u : ui) : ui * list Q * loop_end :=
  if negb (running u) then (u, a, Stopped)
  else
    match (if paused u then waitWhilePaused usr t u else Some u) with
    | None => (u, a, Waiting)
    | Some uw =>
        match tr with
        | [] => (uw, a_end, match o with Returned _ => Exhausted | _ => Threw end)
        | (action, array') :: tr' =>
            let '(u1, threw) := handle clientHeight action uw in
            if threw then (u1, array', Threw)
            else if is_done action then (u1, array', Finished)
            else
              play_trace clientHeight usr (S t) tr' o a_end array'
                (during usr t u1)
        end
    end.

(** The same bars, counters and statistics. *)
Definition same_board (u v : ui) : Prop :=
  bars v = bars u /\ comparisons v = comparisons u /\ swaps v = swaps u /\
  comparisons_text v = comparisons_text u /\ swaps_text v = swaps_text u.

(** What a run that is still on keeps of the flags and of the button:
    everything but [paused] and the text of the Pause button. *)
Definition keeps_run (u v : ui) : Prop :=
  running v = running u /\ stoppedByUser v = stoppedByUser u /\
  staircaseOn v = staircaseOn u /\ staircaseReverted v = staircaseReverted u /\
  staircasePrepared v = staircasePrepared u /\ spinner v = spinner u /\
  startStop_text v = startStop_text u /\
  startStop_classes v = startStop_classes u.

(** The flags and the buttons after a click on Stop in a run that began
    in [u]. *)
Definition stopped_from (u v : ui) : Prop :=
  running v = false /\ paused v = false /\ stoppedByUser v = true /\
  pause_text v = "Pause"%string /\ startStop_text v = "Start"%string /\
  staircaseOn v = staircaseOn u /\ staircaseReverted v = staircaseReverted u /\
  staircasePrepared v = staircasePrepared u /\ spinner v = spinner u.

(** Everything of the page state but the bars and the counters. *)
Definition same_controls (u u' : ui) : Prop :=
  running u' = running u /\ paused u' = paused u /\
  stoppedByUser u' = stoppedByUser u /\ staircaseOn u' = staircaseOn u /\
  staircaseReverted u' = staircaseReverted u /\
  staircasePrepared u' = staircasePrepared u /\ spinner u' = spinner u /\
  startStop_text u' = startStop_text u /\
  startStop_classes u' = startStop_classes u /\ pause_text u' = pause_text u.

(** The page after the loop has handled the steps [ss] in turn. *)
Definition handle_all (clientHeight : Z) (ss : list step) (u : ui) : ui :=
  fold_left (fun v s => fst (handle clientHeight s v)) ss u.

(** ** The swaps of quickGen *)

(** A swap step that exchanges a slot with a slot not left of it, and
    leaves in the left slot a value that is at most the value in the
    right slot. *)
Definition swap_ordered (it : step * list Q) : Prop :=
  match fst it with
  | swap x y => x <= y /\ (val (snd it) x <= val (snd it) y)%Q
  | _ => True
  end.

(** ** run *)

(** How a call of [run()] of [app.js] ends: with the alert that the
    array is sorted already, with the alert that the algorithm was not
    found, or with [playGenerator] played to the given end.  [NoArray]
    is the model's answer when the shuffle of [staircaseArray] leaves
    the dense arrays. *)
Inductive run_end : Type :=
| AlreadySorted
| NotFound
| Played (e : loop_end)
| NoArray.

(** [run()], once [window.Algos] is loaded.  [genCtor] is what the
    lookup [window.Algos.generators[name]] gave: a generator of the
    registry, or [None] for [undefined]; [size] is
    [Number(sizeInput.value)].  [updateSpeed()] changes no state of the
    model. *)
Definition run_page (fuel : nat) (clientHeight : Z) (usr : user)
  (rnd : nat -> Q) (size : Z) (genCtor : option (gen unit))
  (array : list Q) (u : ui) : ui * list Q * run_end :=
  if isSortedVisible (bars u) then (u, array, AlreadySorted)
  else
    match genCtor with
    | None => (u, array, NotFound)
    | Some g =>
        if staircaseOn u then
          match
            staircaseArray rnd (if len (bars u) =? 0 then size else len (bars u))
          with
          | Returned arr =>
              let u1 :=
                set_prepared true
                  (set_bars (fun _ => renderArray clientHeight arr) u) in
              let '(u2, array2, e) :=
                playGenerator fuel clientHeight usr g arr u1 in
              (u2, array2, Played e)
          | _ => (u, array, NoArray)
          end
        else
          let '(u2, array2, e) :=
            playGenerator fuel clientHeight usr g array u in
          (u2, array2, Played e)
    end.

(** ** radixGen: what does not depend on rounding *)

(** The scaled value of [x] is [v], with room for the rounding of the
    product: [x * 1000] lies between [v + 1/4] and [v + 3/4], so that
    [Math.floor(x * 1000)] is [v] in exact arithmetic and in floating
    point alike. *)
Definition scales_to (x : Q) (v : Z) : Prop :=
  (inject_Z v + (1 # 4) <= x * inject_Z scale)%Q /\
  (x * inject_Z scale <= inject_Z v + (3 # 4))%Q.

(** A step without the value it carries. *)
Definition unvalued (s : step) : step :=
  match s with
  | set i _ => set i None
  | _ => s
  end.

(** The steps of [p] passes over [n] slots, without the values:
    [compare(i)] for every slot, then [set(i, _)] for every slot. *)
Fixpoint radix_shape (p n : nat) : list step :=
  match p with
  | O => []
  | Datatypes.S p' =>
      compares1_from 0 n ++
      map (fun i => set i None) (seqZ 0 (Z.of_nat n)) ++
      radix_shape p' n
  end.


(** * Arrays indexed by [Z] *)

Arguments get : simpl never.
Arguments put : simpl never.
Arguments upd : simpl never.
Arguments val : simpl never.
Arguments exchange : simpl never.
Arguments len : simpl never.
Arguments swap_ : simpl never.
Arguments write_set : simpl never.

Lemma len_nonneg {A} (a : list A) : 0 <= len a.
Proof. unfold len. lia. Qed.

Lemma get_inb (a : list Q) i : inb (len a) i -> get a i = Some (val a i).
Proof.
  unfold inb, len, val, get. intros [H0 H1].
  destruct (Z.ltb_spec i 0); [lia|].
  destruct (lookup_lt_is_Some_2 a (Z.to_nat i)) as [x Hx]; [lia|].
  now rewrite Hx.
Qed.

Lemma get_Some_inb (a : list Q) i x : get a i = Some x -> inb (len a) i.
Proof.
  unfold inb, len, get. destruct (Z.ltb_spec i 0); [discriminate|].
  intros Hx. apply lookup_lt_Some in Hx. lia.
Qed.

Lemma get_Some_val (a : list Q) i x : get a i = Some x -> val a i = x.
Proof. unfold val. now intros ->. Qed.

Lemma get_None_out (a : list Q) i : ~ inb (len a) i -> get a i = None.
Proof.
  unfold inb, len, get. intros H. destruct (Z.ltb_spec i 0); [easy|].
  apply lookup_ge_None. lia.
Qed.

Lemma len_upd a i v : len (upd a i v) = len a.
Proof. unfold len, upd. now rewrite length_insert. Qed.

Lemma get_upd_eq a i v : inb (len a) i -> get (upd a i v) i = Some v.
Proof.
  unfold inb, len, get, upd. intros [H0 H1].
  destruct (Z.ltb_spec i 0); [lia|].
  apply list_lookup_insert_eq. lia.
Qed.

Lemma get_upd_ne a i j v : 0 <= i -> i <> j -> get (upd a i v) j = get a j.
Proof.
  unfold get, upd. intros H0 Hne.
  destruct (Z.ltb_spec j 0); [easy|].
  apply list_lookup_insert_ne. lia.
Qed.

Lemma val_upd_eq a i v : inb (len a) i -> val (upd a i v) i = v.
Proof. intros H. unfold val. now rewrite get_upd_eq. Qed.

Lemma val_upd_ne a i j v : 0 <= i -> i <> j -> val (upd a i v) j = val a j.
Proof. intros H0 H. unfold val. now rewrite get_upd_ne. Qed.

Lemma put_inb a i q : inb (len a) i -> put a i (Some q) = Some (upd a i q).
Proof.
  unfold inb, put, upd. intros [H0 H1].
  destruct (Z.leb_spec 0 i); [|lia].
  destruct (Z.ltb_spec i (len a)); [|lia]. reflexivity.
Qed.

Lemma len_exchange a i j : len (exchange a i j) = len a.
Proof. unfold exchange. now rewrite !len_upd. Qed.

Lemma val_exchange_l a i j :
  inb (len a) i -> inb (len a) j -> val (exchange a i j) i = val a j.
Proof.
  intros Hi Hj. unfold exchange.
  destruct (Z.eq_dec i j) as [->|Hne].
  - rewrite val_upd_eq; [easy | now rewrite len_upd].
  - rewrite val_upd_ne; [| unfold inb in *; lia | congruence].
    now rewrite val_upd_eq.
Qed.

Lemma val_exchange_r a i j :
  inb (len a) i -> inb (len a) j -> val (exchange a i j) j = val a i.
Proof.
  intros Hi Hj. unfold exchange. rewrite val_upd_eq; [easy | now rewrite len_upd].
Qed.

Lemma get_exchange_other a i j k :
  0 <= i -> 0 <= j -> k <> i -> k <> j -> get (exchange a i j) k = get a k.
Proof.
  intros Hi Hj Hki Hkj. unfold exchange.
  rewrite get_upd_ne; [| easy | congruence].
  rewrite get_upd_ne; [easy | easy | congruence].
Qed.

Lemma val_exchange_other a i j k :
  0 <= i -> 0 <= j -> k <> i -> k <> j -> val (exchange a i j) k = val a k.
Proof. intros. unfold val. now rewrite get_exchange_other. Qed.

Lemma insert_head_Permutation (a : list Q) j x y :
  a !! j = Some y -> Permutation (y :: <[j := x]> a) (x :: a).
Proof.
  revert j. induction a as [|z a IH]; intros [|j] H; simpl in *; try discriminate.
  - injection H as ->. apply perm_swap.
  - etransitivity; [apply perm_swap|].
    etransitivity; [apply perm_skip, (IH j H)|]. apply perm_swap.
Qed.

Lemma swap_nat_Permutation (a : list Q) i j x y :
  a !! i = Some x -> a !! j = Some y -> (i < j)%nat ->
  Permutation (<[j := x]> (<[i := y]> a)) a.
Proof.
  revert i j. induction a as [|z a IH]; intros i j Hi Hj Hlt; [easy|].
  destruct j as [|j]; [lia|]. destruct i as [|i]; simpl in *.
  - injection Hi as ->. now apply insert_head_Permutation.
  - apply perm_skip. apply IH; [easy | easy | lia].
Qed.

Lemma exchange_Permutation a i j :
  inb (len a) i -> inb (len a) j -> Permutation a (exchange a i j).
Proof.
  intros Hi Hj. symmetry.
  pose proof (get_inb a i Hi) as Gi. pose proof (get_inb a j Hj) as Gj.
  unfold inb, len in Hi, Hj. unfold get in Gi, Gj.
  destruct (Z.ltb_spec i 0); [lia|]. destruct (Z.ltb_spec j 0); [lia|].
  unfold exchange, upd.
  destruct (Z.lt_total i j) as [Hlt | [-> | Hlt]].
  - apply swap_nat_Permutation; [easy | easy | lia].
  - rewrite list_insert_insert_eq. rewrite list_insert_id; easy.
  - rewrite list_insert_insert_ne by lia.
    apply swap_nat_Permutation; [easy | easy | lia].
Qed.

(** * Running a sequence *)

Lemma run_bind {R S} (g : gen R) (f : R -> gen S) a :
  run (bind g f) a =
  match run g a with
  | (tr, a1, Returned r) =>
      let '(tr2, a2, o) := run (f r) a1 in (tr ++ tr2, a2, o)
  | (tr, a1, OutOfFuel) => (tr, a1, OutOfFuel)
  | (tr, a1, Escaped) => (tr, a1, Escaped)
  | (tr, a1, TypeError) => (tr, a1, TypeError)
  end.
Proof.
  revert a. induction g as [r|s k IH|k IH|i k IH|i v k IH|op x y k IH|k IH|o];
    intros a; simpl.
  - now destruct (run (f r) a) as [[tr2 a2] o].
  - rewrite IH. destruct (run k a) as [[tr a1] [r| | |]]; simpl; try easy.
    now destruct (run (f r) a1) as [[tr2 a2] o].
  - apply IH.
  - apply IH.
  - destruct (put a i v); [apply IH | easy].
  - apply IH.
  - apply IH.
  - now destruct o as [[]| | |].
Qed.

(** [run] is [next] iterated. *)
Lemma run_next {R} (g : gen R) a :
  run g a =
  match next g a with
  | Item s k a' => let '(tr, af, o) := run k a' in ((s, a') :: tr, af, o)
  | End o a' => ([], a', o)
  end.
Proof.
  revert a. induction g as [r|s k IH|k IH|i k IH|i v k IH|op x y k IH|k IH|o];
    intros a; simpl; try easy.
  destruct (put a i v); [apply IH | easy].
Qed.

(** * Rules of the judgement *)

Lemma faithful_app a tr1 b tr2 c :
  faithful a tr1 b -> faithful b tr2 c -> faithful a (tr1 ++ tr2) c.
Proof.
  revert a. induction tr1 as [|[s x] tr1 IH]; intros a; simpl.
  - now intros ->.
  - intros [-> H1] H2. split; [easy|]. now apply IH.
Qed.

Lemma events_bind {R S} (g : gen R) (f : R -> gen S) a :
  events (bind g f) a =
  events g a ++
  match run g a with
  | (_, a1, Returned r) => events (f r) a1
  | _ => []
  end.
Proof.
  revert a. induction g as [r|s k IH|k IH|i k IH|i v k IH|op x y k IH|k IH|o];
    intros a; simpl.
  - reflexivity.
  - rewrite IH. now destruct (run k a) as [[tr a1] [r| | |]].
  - apply IH.
  - now rewrite IH.
  - destruct (put a i v); [now rewrite IH | reflexivity].
  - now rewrite IH.
  - apply IH.
  - now destruct o as [[]| | |].
Qed.

Lemma triple_ret {R} I J (r : R) a (P : list Q -> R -> Prop) :
  P a r -> triple I J (Ret r) a P.
Proof. intros H. exists [], a, r. simpl. repeat split; auto. constructor. Qed.

Lemma triple_bind {R S} I J (g : gen R) (f : R -> gen S) a P1 P2 :
  triple I J g a P1 ->
  (forall a1 r, P1 a1 r -> triple I J (f r) a1 P2) ->
  triple I J (bind g f) a P2.
Proof.
  intros (tr & a1 & r & Hrun & Hf & HI & HJ & HP) Hk.
  destruct (Hk a1 r HP) as (tr2 & a2 & r2 & Hrun2 & Hf2 & HI2 & HJ2 & HP2).
  exists (tr ++ tr2), a2, r2. rewrite run_bind, events_bind, Hrun, Hrun2.
  split; [easy|]. split; [eapply faithful_app; eauto|].
  split; [now apply Forall_app|]. split; [now apply Forall_app | easy].
Qed.

Lemma triple_conseq {R} I J (g : gen R) a (P P' : list Q -> R -> Prop) :
  triple I J g a P -> (forall a' r, P a' r -> P' a' r) -> triple I J g a P'.
Proof.
  intros (tr & a1 & r & Hrun & Hf & HI & HJ & HP) H.
  exists tr, a1, r. repeat split; auto.
Qed.

Lemma triple_load {R} I (J : Z -> Prop) i (k : option Q -> gen R) a P :
  J i -> triple I J (k (get a i)) a P -> triple I J (Load i k) a P.
Proof.
  intros Hi (tr & a1 & r & Hrun & Hf & HI & HJ & HP).
  exists tr, a1, r. simpl. repeat split; auto. now apply Forall_cons.
Qed.

Lemma triple_cmp {R} I J op x y (k : bool -> gen R) a P :
  triple I J (k (js_cmp op x y)) a P -> triple I J (Cmp op x y k) a P.
Proof.
  intros (tr & a1 & r & Hrun & Hf & HI & HJ & HP).
  exists tr, a1, r. simpl. repeat split; auto. now apply Forall_cons.
Qed.

Lemma triple_len {R} I J (k : Z -> gen R) a P :
  triple I J (k (len a)) a P -> triple I J (Len k) a P.
Proof. exact (fun H => H). Qed.

Lemma triple_copy {R} I J (k : list Q -> gen R) a P :
  triple I J (k a) a P -> triple I J (Copy k) a P.
Proof. exact (fun H => H). Qed.

(** A [yield] of a step that reports no mutation. *)
Lemma triple_yield {R} I J s (k : gen R) a P :
  replay1 s a = a -> I (s, a) -> triple I J k a P -> triple I J (Yield s k) a P.
Proof.
  intros Hs Hi (tr & a1 & r & Hrun & Hf & HI & HJ & HP).
  exists ((s, a) :: tr), a1, r. simpl. rewrite Hrun.
  repeat split; auto. now apply Forall_cons.
Qed.

(** [swap(arr, i, j); yield {type:"swap", a:i, b:j}; ...] *)
Lemma triple_swap {R} I (J : Z -> Prop) i j (k : gen R) a P :
  inb (len a) i -> inb (len a) j -> J i -> J j ->
  I (swap i j, exchange a i j) ->
  triple I J k (exchange a i j) P ->
  triple I J (swap_ i j ;; yield (swap i j) ;; k) a P.
Proof.
  intros Hi Hj Ji Jj HIs (tr & a1 & r & Hrun & Hf & HI & HJ & HP).
  exists ((swap i j, exchange a i j) :: tr), a1, r.
  assert (E : put (upd a i (val a j)) j (Some (val a i))
              = Some (exchange a i j)).
  { unfold exchange. apply put_inb. now rewrite len_upd. }
  unfold swap_. simpl.
  rewrite (get_inb a i Hi), (get_inb a j Hj), (put_inb a i _ Hi).
  rewrite E, Hrun. repeat split; auto.
  unfold accesses. rewrite !Forall_cons. auto 10.
Qed.

(** [arr[k] = v; yield {type:"set", i:k, value:arr[k]}; ...] *)
Lemma triple_write_set {R} I (J : Z -> Prop) i q (k : gen R) a P :
  inb (len a) i -> J i ->
  I (set i (Some q), upd a i q) ->
  triple I J k (upd a i q) P ->
  triple I J (write_set i (Some q) ;; k) a P.
Proof.
  intros Hi Ji HIs (tr & a1 & r & Hrun & Hf & HI & HJ & HP).
  exists ((set i (Some q), upd a i q) :: tr), a1, r.
  unfold write_set. simpl.
  rewrite (put_inb a i q Hi), (get_upd_eq a i q Hi), Hrun.
  repeat split; auto; simpl; try (now rewrite (put_inb a i q Hi)).
  unfold accesses. rewrite !Forall_cons. auto 10.
Qed.

Lemma item_ok_compare2 n a i j :
  inb n i -> inb n j -> len a = n -> item_ok n (compare i (Some j), a).
Proof. intros [] [] ?. repeat split; simpl; auto. Qed.

Lemma item_ok_compare1 n a i :
  inb n i -> len a = n -> item_ok n (compare i None, a).
Proof. intros [] ?. repeat split; simpl; auto. Qed.

Lemma item_ok_swap n a i j :
  inb n i -> inb n j -> len a = n -> item_ok n (swap i j, exchange a i j).
Proof.
  intros [] [] ?. repeat split; simpl; auto. now rewrite len_exchange.
Qed.

Lemma item_ok_set n a i q :
  inb n i -> len a = n -> item_ok n (set i (Some q), upd a i q).
Proof.
  intros [] ?. repeat split; simpl; auto. now rewrite len_upd.
Qed.

Lemma triple_mono {R} (I I' : step * list Q -> Prop) (J J' : Z -> Prop)
  (g : gen R) a P :
  (forall it, I it -> I' it) -> (forall i, J i -> J' i) ->
  triple I J g a P -> triple I' J' g a P.
Proof.
  intros H H' (tr & a1 & r & Hrun & Hf & HI & HJ & HP).
  exists tr, a1, r. repeat split; auto.
  - eapply Forall_impl; eauto.
  - eapply Forall_impl; [exact HJ|]. intros [s|i|i v|op x y]; simpl; auto.
Qed.

Lemma same_outside_val a b lo hi i :
  same_outside a b lo hi -> i < lo \/ hi < i -> val b i = val a i.
Proof. intros H Hi. unfold val. now rewrite (H i Hi). Qed.

Lemma sorted_on_StronglySorted (a : list Q) :
  sorted_on a 0 (len a - 1) -> StronglySorted Qle a.
Proof.
  induction a as [|x a IH]; intros H; [constructor|].
  assert (Hget : forall i, 0 <= i -> val (x :: a) (i + 1) = val a i).
  { intros i Hi. unfold val, get.
    destruct (Z.ltb_spec (i + 1) 0); [lia|]. destruct (Z.ltb_spec i 0); [lia|].
    replace (Z.to_nat (i + 1)) with (S (Z.to_nat i)) by lia. reflexivity. }
  assert (Hlen : len (x :: a) = len a + 1) by (unfold len; simpl; lia).
  constructor.
  - apply IH. intros i j Hi Hij Hj. rewrite <- !Hget by lia.
    apply H; lia.
  - apply Forall_forall. intros y Hy.
    apply list_elem_of_lookup in Hy as [k Hk].
    pose proof (lookup_lt_Some _ _ _ Hk) as Hlt.
    assert (E : val (x :: a) (Z.of_nat k + 1) = y).
    { rewrite Hget by lia. unfold val, get.
      destruct (Z.ltb_spec (Z.of_nat k) 0); [lia|].
      now rewrite Nat2Z.id, Hk. }
    rewrite <- E. change x with (val (x :: a) 0).
    apply H; unfold len in *; lia.
Qed.

Lemma run_bind_assoc {R S T} (g : gen R) (f : R -> gen S) (h : S -> gen T) a :
  run (bind (bind g f) h) a = run (bind g (fun x => bind (f x) h)) a.
Proof.
  rewrite !run_bind. destruct (run g a) as [[tr a1] [r| | |]]; try reflexivity.
  rewrite run_bind.
  destruct (run (f r) a1) as [[tr2 a2] [r2| | |]]; try reflexivity.
  destruct (run (h r2) a2) as [[tr3 a3] o]. now rewrite app_assoc.
Qed.

Lemma events_bind_assoc {R S T} (g : gen R) (f : R -> gen S) (h : S -> gen T) a :
  events (bind (bind g f) h) a = events (bind g (fun x => bind (f x) h)) a.
Proof.
  rewrite !events_bind, run_bind.
  destruct (run g a) as [[tr a1] [r| | |]]; rewrite ?app_nil_r; try reflexivity.
  rewrite events_bind, <- app_assoc.
  now destruct (run (f r) a1) as [[tr2 a2] [r2| | |]].
Qed.

(** A body that satisfies the judgement, followed by the final
    [yield {type:"done"}]. *)
Lemma triple_then_done I J (body : gen unit) a (P : list Q -> unit -> Prop) :
  triple I J body a P ->
  exists tr a',
    run (body ;; yield done ;; Ret tt) a = (tr ++ [(done, a')], a', Returned tt) /\
    faithful a tr a' /\ Forall I tr /\
    accesses J (events (body ;; yield done ;; Ret tt) a) /\ P a' tt.
Proof.
  intros (tr & a' & [] & Hrun & Hf & HI & HJ & HP).
  exists tr, a'. rewrite run_bind, events_bind, Hrun. simpl.
  repeat split; auto. apply Forall_app. split; [exact HJ|]. now repeat constructor.
Qed.


(** * Comparisons *)

Lemma Qltb_true x y : Qltb x y = true <-> (x < y)%Q.
Proof.
  unfold Qltb. rewrite Qlt_alt. destruct (x ?= y)%Q; split; congruence.
Qed.

Lemma Qltb_false x y : Qltb x y = false <-> (y <= x)%Q.
Proof.
  split; intros H.
  - apply Qnot_lt_le. intros L. apply Qltb_true in L. congruence.
  - destruct (Qltb x y) eqn:E; [|easy].
    apply Qltb_true in E. exfalso. eapply Qlt_not_le; eauto.
Qed.

(** * bubbleGen *)

Lemma sorted_on_from_suffix a n :
  suffix_done a n n -> sorted_on a 0 (n - 1).
Proof. intros H i j Hi Hij Hj. apply H; lia. Qed.

Lemma bubble_inner_spec A n i (m : nat) : forall fuel j sw a,
  Z.to_nat (n - 1 - i - j) = m -> (m < fuel)%nat ->
  len a = n -> 0 <= i -> 0 <= j -> j <= n - 1 - i ->
  Permutation A a ->
  suffix_done a n i ->
  (forall k, 0 <= k -> k <= j -> (val a k <= val a j)%Q) ->
  (sw = false -> sorted_on a 0 j) ->
  triple (bubble_item n) (inb n) (bubble_inner fuel n i j sw) a
    (fun a' sw' =>
       len a' = n /\ Permutation A a' /\ suffix_done a' n (i + 1) /\
       (sw' = false -> sorted_on a' 0 (n - 1))).
Proof.
  induction m as [|m IH]; intros fuel j sw a Hm Hfuel Hlen Hi Hj Hji HP Hsuf Hmax Hsw;
    (destruct fuel as [|fuel]; [lia|]); simpl.
  - (* j = n - 1 - i: the loop ends *)
    assert (j = n - 1 - i) by lia. subst j.
    destruct (Z.ltb_spec (n - 1 - i) (n - 1 - i)); [lia|].
    apply triple_ret. repeat split; auto.
    + intros k q Hk Hkq Hq Hqn.
      destruct (Z.eq_dec q (n - 1 - i)) as [->|]; [apply Hmax; lia|].
      apply Hsuf; lia.
    + intros E p q Hp Hpq Hq.
      destruct (Z_le_gt_dec q (n - 1 - i)); [apply (Hsw E); lia|].
      apply Hsuf; lia.
  - destruct (Z.ltb_spec j (n - 1 - i)); [|lia].
    assert (Ij : inb (len a) j) by (unfold inb; lia).
    assert (Ij1 : inb (len a) (j + 1)) by (unfold inb; lia).
    apply triple_yield; [easy | |].
    { split; [apply item_ok_compare2; auto; congruence | easy]. }
    apply triple_load; [congruence|]. apply triple_load; [congruence|].
    apply triple_cmp.
    rewrite (get_inb a j Ij), (get_inb a (j + 1) Ij1). simpl.
    destruct (Qltb (val a (j + 1)) (val a j)) eqn:E.
    + (* out of order: exchange *)
      apply Qltb_true in E.
      apply triple_swap; auto; try congruence.
      { split; [apply item_ok_swap; auto; congruence|]. simpl. split; [easy|].
        rewrite val_exchange_l, val_exchange_r; auto. }
      apply IH; [lia | lia | | lia | lia | lia | | | | ].
      * now rewrite len_exchange.
      * etransitivity; [exact HP|]. now apply exchange_Permutation.
      * intros k q Hk Hkq Hq Hqn.
        rewrite (val_exchange_other a j (j + 1) q) by lia.
        destruct (Z.eq_dec k j) as [->|].
        { rewrite val_exchange_l; auto. apply Hsuf; lia. }
        destruct (Z.eq_dec k (j + 1)) as [->|].
        { rewrite val_exchange_r; auto. apply Hsuf; lia. }
        rewrite val_exchange_other by lia. apply Hsuf; lia.
      * intros k Hk Hkj. rewrite val_exchange_r; auto.
        destruct (Z.eq_dec k (j + 1)) as [->|].
        { rewrite val_exchange_r; auto. apply Qle_refl. }
        destruct (Z.eq_dec k j) as [->|].
        { rewrite val_exchange_l; auto. now apply Qlt_le_weak. }
        rewrite val_exchange_other by lia. apply Hmax; lia.
      * discriminate.
    + apply Qltb_false in E.
      apply IH; [lia | lia | easy | lia | lia | lia | easy | easy | | ].
      * intros k Hk Hkj.
        destruct (Z.eq_dec k (j + 1)) as [->|]; [apply Qle_refl|].
        eapply Qle_trans; [apply Hmax; lia | exact E].
      * intros Es p q Hp Hpq Hq.
        destruct (Z.eq_dec q (j + 1)) as [->|]; [|apply (Hsw Es); lia].
        destruct (Z.eq_dec p (j + 1)) as [->|]; [apply Qle_refl|].
        eapply Qle_trans; [apply Hmax; lia | exact E].
Qed.

Lemma bubble_outer_spec A n (m : nat) : forall budget fuel i a,
  Z.to_nat (n - i) = m -> (m < fuel)%nat -> (Z.to_nat n < budget)%nat ->
  len a = n -> 0 <= i -> i <= n ->
  Permutation A a ->
  suffix_done a n i ->
  triple (bubble_item n) (inb n) (bubble_outer budget fuel n i) a
    (fun a' _ => len a' = n /\ Permutation A a' /\ sorted_on a' 0 (n - 1)).
Proof.
  induction m as [|m IH]; intros budget fuel i a Hm Hfuel Hbud Hlen Hi Hin HP Hsuf;
    (destruct fuel as [|fuel]; [lia|]); simpl.
  - assert (i = n) by lia. subst i.
    destruct (Z.ltb_spec n n); [lia|].
    apply triple_ret. repeat split; auto. now apply sorted_on_from_suffix.
  - destruct (Z.ltb_spec i n); [|lia].
    eapply triple_bind.
    { apply (bubble_inner_spec A n i (Z.to_nat (n - 1 - i)) budget 0 false a);
        auto; try lia.
      - intros k Hk Hk0. assert (k = 0) by lia. subst k. apply Qle_refl.
      - intros _ p q Hp Hpq Hq. assert (p = q) by lia. subst. apply Qle_refl. }
    intros a1 sw (Hlen1 & HP1 & Hsuf1 & Hsw1). simpl.
    destruct sw; simpl.
    + apply IH; auto; lia.
    + apply triple_ret. repeat split; auto.
Qed.

(** The whole run of bubbleGen. *)
Lemma bubbleGen_run (A : list Q) (fuel : nat) :
  (length A < fuel)%nat ->
  exists tr A',
    run (bubbleGen fuel) A = (tr ++ [(done, A')], A', Returned tt) /\
    faithful A tr A' /\ Forall (bubble_item (len A)) tr /\
    accesses (inb (len A)) (events (bubbleGen fuel) A) /\
    Permutation A A' /\ sorted_on A' 0 (len A - 1).
Proof.
  intros Hfuel.
  destruct (bubble_outer_spec A (len A) (length A) fuel fuel 0 A)
    as (tr & A' & [] & Hrun & Hf & HI & HJ & Hlen & HP & Hs); auto;
    try (unfold len; lia).
  { intros k m ? ? ? ?. lia. }
  exists tr, A'. unfold bubbleGen. simpl. rewrite run_bind, events_bind, Hrun.
  simpl. repeat split; auto.
  apply Forall_app. split; [exact HJ|]. now repeat constructor.
Qed.


(** * quickGen *)

(** The left scan stops at the first value that is not below the pivot,
    at the latest on the sentinel [s]; it changes nothing. *)
Lemma scan_left_spec n l r pv a s : forall fuel i,
  len a = n -> 0 <= l -> l <= i -> i <= s -> s <= r -> r < n ->
  (pv <= val a s)%Q -> (Z.to_nat (s - i) < fuel)%nat ->
  triple (range_item n l r) (within l r) (scan_left fuel (Some pv) i) a
    (fun a' i' =>
       a' = a /\ i <= i' /\ i' <= s /\ (pv <= val a i')%Q /\
       forall k, i <= k -> k < i' -> (val a k < pv)%Q).
Proof.
  induction fuel as [|fuel IH]; intros i Hlen Hl Hli His Hsr Hrn Hs Hfuel; [lia|].
  simpl. apply triple_load; [unfold within; lia|]. apply triple_cmp.
  assert (Ii : inb (len a) i) by (unfold inb; lia).
  rewrite (get_inb a i Ii). simpl.
  destruct (Qltb (val a i) pv) eqn:E.
  - apply Qltb_true in E.
    assert (i <> s) by (intros ->; eapply Qlt_not_le; eauto).
    apply triple_yield; [easy | |].
    { split; [apply item_ok_compare1; [unfold inb; lia | easy] | simpl; lia]. }
    eapply triple_conseq; [apply IH; auto; lia|].
    intros a' i' (-> & H1 & H2 & H3 & H4). repeat split; auto; try lia.
    intros k Hk Hk'. destruct (Z.eq_dec k i) as [->|]; [easy|]. apply H4; lia.
  - apply Qltb_false in E. apply triple_ret. repeat split; auto; try lia.
Qed.

Lemma scan_right_spec n l r pv a s : forall fuel j,
  len a = n -> 0 <= l -> l <= s -> s <= j -> j <= r -> r < n ->
  (val a s <= pv)%Q -> (Z.to_nat (j - s) < fuel)%nat ->
  triple (range_item n l r) (within l r) (scan_right fuel (Some pv) j) a
    (fun a' j' =>
       a' = a /\ s <= j' /\ j' <= j /\ (val a j' <= pv)%Q /\
       forall k, j' < k -> k <= j -> (pv < val a k)%Q).
Proof.
  induction fuel as [|fuel IH]; intros j Hlen Hl Hls Hsj Hjr Hrn Hs Hfuel; [lia|].
  simpl. apply triple_load; [unfold within; lia|]. apply triple_cmp.
  assert (Ij : inb (len a) j) by (unfold inb; lia).
  rewrite (get_inb a j Ij). simpl.
  destruct (Qltb pv (val a j)) eqn:E.
  - apply Qltb_true in E.
    assert (j <> s) by (intros ->; eapply Qlt_not_le; eauto).
    apply triple_yield; [easy | |].
    { split; [apply item_ok_compare1; [unfold inb; lia | easy] | simpl; lia]. }
    eapply triple_conseq; [apply IH; auto; lia|].
    intros a' j' (-> & H1 & H2 & H3 & H4). repeat split; auto; try lia.
    intros k Hk Hk'. destruct (Z.eq_dec k j) as [->|]; [easy|]. apply H4; lia.
  - apply Qltb_false in E. apply triple_ret. repeat split; auto; try lia.
Qed.

Lemma from_range_refl a l r : from_range a a l r.
Proof. intros k H1 H2. exists k. auto. Qed.

Lemma from_range_exchange a b l r i j :
  from_range a b l r -> inb (len b) i -> inb (len b) j ->
  l <= i <= r -> l <= j <= r ->
  from_range a (exchange b i j) l r.
Proof.
  intros H Ii Ij Hi Hj k Hk1 Hk2.
  destruct (Z.eq_dec k i) as [->|Hki].
  { rewrite val_exchange_l by easy. apply H; lia. }
  destruct (Z.eq_dec k j) as [->|Hkj].
  { rewrite val_exchange_r by easy. apply H; lia. }
  rewrite val_exchange_other by (unfold inb in *; lia). apply H; lia.
Qed.

Lemma same_outside_exchange a b l r i j :
  same_outside a b l r -> 0 <= i -> 0 <= j -> l <= i <= r -> l <= j <= r ->
  same_outside a (exchange b i j) l r.
Proof.
  intros H Hi0 Hj0 Hi Hj k Hk. rewrite get_exchange_other by lia. now apply H.
Qed.

(** The partition loop, from any state its invariant holds in. *)
Lemma partition_spec a0 n l r pv budget : forall fuel i j a,
  0 <= l -> l < r -> r < n -> len a0 = n -> len a = n ->
  (Z.to_nat (r - l) + 1 < budget)%nat ->
  (Z.to_nat (j - i + 1) < fuel)%nat ->
  Permutation a0 a -> same_outside a0 a l r -> from_range a0 a l r ->
  l <= i -> i <= r + 1 -> l - 1 <= j -> j <= r ->
  (forall k, l <= k -> k < i -> (val a k <= pv)%Q) ->
  (forall k, j < k -> k <= r -> (pv <= val a k)%Q) ->
  (i <= j -> (exists s, i <= s /\ s <= r /\ (pv <= val a s)%Q) /\
             (exists s, l <= s /\ s <= j /\ (val a s <= pv)%Q)) ->
  ((i = l /\ j = r /\
    exists s, l <= s /\ s <= r /\ (pv <= val a s)%Q /\ (val a s <= pv)%Q) \/
   (l < i /\ j < r)) ->
  triple (range_item n l r) (within l r) (partition budget fuel (Some pv) i j) a
    (fun a' ij => partitioned a0 a' l r pv (fst ij) (snd ij)).
Proof.
  induction fuel as [|fuel IH];
    intros i j a Hl Hlr Hrn Hlen0 Hlen Hbud Hfuel HP Hout Hfrom Hli Hir Hlj Hjr
      Hleft Hright Hsent Hprog; [lia|].
  simpl. destruct (Z.leb_spec i j) as [Hij|Hij].
  - (* one round: two scans, then maybe an exchange *)
    destruct (Hsent Hij) as [(s1 & Hs1a & Hs1b & Hs1c) (s2 & Hs2a & Hs2b & Hs2c)].
    (* in the first round the pivot's own slot stops both scans *)
    assert (Hfirst : i = l /\ j = r ->
              exists s, l <= s /\ s <= r /\ (pv <= val a s)%Q /\ (val a s <= pv)%Q).
    { destruct Hprog as [(_ & _ & H)|]; [auto | lia]. }
    eapply triple_bind.
    { apply (scan_left_spec n l r pv a s1); auto; lia. }
    intros a1 i1 (-> & Hi1a & Hi1b & Hi1c & Hi1d). simpl.
    eapply triple_bind.
    { apply (scan_right_spec n l r pv a s2); auto; lia. }
    intros a1 j1 (-> & Hj1a & Hj1b & Hj1c & Hj1d). simpl.
    assert (Hcross : i = l /\ j = r -> i1 <= j1).
    { intros Hf. destruct (Hfirst Hf) as (s & Hsa & Hsb & Hsc & Hsd).
      destruct Hf as [-> ->].
      assert (i1 <= s).
      { destruct (Z_le_gt_dec i1 s); [easy|]. exfalso.
        eapply Qlt_not_le; [apply (Hi1d s); lia | easy]. }
      assert (s <= j1).
      { destruct (Z_le_gt_dec s j1); [easy|]. exfalso.
        eapply Qlt_not_le; [apply (Hj1d s); lia | easy]. }
      lia. }
    assert (Hleft1 : forall k, l <= k -> k < i1 -> (val a k <= pv)%Q).
    { intros k Hk1 Hk2. destruct (Z_lt_ge_dec k i); [apply Hleft; lia|].
      apply Qlt_le_weak, Hi1d; lia. }
    assert (Hright1 : forall k, j1 < k -> k <= r -> (pv <= val a k)%Q).
    { intros k Hk1 Hk2. destruct (Z_lt_ge_dec j k); [apply Hright; lia|].
      apply Qlt_le_weak, Hj1d; lia. }
    destruct (Z.leb_spec i1 j1) as [Hij1|Hij1].
    + assert (Ii : inb (len a) i1) by (unfold inb; lia).
      assert (Ij : inb (len a) j1) by (unfold inb; lia).
      apply triple_swap; auto; try (unfold within; lia).
      { split; [apply item_ok_swap; auto; congruence | simpl; lia]. }
      apply IH; auto; try lia.
      * now rewrite len_exchange.
      * etransitivity; [exact HP|]. now apply exchange_Permutation.
      * apply same_outside_exchange; auto; lia.
      * apply from_range_exchange; auto; lia.
      * intros k Hk1 Hk2. destruct (Z.eq_dec k i1) as [->|].
        { rewrite val_exchange_l; auto. }
        destruct (Z.eq_dec k j1) as [->|]; [lia|].
        rewrite val_exchange_other by lia. apply Hleft1; lia.
      * intros k Hk1 Hk2. destruct (Z.eq_dec k j1) as [->|].
        { rewrite val_exchange_r; auto. }
        destruct (Z.eq_dec k i1) as [->|]; [lia|].
        rewrite val_exchange_other by lia. apply Hright1; lia.
      * intros Hnext. split.
        { exists j1. rewrite val_exchange_r by auto. repeat split; auto; lia. }
        { exists i1. rewrite val_exchange_l by auto. repeat split; auto; lia. }
    + apply IH; auto; lia.
  - apply triple_ret. simpl.
    assert (l < i /\ j < r) as [? ?].
    { destruct Hprog as [(-> & -> & _)|]; [lia | easy]. }
    unfold partitioned. repeat split; auto; try lia; congruence.
Qed.

(** The partition of a whole range around the value of its middle slot,
    as [quick_loop] starts it. *)
Lemma partition_from_pivot a l r budget :
  0 <= l -> l < r -> r < len a -> (Z.to_nat (len a) + 1 < budget)%nat ->
  triple (range_item (len a) l r) (within l r)
    (partition budget budget (Some (val a ((l + r) / 2))) l r) a
    (fun a' ij => partitioned a a' l r (val a ((l + r) / 2)) (fst ij) (snd ij)).
Proof.
  intros Hl Hlr Hrn Hbud. set (mid := (l + r) / 2).
  assert (Hmid : l <= mid /\ mid <= r).
  { unfold mid. split; [apply Z.div_le_lower_bound | apply Z.div_le_upper_bound]; lia. }
  assert (Hsent : l <= r ->
            (exists s, l <= s /\ s <= r /\ (val a mid <= val a s)%Q) /\
            (exists s, l <= s /\ s <= r /\ (val a s <= val a mid)%Q)).
  { intros _. split; exists mid; repeat split; try lia; apply Qle_refl. }
  assert (Hprog : (l = l /\ r = r /\
            exists s, l <= s /\ s <= r /\
              (val a mid <= val a s)%Q /\ (val a s <= val a mid)%Q) \/
            (l < l /\ r < r)).
  { left. repeat split; auto. exists mid.
    repeat split; try lia; apply Qle_refl. }
  assert (Hout : same_outside a a l r) by (intros k Hk; reflexivity).
  assert (Hleft : forall k, l <= k -> k < l -> (val a k <= val a mid)%Q)
    by (intros; lia).
  assert (Hright : forall k, r < k -> k <= r -> (val a mid <= val a k)%Q)
    by (intros; lia).
  apply (partition_spec a (len a) l r (val a mid) budget budget l r a);
    auto using from_range_refl; lia.
Qed.

Lemma stack_weight_nonneg st : 0 <= stack_weight st.
Proof. induction st as [|[l r] st IH]; cbn [stack_weight fst snd]; lia. Qed.

Lemma push_ranges_weight st l r i j :
  j < i -> l < i -> j < r ->
  stack_weight (push_ranges st l r i j) < stack_weight ((l, r) :: st).
Proof.
  intros Hji Hli Hjr. unfold push_ranges.
  destruct (Z.ltb_spec l j), (Z.ltb_spec i r); cbn [stack_weight fst snd]; lia.
Qed.

Lemma push_ranges_In st l r i j lr :
  In lr (push_ranges st l r i j) ->
  In lr st \/ (lr = (l, j) /\ l < j) \/ (lr = (i, r) /\ i < r).
Proof.
  unfold push_ranges.
  destruct (Z.ltb_spec l j), (Z.ltb_spec i r); simpl; intuition auto.
Qed.

Lemma In_push_ranges_old st l r i j lr :
  In lr st -> In lr (push_ranges st l r i j).
Proof.
  unfold push_ranges.
  destruct (Z.ltb_spec l j), (Z.ltb_spec i r); simpl; auto.
Qed.

Lemma In_push_ranges_left st l r i j :
  l < j -> In (l, j) (push_ranges st l r i j).
Proof.
  unfold push_ranges.
  destruct (Z.ltb_spec l j), (Z.ltb_spec i r); simpl; auto; lia.
Qed.

Lemma In_push_ranges_right st l r i j :
  i < r -> In (i, r) (push_ranges st l r i j).
Proof.
  unfold push_ranges.
  destruct (Z.ltb_spec l j), (Z.ltb_spec i r); simpl; auto; lia.
Qed.

Lemma push_ranges_bounds st l r i j n :
  Forall (fun lr => 0 <= fst lr /\ snd lr < n) ((l, r) :: st) ->
  l < i -> j < r ->
  Forall (fun lr => 0 <= fst lr /\ snd lr < n) (push_ranges st l r i j).
Proof.
  intros H Hi Hj. inversion H as [|? ? [H1 H2] H3]; subst. simpl in *.
  unfold push_ranges.
  destruct (Z.ltb_spec l j), (Z.ltb_spec i r);
    repeat (constructor; simpl; try lia); auto.
Qed.

Lemma push_ranges_disjoint st l r i j :
  disjoint_ranges ((l, r) :: st) -> j < i -> l < i -> j < r ->
  disjoint_ranges (push_ranges st l r i j).
Proof.
  intros [H1 H2] Hji Hli Hjr. simpl in H1.
  assert (Hl : Forall (fun lr' : Z * Z => j < fst lr' \/ snd lr' < l) st).
  { eapply Forall_impl; [exact H1|]. simpl. intros lr' ?. lia. }
  assert (Hr : Forall (fun lr' : Z * Z => r < fst lr' \/ snd lr' < i) st).
  { eapply Forall_impl; [exact H1|]. simpl. intros lr' ?. lia. }
  unfold push_ranges.
  destruct (Z.ltb_spec l j), (Z.ltb_spec i r); simpl; repeat split; auto.
Qed.

Lemma pending_drop l r st a n :
  r <= l -> pending ((l, r) :: st) a n -> pending st a n.
Proof.
  intros Hrl H p q Hp Hpq Hq.
  destruct (H p q Hp Hpq Hq) as [?|(lr & [<-|Hin] & H1 & H2)]; auto.
  - simpl in *. lia.
  - right. eauto.
Qed.

Lemma pending_after_partition a b st l r pv i j n :
  0 <= l -> l < r -> r < n ->
  disjoint_ranges ((l, r) :: st) ->
  pending ((l, r) :: st) a n ->
  partitioned a b l r pv i j ->
  pending (push_ranges st l r i j) b n.
Proof.
  intros Hl Hlr Hrn [Hdis _] Hpend
    (Hlen & HP & Hout & Hfrom & Hji & Hli & Hir & Hlj & Hjr & Hleft & Hright).
  simpl in Hdis. rewrite Forall_forall in Hdis.
  assert (Hold : forall p q, 0 <= p -> p < q -> q < n -> ~ (l <= p /\ q <= r) ->
            (val a p <= val a q)%Q \/
            exists lr, In lr st /\ fst lr <= p /\ q <= snd lr).
  { intros p q Hp Hpq Hq Hno.
    destruct (Hpend p q Hp Hpq Hq) as [?|(lr & [<-|Hin] & H1 & H2)]; auto.
    - simpl in *. lia.
    - right. eauto. }
  intros p q Hp Hpq Hq.
  destruct (Z_lt_ge_dec p l) as [Hpl|Hpl]; [|destruct (Z_lt_ge_dec r q) as [Hrq|Hrq]].
  - destruct (Z_lt_ge_dec q l) as [Hql|Hql]; [|destruct (Z_lt_ge_dec r q) as [Hrq|Hrq]].
    + (* both left of the range *)
      rewrite (same_outside_val a b l r p), (same_outside_val a b l r q) by (auto; lia).
      destruct (Hold p q) as [?|(lr & Hin & H1 & H2)]; auto; try lia.
      right. exists lr. eauto using In_push_ranges_old.
    + (* one on each side *)
      rewrite (same_outside_val a b l r p), (same_outside_val a b l r q) by (auto; lia).
      destruct (Hold p q) as [?|(lr & Hin & H1 & H2)]; auto; try lia.
      right. exists lr. eauto using In_push_ranges_old.
    + (* p left of the range, q inside *)
      destruct (Hfrom q) as (q' & Hq1 & Hq2 & ->); try lia.
      rewrite (same_outside_val a b l r p) by (auto; lia).
      destruct (Hold p q') as [?|(lr & Hin & H1 & H2)]; auto; try lia.
      exfalso. apply list_elem_of_In in Hin. specialize (Hdis lr Hin). simpl in Hdis. lia.
  - (* p inside, q right of the range *)
    destruct (Z_lt_ge_dec r p) as [Hrp|Hrp].
    + rewrite (same_outside_val a b l r p), (same_outside_val a b l r q) by (auto; lia).
      destruct (Hold p q) as [?|(lr & Hin & H1 & H2)]; auto; try lia.
      right. exists lr. eauto using In_push_ranges_old.
    + destruct (Hfrom p) as (p' & Hp1 & Hp2 & ->); try lia.
      rewrite (same_outside_val a b l r q) by (auto; lia).
      destruct (Hold p' q) as [?|(lr & Hin & H1 & H2)]; auto; try lia.
      exfalso. apply list_elem_of_In in Hin. specialize (Hdis lr Hin). simpl in Hdis. lia.
  - (* both inside *)
    destruct (Z_le_gt_dec q j) as [Hqj|Hqj].
    { right. exists (l, j). simpl. split; [apply In_push_ranges_left; lia | lia]. }
    destruct (Z_le_gt_dec i p) as [Hip|Hip].
    { right. exists (i, r). simpl. split; [apply In_push_ranges_right; lia | lia]. }
    left. eapply Qle_trans; [apply Hleft; lia | apply Hright; lia].
Qed.

Lemma quick_loop_spec A n budget : forall fuel stack a,
  len a = n -> Permutation A a -> (Z.to_nat n + 1 < budget)%nat ->
  (Z.to_nat (stack_weight stack) < fuel)%nat ->
  Forall (fun lr => 0 <= fst lr /\ snd lr < n) stack ->
  disjoint_ranges stack -> pending stack a n ->
  triple (item_ok n) (inb n) (quick_loop budget fuel stack) a
    (fun a' _ => len a' = n /\ Permutation A a' /\ sorted_on a' 0 (n - 1)).
Proof.
  induction fuel as [|fuel IH];
    intros stack a Hlen HP Hbud Hfuel Hbnd Hdis Hpend; [lia|].
  destruct stack as [|[l r] stack0]; simpl.
  - apply triple_ret. repeat split; auto.
    intros i j Hi Hij Hj. destruct (Z.eq_dec i j) as [->|]; [apply Qle_refl|].
    destruct (Hpend i j) as [?|(lr & [] & _)]; auto; lia.
  - pose proof (stack_weight_nonneg stack0) as Hw.
    rewrite Z.geb_leb. destruct (Z.leb_spec r l) as [Hrl|Hlr].
    + apply IH; auto.
      * simpl in Hfuel. lia.
      * now inversion Hbnd.
      * apply Hdis.
      * eapply pending_drop; eauto.
    + assert (Hb := Hbnd). inversion Hb as [|? ? [Hl0 Hrn] _]; subst. simpl in *.
      set (mid := (l + r) / 2).
      assert (Hmid : l <= mid /\ mid <= r).
      { unfold mid. split; [apply Z.div_le_lower_bound | apply Z.div_le_upper_bound]; lia. }
      assert (Im : inb (len a) mid) by (unfold inb; lia).
      apply triple_load; [exact Im|].
      rewrite (get_inb a mid Im).
      assert (Hsent : l <= r ->
                (exists s, l <= s /\ s <= r /\ (val a mid <= val a s)%Q) /\
                (exists s, l <= s /\ s <= r /\ (val a s <= val a mid)%Q)).
      { intros _. split; exists mid; repeat split; try lia; apply Qle_refl. }
      assert (Hprog : (l = l /\ r = r /\
                exists s, l <= s /\ s <= r /\
                  (val a mid <= val a s)%Q /\ (val a s <= val a mid)%Q) \/
                (l < l /\ r < r)).
      { left. repeat split; auto. exists mid.
        repeat split; try lia; apply Qle_refl. }
      assert (Hout : same_outside a a l r) by (intros k Hk; reflexivity).
      assert (Hleft : forall k, l <= k -> k < l -> (val a k <= val a mid)%Q)
        by (intros; lia).
      assert (Hright : forall k, r < k -> k <= r -> (val a mid <= val a k)%Q)
        by (intros; lia).
      eapply triple_bind.
      { apply (triple_mono (range_item (len a) l r) _ (within l r));
          [intros it H; exact (proj1 H) | unfold within, inb; intros; lia |].
        apply (partition_spec a (len a) l r (val a mid) budget budget l r a);
          auto using from_range_refl; lia. }
      intros a1 [i j] Hpart. simpl in Hpart.
      change (triple (item_ok (len a)) (inb (len a))
                (quick_loop budget fuel (push_ranges stack0 l r i j)) a1
                (fun a' _ => len a' = len a /\ A ≡ₚ a' /\ sorted_on a' 0 (len a - 1))).
      pose proof Hpart as (Hlen1 & HP1 & _ & _ & Hji & Hli & _ & _ & Hjr & _).
      apply IH; auto.
      * etransitivity; eauto.
      * pose proof (push_ranges_weight stack0 l r i j Hji Hli Hjr) as Hlt.
        pose proof (stack_weight_nonneg (push_ranges stack0 l r i j)).
        simpl in Hlt. lia.
      * apply (push_ranges_bounds stack0 l r i j); auto.
      * apply push_ranges_disjoint; auto.
      * eapply pending_after_partition; eauto.
Qed.

(** The whole run of quickGen. *)
Lemma quickGen_run (A : list Q) (fuel : nat) :
  (2 * length A + 2 < fuel)%nat ->
  exists tr A',
    run (quickGen fuel) A = (tr ++ [(done, A')], A', Returned tt) /\
    faithful A tr A' /\ Forall (item_ok (len A)) tr /\
    accesses (inb (len A)) (events (quickGen fuel) A) /\
    Permutation A A' /\ sorted_on A' 0 (len A - 1).
Proof.
  intros Hfuel.
  destruct (quick_loop_spec A (len A) fuel fuel [(0, len A - 1)] A)
    as (tr & A' & [] & Hrun & Hf & HI & HJ & Hlen & HP & Hs); auto;
    try (unfold len; simpl; lia).
  { repeat constructor; simpl; lia. }
  { simpl. auto. }
  { intros p q0 Hp Hpq Hq. right. exists (0, len A - 1). simpl. split; [auto | lia]. }
  exists tr, A'. unfold quickGen. simpl. rewrite run_bind, events_bind, Hrun.
  simpl. repeat split; auto.
  apply Forall_app. split; [exact HJ|]. now repeat constructor.
Qed.


(** * heapGen *)

Lemma from_range_trans a b c l r :
  from_range a b l r -> from_range b c l r -> from_range a c l r.
Proof.
  intros H1 H2 k Hk1 Hk2.
  destruct (H2 k Hk1 Hk2) as (k' & Hk'1 & Hk'2 & ->).
  destruct (H1 k' Hk'1 Hk'2) as (k'' & ? & ? & ->). eauto.
Qed.

Lemma same_outside_trans a b c l r :
  same_outside a b l r -> same_outside b c l r -> same_outside a c l r.
Proof. intros H1 H2 k Hk. now rewrite (H2 k Hk), (H1 k Hk). Qed.

(** The sift-down loop, from any node on its path. *)
Lemma siftDown_spec a0 n lo hi : forall fuel root a,
  0 <= lo -> lo <= root -> hi < n -> len a0 = n -> len a = n ->
  (Z.to_nat (hi + 1 - root) < fuel)%nat ->
  Permutation a0 a -> same_outside a0 a lo hi -> from_range a0 a lo hi ->
  heap_except a lo hi root -> grand_ok a lo hi root ->
  triple (range_item n lo hi) (within lo hi) (siftDown fuel root hi) a
    (fun a' _ =>
       len a' = n /\ Permutation a0 a' /\ same_outside a0 a' lo hi /\
       from_range a0 a' lo hi /\ heap_on a' lo hi).
Proof.
  induction fuel as [|fuel IH];
    intros root a Hlo Hroot Hhi Hlen0 Hlen Hfuel HP Hout Hfrom Hex Hgr; [lia|].
  simpl. rewrite Z.gtb_ltb.
  destruct (Z.ltb_spec hi (2 * root + 1)) as [Hleaf|Hchild].
  { (* no child inside the heap *)
    apply triple_ret. repeat split; auto.
    intros p c Hp Hc Hchi. destruct (Z.eq_dec p root) as [->|Hne].
    - unfold child_of in Hc. lia.
    - now apply Hex. }
  set (c1 := 2 * root + 1) in *.
  assert (Ir : inb (len a) root) by (unfold inb; lia).
  assert (I1 : inb (len a) c1) by (unfold inb, c1; lia).
  (* the part shared by both ways of choosing the child *)
  assert (Hrest : forall child,
            (child = c1 \/ (child = c1 + 1 /\ c1 + 1 <= hi)) ->
            (forall c, child_of root c -> c <= hi -> (val a c <= val a child)%Q) ->
            triple (range_item n lo hi) (within lo hi)
              (yield (compare root (Some child)) ;;
               x <- arr[ root ] ;;
               y <- arr[ child ] ;;
               b <- x js< y ;;
               if b then
                 swap_ root child ;;
                 yield (swap root child) ;;
                 siftDown fuel child hi
               else Ret tt) a
              (fun a' _ =>
                 len a' = n /\ Permutation a0 a' /\ same_outside a0 a' lo hi /\
                 from_range a0 a' lo hi /\ heap_on a' lo hi)).
  { intros child Hchild_is Hbig.
    assert (Hcr : child_of root child) by (unfold child_of, c1 in *; lia).
    assert (Ic : inb (len a) child) by (unfold inb, c1 in *; lia).
    assert (Hc_in : lo <= child <= hi) by (unfold c1 in *; lia).
    apply triple_yield; [easy | |].
    { split; [apply item_ok_compare2; auto; congruence | simpl; lia]. }
    apply triple_load; [unfold within, c1 in *; lia|].
    apply triple_load; [unfold within, c1 in *; lia|]. apply triple_cmp.
    rewrite (get_inb a root Ir), (get_inb a child Ic). simpl.
    destruct (Qltb (val a root) (val a child)) eqn:E.
    - apply Qltb_true in E.
      apply triple_swap; auto; try (unfold within, c1 in *; lia).
      { split; [apply item_ok_swap; auto; congruence | simpl; lia]. }
      apply IH; auto; try lia.
      + now rewrite len_exchange.
      + etransitivity; [exact HP|]. now apply exchange_Permutation.
      + apply same_outside_exchange; auto; lia.
      + apply from_range_exchange; auto; lia.
      + (* heap order everywhere but at the child *)
        intros p c Hp Hc Hchi Hne.
        destruct (Z.eq_dec p root) as [->|Hpr].
        * rewrite val_exchange_l by auto.
          destruct (Z.eq_dec c child) as [->|Hcc].
          { rewrite val_exchange_r by auto. now apply Qlt_le_weak. }
          rewrite val_exchange_other by (unfold child_of in *; lia).
          now apply Hbig.
        * rewrite (val_exchange_other a root child p) by lia.
          destruct (Z.eq_dec c root) as [->|Hcr'].
          { rewrite val_exchange_l by auto. apply (Hgr p child); auto; lia. }
          destruct (Z.eq_dec c child) as [->|Hcc].
          { unfold child_of in *. lia. }
          rewrite val_exchange_other by lia. now apply Hex.
      + (* the old root is at least the children of the child *)
        intros p c Hp Hpc Hcc Hchi.
        assert (p = root) by (unfold child_of in *; lia). subst p.
        rewrite val_exchange_l by auto.
        rewrite val_exchange_other by (unfold child_of in *; lia).
        apply Hex; auto; unfold child_of in *; lia.
    - apply Qltb_false in E. apply triple_ret. repeat split; auto.
      intros p c Hp Hc Hchi. destruct (Z.eq_dec p root) as [->|Hne].
      + eapply Qle_trans; [apply Hbig; auto | exact E].
      + now apply Hex. }
  destruct (Z.leb_spec (c1 + 1) hi) as [Htwo|Hone].
  - (* two children: pick the larger *)
    assert (I2 : inb (len a) (c1 + 1)) by (unfold inb, c1; lia).
    cbn [bind]. apply triple_yield; [easy | |].
    { split; [apply item_ok_compare2; auto; congruence | simpl; unfold c1; lia]. }
    apply triple_load; [unfold within, c1 in *; lia|].
    apply triple_load; [unfold within, c1 in *; lia|]. apply triple_cmp.
    rewrite (get_inb a c1 I1), (get_inb a (c1 + 1) I2). simpl.
    destruct (Qltb (val a c1) (val a (c1 + 1))) eqn:E; cbn [bind].
    + apply Qltb_true in E. apply Hrest; [lia|].
      intros c Hc Hchi. unfold child_of in Hc. fold c1 in Hc.
      destruct Hc as [->| ->]; [now apply Qlt_le_weak|].
      replace (2 * root + 2) with (c1 + 1) by (unfold c1; lia). apply Qle_refl.
    + apply Qltb_false in E. apply Hrest; [lia|].
      intros c Hc Hchi. unfold child_of in Hc. fold c1 in Hc.
      destruct Hc as [->| ->]; [apply Qle_refl|].
      replace (2 * root + 2) with (c1 + 1) by (unfold c1; lia). exact E.
  - cbn [bind]. apply Hrest; [lia|].
    intros c Hc Hchi. unfold child_of in Hc. fold c1 in Hc.
    destruct Hc as [->| ->]; [apply Qle_refl | unfold c1 in *; lia].
Qed.

Lemma heap_root_max a hi :
  heap_on a 0 hi -> forall k, 0 <= k -> k <= hi -> (val a k <= val a 0)%Q.
Proof.
  intros H.
  assert (G : forall m : nat, forall k, 0 <= k -> k <= Z.of_nat m -> k <= hi ->
            (val a k <= val a 0)%Q).
  { induction m as [|m IH]; intros k Hk Hkm Hkhi.
    - assert (k = 0) by lia. subst. apply Qle_refl.
    - destruct (Z.eq_dec k 0) as [->|Hk0]; [apply Qle_refl|].
      set (p := (k - 1) / 2).
      assert (Hp : 2 * p <= k - 1 < 2 * p + 2).
      { unfold p. pose proof (Z.div_mod (k - 1) 2 ltac:(lia)).
        pose proof (Z.mod_pos_bound (k - 1) 2 ltac:(lia)). lia. }
      eapply Qle_trans; [apply (H p k); unfold child_of; lia|].
      apply IH; lia. }
  intros k Hk Hkhi. apply (G (Z.to_nat k)); lia.
Qed.

Lemma heap_build_spec A n budget : forall fuel start a,
  -1 <= start -> start < n \/ start = -1 -> len a = n ->
  (Z.to_nat (start + 1) < fuel)%nat -> (Z.to_nat n + 1 < budget)%nat ->
  Permutation A a -> heap_on a (start + 1) (n - 1) ->
  triple (item_ok n) (inb n) (heap_build budget fuel n start) a
    (fun a' _ => len a' = n /\ Permutation A a' /\ heap_on a' 0 (n - 1)).
Proof.
  induction fuel as [|fuel IH];
    intros start a Hs1 Hs2 Hlen Hfuel Hbud HP Hheap; [lia|].
  simpl. rewrite Z.geb_leb. destruct (Z.leb_spec 0 start) as [Hge|Hlt].
  - eapply triple_bind.
    { apply (triple_mono (range_item n start (n - 1)) _ (within start (n - 1)));
        [intros it H; exact (proj1 H) | unfold within, inb; intros; lia |].
      apply (siftDown_spec a n start (n - 1) budget start a); auto; try lia.
      - intros k Hk. reflexivity.
      - apply from_range_refl.
      - intros p c Hp Hc Hchi Hne. apply Hheap; auto; lia.
      - intros p c Hp Hpc. unfold child_of in Hpc. lia. }
    intros a1 [] (Hlen1 & HP1 & _ & _ & Hheap1). simpl.
    apply IH; auto; try lia.
    + etransitivity; eauto.
    + now replace (start - 1 + 1) with start by lia.
  - apply triple_ret. repeat split; auto.
    now replace 0 with (start + 1) by lia.
Qed.

Lemma heap_extract_spec A n budget : forall fuel end_ a,
  -1 <= end_ -> end_ < n -> len a = n ->
  (Z.to_nat end_ < fuel)%nat -> (Z.to_nat n + 1 < budget)%nat ->
  Permutation A a -> heap_on a 0 end_ -> suffix_done a n (n - 1 - end_) ->
  triple (item_ok n) (inb n) (heap_extract budget fuel end_) a
    (fun a' _ => len a' = n /\ Permutation A a' /\ sorted_on a' 0 (n - 1)).
Proof.
  induction fuel as [|fuel IH];
    intros end_ a He1 He2 Hlen Hfuel Hbud HP Hheap Hsuf; [lia|].
  simpl. rewrite Z.gtb_ltb. destruct (Z.ltb_spec 0 end_) as [Hpos|Hnpos].
  - assert (I0 : inb (len a) 0) by (unfold inb; lia).
    assert (Ie : inb (len a) end_) by (unfold inb; lia).
    pose proof (heap_root_max a end_ Hheap) as Hmax.
    set (a1 := exchange a 0 end_).
    assert (Hlen1 : len a1 = n) by (unfold a1; now rewrite len_exchange).
    assert (Hfrom1 : forall k, 0 <= k -> k <= end_ ->
              exists k', 0 <= k' /\ k' <= end_ /\ val a1 k = val a k').
    { intros k Hk1 Hk2. unfold a1.
      destruct (Z.eq_dec k 0) as [->|].
      { exists end_. rewrite val_exchange_l by auto. repeat split; auto; lia. }
      destruct (Z.eq_dec k end_) as [->|].
      { exists 0. rewrite val_exchange_r by auto. repeat split; auto; lia. }
      exists k. rewrite val_exchange_other by lia. repeat split; auto; lia. }
    assert (Hsuf1 : suffix_done a1 n (n - end_)).
    { intros k m Hk Hkm Hm Hmn.
      destruct (Z.eq_dec m end_) as [->|Hme].
      - unfold a1 at 2. rewrite val_exchange_r by auto.
        destruct (Hfrom1 k) as (k' & ? & ? & ->); auto.
      - assert (E : val a1 m = val a m)
          by (unfold a1; apply val_exchange_other; lia).
        rewrite E. destruct (Z_le_gt_dec k end_).
        + destruct (Hfrom1 k) as (k' & ? & ? & ->); auto. apply Hsuf; lia.
        + unfold a1. rewrite val_exchange_other by lia. apply Hsuf; lia. }
    apply triple_swap; auto; try congruence.
    { apply item_ok_swap; auto; congruence. }
    fold a1. eapply triple_bind.
    { apply (triple_mono (range_item n 0 (end_ - 1)) _ (within 0 (end_ - 1)));
        [intros it H; exact (proj1 H) | unfold within, inb; intros; lia |].
      apply (siftDown_spec a1 n 0 (end_ - 1) budget 0 a1); auto; try lia.
      - intros k Hk. reflexivity.
      - apply from_range_refl.
      - intros p c Hp Hc Hchi Hne. unfold a1.
        rewrite !val_exchange_other by (unfold child_of in *; lia).
        apply Hheap; auto; lia.
      - intros p c Hp Hpc. unfold child_of in Hpc. lia. }
    intros a2 [] (Hlen2 & HP2 & Hout2 & Hfrom2 & Hheap2). simpl.
    apply IH; auto; try lia.
    + etransitivity; [exact HP|]. etransitivity; [|exact HP2].
      now apply exchange_Permutation.
    + replace (n - 1 - (end_ - 1)) with (n - end_) by lia.
      intros k m Hk Hkm Hm Hmn.
      rewrite (same_outside_val a1 a2 0 (end_ - 1) m) by (auto; lia).
      destruct (Z_le_gt_dec k (end_ - 1)).
      * destruct (Hfrom2 k) as (k' & ? & ? & ->); auto. apply Hsuf1; lia.
      * rewrite (same_outside_val a1 a2 0 (end_ - 1) k) by (auto; lia).
        apply Hsuf1; lia.
  - apply triple_ret. repeat split; auto.
    intros i j Hi Hij Hj. destruct (Z.eq_dec i j) as [->|]; [apply Qle_refl|].
    apply Hsuf; lia.
Qed.

(** The whole run of heapGen. *)
Lemma heapGen_run (A : list Q) (fuel : nat) :
  (length A + 1 < fuel)%nat ->
  exists tr A',
    run (heapGen fuel) A = (tr ++ [(done, A')], A', Returned tt) /\
    faithful A tr A' /\ Forall (item_ok (len A)) tr /\
    accesses (inb (len A)) (events (heapGen fuel) A) /\
    Permutation A A' /\ sorted_on A' 0 (len A - 1).
Proof.
  intros Hfuel. set (n := len A).
  assert (Hn : 0 <= n) by apply len_nonneg.
  assert (Hhalf : -1 <= (n - 2) / 2 /\ 2 * ((n - 2) / 2) <= n - 2 < 2 * ((n - 2) / 2) + 2).
  { pose proof (Z.div_mod (n - 2) 2 ltac:(lia)).
    pose proof (Z.mod_pos_bound (n - 2) 2 ltac:(lia)). lia. }
  assert (T : triple (item_ok n) (inb n)
            (heap_build fuel fuel n ((n - 2) / 2) ;; heap_extract fuel fuel (n - 1)) A
            (fun a' _ => len a' = n /\ Permutation A a' /\ sorted_on a' 0 (n - 1))).
  { eapply triple_bind.
    - apply (heap_build_spec A n fuel fuel ((n - 2) / 2) A); auto;
        try (unfold n, len in *; lia).
      intros p c Hp Hc Hchi. unfold child_of in Hc. lia.
    - intros a1 [] (Hlen1 & HP1 & Hheap1). simpl.
      apply heap_extract_spec; auto; try (unfold n, len in *; lia).
      intros k m Hk Hkm Hm Hmn. lia. }
  destruct (triple_then_done _ _ _ _ _ T)
    as (tr & A' & Hrun & Hf & HI & HJ & Hlen & HP & Hs).
  exists tr, A'. rewrite run_bind_assoc in Hrun. rewrite events_bind_assoc in HJ.
  repeat split; auto.
Qed.


(** * mergeGen *)

(** ** Segments of the array *)

Lemma get_ext (a b : list Q) : (forall i, get a i = get b i) -> a = b.
Proof.
  intros H. apply list_eq. intros i. specialize (H (Z.of_nat i)).
  unfold get in H. destruct (Z.ltb_spec (Z.of_nat i) 0); [lia|].
  now rewrite Nat2Z.id in H.
Qed.

Lemma len_seg a lo hi :
  0 <= lo -> lo <= hi -> hi <= len a -> len (seg a lo hi) = hi - lo.
Proof.
  intros H0 H1 H2. unfold len, seg in *. rewrite length_take, length_drop. lia.
Qed.

Lemma get_seg a lo hi i :
  0 <= lo -> 0 <= i -> i < hi - lo -> get (seg a lo hi) i = get a (lo + i).
Proof.
  intros H0 Hi Hlt. unfold get, seg.
  destruct (Z.ltb_spec i 0); [lia|]. destruct (Z.ltb_spec (lo + i) 0); [lia|].
  rewrite lookup_take_lt by lia. rewrite lookup_drop. f_equal. lia.
Qed.

Lemma seg_nil a lo hi : hi <= lo -> seg a lo hi = [].
Proof. intros H. unfold seg. now replace (Z.to_nat (hi - lo)) with 0%nat by lia. Qed.

Lemma seg_full a : seg a 0 (len a) = a.
Proof.
  unfold seg, len. simpl. rewrite Z.sub_0_r, Nat2Z.id. apply firstn_all.
Qed.

Lemma seg_app a lo mid hi :
  0 <= lo -> lo <= mid -> mid <= hi ->
  seg a lo hi = seg a lo mid ++ seg a mid hi.
Proof.
  intros H0 H1 H2. unfold seg.
  replace (Z.to_nat (hi - lo)) with (Z.to_nat (mid - lo) + Z.to_nat (hi - mid))%nat by lia.
  rewrite <- take_take_drop, drop_drop. do 3 f_equal. lia.
Qed.

Lemma seg_ext a b lo hi :
  0 <= lo ->
  (forall i, lo <= i -> i < hi -> get b i = get a i) ->
  hi <= len a -> hi <= len b ->
  seg b lo hi = seg a lo hi.
Proof.
  intros H0 H Ha Hb.
  destruct (Z_le_gt_dec hi lo) as [Hle|Hgt]; [now rewrite !seg_nil|].
  apply get_ext. intros i.
  destruct (Z_lt_ge_dec i 0) as [Hneg|Hpos].
  { unfold get. now destruct (Z.ltb_spec i 0); [|lia]. }
  destruct (Z_lt_ge_dec i (hi - lo)) as [Hin|Hout].
  - rewrite !get_seg by lia. apply H; lia.
  - rewrite !get_None_out; auto; rewrite len_seg; unfold inb; lia.
Qed.

Lemma seg_upd_outside a lo hi k v :
  0 <= lo -> 0 <= k -> k < lo \/ hi <= k ->
  seg (upd a k v) lo hi = seg a lo hi.
Proof.
  intros H0 Hk0 Hk. unfold seg, upd.
  destruct Hk as [Hk|Hk].
  - now rewrite drop_insert_lt by lia.
  - destruct (Z_le_gt_dec hi lo); [now replace (Z.to_nat (hi - lo)) with 0%nat by lia|].
    rewrite drop_insert_ge, take_insert_ge by lia. reflexivity.
Qed.

Lemma seg_upd_snoc a lo k v :
  0 <= lo -> lo <= k -> k < len a ->
  seg (upd a k v) lo (k + 1) = seg a lo k ++ [v].
Proof.
  intros H0 Hk Hlen.
  rewrite (seg_app _ lo k (k + 1)) by lia.
  rewrite seg_upd_outside by lia. f_equal.
  assert (Hu : len (upd a k v) = len a) by apply len_upd.
  apply get_ext. intros i.
  destruct (Z.eq_dec i 0) as [->|Hne].
  - rewrite get_seg by lia. rewrite Z.add_0_r, get_upd_eq by (unfold inb; lia).
    reflexivity.
  - destruct (Z_lt_ge_dec i 0).
    + unfold get. now destruct (Z.ltb_spec i 0); [|lia].
    + rewrite !get_None_out; auto.
      * unfold inb, len. simpl. lia.
      * rewrite len_seg by lia. unfold inb. lia.
Qed.

Lemma js_slice_seg (a : list Q) s e :
  0 <= s -> s <= e -> e <= len a -> js_slice a s e = seg a s e.
Proof.
  intros H0 H1 H2. unfold js_slice, seg.
  destruct (Z.ltb_spec s 0); [lia|]. destruct (Z.ltb_spec e 0); [lia|].
  now rewrite !Z.min_l by lia.
Qed.

Lemma same_outside_widen a b lo hi lo' hi' :
  same_outside a b lo hi -> lo' <= lo -> hi <= hi' -> same_outside a b lo' hi'.
Proof. intros H H1 H2 i Hi. apply H. lia. Qed.

Lemma same_outside_upd a b lo hi k v :
  same_outside a b lo hi -> lo <= k -> k <= hi -> 0 <= k ->
  same_outside a (upd b k v) lo hi.
Proof. intros H H1 H2 H0 i Hi. rewrite get_upd_ne by lia. now apply H. Qed.

Lemma drop_get (buf : list Q) i :
  0 <= i -> i < len buf ->
  drop (Z.to_nat i) buf = val buf i :: drop (Z.to_nat (i + 1)) buf.
Proof.
  intros H0 H1. replace (Z.to_nat (i + 1)) with (S (Z.to_nat i)) by lia.
  apply drop_S. pose proof (get_inb buf i ltac:(unfold inb; lia)) as G.
  unfold get in G. now destruct (Z.ltb_spec i 0); [lia|].
Qed.

(** ** The merge loops *)

(** A drain loop appends the rest of its buffer to the merged output. *)
Lemma merge_drain_spec a0 n l r M buf T : forall fuel i k a,
  0 <= l -> r < n -> len a = n ->
  0 <= i -> i <= len buf -> l <= k ->
  k + (len buf - i) + len T = r + 1 ->
  seg a l k ++ drop (Z.to_nat i) buf ++ T = M ->
  same_outside a0 a l r ->
  (Z.to_nat (len buf - i) < fuel)%nat ->
  triple (range_item n l r) (within l r) (merge_drain fuel buf i k) a
    (fun a' k' =>
       len a' = n /\ k' = k + len buf - i /\ seg a' l k' ++ T = M /\
       same_outside a0 a' l r).
Proof.
  induction fuel as [|fuel IH];
    intros i k a Hl Hr Hlen Hi0 Hi Hk Hsum HM Hout Hfuel; [lia|].
  pose proof (len_nonneg T) as HT.
  simpl. destruct (Z.ltb_spec i (len buf)) as [Hlt|Hge].
  - assert (Ik : inb (len a) k) by (unfold inb; lia).
    rewrite (get_inb buf i) by (unfold inb; lia).
    apply triple_write_set; auto; try (unfold within; lia).
    { split; [apply item_ok_set; auto; congruence | simpl; lia]. }
    eapply triple_conseq.
    { apply IH; auto; try lia.
      - now rewrite len_upd.
      - rewrite seg_upd_snoc by lia. rewrite <- HM.
        rewrite (drop_get buf i) by lia. now rewrite <- app_assoc.
      - apply same_outside_upd; auto; lia. }
    intros a' k' (H1 & H2 & H3 & H4). repeat split; auto. lia.
  - apply triple_ret. assert (i = len buf) by lia. subst i.
    repeat split; auto; try lia.
    rewrite <- HM. f_equal. unfold len. rewrite Nat2Z.id, drop_all. reflexivity.
Qed.

(** The two-way loop follows the functional merge of the two buffers. *)
Lemma merge_both_spec a0 n l m r left right M : forall fuel i j k a,
  0 <= l -> r < n -> len a = n ->
  len left = m + 1 - l -> len right = r - m ->
  0 <= i -> i <= len left -> 0 <= j -> j <= len right -> k = l + i + j ->
  seg a l k ++ list_merge Qle (drop (Z.to_nat i) left) (drop (Z.to_nat j) right) = M ->
  same_outside a0 a l r ->
  (Z.to_nat (len left - i + (len right - j)) < fuel)%nat ->
  triple (range_item n l r) (within l r) (merge_both fuel left right l m i j k) a
    (fun a' ijk =>
       len a' = n /\ ijk.2 = l + ijk.1.1 + ijk.1.2 /\
       0 <= ijk.1.1 /\ ijk.1.1 <= len left /\
       0 <= ijk.1.2 /\ ijk.1.2 <= len right /\
       (ijk.1.1 = len left \/ ijk.1.2 = len right) /\
       seg a' l ijk.2 ++
         list_merge Qle (drop (Z.to_nat ijk.1.1) left)
                        (drop (Z.to_nat ijk.1.2) right) = M /\
       same_outside a0 a' l r).
Proof.
  induction fuel as [|fuel IH];
    intros i j k a Hl Hr Hlen Hll Hlr Hi0 Hi Hj0 Hj Hk HM Hout Hfuel; [lia|].
  simpl.
  destruct (Z.ltb_spec i (len left)) as [Hil|Hil];
    [destruct (Z.ltb_spec j (len right)) as [Hjl|Hjl]|]; simpl.
  - assert (Ik : inb (len a) k) by (unfold inb; lia).
    apply triple_yield; [easy | |].
    { split; [apply item_ok_compare2; unfold inb; auto; lia | simpl; lia]. }
    apply triple_cmp.
    rewrite (get_inb left i), (get_inb right j) by (unfold inb; lia).
    set (x := val left i) in *. set (y := val right j) in *.
    rewrite (drop_get left i), (drop_get right j) in HM by lia.
    fold x y in HM. rewrite list_merge_cons in HM. simpl.
    destruct (Qltb y x) eqn:E; simpl.
    + apply Qltb_true in E.
      destruct (decide (x <= y)%Q) as [Hle|_];
        [exfalso; eapply Qlt_not_le; eauto|].
      apply triple_write_set; auto; try (unfold within; lia).
      { split; [apply item_ok_set; auto; congruence | simpl; lia]. }
      apply IH; auto; try lia.
      * now rewrite len_upd.
      * rewrite seg_upd_snoc by lia. rewrite <- HM.
        rewrite (drop_get left i) by lia. fold x. now rewrite <- app_assoc.
      * apply same_outside_upd; auto; lia.
    + apply Qltb_false in E.
      destruct (decide (x <= y)%Q) as [_|Hn]; [|contradiction].
      apply triple_write_set; auto; try (unfold within; lia).
      { split; [apply item_ok_set; auto; congruence | simpl; lia]. }
      apply IH; auto; try lia.
      * now rewrite len_upd.
      * rewrite seg_upd_snoc by lia. rewrite <- HM.
        rewrite (drop_get right j) by lia. fold y. now rewrite <- app_assoc.
      * apply same_outside_upd; auto; lia.
  - apply triple_ret. simpl. repeat split; auto; lia.
  - apply triple_ret. simpl. repeat split; auto; lia.
Qed.

Lemma len_drop (buf : list Q) i :
  0 <= i -> i <= len buf -> len (drop (Z.to_nat i) buf) = len buf - i.
Proof. intros H0 H1. unfold len in *. rewrite length_drop. lia. Qed.

Lemma drop_len (buf : list Q) : drop (Z.to_nat (len buf)) buf = [].
Proof. unfold len. rewrite Nat2Z.id. apply drop_all. Qed.

(** The body of [mergeRange] after the recursive calls writes the
    functional merge of the two halves over the range. *)
Lemma merge_phase_spec n l m r budget a :
  0 <= l -> l <= m -> m < r -> r < n -> len a = n ->
  (Z.to_nat n + 1 < budget)%nat ->
  triple (range_item n l r) (within l r) (merge_phase budget l m r) a
    (fun a' _ =>
       len a' = n /\ same_outside a a' l r /\
       seg a' l (r + 1) = list_merge Qle (seg a l (m + 1)) (seg a (m + 1) (r + 1))).
Proof.
  intros Hl Hlm Hmr Hrn Hlen Hbud. unfold merge_phase.
  do 2 apply triple_copy. rewrite !js_slice_seg by lia.
  set (left := seg a l (m + 1)). set (right := seg a (m + 1) (r + 1)).
  set (M := list_merge Qle left right).
  assert (Hll : len left = m + 1 - l) by (unfold left; rewrite len_seg; lia).
  assert (Hlr : len right = r - m) by (unfold right; rewrite len_seg; lia).
  eapply triple_bind.
  { apply (merge_both_spec a n l m r left right M budget 0 0 l a); auto; try lia.
    - rewrite seg_nil by lia. reflexivity.
    - intros k Hk. reflexivity. }
  intros a1 [[i j] k]
    (Hlen1 & Hk & Hi0 & Hi & Hj0 & Hj & Hend & HM1 & Hout1). simpl in *.
  assert (HM1' : seg a1 l k ++ drop (Z.to_nat i) left ++ drop (Z.to_nat j) right = M).
  { rewrite <- HM1. f_equal. destruct Hend as [-> | ->]; rewrite drop_len.
    - now rewrite list_merge_nil_l.
    - now rewrite list_merge_nil_r, app_nil_r. }
  eapply triple_bind.
  { apply (merge_drain_spec a n l r M left (drop (Z.to_nat j) right)
             budget i k a1); auto; try lia.
    rewrite len_drop by lia. lia. }
  intros a2 k1 (Hlen2 & Hk1 & HM2 & Hout2). simpl.
  eapply triple_bind.
  { apply (merge_drain_spec a n l r M right [] budget j k1 a2); auto; try lia.
    - change (len (@nil Q)) with 0. lia.
    - now rewrite app_nil_r. }
  intros a3 k2 (Hlen3 & Hk2 & HM3 & Hout3). simpl.
  apply triple_ret. repeat split; auto.
  rewrite app_nil_r in HM3. rewrite <- HM3. f_equal. lia.
Qed.

Lemma Sorted_short (s : list Q) : (length s <= 1)%nat -> Sorted Qle s.
Proof.
  destruct s as [|x [|y s]]; simpl; intros H; [constructor | repeat constructor | lia].
Qed.

Lemma range_item_widen n lo hi lo' hi' it :
  range_item n lo hi it -> lo' <= lo -> hi <= hi' -> range_item n lo' hi' it.
Proof.
  intros [H1 H2] Hlo Hhi. split; [exact H1|].
  destruct it as [[a [b|]|a b|i v|] arr]; simpl in *; lia.
Qed.

Lemma mergeRange_spec n budget : forall fuel l r a,
  0 <= l -> r < n -> len a = n ->
  (Z.to_nat (r - l) < fuel)%nat -> (Z.to_nat n + 1 < budget)%nat ->
  triple (range_item n l r) (within l r) (mergeRange budget fuel l r) a
    (fun a' _ =>
       len a' = n /\ same_outside a a' l r /\
       Sorted Qle (seg a' l (r + 1)) /\
       Permutation (seg a l (r + 1)) (seg a' l (r + 1))).
Proof.
  induction fuel as [|fuel IH]; intros l r a Hl Hrn Hlen Hfuel Hbud; [lia|].
  simpl. rewrite Z.geb_leb. destruct (Z.leb_spec r l) as [Hrl|Hlr].
  - apply triple_ret. repeat split; auto.
    apply Sorted_short. unfold seg. rewrite length_take. lia.
  - set (m := (l + r) / 2).
    assert (Hm : l <= m /\ m < r).
    { unfold m. split; [apply Z.div_le_lower_bound | apply Z.div_lt_upper_bound]; lia. }
    eapply triple_bind.
    { apply (triple_mono (range_item n l m) _ (within l m));
        [intros it H; apply (range_item_widen n l m); auto; lia
        | unfold within; intros; lia |].
      apply IH; auto; lia. }
    intros a1 [] (Hlen1 & Hout1 & Hs1 & Hp1). simpl.
    eapply triple_bind.
    { apply (triple_mono (range_item n (m + 1) r) _ (within (m + 1) r));
        [intros it H; apply (range_item_widen n (m + 1) r); auto; lia
        | unfold within; intros; lia |].
      apply IH; auto; lia. }
    intros a2 [] (Hlen2 & Hout2 & Hs2 & Hp2). simpl.
    eapply triple_conseq; [apply merge_phase_spec; auto; lia|].
    intros a3 [] (Hlen3 & Hout3 & HM).
    (* the left half is untouched by the second call, the right half by the first *)
    assert (E1 : seg a2 l (m + 1) = seg a1 l (m + 1)).
    { apply seg_ext; try lia. intros i Hi1 Hi2. apply Hout2. lia. }
    assert (E2 : seg a1 (m + 1) (r + 1) = seg a (m + 1) (r + 1)).
    { apply seg_ext; try lia. intros i Hi1 Hi2. apply Hout1. lia. }
    repeat split; auto.
    + apply (same_outside_trans a a2 a3); auto.
      apply (same_outside_trans a a1 a2).
      * apply (same_outside_widen a a1 l m); auto; lia.
      * apply (same_outside_widen a1 a2 (m + 1) r); auto; lia.
    + rewrite HM. apply Sorted_list_merge; [apply _ | | exact Hs2].
      now rewrite E1.
    + rewrite HM, merge_Permutation, E1, <- Hp1, <- Hp2, E2.
      now rewrite <- (seg_app a l (m + 1) (r + 1)) by lia.
Qed.

(** The whole run of mergeGen. *)
Lemma mergeGen_run (A : list Q) (fuel : nat) :
  (length A + 1 < fuel)%nat ->
  exists tr A',
    run (mergeGen fuel) A = (tr ++ [(done, A')], A', Returned tt) /\
    faithful A tr A' /\ Forall (item_ok (len A)) tr /\
    accesses (inb (len A)) (events (mergeGen fuel) A) /\
    Permutation A A' /\ Sorted Qle A'.
Proof.
  intros Hfuel.
  pose proof (len_nonneg A) as Hn.
  assert (T : triple (item_ok (len A)) (inb (len A)) (mergeRange fuel fuel 0 (len A - 1)) A
            (fun a' _ => Permutation A a' /\ Sorted Qle a')).
  { apply (triple_mono (range_item (len A) 0 (len A - 1)) _
             (within 0 (len A - 1)));
      [intros it H; exact (proj1 H) | unfold within, inb; intros; lia |].
    eapply triple_conseq;
      [apply (mergeRange_spec (len A) fuel fuel 0 (len A - 1) A); unfold len in *; lia|].
    intros a' [] (Hlen & _ & Hs & Hp).
    replace (len A - 1 + 1) with (len A) in * by lia.
    rewrite seg_full in Hp. rewrite <- Hlen in Hs, Hp. rewrite seg_full in Hs, Hp.
    auto. }
  destruct (triple_then_done _ _ _ _ _ T)
    as (tr & A' & Hrun & Hf & HI & HJ & HP & Hs).
  exists tr, A'. repeat split; auto.
Qed.


(** * radixGen *)

(** ** Digits *)

Lemma Qfloor_unique (y : Q) (k : Z) :
  (inject_Z k <= y)%Q -> (y < inject_Z (k + 1))%Q -> Qfloor y = k.
Proof.
  intros H1 H2.
  assert (k <= Qfloor y).
  { rewrite <- (Qfloor_Z k). now apply Qfloor_resp_le. }
  assert (Qfloor y < k + 1).
  { rewrite Zlt_Qlt. eapply Qle_lt_trans; [apply Qfloor_le | exact H2]. }
  lia.
Qed.

Lemma Qfloor_sub_Z (x : Q) (z : Z) : Qfloor (x - inject_Z z) = Qfloor x - z.
Proof.
  apply Qfloor_unique.
  - pose proof (Qfloor_le x). unfold Z.sub. rewrite inject_Z_plus, inject_Z_opp. lra.
  - pose proof (Qlt_floor x).
    replace (Qfloor x - z + 1) with ((Qfloor x + 1) + - z) by lia.
    rewrite inject_Z_plus, inject_Z_opp. lra.
Qed.

Lemma inject_Z_pos_neq0 (z : Z) : 0 < z -> ~ (inject_Z z == 0)%Q.
Proof.
  intros H E. unfold Qeq, inject_Z in E. simpl in E. lia.
Qed.

(** On non-negative integers the digit of the source is the decimal
    digit. *)
Lemma digit_nonneg v exp :
  0 <= v -> 0 < exp -> digit v exp = (v / exp) mod 10.
Proof.
  intros Hv He. unfold digit, js_rem.
  set (x := (inject_Z v / inject_Z exp)%Q).
  assert (Hx : (0 <= x)%Q).
  { unfold x. apply Qle_shift_div_l.
    - change 0%Q with (inject_Z 0). rewrite <- Zlt_Qlt. lia.
    - rewrite Qmult_0_l. change 0%Q with (inject_Z 0). rewrite <- Zle_Qle. lia. }
  assert (Ht : Qtrunc (x / inject_Z 10) = v / exp / 10).
  { unfold Qtrunc.
    assert (Hx10 : (0 <= x / inject_Z 10)%Q).
    { apply Qle_shift_div_l; [reflexivity | now rewrite Qmult_0_l]. }
    apply Qltb_false in Hx10. rewrite Hx10.
    rewrite Z.div_div by lia. rewrite Zdiv_Qdiv. apply Qfloor_comp.
    unfold x. rewrite inject_Z_mult. field.
    repeat split; try discriminate; now apply inject_Z_pos_neq0. }
  rewrite Ht, <- inject_Z_mult, Qfloor_sub_Z.
  unfold x. rewrite <- Zdiv_Qdiv.
  rewrite (Z.mod_eq (v / exp) 10) by lia. lia.
Qed.

Lemma digit_range v exp : 0 <= v -> 0 < exp -> 0 <= digit v exp < 10.
Proof. intros. rewrite digit_nonneg by easy. apply Z.mod_pos_bound. lia. Qed.

Lemma pass_test max exp :
  0 <= max -> 0 < exp ->
  (Qfloor (inject_Z max / inject_Z exp) >? 0) = (exp <=? max).
Proof.
  intros Hm He. rewrite <- Zdiv_Qdiv. rewrite Z.gtb_ltb.
  destruct (Z.leb_spec exp max) as [H|H].
  - apply Z.ltb_lt. apply Z.div_str_pos. lia.
  - apply Z.ltb_ge. rewrite Z.div_small; lia.
Qed.

Lemma Qltb_inject_Z a b : Qltb (inject_Z a) (inject_Z b) = (a <? b).
Proof.
  unfold Qltb, Qcompare, inject_Z. simpl. rewrite !Z.mul_1_r.
  unfold Z.ltb. now destruct (a ?= b).
Qed.

(** The loop test [Math.floor(max / exp) > 0]. *)
Lemma pass_cmp max exp :
  0 <= max -> 0 < exp ->
  js_cmp Gt (Some (inject_Z (Qfloor (inject_Z max / inject_Z exp)))) (Some 0%Q)
    = (exp <=? max).
Proof.
  intros Hm He. rewrite <- (pass_test max exp Hm He), Z.gtb_ltb.
  exact (Qltb_inject_Z 0 _).
Qed.

(** ** One pass, as a function on lists *)

Lemma bucket_concat_cons exp x l ds :
  NoDup ds ->
  concat (map (bucket_of exp (x :: l)) ds) ≡ₚ
    (if decide (digit x exp ∈ ds) then [x] else []) ++
    concat (map (bucket_of exp l) ds).
Proof.
  induction ds as [|d ds IH]; intros Hnd.
  - simpl. destruct (decide (digit x exp ∈ [])) as [H|H]; [|reflexivity].
    now apply not_elem_of_nil in H.
  - apply NoDup_cons in Hnd as [Hd Hnd].
    cbn [map concat]. rewrite (IH Hnd). unfold bucket_of at 1.
    rewrite filter_cons. fold (bucket_of exp l d).
    destruct (decide (digit x exp = d)) as [E|E].
    + destruct (decide (digit x exp ∈ d :: ds)) as [_|N]; [|exfalso; apply N; subst; left].
      destruct (decide (digit x exp ∈ ds)) as [I|_]; [subst; contradiction|].
      reflexivity.
    + destruct (decide (digit x exp ∈ ds)) as [I|I].
      * destruct (decide (digit x exp ∈ d :: ds)) as [_|N]; [|exfalso; apply N; now right].
        simpl. symmetry. apply Permutation_middle.
      * destruct (decide (digit x exp ∈ d :: ds)) as [N|_]; [|reflexivity].
        apply elem_of_cons in N as [N|N]; contradiction.
Qed.

Lemma digits10_NoDup : NoDup digits10.
Proof.
  unfold digits10.
  repeat (apply NoDup_cons; split; [rewrite ?elem_of_cons, elem_of_nil; lia|]).
  apply NoDup_nil_2.
Qed.

Lemma digits10_elem d : d ∈ digits10 <-> 0 <= d < 10.
Proof.
  unfold digits10. rewrite !elem_of_cons, elem_of_nil. lia.
Qed.

Lemma radix_pass_Permutation exp l :
  0 < exp -> Forall (fun v => 0 <= v) l -> Permutation l (radix_pass exp l).
Proof.
  intros He. induction l as [|x l IH]; intros Hl.
  - reflexivity.
  - apply Forall_cons in Hl as [Hx Hl]. unfold radix_pass.
    rewrite bucket_concat_cons by apply digits10_NoDup.
    destruct (decide (digit x exp ∈ digits10)) as [_|N].
    + simpl. apply perm_skip. now apply IH.
    + exfalso. apply N. apply digits10_elem. now apply digit_range.
Qed.

Lemma mod_next_digit x exp :
  0 <= x -> 0 < exp -> x mod (exp * 10) = x mod exp + exp * digit x exp.
Proof.
  intros Hx He. rewrite digit_nonneg by easy. apply Z.rem_mul_r; lia.
Qed.

Lemma bucket_StronglySorted exp l d :
  0 < exp -> Forall (fun v => 0 <= v) l ->
  StronglySorted (le_mod exp) l ->
  StronglySorted (le_mod (exp * 10)) (bucket_of exp l d).
Proof.
  intros He Hl Hs. induction Hs as [|x l Hs IH Hx].
  - constructor.
  - apply Forall_cons in Hl as [Hx0 Hl]. unfold bucket_of. rewrite filter_cons.
    fold (bucket_of exp l d).
    destruct (decide (digit x exp = d)) as [E|E]; [|now apply IH].
    constructor; [now apply IH|].
    apply Forall_forall. intros y Hy.
    apply list_elem_of_filter in Hy as [Ey Hy].
    rewrite Forall_forall in Hx, Hl.
    specialize (Hx y Hy). specialize (Hl y Hy). unfold le_mod in *.
    rewrite !mod_next_digit by easy. rewrite E, Ey. lia.
Qed.

Lemma buckets_StronglySorted exp l ds :
  0 < exp -> Forall (fun v => 0 <= v) l ->
  StronglySorted (le_mod exp) l -> StronglySorted Z.lt ds ->
  StronglySorted (le_mod (exp * 10)) (concat (map (bucket_of exp l) ds)).
Proof.
  intros He Hl Hs Hds. induction Hds as [|d ds Hds IH Hd].
  - constructor.
  - cbn [map concat]. apply StronglySorted_app. split; [|split].
    + intros x1 x2 H1 H2.
      apply list_elem_of_filter in H1 as [E1 H1].
      apply list_elem_of_In, in_concat in H2 as (b & Hb & H2).
      apply in_map_iff in Hb as (d' & <- & Hd').
      apply list_elem_of_In, list_elem_of_filter in H2 as [E2 H2].
      rewrite Forall_forall in Hd, Hl.
      apply list_elem_of_In in Hd'. specialize (Hd d' Hd').
      pose proof (Hl x1 H1). pose proof (Hl x2 H2). unfold le_mod.
      rewrite !mod_next_digit by easy. rewrite E1, E2.
      pose proof (Z.mod_pos_bound x1 exp He).
      pose proof (Z.mod_pos_bound x2 exp He). nia.
    + now apply bucket_StronglySorted.
    + exact IH.
Qed.

Lemma digits10_sorted : StronglySorted Z.lt digits10.
Proof.
  unfold digits10. repeat (constructor; [|repeat (constructor; try lia)]).
  constructor.
Qed.

Lemma radix_pass_sorted exp l :
  0 < exp -> Forall (fun v => 0 <= v) l ->
  StronglySorted (le_mod exp) l ->
  StronglySorted (le_mod (exp * 10)) (radix_pass exp l).
Proof.
  intros. apply buckets_StronglySorted; auto. apply digits10_sorted.
Qed.

(** ** The loops of one pass *)

Lemma bucket_of_snoc exp l v d :
  bucket_of exp (l ++ [v]) d =
  bucket_of exp l d ++ (if decide (digit v exp = d) then [v] else []).
Proof.
  unfold bucket_of. now rewrite filter_app.
Qed.

Lemma bucket_push_spec exp l v :
  0 <= digit v exp < 10 ->
  bucket_push (map (bucket_of exp l) digits10) (digit v exp) v =
  Some (map (bucket_of exp (l ++ [v])) digits10).
Proof.
  intros Hd. unfold bucket_push, digits10.
  set (d := digit v exp) in *.
  assert (Hcases : d = 0 \/ d = 1 \/ d = 2 \/ d = 3 \/ d = 4 \/
                   d = 5 \/ d = 6 \/ d = 7 \/ d = 8 \/ d = 9) by lia.
  cbn [map]. rewrite !bucket_of_snoc. fold d.
  repeat (destruct Hcases as [Hc|Hcases]; [rewrite Hc; cbn; rewrite ?app_nil_r; reflexivity|]).
  rewrite Hcases. cbn. rewrite ?app_nil_r. reflexivity.
Qed.

Lemma Zlookup_take_S (l : list Z) i v :
  l !! Z.to_nat i = Some v -> 0 <= i ->
  take (Z.to_nat (i + 1)) l = take (Z.to_nat i) l ++ [v].
Proof.
  intros H Hi. replace (Z.to_nat (i + 1)) with (S (Z.to_nat i)) by lia.
  now apply take_S_r.
Qed.

Lemma radix_distribute_spec n A exp a : forall fuel i buckets,
  len A = n -> len a = n -> 0 < exp -> Forall (fun v => 0 <= v) A ->
  0 <= i -> i <= n ->
  buckets = map (bucket_of exp (take (Z.to_nat i) A)) digits10 ->
  (Z.to_nat (n - i) < fuel)%nat ->
  triple (item_ok n) (inb n) (radix_distribute fuel n A exp buckets i) a
    (fun a' bs => a' = a /\ bs = map (bucket_of exp A) digits10).
Proof.
  induction fuel as [|fuel IH];
    intros i buckets HlenA Hlen He HA Hi0 Hi Hb Hfuel; [lia|].
  simpl. destruct (Z.ltb_spec i n) as [Hlt|Hge].
  - destruct (Z.ltb_spec i 0); [lia|].
    destruct (lookup_lt_is_Some_2 A (Z.to_nat i)) as [v Hv];
      [unfold len in *; lia|].
    rewrite Hv.
    assert (Hv0 : 0 <= v).
    { rewrite Forall_forall in HA. apply HA. eapply list_elem_of_lookup_2; eauto. }
    apply triple_yield; [easy | apply item_ok_compare1; unfold inb; auto; lia |].
    rewrite Hb, bucket_push_spec by (now apply digit_range).
    apply IH; auto; try lia.
    now rewrite (Zlookup_take_S A i v).
  - apply triple_ret. split; [easy|].
    rewrite Hb, take_ge by (unfold len in *; lia). reflexivity.
Qed.

Lemma take_upd_snoc {T} (l : list T) i v :
  (i < length l)%nat -> take (S i) (<[i := v]> l) = take i l ++ [v].
Proof.
  intros H. rewrite (take_S_r _ _ v) by (now apply list_lookup_insert_eq).
  now rewrite take_insert_ge by lia.
Qed.

(** Writing one bucket back extends the written prefix of [A] and of the
    array by that bucket. *)
Lemma radix_collect_bucket_spec n : forall bucket A idx a,
  len A = n -> len a = n -> 0 <= idx -> idx + len bucket <= n ->
  triple (item_ok n) (inb n) (radix_collect_bucket bucket A idx) a
    (fun a' r =>
       len a' = n /\ len r.1 = n /\ r.2 = idx + len bucket /\
       take (Z.to_nat r.2) r.1 = take (Z.to_nat idx) A ++ bucket /\
       take (Z.to_nat r.2) a' = take (Z.to_nat idx) a ++ map unscale bucket).
Proof.
  induction bucket as [|v bucket IH]; intros A idx a HlenA Hlen Hidx Hfit.
  - apply triple_ret. simpl. change (len (@nil Z)) with 0.
    rewrite Z.add_0_r, !app_nil_r. auto.
  - assert (Hl : len (v :: bucket) = len bucket + 1) by (unfold len; simpl; lia).
    pose proof (len_nonneg bucket) as Hb.
    simpl. unfold local_set.
    destruct (Z.leb_spec 0 idx); [|lia].
    destruct (Z.ltb_spec idx (len A)); [|lia]. simpl.
    apply triple_write_set;
      [unfold inb; lia | unfold inb; lia | apply item_ok_set; unfold inb; auto; lia |].
    eapply triple_conseq.
    { apply IH; try lia.
      - unfold len. rewrite length_insert. exact HlenA.
      - now rewrite len_upd. }
    intros a' [A' idx'] (H1 & H2 & H3 & H4 & H5). simpl in *.
    repeat split; auto; try lia.
    + rewrite H4. replace (Z.to_nat (idx + 1)) with (S (Z.to_nat idx)) by lia.
      rewrite take_upd_snoc by (unfold len in *; lia). now rewrite <- app_assoc.
    + rewrite H5. replace (Z.to_nat (idx + 1)) with (S (Z.to_nat idx)) by lia.
      unfold upd. rewrite take_upd_snoc by (unfold len in *; lia).
      now rewrite <- app_assoc.
Qed.

Lemma concat_take_S {T} (bs : list (list T)) b bucket :
  bs !! b = Some bucket ->
  concat (take (S b) bs) = concat (take b bs) ++ bucket.
Proof.
  intros H. rewrite (take_S_r _ _ _ H), concat_app. simpl. now rewrite app_nil_r.
Qed.

Lemma length_concat_take {T} (bs : list (list T)) b :
  (length (concat (take b bs)) <= length (concat bs))%nat.
Proof.
  rewrite <- (take_drop b bs) at 2. rewrite concat_app, length_app. lia.
Qed.

Lemma radix_collect_spec n buckets : forall fuel b A idx a,
  len buckets = 10 -> len (concat buckets) = n ->
  len A = n -> len a = n -> 0 <= b -> b <= 10 ->
  idx = len (concat (take (Z.to_nat b) buckets)) ->
  take (Z.to_nat idx) A = concat (take (Z.to_nat b) buckets) ->
  take (Z.to_nat idx) a = map unscale (concat (take (Z.to_nat b) buckets)) ->
  (Z.to_nat (10 - b) < fuel)%nat ->
  triple (item_ok n) (inb n) (radix_collect fuel buckets b A idx) a
    (fun a' A' =>
       A' = concat buckets /\ a' = map unscale (concat buckets)).
Proof.
  induction fuel as [|fuel IH];
    intros b A idx a Hlb Hcat HlenA Hlen Hb0 Hb Hidx HA Ha Hfuel; [lia|].
  simpl. destruct (Z.ltb_spec b 10) as [Hlt|Hge].
  - destruct (Z.ltb_spec b 0); [lia|].
    destruct (lookup_lt_is_Some_2 buckets (Z.to_nat b)) as [bucket Hbk];
      [unfold len in *; lia|].
    rewrite Hbk.
    pose proof (concat_take_S buckets _ _ Hbk) as Hnext.
    pose proof (length_concat_take buckets (S (Z.to_nat b))) as Hle.
    rewrite Hnext, length_app in Hle.
    assert (Hfit : idx + len bucket <= n) by (unfold len in *; lia).
    eapply triple_bind.
    { apply (radix_collect_bucket_spec n bucket A idx a); auto.
      subst idx. apply len_nonneg. }
    intros a1 [A1 idx1] (H1 & H2 & H3 & H4 & H5). simpl in *.
    replace (Z.to_nat (b + 1)) with (S (Z.to_nat b)) in * by lia.
    apply IH; auto; try lia.
    + replace (Z.to_nat (b + 1)) with (S (Z.to_nat b)) by lia.
      rewrite Hnext. unfold len in *. rewrite length_app. lia.
    + replace (Z.to_nat (b + 1)) with (S (Z.to_nat b)) by lia.
      now rewrite Hnext, H4, HA.
    + replace (Z.to_nat (b + 1)) with (S (Z.to_nat b)) by lia.
      now rewrite Hnext, H5, Ha, map_app.
  - apply triple_ret.
    assert (E : take (Z.to_nat b) buckets = buckets)
      by (apply take_ge; unfold len in *; lia).
    rewrite E in *.
    split; [rewrite <- HA | rewrite <- Ha];
      symmetry; apply take_ge; unfold len in *; lia.
Qed.

(** ** The passes *)

Lemma radix_max_ge (l : list Z) : forall m0,
  m0 <= fold_left (fun max v => if v >? max then v else max) l m0 /\
  Forall (fun v => v <= fold_left (fun max v => if v >? max then v else max) l m0) l.
Proof.
  induction l as [|x l IH]; intros m0; simpl; [split; [lia | constructor]|].
  destruct (IH (if x >? m0 then x else m0)) as [H1 H2].
  rewrite Z.gtb_ltb in *. destruct (Z.ltb_spec m0 x); split; auto; try lia;
    constructor; auto; lia.
Qed.

(** The search for the maximum touches nothing and returns [radix_max]. *)
Lemma radix_max_loop_spec I J (l : list Z) : forall m a,
  triple I J (radix_max_loop l m) a
    (fun a' r => a' = a /\
       r = fold_left (fun max v => if v >? max then v else max) l m).
Proof.
  induction l as [|v l IH]; intros m a; simpl.
  - now apply triple_ret.
  - apply triple_cmp. simpl js_cmp. rewrite Qltb_inject_Z, <- Z.gtb_ltb. apply IH.
Qed.

Lemma radix_max_loop_run (l : list Z) : forall m (a : list Q),
  run (radix_max_loop l m) a
    = ([], a, Returned (fold_left (fun max v => if v >? max then v else max) l m)).
Proof.
  induction l as [|v l IH]; intros m a; simpl; [reflexivity|].
  rewrite Qltb_inject_Z, <- Z.gtb_ltb. apply IH.
Qed.

Lemma radix_max_loop_events (l : list Z) : forall m (a : list Q),
  events (radix_max_loop l m) a = max_log l m.
Proof.
  induction l as [|v l IH]; intros m a; simpl; [reflexivity|].
  rewrite Qltb_inject_Z, <- Z.gtb_ltb. now rewrite IH.
Qed.

Lemma radix_max_spec (l : list Z) :
  0 <= radix_max l /\ Forall (fun v => v <= radix_max l) l.
Proof. apply radix_max_ge. Qed.

Lemma StronglySorted_on {T} (P : T -> Prop) (R R' : T -> T -> Prop) l :
  (forall x y, P x -> P y -> R x y -> R' x y) ->
  Forall P l -> StronglySorted R l -> StronglySorted R' l.
Proof.
  intros H HP Hs. induction Hs as [|x l Hs IH Hx]; [constructor|].
  apply Forall_cons in HP as [Px HP]. constructor; [now apply IH|].
  rewrite Forall_forall in *. intros y Hy. apply H; auto.
Qed.

Lemma radix_passes_spec n A0 max budget : forall fuel exp Acur a,
  len Acur = n -> len a = n -> 0 < exp -> 0 <= max ->
  Forall (fun v => 0 <= v /\ v <= max) Acur ->
  Permutation A0 Acur ->
  StronglySorted (le_mod exp) Acur ->
  (1 <= fuel)%nat -> max < exp * 10 ^ (Z.of_nat fuel - 1) ->
  (Z.to_nat n + 11 < budget)%nat ->
  triple (item_ok n) (inb n) (radix_passes budget fuel n max Acur exp) a
    (fun a' _ =>
       exists S, Permutation A0 S /\ StronglySorted Z.le S /\
         (max < exp -> a' = a /\ S = Acur) /\
         (exp <= max -> a' = map unscale S)).
Proof.
  induction fuel as [|fuel IH];
    intros exp Acur a HlenA Hlen He Hmax HA HP Hs Hf1 Hfuel Hbud; [lia|].
  assert (Hnn : Forall (fun v => 0 <= v) Acur).
  { eapply Forall_impl; [exact HA|]. simpl. intros v ?. lia. }
  cbn [radix_passes]. apply triple_cmp. rewrite pass_cmp by lia.
  destruct (Z.leb_spec exp max) as [Hgo|Hstop].
  - assert (Hf : (1 <= fuel)%nat).
    { destruct fuel; [|lia]. simpl in Hfuel. lia. }
    assert (Hfuel' : max < exp * 10 * 10 ^ (Z.of_nat fuel - 1)).
    { replace (Z.of_nat (S fuel) - 1) with (Z.succ (Z.of_nat fuel - 1)) in Hfuel by lia.
      rewrite Z.pow_succ_r in Hfuel by lia. lia. }
    pose proof (radix_pass_Permutation exp Acur He Hnn) as Hperm.
    eapply triple_bind.
    { pose proof (len_nonneg a).
      apply (radix_distribute_spec n Acur exp a budget 0); auto; lia. }
    intros a1 buckets [-> ->]. simpl.
    eapply triple_bind.
    { apply (radix_collect_spec n (map (bucket_of exp Acur) digits10)
               budget 0 Acur 0 a); auto; try lia.
      fold (radix_pass exp Acur). unfold len in *.
      now rewrite <- (Permutation_length Hperm). }
    fold (radix_pass exp Acur).
    intros a2 A2 [-> ->]. simpl.
    eapply triple_conseq.
    { apply (IH (exp * 10) (radix_pass exp Acur) (map unscale (radix_pass exp Acur)));
        auto; try lia.
      - unfold len in *. now rewrite <- (Permutation_length Hperm).
      - unfold len in *. now rewrite length_map, <- (Permutation_length Hperm).
      - now rewrite <- Hperm.
      - etransitivity; eauto.
      - now apply radix_pass_sorted. }
    intros a' [] (S & HS1 & HS2 & HS3 & HS4).
    exists S. repeat split; auto; try lia.
    intros _. destruct (Z_lt_ge_dec max (exp * 10)) as [Hlt|Hge].
    + destruct (HS3 Hlt) as [-> ->]. reflexivity.
    + apply HS4. lia.
  - apply triple_ret. exists Acur. split; [easy|]. split; [|split; [auto | lia]].
    apply (StronglySorted_on (fun v => 0 <= v /\ v <= max) (le_mod exp)); auto.
    intros x y Hx Hy. unfold le_mod. rewrite !Z.mod_small by lia. auto.
Qed.

Lemma scale_floor_nonneg x : (0 <= x)%Q -> 0 <= scale_floor x.
Proof.
  intros H. unfold scale_floor. rewrite <- (Qfloor_Z 0). apply Qfloor_resp_le.
  apply Qmult_le_0_compat; [exact H | discriminate].
Qed.

(** The whole run of radixGen on non-negative values: the local array
    ends as a sorted permutation of the scaled input, and the shared
    array either mirrors it or, when every value scales to 0, was never
    written. *)
Lemma radixGen_run (A : list Q) (fuel : nat) :
  Forall (fun x => (0 <= x)%Q) A ->
  (length A + 11 < fuel)%nat ->
  radix_max (map scale_floor A) < 10 ^ (Z.of_nat fuel - 1) ->
  exists tr A',
    run (radixGen fuel) A = (tr ++ [(done, A')], A', Returned tt) /\
    faithful A tr A' /\ Forall (item_ok (len A)) tr /\
    accesses (inb (len A)) (events (radixGen fuel) A) /\
    exists S, Permutation (map scale_floor A) S /\ StronglySorted Z.le S /\
      (radix_max (map scale_floor A) = 0 -> A' = A) /\
      (1 <= radix_max (map scale_floor A) -> A' = map unscale S).
Proof.
  intros Hnn Hfuel Hdigits.
  set (A0 := map scale_floor A). set (max := radix_max A0).
  destruct (radix_max_spec A0) as [Hmax0 Hmax]. fold max in Hmax0, Hmax.
  assert (HA0 : Forall (fun v => 0 <= v /\ v <= max) A0).
  { apply Forall_forall. intros v Hv. split; [|now apply (proj1 (Forall_forall _ _) Hmax)].
    unfold A0 in Hv. apply list_elem_of_fmap in Hv as (x & -> & Hx).
    apply scale_floor_nonneg. now apply (proj1 (Forall_forall _ _) Hnn). }
  assert (T : triple (item_ok (len A)) (inb (len A))
            (m <- radix_max_loop A0 0 ;; radix_passes fuel fuel (len A) m A0 1) A
            (fun a' _ => exists S, Permutation A0 S /\ StronglySorted Z.le S /\
               (max < 1 -> a' = A /\ S = A0) /\ (1 <= max -> a' = map unscale S))).
  { eapply triple_bind; [apply radix_max_loop_spec|].
    intros a1 m [-> ->]. fold (radix_max A0). fold max.
    apply radix_passes_spec; auto; try lia.
    - unfold A0, len. now rewrite length_map.
    - apply (StronglySorted_on (fun _ => True) (fun _ _ => True)).
      + intros x y _ _ _. unfold le_mod. now rewrite !Z.mod_1_r.
      + now apply Forall_forall.
      + clear. induction A0; constructor; auto. now apply Forall_forall.
    - rewrite Z.mul_1_l. exact Hdigits.
    - unfold len. lia. }
  destruct (triple_then_done _ _ _ _ _ T)
    as (tr & A' & Hrun & Hf & HI & HJ & S & HS1 & HS2 & HS3 & HS4).
  exists tr, A'. rewrite run_bind_assoc in Hrun. rewrite events_bind_assoc in HJ.
  repeat split; auto.
  exists S. repeat split; auto. intros E. apply HS3. lia.
Qed.


(** * The driver's view: pulling step by step *)

Lemma pulls_None {R} k a : pulls k (None : iterator R) a = ([], None, a).
Proof. destruct k; reflexivity. Qed.

Lemma steps_of_next {R} (g : gen R) a :
  steps_of g a =
  match next g a with
  | Item s k a' => s :: steps_of k a'
  | End _ _ => []
  end.
Proof.
  unfold steps_of. rewrite (run_next g a).
  destruct (next g a) as [s k a'|o a']; [|reflexivity].
  now destruct (run k a') as [[tr af] o].
Qed.

(** [k] pulls deliver exactly the first [k] steps of the full run. *)
Lemma pulls_steps {R} k : forall (g : gen R) a,
  (pulls k (Some g) a).1.1 = take k (steps_of g a).
Proof.
  induction k as [|k IH]; intros g a; [reflexivity|].
  rewrite (steps_of_next g a). simpl.
  destruct (next g a) as [s g' a1|o a1]; [|reflexivity].
  specialize (IH g' a1).
  destruct (pulls k (Some g') a1) as [[ss it] b]. simpl in *. now rewrite IH.
Qed.

Lemma run_next_Item {R} (g g' : gen R) a s a1 tr a' o :
  run g a = (tr, a', o) -> next g a = Item s g' a1 ->
  exists tr', tr = (s, a1) :: tr' /\ run g' a1 = (tr', a', o).
Proof.
  intros Hrun Hn. rewrite (run_next g a), Hn in Hrun.
  destruct (run g' a1) as [[tr' af] o']. injection Hrun as <- <- <-. eauto.
Qed.

Lemma run_next_End {R} (g : gen R) a o1 a1 tr a' o :
  run g a = (tr, a', o) -> next g a = End o1 a1 ->
  tr = [] /\ a' = a1 /\ o = o1.
Proof.
  intros Hrun Hn. rewrite (run_next g a), Hn in Hrun. now injection Hrun as <- <- <-.
Qed.

(** After any number of pulls the array is the initial array with the
    pulled steps replayed on it. *)
Lemma pulls_replay {R} k : forall (g : gen R) a tr a' o,
  run g a = (tr, a', o) -> faithful a tr a' ->
  (pulls k (Some g) a).2 = replay (pulls k (Some g) a).1.1 a.
Proof.
  induction k as [|k IH]; intros g a tr a' o Hrun Hf; [reflexivity|].
  simpl. destruct (next g a) as [s g' a1|o1 a1] eqn:Hn.
  - destruct (run_next_Item _ _ _ _ _ _ _ _ Hrun Hn) as (tr' & -> & Hrun').
    destruct Hf as [-> Hf]. specialize (IH g' _ tr' a' o Hrun' Hf).
    destruct (pulls k (Some g') (replay1 s a)) as [[ss it] b]. simpl in *.
    exact IH.
  - destruct (run_next_End _ _ _ _ _ _ _ Hrun Hn) as (-> & -> & ->).
    simpl in *. congruence.
Qed.

(** The [k]-th step reports the change from the array the first [k]
    pulls left to its own snapshot. *)
Lemma pulls_before {R} k : forall (g : gen R) a tr a' o s b,
  run g a = (tr, a', o) -> faithful a tr a' -> tr !! k = Some (s, b) ->
  b = replay1 s (pulls k (Some g) a).2.
Proof.
  induction k as [|k IH]; intros g a tr a' o s b Hrun Hf Hk.
  - destruct tr as [|[s0 b0] tr]; [discriminate|]. simpl in *.
    injection Hk as -> ->. apply Hf.
  - simpl. destruct (next g a) as [s0 g' a1|o1 a1] eqn:Hn.
    + destruct (run_next_Item _ _ _ _ _ _ _ _ Hrun Hn) as (tr' & -> & Hrun').
      destruct Hf as [-> Hf]. simpl in Hk.
      specialize (IH g' _ tr' a' o s b Hrun' Hf Hk).
      destruct (pulls k (Some g') (replay1 s0 a)) as [[ss it] c]. exact IH.
    + destruct (run_next_End _ _ _ _ _ _ _ Hrun Hn) as (-> & _ & _). discriminate.
Qed.

Lemma pulls_add {R} k m : forall (it : iterator R) a,
  (pulls (k + m) it a).1.1 =
  (pulls k it a).1.1 ++ (pulls m (pulls k it a).1.2 (pulls k it a).2).1.1.
Proof.
  induction k as [|k IH]; intros it a; [reflexivity|].
  destruct it as [g|]; [|repeat (rewrite pulls_None; simpl); reflexivity].
  simpl. destruct (next g a) as [s g' a1|o a1].
  - specialize (IH (Some g') a1).
    destruct (pulls (k + m) (Some g') a1) as [[ss1 it1] b1].
    destruct (pulls k (Some g') a1) as [[ss2 it2] b2]. simpl in *. now rewrite IH.
  - simpl. now rewrite pulls_None.
Qed.

(** * Compare steps and comparisons *)

Lemma ann_mono {R} (g : gen R) : forall armed (K K' : bool -> R -> Prop),
  (forall ar r, K ar r -> K' ar r) -> ann armed g K -> ann armed g K'.
Proof.
  induction g as [r|s k IH|k IH|i k IH|i v k IH|op x y k IH|k IH|o];
    intros armed K K' HK; simpl; auto.
  - apply IH; auto.
  - intros H n. eapply IH; eauto.
  - intros H v. eapply IH; eauto.
  - apply IH; auto.
  - intros [H1 H2]. split; [easy|]. intros b. eapply IH; eauto.
  - intros H a. eapply IH; eauto.
Qed.

Lemma ann_bind {R S} (g : gen R) (f : R -> gen S) : forall armed K,
  ann armed g (fun ar r => ann ar (f r) K) -> ann armed (bind g f) K.
Proof.
  induction g as [r|s k IH|k IH|i k IH|i v k IH|op x y k IH|k IH|o];
    intros armed K; simpl; auto.
  intros [H1 H2]. split; auto.
Qed.

(** A body that satisfies [ann] whatever was pending, followed by code
    that does too. *)
Lemma ann_seq {R S} (g : gen R) (f : R -> gen S) armed K :
  ann armed g (fun _ _ => True) -> (forall ar r, ann ar (f r) K) ->
  ann armed (bind g f) K.
Proof.
  intros Hg Hf. apply ann_bind. eapply ann_mono; [|exact Hg]. simpl. auto.
Qed.

Lemma ann_events {R} (g : gen R) : forall armed K a,
  ann armed g K -> announced armed (events g a).
Proof.
  induction g as [r|s k IH|k IH|i k IH|i v k IH|op x y k IH|k IH|o];
    intros armed K a; simpl; eauto.
  - intros H. destruct (put a i v); simpl; eauto.
  - intros [H1 H2]. eauto.
Qed.

(** Steps through the effects of a loop body up to the recursive calls. *)
Ltac ann_body IH :=
  cbn; repeat first
    [ exact I
    | apply IH
    | match goal with
      | |- ann _ (swap_ _ _) _ => unfold swap_; cbn
      | |- ann _ (write_set _ _) _ => unfold write_set; cbn
      | |- ann _ (if ?c then _ else _) _ => destruct c; cbn
      | |- ann _ (bind _ _) _ => apply ann_seq; cbn
      | |- _ /\ _ => split; [reflexivity|]
      | |- forall _, _ => intro
      end ].

Lemma bubble_inner_ann : forall fuel n i j sw armed,
  ann armed (bubble_inner fuel n i j sw) (fun _ _ => True).
Proof.
  induction fuel as [|fuel IH]; intros n i j sw armed; [exact I|].
  ann_body IH.
Qed.

Lemma bubble_outer_ann budget : forall fuel n i armed,
  ann armed (bubble_outer budget fuel n i) (fun _ _ => True).
Proof.
  induction fuel as [|fuel IH]; intros n i armed; [exact I|].
  ann_body IH. apply bubble_inner_ann.
Qed.

Lemma merge_both_ann left right l m : forall fuel i j k armed,
  ann armed (merge_both fuel left right l m i j k) (fun _ _ => True).
Proof.
  induction fuel as [|fuel IH]; intros i j k armed; [exact I|].
  ann_body IH.
Qed.

Lemma merge_drain_ann buf : forall fuel i k armed,
  ann armed (merge_drain fuel buf i k) (fun _ _ => True).
Proof.
  induction fuel as [|fuel IH]; intros i k armed; [exact I|].
  ann_body IH.
Qed.

Lemma merge_phase_ann budget l m r armed :
  ann armed (merge_phase budget l m r) (fun _ _ => True).
Proof.
  unfold merge_phase. cbn. intros a1 a2.
  apply ann_seq; [apply merge_both_ann|]. intros ar [[i j] k].
  apply ann_seq; [apply merge_drain_ann|]. intros ar1 k1.
  apply ann_seq; [apply merge_drain_ann|]. intros ar2 k2. exact I.
Qed.

Lemma mergeRange_ann budget : forall fuel l r armed,
  ann armed (mergeRange budget fuel l r) (fun _ _ => True).
Proof.
  induction fuel as [|fuel IH]; intros l r armed; [exact I|].
  cbn. destruct (l >=? r); [exact I|].
  apply ann_seq; [apply IH|]. intros ar [].
  apply ann_seq; [apply IH|]. intros ar1 []. apply merge_phase_ann.
Qed.

Lemma siftDown_ann : forall fuel root end_ armed,
  ann armed (siftDown fuel root end_) (fun _ _ => True).
Proof.
  induction fuel as [|fuel IH]; intros root end_ armed; [exact I|].
  cbn. destruct (2 * root + 1 >? end_); [exact I|].
  destruct (2 * root + 1 + 1 <=? end_); ann_body IH.
Qed.

Lemma heap_build_ann budget : forall fuel n start armed,
  ann armed (heap_build budget fuel n start) (fun _ _ => True).
Proof.
  induction fuel as [|fuel IH]; intros n start armed; [exact I|].
  cbn. destruct (start >=? 0); [|exact I].
  apply ann_seq; [apply siftDown_ann|]. intros ar []. apply IH.
Qed.

Lemma heap_extract_ann budget : forall fuel end_ armed,
  ann armed (heap_extract budget fuel end_) (fun _ _ => True).
Proof.
  induction fuel as [|fuel IH]; intros end_ armed; [exact I|].
  ann_body IH; apply siftDown_ann.
Qed.

Lemma bubbleGen_announced fuel A : announced false (events (bubbleGen fuel) A).
Proof.
  apply (ann_events _ _ (fun _ _ => True)). unfold bubbleGen. cbn. intros n.
  apply ann_seq; [apply bubble_outer_ann|]. intros ar []. exact I.
Qed.

Lemma mergeGen_announced fuel A : announced false (events (mergeGen fuel) A).
Proof.
  apply (ann_events _ _ (fun _ _ => True)). unfold mergeGen. cbn. intros n.
  apply ann_seq; [apply mergeRange_ann|]. intros ar []. exact I.
Qed.

Lemma heapGen_announced fuel A : announced false (events (heapGen fuel) A).
Proof.
  apply (ann_events _ _ (fun _ _ => True)). unfold heapGen. cbn. intros n.
  apply ann_seq; [apply heap_build_ann|]. intros ar [].
  apply ann_seq; [apply heap_extract_ann|]. intros ar1 []. exact I.
Qed.

(** * The scans of quickGen's partition, event by event *)

Lemma scan_left_events a pv s : forall fuel i,
  0 <= i -> i <= s -> s < len a -> (pv <= val a s)%Q ->
  (Z.to_nat (s - i) < fuel)%nat ->
  exists passed : nat,
    events (scan_left fuel (Some pv) i) a = scan_log Lt a (Some pv) passed i 1 /\
    i + Z.of_nat passed <= s /\
    (forall k, i <= k -> k < i + Z.of_nat passed -> (val a k < pv)%Q) /\
    (pv <= val a (i + Z.of_nat passed))%Q.
Proof.
  induction fuel as [|fuel IH]; intros i Hi His Hs Hsent Hfuel; [lia|].
  cbn [scan_left events].
  assert (Ii : inb (len a) i) by (unfold inb; lia).
  rewrite (get_inb a i Ii). cbn [js_cmp].
  destruct (Qltb (val a i) pv) eqn:E.
  - apply Qltb_true in E.
    assert (i <> s) by (intros ->; eapply Qlt_not_le; eauto).
    destruct (IH (i + 1)) as (p & Hev & Hp1 & Hp2 & Hp3); try lia; auto.
    exists (S p). cbn [scan_log events]. rewrite (get_inb a i Ii), Hev.
    replace (i + Z.of_nat (S p)) with (i + 1 + Z.of_nat p) by lia.
    repeat split; auto; try lia.
    intros k Hk1 Hk2. destruct (Z.eq_dec k i) as [->|]; [easy|]. apply Hp2; lia.
  - apply Qltb_false in E. exists 0%nat. cbn [scan_log events].
    rewrite (get_inb a i Ii), Z.add_0_r. repeat split; auto; try lia.
Qed.

Lemma scan_right_events a pv s : forall fuel j,
  0 <= s -> s <= j -> j < len a -> (val a s <= pv)%Q ->
  (Z.to_nat (j - s) < fuel)%nat ->
  exists passed : nat,
    events (scan_right fuel (Some pv) j) a = scan_log Gt a (Some pv) passed j (-1) /\
    s <= j - Z.of_nat passed /\
    (forall k, j - Z.of_nat passed < k -> k <= j -> (pv < val a k)%Q) /\
    (val a (j - Z.of_nat passed) <= pv)%Q.
Proof.
  induction fuel as [|fuel IH]; intros j Hs0 Hsj Hj Hsent Hfuel; [lia|].
  cbn [scan_right events].
  assert (Ij : inb (len a) j) by (unfold inb; lia).
  rewrite (get_inb a j Ij). cbn [js_cmp].
  destruct (Qltb pv (val a j)) eqn:E.
  - apply Qltb_true in E.
    assert (j <> s) by (intros ->; eapply Qlt_not_le; eauto).
    destruct (IH (j - 1)) as (p & Hev & Hp1 & Hp2 & Hp3); try lia; auto.
    exists (S p). cbn [scan_log events]. rewrite (get_inb a j Ij).
    replace (j + -1) with (j - 1) by lia. rewrite Hev.
    replace (j - Z.of_nat (S p)) with (j - 1 - Z.of_nat p) by lia.
    repeat split; auto; try lia.
    intros k Hk1 Hk2. destruct (Z.eq_dec k j) as [->|]; [easy|]. apply Hp2; lia.
  - apply Qltb_false in E. exists 0%nat. cbn [scan_log events].
    rewrite (get_inb a j Ij), Z.sub_0_r. repeat split; auto; try lia.
Qed.

(** * siftDown stays inside the heap it is given *)

Lemma siftDown_safe n lo hi : forall fuel root a,
  0 <= lo -> lo <= root -> hi < n -> len a = n ->
  (Z.to_nat (hi + 1 - root) < fuel)%nat ->
  triple (range_item n lo hi) (within lo hi) (siftDown fuel root hi) a
    (fun a' _ => len a' = n).
Proof.
  induction fuel as [|fuel IH]; intros root a Hlo Hroot Hhi Hlen Hfuel; [lia|].
  simpl. rewrite Z.gtb_ltb.
  destruct (Z.ltb_spec hi (2 * root + 1)) as [Hleaf|Hchild];
    [now apply triple_ret|].
  set (c1 := 2 * root + 1) in *.
  assert (Ir : inb (len a) root) by (unfold inb; lia).
  assert (I1 : inb (len a) c1) by (unfold inb, c1; lia).
  assert (Hrest : forall child, c1 <= child -> child <= hi ->
            triple (range_item n lo hi) (within lo hi)
              (yield (compare root (Some child)) ;;
               x <- arr[ root ] ;;
               y <- arr[ child ] ;;
               b <- x js< y ;;
               if b then
                 swap_ root child ;;
                 yield (swap root child) ;;
                 siftDown fuel child hi
               else Ret tt) a
              (fun a' _ => len a' = n)).
  { intros child Hc1 Hc2.
    assert (Ic : inb (len a) child) by (unfold inb, c1 in *; lia).
    apply triple_yield; [easy | |].
    { split; [apply item_ok_compare2; auto; congruence | simpl; unfold c1 in *; lia]. }
    apply triple_load; [unfold within, c1 in *; lia|].
    apply triple_load; [unfold within, c1 in *; lia|]. apply triple_cmp.
    destruct (js_cmp Lt (get a root) (get a child)); [|now apply triple_ret].
    apply triple_swap; auto; try (unfold within, c1 in *; lia).
    { split; [apply item_ok_swap; auto; congruence | simpl; unfold c1 in *; lia]. }
    apply IH; auto; try (unfold c1 in *; lia). now rewrite len_exchange. }
  destruct (Z.leb_spec (c1 + 1) hi) as [Htwo|Hone].
  - assert (I2 : inb (len a) (c1 + 1)) by (unfold inb, c1; lia).
    cbn [bind]. apply triple_yield; [easy | |].
    { split; [apply item_ok_compare2; auto; congruence | simpl; unfold c1; lia]. }
    apply triple_load; [unfold within, c1 in *; lia|].
    apply triple_load; [unfold within, c1 in *; lia|]. apply triple_cmp.
    destruct (js_cmp Lt (get a c1) (get a (c1 + 1))); cbn [bind];
      apply Hrest; lia.
  - cbn [bind]. apply Hrest; lia.
Qed.

(** ** radixGen: compare steps that announce no comparison *)

Lemma unann_mono {R} (g : gen R) : forall armed (K K' : bool -> R -> Prop),
  (forall ar r, K ar r -> K' ar r) -> unann armed g K -> unann armed g K'.
Proof.
  induction g as [r|s k IH|k IH|i k IH|i v k IH|op x y k IH|k IH|o];
    intros armed K K' HK; simpl; auto.
  - apply IH; auto.
  - intros H n. eapply IH; eauto.
  - intros H v. eapply IH; eauto.
  - apply IH; auto.
  - intros [H1 H2]. split; [easy|]. intros b. eapply IH; eauto.
  - intros H a. eapply IH; eauto.
Qed.

Lemma unann_bind {R S} (g : gen R) (f : R -> gen S) : forall armed K,
  unann armed g (fun ar r => unann ar (f r) K) -> unann armed (bind g f) K.
Proof.
  induction g as [r|s k IH|k IH|i k IH|i v k IH|op x y k IH|k IH|o];
    intros armed K; simpl; auto.
  intros [H1 H2]. split; auto.
Qed.

Lemma unann_then {R S} (g : gen R) (f : R -> gen S) armed
  (K1 : bool -> R -> Prop) K :
  unann armed g K1 -> (forall ar r, K1 ar r -> unann ar (f r) K) ->
  unann armed (bind g f) K.
Proof.
  intros Hg Hf. apply unann_bind. eapply unann_mono; [|exact Hg]. exact Hf.
Qed.

Lemma unann_events {R} (g : gen R) : forall armed K a,
  unann armed g K -> unannounced armed (events g a).
Proof.
  induction g as [r|s k IH|k IH|i k IH|i v k IH|op x y k IH|k IH|o];
    intros armed K a; simpl; eauto.
  - intros H. destruct (put a i v); simpl; eauto.
  - intros [H1 H2]. eauto.
Qed.

(** The search for the maximum compares with no step pending. *)
Lemma radix_max_loop_unann (A : list Z) : forall max,
  unann false (radix_max_loop A max) (fun ar _ => ar = false).
Proof.
  induction A as [|v A IH]; intros max; simpl; [reflexivity|].
  split; [reflexivity|]. intros b. apply IH.
Qed.

(** Bucketing leaves a [compare] step pending only when it has filled a
    bucket. *)
Lemma radix_distribute_unann n A exp : forall fuel buckets i armed,
  length buckets = 10%nat ->
  (armed = true -> Exists (fun bk => bk <> []) buckets) ->
  unann armed (radix_distribute fuel n A exp buckets i)
    (fun ar bs => length bs = 10%nat /\
                  (ar = true -> Exists (fun bk => bk <> []) bs)).
Proof.
  induction fuel as [|fuel IH]; intros buckets i armed Hlen Harm; [exact I|].
  cbn [radix_distribute]. destruct (i <? n); [|simpl; auto].
  destruct (if i <? 0 then None else A !! Z.to_nat i) as [v|]; [|exact I].
  cbn [unann]. unfold bucket_push.
  destruct ((0 <=? digit v exp) && (digit v exp <? len buckets)) eqn:Hd; [|exact I].
  destruct (buckets !! Z.to_nat (digit v exp)) as [bk|] eqn:Hbk; [|exact I].
  apply IH.
  - now rewrite length_insert.
  - intros _. apply Exists_exists. exists (bk ++ [v]). split.
    + apply list_elem_of_lookup. exists (Z.to_nat (digit v exp)).
      apply list_lookup_insert_eq. now apply lookup_lt_Some in Hbk.
    + now destruct bk.
Qed.

(** Writing a bucket back ends with a [set] step, unless it is empty. *)
Lemma radix_collect_bucket_unann : forall bucket A idx armed,
  unann armed (radix_collect_bucket bucket A idx)
    (fun ar _ => (bucket <> [] -> ar = false) /\ (bucket = [] -> ar = armed)).
Proof.
  induction bucket as [|v bucket IH]; intros A idx armed; simpl; [easy|].
  destruct (local_set A idx v) as [A'|]; [|exact I].
  unfold write_set. cbn. intros w.
  eapply unann_mono; [|apply IH]. simpl. intros ar r [H1 H2].
  split; [|easy]. intros _. destruct bucket; [now apply H2 | now apply H1].
Qed.

Lemma radix_collect_unann buckets : forall fuel b A idx armed,
  0 <= b -> length buckets = 10%nat ->
  (armed = true -> Exists (fun bk => bk <> []) (drop (Z.to_nat b) buckets)) ->
  unann armed (radix_collect fuel buckets b A idx) (fun ar _ => ar = false).
Proof.
  induction fuel as [|fuel IH]; intros b A idx armed Hb Hlen Harm; [exact I|].
  cbn [radix_collect]. destruct (Z.ltb_spec b 10) as [Hlt|Hge].
  - destruct (Z.ltb_spec b 0); [lia|].
    destruct (buckets !! Z.to_nat b) as [bucket|] eqn:Hbk; [|exact I].
    eapply unann_then; [apply radix_collect_bucket_unann|].
    intros ar [A1 idx1] [H1 H2]. apply IH; [lia | exact Hlen |].
    intros ->. destruct bucket as [|v bucket]; [|now discriminate H1].
    specialize (H2 eq_refl). symmetry in H2. specialize (Harm H2).
    rewrite (drop_S _ _ _ Hbk) in Harm. apply Exists_cons in Harm as [Hne|Hex].
    + now contradiction Hne.
    + now replace (Z.to_nat (b + 1)) with (S (Z.to_nat b)) by lia.
  - simpl. destruct armed; [|reflexivity].
    specialize (Harm eq_refl). rewrite drop_ge in Harm by lia.
    now apply Exists_nil in Harm.
Qed.

Lemma radix_passes_unann budget n max : forall fuel A exp,
  unann false (radix_passes budget fuel n max A exp) (fun ar _ => ar = false).
Proof.
  induction fuel as [|fuel IH]; intros A exp; [exact I|].
  cbn [radix_passes unann]. split; [reflexivity|]. intros [|]; [|reflexivity].
  eapply unann_then.
  { apply radix_distribute_unann; [reflexivity | discriminate]. }
  intros ar buckets [Hlen Harm].
  eapply unann_then.
  { apply radix_collect_unann; [lia | exact Hlen | exact Harm]. }
  intros ar1 A1 ->. apply IH.
Qed.

Lemma radixGen_unannounced fuel A : unannounced false (events (radixGen fuel) A).
Proof.
  apply (unann_events _ _ (fun _ _ => True)). unfold radixGen. cbn. intros n a0.
  eapply unann_then; [apply radix_max_loop_unann|]. intros ar max ->.
  eapply unann_then; [apply radix_passes_unann|]. intros ar [] ->. exact I.
Qed.


(** * More fuel changes nothing *)

Lemma approx_refl {R} (g : gen R) : approx g g.
Proof. induction g; constructor; auto. Qed.

Lemma approx_bind {R S} (g g' : gen R) (f f' : R -> gen S) :
  approx g g' -> (forall r, approx (f r) (f' r)) ->
  approx (bind g f) (bind g' f').
Proof.
  intros Hg Hf. induction Hg; simpl; try (constructor; auto; fail).
  apply Hf.
Qed.

(** A run that ends normally is the run of every body with more fuel. *)
Lemma approx_run {R} (g g' : gen R) :
  approx g g' -> forall a tr a' r,
  run g a = (tr, a', Returned r) -> run g' a = (tr, a', Returned r).
Proof.
  induction 1 as [g'|r0|s k k' Hk IH|k k' Hk IH|i k k' Hk IH|i v k k' Hk IH
                  |op x y k k' Hk IH|k k' Hk IH|o];
    intros a tr a' r; simpl; auto.
  - discriminate.
  - destruct (run k a) as [[tr1 a1] o] eqn:E. intros [= <- <- ->].
    now rewrite (IH _ _ _ _ E).
  - destruct (put a i v) as [a1|]; [apply IH | discriminate].
Qed.

Lemma approx_events {R} (g g' : gen R) :
  approx g g' -> forall a tr a' r,
  run g a = (tr, a', Returned r) -> events g' a = events g a.
Proof.
  induction 1 as [g'|r0|s k k' Hk IH|k k' Hk IH|i k k' Hk IH|i v k k' Hk IH
                  |op x y k k' Hk IH|k k' Hk IH|o];
    intros a tr a' r; simpl; eauto.
  - discriminate.
  - destruct (run k a) as [[tr1 a1] o] eqn:E. intros [= <- <- ->].
    f_equal. eapply IH; eauto.
  - intros Hr. f_equal. eapply IH; eauto.
  - destruct (put a i v) as [a1|]; [|discriminate].
    intros Hr. f_equal. eapply IH; eauto.
  - intros Hr. f_equal. eapply IH; eauto.
Qed.

(** Steps through a loop body, both sides at once, up to the calls of
    loops; those are closed by the lemmas in the context. *)
Ltac approx_body :=
  cbn; repeat first
    [ progress intros
    | match goal with
      | |- approx (if ?c then _ else _) _ => destruct c
      | |- approx (match ?x with _ => _ end) _ => destruct x
      | |- approx (bind _ _) (bind _ _) => apply approx_bind
      | |- approx (Yield _ _) _ => apply approx_Yield
      | |- approx (Load _ _) _ => apply approx_Load
      | |- approx (Store _ _ _) _ => apply approx_Store
      | |- approx (Cmp _ _ _ _) _ => apply approx_Cmp
      | |- approx (Len _) _ => apply approx_Len
      | |- approx (Copy _) _ => apply approx_Copy
      | |- approx ?g ?g => apply approx_refl
      | H : forall _, _ |- approx _ _ => apply H; lia
      end ].

Lemma bubble_inner_approx : forall fuel fuel' n i j sw, (fuel <= fuel')%nat ->
  approx (bubble_inner fuel n i j sw) (bubble_inner fuel' n i j sw).
Proof.
  induction fuel as [|fuel IH]; intros [|fuel'] n i j sw Hle;
    try lia; try apply approx_fuel.
  approx_body.
Qed.

Lemma bubble_outer_approx : forall budget budget' fuel fuel' n i,
  (budget <= budget')%nat -> (fuel <= fuel')%nat ->
  approx (bubble_outer budget fuel n i) (bubble_outer budget' fuel' n i).
Proof.
  intros budget budget'.
  induction fuel as [|fuel IH]; intros [|fuel'] n i Hb Hle;
    try lia; try apply approx_fuel.
  pose proof bubble_inner_approx as H1. approx_body.
Qed.

Lemma bubbleGen_approx fuel fuel' : (fuel <= fuel')%nat ->
  approx (bubbleGen fuel) (bubbleGen fuel').
Proof.
  intros Hle. pose proof bubble_outer_approx as H1. unfold bubbleGen. approx_body.
Qed.

Lemma scan_left_approx : forall fuel fuel' pivot i, (fuel <= fuel')%nat ->
  approx (scan_left fuel pivot i) (scan_left fuel' pivot i).
Proof.
  induction fuel as [|fuel IH]; intros [|fuel'] pivot i Hle;
    try lia; try apply approx_fuel.
  approx_body.
Qed.

Lemma scan_right_approx : forall fuel fuel' pivot j, (fuel <= fuel')%nat ->
  approx (scan_right fuel pivot j) (scan_right fuel' pivot j).
Proof.
  induction fuel as [|fuel IH]; intros [|fuel'] pivot j Hle;
    try lia; try apply approx_fuel.
  approx_body.
Qed.

Lemma partition_approx : forall budget budget' fuel fuel' pivot i j,
  (budget <= budget')%nat -> (fuel <= fuel')%nat ->
  approx (partition budget fuel pivot i j) (partition budget' fuel' pivot i j).
Proof.
  intros budget budget'.
  induction fuel as [|fuel IH]; intros [|fuel'] pivot i j Hb Hle;
    try lia; try apply approx_fuel.
  pose proof scan_left_approx as H1. pose proof scan_right_approx as H2.
  approx_body.
Qed.

Lemma quick_loop_approx : forall budget budget' fuel fuel' stack,
  (budget <= budget')%nat -> (fuel <= fuel')%nat ->
  approx (quick_loop budget fuel stack) (quick_loop budget' fuel' stack).
Proof.
  intros budget budget'.
  induction fuel as [|fuel IH]; intros [|fuel'] stack Hb Hle;
    try lia; try apply approx_fuel.
  pose proof partition_approx as H1. approx_body.
Qed.

Lemma quickGen_approx fuel fuel' : (fuel <= fuel')%nat ->
  approx (quickGen fuel) (quickGen fuel').
Proof.
  intros Hle. pose proof quick_loop_approx as H1. unfold quickGen. approx_body.
Qed.

Lemma merge_both_approx : forall fuel fuel' left right l m i j k,
  (fuel <= fuel')%nat ->
  approx (merge_both fuel left right l m i j k)
         (merge_both fuel' left right l m i j k).
Proof.
  induction fuel as [|fuel IH]; intros [|fuel'] left right l m i j k Hle;
    try lia; try apply approx_fuel.
  approx_body.
Qed.

Lemma merge_drain_approx : forall fuel fuel' buf i k, (fuel <= fuel')%nat ->
  approx (merge_drain fuel buf i k) (merge_drain fuel' buf i k).
Proof.
  induction fuel as [|fuel IH]; intros [|fuel'] buf i k Hle;
    try lia; try apply approx_fuel.
  approx_body.
Qed.

Lemma merge_phase_approx budget budget' l m r : (budget <= budget')%nat ->
  approx (merge_phase budget l m r) (merge_phase budget' l m r).
Proof.
  intros Hle. pose proof merge_both_approx as H1.
  pose proof merge_drain_approx as H2. unfold merge_phase. approx_body.
Qed.

Lemma mergeRange_approx : forall budget budget' fuel fuel' l r,
  (budget <= budget')%nat -> (fuel <= fuel')%nat ->
  approx (mergeRange budget fuel l r) (mergeRange budget' fuel' l r).
Proof.
  intros budget budget'.
  induction fuel as [|fuel IH]; intros [|fuel'] l r Hb Hle;
    try lia; try apply approx_fuel.
  pose proof merge_phase_approx as H1. approx_body.
Qed.

Lemma mergeGen_approx fuel fuel' : (fuel <= fuel')%nat ->
  approx (mergeGen fuel) (mergeGen fuel').
Proof.
  intros Hle. pose proof mergeRange_approx as H1. unfold mergeGen. approx_body.
Qed.

Lemma siftDown_approx : forall fuel fuel' root end_, (fuel <= fuel')%nat ->
  approx (siftDown fuel root end_) (siftDown fuel' root end_).
Proof.
  induction fuel as [|fuel IH]; intros [|fuel'] root end_ Hle;
    try lia; try apply approx_fuel.
  approx_body.
Qed.

Lemma heap_build_approx : forall budget budget' fuel fuel' n start,
  (budget <= budget')%nat -> (fuel <= fuel')%nat ->
  approx (heap_build budget fuel n start) (heap_build budget' fuel' n start).
Proof.
  intros budget budget'.
  induction fuel as [|fuel IH]; intros [|fuel'] n start Hb Hle;
    try lia; try apply approx_fuel.
  pose proof siftDown_approx as H1. approx_body.
Qed.

Lemma heap_extract_approx : forall budget budget' fuel fuel' end_,
  (budget <= budget')%nat -> (fuel <= fuel')%nat ->
  approx (heap_extract budget fuel end_) (heap_extract budget' fuel' end_).
Proof.
  intros budget budget'.
  induction fuel as [|fuel IH]; intros [|fuel'] end_ Hb Hle;
    try lia; try apply approx_fuel.
  pose proof siftDown_approx as H1. approx_body.
Qed.

Lemma heapGen_approx fuel fuel' : (fuel <= fuel')%nat ->
  approx (heapGen fuel) (heapGen fuel').
Proof.
  intros Hle. pose proof heap_build_approx as H1.
  pose proof heap_extract_approx as H2. unfold heapGen. approx_body.
Qed.

Lemma radix_distribute_approx : forall fuel fuel' n A exp buckets i,
  (fuel <= fuel')%nat ->
  approx (radix_distribute fuel n A exp buckets i)
         (radix_distribute fuel' n A exp buckets i).
Proof.
  induction fuel as [|fuel IH]; intros [|fuel'] n A exp buckets i Hle;
    try lia; try apply approx_fuel.
  approx_body.
Qed.

Lemma radix_collect_approx : forall fuel fuel' buckets b A idx,
  (fuel <= fuel')%nat ->
  approx (radix_collect fuel buckets b A idx)
         (radix_collect fuel' buckets b A idx).
Proof.
  induction fuel as [|fuel IH]; intros [|fuel'] buckets b A idx Hle;
    try lia; try apply approx_fuel.
  approx_body.
Qed.

Lemma radix_passes_approx : forall budget budget' fuel fuel' n max A exp,
  (budget <= budget')%nat -> (fuel <= fuel')%nat ->
  approx (radix_passes budget fuel n max A exp)
         (radix_passes budget' fuel' n max A exp).
Proof.
  intros budget budget'.
  induction fuel as [|fuel IH]; intros [|fuel'] n max A exp Hb Hle;
    try lia; try apply approx_fuel.
  pose proof radix_distribute_approx as H1.
  pose proof radix_collect_approx as H2. approx_body.
Qed.

Lemma radixGen_approx fuel fuel' : (fuel <= fuel')%nat ->
  approx (radixGen fuel) (radixGen fuel').
Proof.
  intros Hle. pose proof radix_passes_approx as H1. unfold radixGen. approx_body.
Qed.

Lemma generator_approx alg fuel fuel' : (fuel <= fuel')%nat ->
  approx (generator alg fuel) (generator alg fuel').
Proof.
  intros Hle. destruct alg; simpl.
  - now apply bubbleGen_approx.
  - now apply quickGen_approx.
  - now apply mergeGen_approx.
  - now apply heapGen_approx.
  - now apply radixGen_approx.
Qed.


(** * The five generators together *)

Lemma scale_floor_lt_scale x : (x < 1)%Q -> scale_floor x <= 999.
Proof.
  intros H. unfold scale_floor, scale.
  assert (Qfloor (x * inject_Z 1000) < 1000); [|lia].
  rewrite Zlt_Qlt. eapply Qle_lt_trans; [apply Qfloor_le|].
  change (inject_Z 1000) with (1000 # 1)%Q. lra.
Qed.

Lemma radix_max_le (l : list Z) (B : Z) :
  0 <= B -> Forall (fun v => v <= B) l -> radix_max l <= B.
Proof.
  intros HB Hl. unfold radix_max.
  assert (G : forall m0, m0 <= B ->
            fold_left (fun max v => if v >? max then v else max) l m0 <= B).
  { induction Hl as [|x l Hx Hl IH]; intros m0 Hm0; simpl; [lia|].
    apply IH. destruct (x >? m0); lia. }
  now apply G.
Qed.

Lemma radix_max_zero (l : list Z) :
  Forall (fun v => v = 0) l -> radix_max l = 0.
Proof.
  intros H. destruct (radix_max_spec l) as [H0 _].
  pose proof (radix_max_le l 0 ltac:(lia)) as Hle.
  assert (radix_max l <= 0); [|lia].
  apply Hle. eapply Forall_impl; [exact H|]. simpl. intros; lia.
Qed.

Lemma radix_max_pos (l : list Z) :
  Exists (fun v => 1 <= v) l -> 1 <= radix_max l.
Proof.
  intros H. destruct (radix_max_spec l) as [_ Hmax].
  apply Exists_exists in H as (v & Hv & Hv1).
  rewrite Forall_forall in Hmax. specialize (Hmax v Hv). lia.
Qed.

Lemma in_domain_radix_fuel A fuel :
  in_domain radix A -> enough A fuel ->
  Forall (fun x => (0 <= x)%Q) A /\ (length A + 11 < fuel)%nat /\
  radix_max (map scale_floor A) < 10 ^ (Z.of_nat fuel - 1).
Proof.
  unfold in_domain, enough. intros HA Hfuel. split; [|split; [lia|]].
  - eapply Forall_impl; [exact HA|]. simpl. tauto.
  - assert (radix_max (map scale_floor A) <= 999).
    { apply radix_max_le; [lia|]. apply Forall_fmap.
      eapply Forall_impl; [exact HA|]. simpl. intros x [_ Hx].
      now apply scale_floor_lt_scale. }
    assert (10 ^ 3 <= 10 ^ (Z.of_nat fuel - 1)) by (apply Z.pow_le_mono_r; lia).
    change (10 ^ 3) with 1000 in *. lia.
Qed.

Lemma bubble_item_ok n it : bubble_item n it -> item_ok n it.
Proof. now intros [H _]. Qed.

(** On its domain and with enough fuel every generator runs to its end:
    a faithful trace of in-range steps, none of them [done], and then the
    one [done]. *)
Lemma generator_run alg (A : list Q) (fuel : nat) :
  in_domain alg A -> enough A fuel ->
  exists tr A',
    run (generator alg fuel) A = (tr ++ [(done, A')], A', Returned tt) /\
    faithful A tr A' /\ Forall (item_ok (len A)) tr /\
    accesses (inb (len A)) (events (generator alg fuel) A).
Proof.
  intros Hdom Hfuel. pose proof Hfuel as Hfuel'. unfold enough in Hfuel'.
  destruct alg; simpl.
  - destruct (bubbleGen_run A fuel) as (tr & A' & H1 & H2 & H3 & H4 & _); [lia|].
    exists tr, A'. repeat split; auto.
    eapply Forall_impl; [exact H3 | apply bubble_item_ok].
  - destruct (quickGen_run A fuel) as (tr & A' & H1 & H2 & H3 & H4 & _); [lia|].
    eauto 6.
  - destruct (mergeGen_run A fuel) as (tr & A' & H1 & H2 & H3 & H4 & _); [lia|].
    eauto 6.
  - destruct (heapGen_run A fuel) as (tr & A' & H1 & H2 & H3 & H4 & _); [lia|].
    eauto 6.
  - destruct (in_domain_radix_fuel A fuel Hdom Hfuel) as (Ha & Hb & Hc).
    destruct (radixGen_run A fuel Ha Hb Hc) as (tr & A' & H1 & H2 & H3 & H4 & _).
    eauto 6.
Qed.

Lemma Permutation_len (a b : list Q) : Permutation a b -> len a = len b.
Proof. intros H. unfold len. now rewrite (Permutation_length H). Qed.

Lemma sorted_on_Sorted (a : list Q) :
  sorted_on a 0 (len a - 1) -> Sorted Qle a.
Proof. intros H. now apply StronglySorted_Sorted, sorted_on_StronglySorted. Qed.

Lemma unscale_mono v w : v <= w -> (unscale v <= unscale w)%Q.
Proof.
  intros H. unfold unscale, scale. apply Qmult_le_compat_r.
  - now rewrite <- Zle_Qle.
  - discriminate.
Qed.

Lemma Sorted_unscale (S : list Z) :
  StronglySorted Z.le S -> Sorted Qle (map unscale S).
Proof.
  intros H. apply StronglySorted_Sorted.
  induction H as [|x S HS IH Hx]; [constructor|]. simpl. constructor; [exact IH|].
  apply Forall_fmap. eapply Forall_impl; [exact Hx|]. simpl.
  intros y Hy. now apply unscale_mono.
Qed.

Lemma scale_floor_small x :
  (0 <= x)%Q -> (x < 1 # 1000)%Q -> scale_floor x = 0.
Proof.
  intros H0 H1. unfold scale_floor, scale. apply Qfloor_unique.
  - change (inject_Z 0) with 0%Q. change (inject_Z 1000) with (1000 # 1)%Q. lra.
  - change (inject_Z (0 + 1)) with 1%Q. change (inject_Z 1000) with (1000 # 1)%Q. lra.
Qed.

Lemma scale_floor_atleast x : (1 # 1000 <= x)%Q -> 1 <= scale_floor x.
Proof.
  intros H. unfold scale_floor, scale.
  change 1 with (Qfloor (inject_Z 1)) at 1. apply Qfloor_resp_le.
  change (inject_Z 1) with 1%Q. change (inject_Z 1000) with (1000 # 1)%Q. lra.
Qed.

(** Scaled, rounded down and scaled back, a value has moved down by less
    than 0.001. *)
Lemma unscale_near x : near x (unscale (scale_floor x)).
Proof.
  unfold near, unscale, scale_floor, scale.
  pose proof (Qfloor_le (x * inject_Z 1000)) as H1.
  pose proof (Qlt_floor (x * inject_Z 1000)) as H2.
  rewrite inject_Z_plus in H2.
  change (inject_Z 1) with 1%Q in H2.
  change (inject_Z 1000) with (1000 # 1)%Q in *.
  set (f := inject_Z (Qfloor (x * (1000 # 1)))) in *.
  assert (E : (f / (1000 # 1) == f * (1 # 1000))%Q) by (field; discriminate).
  rewrite E. split; lra.
Qed.

Lemma Forall2_near_unscale (B : list Q) :
  Forall2 near B (map unscale (map scale_floor B)).
Proof.
  induction B as [|x B IH]; simpl; constructor; [apply unscale_near | exact IH].
Qed.

(** C1, as corrected.  For every array, bubbleGen, quickGen, mergeGen and
    heapGen driven to exhaustion end normally and leave the array
    non-decreasing and a permutation of the input.  radixGen, on its
    domain [0,1), ends normally too, but it does not keep the values:
    it leaves the array as it was when every element is below 0.001
    (sorted or not), and otherwise leaves it non-decreasing, a
    rearrangement of the input in which every value has moved by less
    than 0.002. *)
Theorem C1_sorted_permutation (alg : algo) (A : list Q) (fuel : nat) :
  in_domain alg A -> enough A fuel ->
  outcome_of (generator alg fuel) A = Returned tt /\
  match alg with
  | radix =>
      (Forall (fun x => (x < 1 # 1000)%Q) A ->
       final_of (generator alg fuel) A = A) /\
      (Exists (fun x => (1 # 1000 <= x)%Q) A ->
       Sorted Qle (final_of (generator alg fuel) A) /\
       exists B, Permutation A B /\
                 Forall2 near B (final_of (generator alg fuel) A))
  | _ =>
      Sorted Qle (final_of (generator alg fuel) A) /\
      Permutation A (final_of (generator alg fuel) A)
  end.
Proof.
  intros Hdom Hfuel. pose proof Hfuel as Hfuel'. unfold enough in Hfuel'.
  unfold outcome_of, final_of. destruct alg; simpl generator.
  - destruct (bubbleGen_run A fuel) as (tr & A' & -> & _ & _ & _ & HP & Hs); [lia|].
    simpl. repeat split; auto. apply sorted_on_Sorted.
    now rewrite <- (Permutation_len _ _ HP).
  - destruct (quickGen_run A fuel) as (tr & A' & -> & _ & _ & _ & HP & Hs); [lia|].
    simpl. repeat split; auto. apply sorted_on_Sorted.
    now rewrite <- (Permutation_len _ _ HP).
  - destruct (mergeGen_run A fuel) as (tr & A' & -> & _ & _ & _ & HP & Hs); [lia|].
    simpl. auto.
  - destruct (heapGen_run A fuel) as (tr & A' & -> & _ & _ & _ & HP & Hs); [lia|].
    simpl. repeat split; auto. apply sorted_on_Sorted.
    now rewrite <- (Permutation_len _ _ HP).
  - destruct (in_domain_radix_fuel A fuel Hdom Hfuel) as (Ha & Hb & Hc).
    destruct (radixGen_run A fuel Ha Hb Hc)
      as (tr & A' & -> & _ & _ & _ & S & HS1 & HS2 & HS3 & HS4).
    simpl. split; [easy|]. split.
    + intros Hz. apply HS3, radix_max_zero. apply Forall_fmap.
      rewrite Forall_forall in Hz, Ha. apply Forall_forall. intros x Hx. simpl.
      apply scale_floor_small; auto.
    + intros Hex. rewrite HS4.
      * split; [now apply Sorted_unscale|].
        symmetry in HS1. apply Permutation_map_inv in HS1 as (B & -> & HB).
        exists B. split; [exact HB | apply Forall2_near_unscale].
      * apply radix_max_pos. apply Exists_exists in Hex as (x & Hx & Hx1).
        apply Exists_exists. exists (scale_floor x).
        split; [apply list_elem_of_fmap; eauto | now apply scale_floor_atleast].
Qed.

(** Fuel beyond a bound [b] is [b] plus something. *)
Lemma fuel_split (b fuel : nat) : (b <= fuel)%nat -> exists k, fuel = (b + k)%nat.
Proof. intros H. exists (fuel - b)%nat. lia. Qed.

(** C1 at a radix input of three values in [0,1). *)
Lemma C1_sorted_permutation_witness :
  in_domain radix [1 # 10; 2 # 100; 3 # 10]%Q /\
  enough [1 # 10; 2 # 100; 3 # 10]%Q 18 /\
  outcome_of (generator radix 18) [1 # 10; 2 # 100; 3 # 10]%Q = Returned tt.
Proof.
  assert (D : in_domain radix [1 # 10; 2 # 100; 3 # 10]%Q).
  { repeat constructor; unfold Qle, Qlt; simpl; lia. }
  assert (E : enough [1 # 10; 2 # 100; 3 # 10]%Q 18).
  { unfold enough. simpl. lia. }
  split; [exact D|]. split; [exact E|].
  exact (proj1 (C1_sorted_permutation radix _ 18 D E)).
Defined.

(** C1 as stated fails for radixGen: an unsorted array whose values are
    all below 0.001 is left unsorted, and 0.1234 is replaced by 0.123,
    so that the result is no permutation of the input. *)
Lemma C1_counterexample :
  (in_domain radix [5 # 10000; 1 # 10000]%Q /\
   enough [5 # 10000; 1 # 10000]%Q 16 /\
   ~ Sorted Qle (final_of (generator radix 16) [5 # 10000; 1 # 10000]%Q) /\
   forall fuel, enough [5 # 10000; 1 # 10000]%Q fuel ->
     final_of (generator radix fuel) [5 # 10000; 1 # 10000]%Q
       = [5 # 10000; 1 # 10000]%Q) /\
  (in_domain radix [1234 # 10000]%Q /\
   enough [1234 # 10000]%Q 16 /\
   ~ Permutation [1234 # 10000]%Q
       (final_of (generator radix 16) [1234 # 10000]%Q) /\
   forall fuel, enough [1234 # 10000]%Q fuel ->
     final_of (generator radix fuel) [1234 # 10000]%Q = [123 # 1000]%Q).
Proof.
  split; (split; [repeat constructor; unfold Qle, Qlt; simpl; lia|]);
    (split; [unfold enough; simpl; lia|]).
  - assert (E : forall fuel, enough [5 # 10000; 1 # 10000]%Q fuel ->
              final_of (generator radix fuel) [5 # 10000; 1 # 10000]%Q
              = [5 # 10000; 1 # 10000]%Q).
    { intros fuel Hfuel. unfold enough in Hfuel. simpl in Hfuel.
      destruct (fuel_split 16 fuel Hfuel) as [k ->]. vm_compute. reflexivity. }
    split; [|exact E].
    rewrite E by (unfold enough; simpl; lia).
    intros Hs. inversion Hs as [|x l Hl Hhd]; subst.
    inversion Hhd as [|y l' Hxy]; subst. unfold Qle in Hxy. simpl in Hxy. lia.
  - assert (E : forall fuel, enough [1234 # 10000]%Q fuel ->
              final_of (generator radix fuel) [1234 # 10000]%Q
              = [123 # 1000]%Q).
    { intros fuel Hfuel. unfold enough in Hfuel. simpl in Hfuel.
      destruct (fuel_split 14 fuel Hfuel) as [k ->]. vm_compute. reflexivity. }
    split; [|exact E].
    rewrite E by (unfold enough; simpl; lia).
    intros HP. apply Permutation_length_1_inv in HP. discriminate.
Qed.

(** C2.  Every index carried by a step of any of the five generators is
    an index of the working array as it is when the step is yielded, and
    every slot a generator reads or writes is a slot of the array.  In
    quickGen the partition of a range [l..r] yields only steps on
    [l..r] and reads and writes only slots of [l..r] (also with the
    read that ends a scan), and its pointers end at most one slot outside
    the range; in heapGen [siftDown(start, end)] yields only steps on
    [start..end] and reads and writes only slots of [start..end]. *)
Theorem C2_indices_valid :
  (forall (alg : algo) (A : list Q) (fuel : nat),
     in_domain alg A -> enough A fuel ->
     outcome_of (generator alg fuel) A = Returned tt /\
     Forall (fun it => step_ok (len it.2) it.1)
            (run (generator alg fuel) A).1.1 /\
     accesses (inb (len A)) (events (generator alg fuel) A)) /\
  (forall (a : list Q) (l r : Z) (budget : nat),
     0 <= l -> l < r -> r < len a -> (Z.to_nat (len a) + 1 < budget)%nat ->
     exists tr a' i j,
       run (pivot <- arr[ (l + r) / 2 ] ;; partition budget budget pivot l r) a
         = (tr, a', Returned (i, j)) /\
       Forall (fun it => step_ok (len it.2) it.1 /\ step_within l r it.1) tr /\
       accesses (within l r)
         (events (pivot <- arr[ (l + r) / 2 ] ;;
                  partition budget budget pivot l r) a) /\
       l < i /\ i <= r + 1 /\ l - 1 <= j /\ j < r) /\
  (forall (a : list Q) (start end_ : Z) (fuel : nat),
     0 <= start -> end_ < len a ->
     (Z.to_nat (end_ + 1 - start) < fuel)%nat ->
     exists tr a',
       run (siftDown fuel start end_) a = (tr, a', Returned tt) /\
       Forall (fun it => step_ok (len it.2) it.1 /\ step_within start end_ it.1)
              tr /\
       accesses (within start end_) (events (siftDown fuel start end_) a)).
Proof.
  split; [|split].
  - intros alg A fuel Hdom Hfuel. unfold outcome_of.
    destruct (generator_run alg A fuel Hdom Hfuel) as (tr & A' & Hrun & Hf & HI & HJ).
    rewrite Hrun. simpl. split; [easy|]. split; [|exact HJ].
    apply Forall_app. split.
    + eapply Forall_impl; [exact HI|]. intros [s b] (H1 & H2 & _). simpl in *.
      now rewrite H2.
    + repeat constructor.
  - intros a l r budget Hl Hlr Hr Hbud.
    set (mid := (l + r) / 2).
    assert (Hmid : l <= mid /\ mid <= r).
    { unfold mid. split; [apply Z.div_le_lower_bound | apply Z.div_le_upper_bound]; lia. }
    assert (Im : inb (len a) mid) by (unfold inb; lia).
    pose proof (partition_from_pivot a l r budget Hl Hlr Hr Hbud) as T.
    fold mid in T.
    destruct T as (tr & a' & [i j] & Hrun & _ & HI & HJ & Hpart).
    exists tr, a', i, j. simpl. rewrite (get_inb a mid Im), Hrun.
    destruct Hpart as (_ & _ & _ & _ & _ & H1 & H2 & H3 & H4 & _). simpl in *.
    repeat split; auto.
    + eapply Forall_impl; [exact HI|]. intros [s b] ((G1 & G2 & _) & G3). simpl in *.
      now rewrite G2.
    + apply Forall_cons. split; [exact Hmid | exact HJ].
  - intros a start end_ fuel Hs He Hfuel.
    destruct (siftDown_safe (len a) start end_ fuel start a)
      as (tr & a' & [] & Hrun & _ & HI & HJ & _); auto; try lia.
    exists tr, a'. split; [exact Hrun|]. split; [|exact HJ].
    eapply Forall_impl; [exact HI|]. intros [s b] ((G1 & G2 & _) & G3). simpl in *.
    now rewrite G2.
Qed.

(** C2 at heapGen on five values. *)
Lemma C2_indices_valid_witness :
  in_domain heap [5 # 1; 3 # 1; 1 # 1; 4 # 1; 2 # 1]%Q /\
  enough [5 # 1; 3 # 1; 1 # 1; 4 # 1; 2 # 1]%Q 22 /\
  Forall (fun it => step_ok (len it.2) it.1)
         (run (generator heap 22) [5 # 1; 3 # 1; 1 # 1; 4 # 1; 2 # 1]%Q).1.1.
Proof.
  assert (E : enough [5 # 1; 3 # 1; 1 # 1; 4 # 1; 2 # 1]%Q 22).
  { unfold enough. simpl. lia. }
  split; [exact I|]. split; [exact E|].
  exact (proj1 (proj2 (proj1 C2_indices_valid heap _ 22%nat I E))).
Defined.

(** C3.  After any number [k] of pulls the driver holds the first [k]
    steps of the run, and the shared array is the initial array with
    exactly the swaps and sets among those steps applied in order. *)
Theorem C3_abandoned_run (alg : algo) (A : list Q) (fuel k : nat) :
  in_domain alg A -> enough A fuel ->
  (pulls k (Some (generator alg fuel)) A).1.1
    = take k (steps_of (generator alg fuel) A) /\
  (pulls k (Some (generator alg fuel)) A).2
    = replay (pulls k (Some (generator alg fuel)) A).1.1 A.
Proof.
  intros Hdom Hfuel. split; [apply pulls_steps|].
  destruct (generator_run alg A fuel Hdom Hfuel) as (tr & A' & Hrun & Hf & _).
  eapply pulls_replay; [exact Hrun|].
  eapply faithful_app; [exact Hf|]. simpl. auto.
Qed.

(** C3 at quickGen, abandoned after two pulls. *)
Lemma C3_abandoned_run_witness :
  in_domain quick [3 # 1; 1 # 1; 2 # 1]%Q /\
  enough [3 # 1; 1 # 1; 2 # 1]%Q 18 /\
  (pulls 2 (Some (generator quick 18)) [3 # 1; 1 # 1; 2 # 1]%Q).2
    = replay (pulls 2 (Some (generator quick 18)) [3 # 1; 1 # 1; 2 # 1]%Q).1.1
             [3 # 1; 1 # 1; 2 # 1]%Q.
Proof.
  assert (E : enough [3 # 1; 1 # 1; 2 # 1]%Q 18).
  { unfold enough. simpl. lia. }
  split; [exact I|]. split; [exact E|].
  exact (proj2 (C3_abandoned_run quick _ 18 2 I E)).
Defined.

(** C6.  The steps of a run are some steps that are not [done] followed
    by exactly one [done]; the body then ends normally; pulling [k] times
    delivers the first [k] of these steps and never more; and once the
    [done] step has been pulled, any number of further pulls delivers
    nothing. *)
Theorem C6_done_once_last (alg : algo) (A : list Q) (fuel : nat) :
  in_domain alg A -> enough A fuel ->
  exists ss,
    steps_of (generator alg fuel) A = ss ++ [done] /\
    Forall (fun s => is_done s = false) ss /\
    outcome_of (generator alg fuel) A = Returned tt /\
    (forall k, (pulls k (Some (generator alg fuel)) A).1.1
               = take k (ss ++ [done])) /\
    (forall m,
       let after := pulls (length ss + 1) (Some (generator alg fuel)) A in
       (pulls m after.1.2 after.2).1.1 = []).
Proof.
  intros Hdom Hfuel.
  destruct (generator_run alg A fuel Hdom Hfuel) as (tr & A' & Hrun & Hf & HI & _).
  assert (Hsteps : steps_of (generator alg fuel) A = map fst tr ++ [done]).
  { unfold steps_of. rewrite Hrun. simpl. now rewrite map_app. }
  exists (map fst tr). split; [exact Hsteps|]. split; [|split; [|split]].
  - apply Forall_fmap. eapply Forall_impl; [exact HI|]. now intros it (_ & _ & H).
  - unfold outcome_of. now rewrite Hrun.
  - intros k. now rewrite pulls_steps, Hsteps.
  - intros m after. subst after.
    pose proof (pulls_add (length (map fst tr) + 1) m
                  (Some (generator alg fuel)) A) as Hadd.
    rewrite (pulls_steps (length (map fst tr) + 1 + m)) in Hadd.
    rewrite (pulls_steps (length (map fst tr) + 1)) in Hadd.
    rewrite Hsteps in Hadd.
    rewrite !take_ge in Hadd by (rewrite length_app; simpl; lia).
    rewrite <- (app_nil_r (map fst tr ++ [done])) in Hadd at 1.
    apply app_inv_head in Hadd. now symmetry.
Qed.

(** C6 at mergeGen on five values. *)
Lemma C6_done_once_last_witness :
  in_domain merge [5 # 1; 3 # 1; 1 # 1; 4 # 1; 2 # 1]%Q /\
  enough [5 # 1; 3 # 1; 1 # 1; 4 # 1; 2 # 1]%Q 22 /\
  exists ss,
    steps_of (generator merge 22) [5 # 1; 3 # 1; 1 # 1; 4 # 1; 2 # 1]%Q
      = ss ++ [done] /\
    Forall (fun s => is_done s = false) ss.
Proof.
  assert (E : enough [5 # 1; 3 # 1; 1 # 1; 4 # 1; 2 # 1]%Q 22).
  { unfold enough. simpl. lia. }
  split; [exact I|]. split; [exact E|].
  destruct (C6_done_once_last merge _ 22 I E) as (ss & H1 & H2 & _).
  exists ss. split; assumption.
Defined.

(** With enough fuel the run does not depend on the fuel. *)
Lemma generator_fuel alg (A : list Q) (f1 f2 : nat) :
  in_domain alg A -> enough A f1 -> enough A f2 ->
  run (generator alg f1) A = run (generator alg f2) A /\
  events (generator alg f1) A = events (generator alg f2) A.
Proof.
  intros Hdom H1 H2.
  destruct (generator_run alg A f1 Hdom H1) as (tr1 & B1 & R1 & _).
  destruct (generator_run alg A f2 Hdom H2) as (tr2 & B2 & R2 & _).
  destruct (Nat.le_ge_cases f1 f2) as [Hle|Hle].
  - pose proof (generator_approx alg f1 f2 Hle) as Ha. split.
    + rewrite R1. symmetry. exact (approx_run _ _ Ha _ _ _ _ R1).
    + symmetry. exact (approx_events _ _ Ha _ _ _ _ R1).
  - pose proof (generator_approx alg f2 f1 Hle) as Ha. split.
    + rewrite R2. exact (approx_run _ _ Ha _ _ _ _ R2).
    + exact (approx_events _ _ Ha _ _ _ _ R2).
Qed.

(** What the driver holds after [k] pulls. *)
Lemma generator_pulls alg (A : list Q) (fuel k : nat) :
  in_domain alg A -> enough A fuel ->
  (pulls k (Some (generator alg fuel)) A).1.1
    = take k (steps_of (generator alg fuel) A) /\
  (pulls k (Some (generator alg fuel)) A).2
    = replay (take k (steps_of (generator alg fuel) A)) A.
Proof.
  intros Hdom Hfuel. split; [apply pulls_steps|].
  rewrite <- pulls_steps.
  destruct (generator_run alg A fuel Hdom Hfuel) as (tr & A' & Hrun & Hf & _).
  eapply pulls_replay; [exact Hrun|].
  eapply faithful_app; [exact Hf|]. simpl. auto.
Qed.

(** C8.  On [5,3,1,4,2], whatever the fuel beyond the bound, mergeGen
    ends normally with [1,2,3,4,5]; its steps are those of
    [mergeRange(0,2)], then those of [mergeRange(3,4)], then those of the
    merge of the range [0..4], then [done]; and that last merge emits
    exactly five [set] steps. *)
Theorem C8_merge_scenario (fuel : nat) :
  let A := [5 # 1; 3 # 1; 1 # 1; 4 # 1; 2 # 1]%Q in
  let a1 := final_of (mergeRange fuel fuel 0 2) A in
  let a2 := final_of (mergeRange fuel fuel 3 4) a1 in
  let top := steps_of (merge_phase fuel 0 2 4) a2 in
  enough A fuel ->
  outcome_of (mergeGen fuel) A = Returned tt /\
  final_of (mergeGen fuel) A = [1 # 1; 2 # 1; 3 # 1; 4 # 1; 5 # 1]%Q /\
  steps_of (mergeGen fuel) A
    = steps_of (mergeRange fuel fuel 0 2) A ++
      steps_of (mergeRange fuel fuel 3 4) a1 ++ top ++ [done] /\
  length (List.filter is_set top) = 5%nat.
Proof.
  cbv zeta. intros Hfuel. unfold enough in Hfuel. simpl in Hfuel.
  destruct (fuel_split 22 fuel Hfuel) as [k ->].
  repeat split; vm_compute; reflexivity.
Qed.

(** C8 at the least fuel within the bound. *)
Lemma C8_merge_scenario_witness :
  enough [5 # 1; 3 # 1; 1 # 1; 4 # 1; 2 # 1]%Q 22 /\
  final_of (mergeGen 22) [5 # 1; 3 # 1; 1 # 1; 4 # 1; 2 # 1]%Q
    = [1 # 1; 2 # 1; 3 # 1; 4 # 1; 5 # 1]%Q.
Proof.
  assert (E : enough [5 # 1; 3 # 1; 1 # 1; 4 # 1; 2 # 1]%Q 22).
  { unfold enough. simpl. lia. }
  split; [exact E|]. exact (proj1 (proj2 (C8_merge_scenario 22 E))).
Defined.

Lemma len_replay1 s a : len (replay1 s a) = len a.
Proof.
  destruct s as [x y|x y|i v|]; simpl; try reflexivity.
  - destruct (get a x), (get a y); try reflexivity. now rewrite !len_upd.
  - unfold put. destruct v as [w|]; [|reflexivity].
    destruct ((0 <=? i) && (i <? len a)); [|reflexivity].
    apply len_upd.
Qed.

Lemma len_replay ss : forall a, len (replay ss a) = len a.
Proof.
  induction ss as [|s ss IH]; intros a; [reflexivity|].
  unfold replay in *. simpl. now rewrite IH, len_replay1.
Qed.

(** C9.  On [3,1,2], whatever the fuel beyond the bound, bubbleGen ends
    normally with [1,2,3], its first step is [compare(0,1)] and
    [swap(0,1)] is among its steps.  On every array, a [swap] step of
    bubbleGen is a [swap(j, j+1)], and in the array as the previous pull
    left it slot [j] held a strictly greater value than slot [j+1]: equal
    neighbours are never exchanged. *)
Theorem C9_bubble_scenario :
  (forall fuel : nat,
     enough [3 # 1; 1 # 1; 2 # 1]%Q fuel ->
     outcome_of (bubbleGen fuel) [3 # 1; 1 # 1; 2 # 1]%Q = Returned tt /\
     final_of (bubbleGen fuel) [3 # 1; 1 # 1; 2 # 1]%Q
       = [1 # 1; 2 # 1; 3 # 1]%Q /\
     steps_of (bubbleGen fuel) [3 # 1; 1 # 1; 2 # 1]%Q !! 0%nat
       = Some (compare 0 (Some 1)) /\
     In (swap 0 1) (steps_of (bubbleGen fuel) [3 # 1; 1 # 1; 2 # 1]%Q)) /\
  (forall (A : list Q) (fuel k : nat) (j j' : Z),
     enough A fuel ->
     steps_of (bubbleGen fuel) A !! k = Some (swap j j') ->
     j' = j + 1 /\
     (val (pulls k (Some (bubbleGen fuel)) A).2 (j + 1)
      < val (pulls k (Some (bubbleGen fuel)) A).2 j)%Q).
Proof.
  split.
  - intros fuel Hfuel. unfold enough in Hfuel. simpl in Hfuel.
    destruct (fuel_split 18 fuel Hfuel) as [k ->].
    repeat split; try (vm_compute; reflexivity).
    vm_compute. right. left. reflexivity.
  - intros A fuel k j j' Hfuel Hk. unfold enough in Hfuel.
    destruct (bubbleGen_run A fuel) as (tr & A' & Hrun & Hf & HI & _ & _); [lia|].
    assert (Hf' : faithful A (tr ++ [(done, A')]) A').
    { eapply faithful_app; [exact Hf|]. simpl. auto. }
    unfold steps_of in Hk. rewrite Hrun in Hk. simpl in Hk.
    rewrite list_lookup_fmap in Hk.
    destruct ((tr ++ [(done, A')]) !! k) as [[s b]|] eqn:Hkb; [|discriminate].
    simpl in Hk. injection Hk as ->.
    pose proof (pulls_before k _ _ _ _ _ _ _ Hrun Hf' Hkb) as Hb.
    pose proof (pulls_replay k _ _ _ _ _ Hrun Hf') as Hrep.
    set (before := (pulls k (Some (bubbleGen fuel)) A).2) in *.
    assert (Hlen : len before = len A) by (rewrite Hrep; apply len_replay).
    apply lookup_app_Some in Hkb as [Hkb|[_ Hkb]].
    + rewrite Forall_forall in HI.
      destruct (HI _ (list_elem_of_lookup_2 _ _ _ Hkb))
        as (((Hj & Hj') & _ & _) & -> & Hlt). simpl in *.
      split; [reflexivity|].
      rewrite <- Hlen in Hj, Hj'.
      simpl in Hb. rewrite (get_inb before j Hj), (get_inb before _ Hj') in Hb.
      fold (exchange before j (j + 1)) in Hb. rewrite Hb in Hlt.
      now rewrite val_exchange_l, val_exchange_r in Hlt.
    + destruct (k - length tr)%nat as [|[|]]; discriminate.
Qed.

(** C9 on an array with two equal neighbours: the one swap of the run is
    on a strict inversion. *)
Lemma C9_bubble_scenario_witness :
  enough [2 # 1; 2 # 1; 1 # 1]%Q 18 /\
  steps_of (bubbleGen 18) [2 # 1; 2 # 1; 1 # 1]%Q !! 2%nat = Some (swap 1 2) /\
  (val (pulls 2 (Some (bubbleGen 18)) [2 # 1; 2 # 1; 1 # 1]%Q).2 (1 + 1)
   < val (pulls 2 (Some (bubbleGen 18)) [2 # 1; 2 # 1; 1 # 1]%Q).2 1)%Q.
Proof.
  assert (E : enough [2 # 1; 2 # 1; 1 # 1]%Q 18) by (unfold enough; simpl; lia).
  assert (S : steps_of (bubbleGen 18) [2 # 1; 2 # 1; 1 # 1]%Q !! 2%nat
              = Some (swap 1 2)) by (vm_compute; reflexivity).
  split; [exact E|]. split; [exact S|].
  exact (proj2 (proj2 C9_bubble_scenario _ 18%nat 2%nat 1 2 E S)).
Defined.

(** radixGen makes no pass when the largest scaled value is 0. *)
Lemma radix_no_pass (A : list Q) (fuel : nat) :
  (1 <= fuel)%nat -> radix_max (map scale_floor A) = 0 ->
  run (radixGen fuel) A = ([(done, A)], A, Returned tt).
Proof.
  intros Hfuel Hmax. destruct fuel as [|fuel]; [lia|].
  unfold radixGen. cbn [run].
  change (map (fun x => Qfloor (x * inject_Z scale)) A) with (map scale_floor A).
  rewrite run_bind, radix_max_loop_run. fold (radix_max (map scale_floor A)).
  rewrite Hmax. cbn [radix_passes bind run].
  rewrite pass_cmp by lia. reflexivity.
Qed.

(** C10.  When every element lies in [0, 0.001), so that every element
    scales to 0, radixGen yields [done] and nothing else, and the array
    is left exactly as it was, sorted or not. *)
Theorem C10_radix_all_zero (A : list Q) (fuel : nat) :
  Forall (fun x => (0 <= x)%Q /\ (x < 1 # 1000)%Q) A -> (1 <= fuel)%nat ->
  Forall (fun x => scale_floor x = 0) A /\
  run (radixGen fuel) A = ([(done, A)], A, Returned tt).
Proof.
  intros HA Hfuel.
  assert (Hz : Forall (fun x => scale_floor x = 0) A).
  { eapply Forall_impl; [exact HA|]. simpl. intros x [H0 H1].
    now apply scale_floor_small. }
  split; [exact Hz|]. apply radix_no_pass; [exact Hfuel|].
  apply radix_max_zero. now apply Forall_fmap.
Qed.

(** C10 on an array that is not sorted. *)
Lemma C10_radix_all_zero_witness :
  Forall (fun x => (0 <= x)%Q /\ (x < 1 # 1000)%Q) [5 # 10000; 1 # 10000]%Q /\
  (1 <= 1)%nat /\
  ~ Sorted Qle [5 # 10000; 1 # 10000]%Q /\
  run (radixGen 1) [5 # 10000; 1 # 10000]%Q
    = ([(done, [5 # 10000; 1 # 10000]%Q)], [5 # 10000; 1 # 10000]%Q, Returned tt).
Proof.
  assert (D : Forall (fun x => (0 <= x)%Q /\ (x < 1 # 1000)%Q)
                [5 # 10000; 1 # 10000]%Q).
  { repeat constructor; unfold Qle, Qlt; simpl; lia. }
  split; [exact D|]. split; [lia|]. split.
  - intros Hs. inversion Hs as [|x l Hl Hhd]; subst.
    inversion Hhd as [|y l' Hxy]; subst. unfold Qle in Hxy. simpl in Hxy. lia.
  - exact (proj2 (C10_radix_all_zero _ 1 D (le_n 1))).
Defined.

(** On a single element that scales to 1 or more radixGen enters its
    first pass, whose first step is [compare(0)]. *)
Lemma radix_single_first_step (x : Q) (fuel : nat) :
  1 <= scale_floor x -> (2 <= fuel)%nat ->
  head (steps_of (radixGen fuel) [x]) = Some (compare 0 None).
Proof.
  intros Hx Hfuel. destruct fuel as [|fuel]; [lia|].
  unfold steps_of, radixGen. cbn [run].
  change (map (fun x => Qfloor (x * inject_Z scale)) [x]) with [scale_floor x].
  assert (Hmax : radix_max [scale_floor x] = scale_floor x).
  { unfold radix_max. simpl. rewrite Z.gtb_ltb.
    destruct (Z.ltb_spec 0 (scale_floor x)); [reflexivity | lia]. }
  rewrite run_bind, radix_max_loop_run. fold (radix_max [scale_floor x]).
  rewrite Hmax. cbn [radix_passes bind run]. rewrite pass_cmp by lia.
  destruct (Z.leb_spec 1 (scale_floor x)); [|lia].
  change (len [x]) with 1.
  rewrite run_bind, run_bind. cbn [radix_distribute].
  change (0 <? 1) with true. change (0 <? 0) with false. cbn [lookup].
  change ([scale_floor x] !! Z.to_nat 0) with (Some (scale_floor x)).
  cbn [run].
  destruct (run (match bucket_push (replicate 10 []) (digit (scale_floor x) 1)
                         (scale_floor x) with
                 | Some buckets' =>
                     radix_distribute fuel 1 [scale_floor x] 1 buckets' (0 + 1)
                 | None => Halt TypeError
                 end) [x]) as [[tr a] [bs| | |]]; cbn;
    repeat match goal with
           | |- context [run ?g ?a] => destruct (run g a) as [[? ?] [?| | |]]; cbn
           end; reflexivity.
Qed.

(** C5, as corrected.  On an empty or single-element array bubbleGen,
    quickGen, mergeGen and heapGen yield [done] and nothing else, end
    normally and leave the array as it was; so does radixGen when the
    array is empty or its single element scales to 0 or less (it is below
    0.001).  In particular heapGen on the empty array yields exactly
    [done].  On a single element that scales to 1 or more (0.001 and
    above) radixGen starts a pass instead, its first step is
    [compare(0)]; on its domain [0,1) it still ends normally. *)
Theorem C5_degenerate_arrays :
  (forall (alg : algo) (A : list Q) (fuel : nat),
     (length A <= 1)%nat -> (2 <= fuel)%nat ->
     (alg = radix -> Forall (fun x => scale_floor x <= 0) A) ->
     run (generator alg fuel) A = ([(done, A)], A, Returned tt)) /\
  (forall (x : Q) (fuel : nat),
     1 <= scale_floor x -> (2 <= fuel)%nat ->
     head (steps_of (generator radix fuel) [x]) = Some (compare 0 None)) /\
  (forall (x : Q) (fuel : nat),
     in_domain radix [x] -> enough [x] fuel ->
     outcome_of (generator radix fuel) [x] = Returned tt).
Proof.
  split; [|split].
  - intros alg A fuel Hlen Hfuel Hradix.
    destruct fuel as [|[|fuel]]; [lia | lia |].
    destruct alg.
    + destruct A as [|x [|y A]]; [reflexivity | reflexivity | simpl in Hlen; lia].
    + destruct A as [|x [|y A]]; [reflexivity | reflexivity | simpl in Hlen; lia].
    + destruct A as [|x [|y A]]; [reflexivity | reflexivity | simpl in Hlen; lia].
    + destruct A as [|x [|y A]]; [reflexivity | reflexivity | simpl in Hlen; lia].
    + apply radix_no_pass; [lia|].
      destruct (radix_max_spec (map scale_floor A)) as [H0 _].
      assert (radix_max (map scale_floor A) <= 0); [|lia].
      apply radix_max_le; [lia|]. apply Forall_fmap. now apply Hradix.
  - intros x fuel. apply radix_single_first_step.
  - intros x fuel Hdom Hfuel. unfold outcome_of.
    destruct (generator_run radix [x] fuel Hdom Hfuel) as (tr & A' & -> & _).
    reflexivity.
Qed.

(** C5 at heapGen on the empty array. *)
Lemma C5_degenerate_arrays_witness :
  (length (@nil Q) <= 1)%nat /\ (2 <= 2)%nat /\
  run (generator heap 2) [] = ([(done, [])], [], Returned tt).
Proof.
  split; [simpl; lia|]. split; [lia|].
  apply (proj1 C5_degenerate_arrays heap [] 2%nat); [simpl; lia | lia | discriminate].
Defined.

(** C5 as stated fails for radixGen: on the single element 0.5 it makes
    three passes, each with a [compare] and a [set] step, before [done]. *)
Lemma C5_counterexample :
  (length [1 # 2]%Q <= 1)%nat /\ in_domain radix [1 # 2]%Q /\
  enough [1 # 2]%Q 16 /\
  outcome_of (generator radix 16) [1 # 2]%Q = Returned tt /\
  steps_of (generator radix 16) [1 # 2]%Q <> [done] /\
  forall fuel, enough [1 # 2]%Q fuel ->
    steps_of (generator radix fuel) [1 # 2]%Q
      = [compare 0 None; set 0 (Some (500 # 1000)%Q);
         compare 0 None; set 0 (Some (500 # 1000)%Q);
         compare 0 None; set 0 (Some (500 # 1000)%Q); done].
Proof.
  split; [simpl; lia|].
  split; [repeat constructor; unfold Qle, Qlt; simpl; lia|].
  split; [unfold enough; simpl; lia|].
  split; [vm_compute; reflexivity|].
  assert (E : forall fuel, enough [1 # 2]%Q fuel ->
            steps_of (generator radix fuel) [1 # 2]%Q
            = [compare 0 None; set 0 (Some (500 # 1000)%Q);
               compare 0 None; set 0 (Some (500 # 1000)%Q);
               compare 0 None; set 0 (Some (500 # 1000)%Q); done]).
  { intros fuel Hfuel. unfold enough in Hfuel. simpl in Hfuel.
    destruct (fuel_split 14 fuel Hfuel) as [k ->]. vm_compute. reflexivity. }
  split; [|exact E]. rewrite E by (unfold enough; simpl; lia). discriminate.
Qed.

(** The log of radixGen opens with the search for the maximum. *)
Lemma radixGen_events (A : list Q) (fuel : nat) :
  events (radixGen fuel) A
    = max_log (map scale_floor A) 0 ++
      events (radix_passes fuel fuel (len A) (radix_max (map scale_floor A))
                (map scale_floor A) 1 ;; yield done ;; Ret tt) A.
Proof.
  unfold radixGen. cbn [events].
  change (map (fun x => Qfloor (x * inject_Z scale)) A) with (map scale_floor A).
  now rewrite events_bind, radix_max_loop_run, radix_max_loop_events.
Qed.

(** C4, as corrected.  bubbleGen, mergeGen and heapGen make every value
    comparison right after a [compare] step, with nothing but reads of the
    array in between.  A scan of quickGen's partition does the opposite:
    it reads a slot, compares it with the pivot, and emits the
    single-index [compare] step only afterwards and only when the slot is
    passed ([arr[i] < pivot] on the left, [arr[j] > pivot] on the right);
    the comparison that ends the scan is followed by no step.  So a scan
    emits one [compare] step per slot it passes, one fewer than the slots
    it inspects.  In radixGen no comparison follows a [compare] step: its
    log opens with the search for the largest scaled value, one [v > max]
    per element and no step, and its [compare(i)] steps report the
    bucketing of element [i]. *)
Theorem C4_compare_steps :
  (forall (fuel : nat) (A : list Q),
     announced false (events (generator bubble fuel) A) /\
     announced false (events (generator merge fuel) A) /\
     announced false (events (generator heap fuel) A)) /\
  (forall (a : list Q) (pv : Q) (s i : Z) (fuel : nat),
     0 <= i -> i <= s -> s < len a -> (pv <= val a s)%Q ->
     (Z.to_nat (s - i) < fuel)%nat ->
     exists passed : nat,
       events (scan_left fuel (Some pv) i) a
         = scan_log Lt a (Some pv) passed i 1 /\
       i + Z.of_nat passed <= s /\
       (forall k, i <= k -> k < i + Z.of_nat passed -> (val a k < pv)%Q) /\
       (pv <= val a (i + Z.of_nat passed))%Q) /\
  (forall (a : list Q) (pv : Q) (s j : Z) (fuel : nat),
     0 <= s -> s <= j -> j < len a -> (val a s <= pv)%Q ->
     (Z.to_nat (j - s) < fuel)%nat ->
     exists passed : nat,
       events (scan_right fuel (Some pv) j) a
         = scan_log Gt a (Some pv) passed j (-1) /\
       s <= j - Z.of_nat passed /\
       (forall k, j - Z.of_nat passed < k -> k <= j -> (pv < val a k)%Q) /\
       (val a (j - Z.of_nat passed) <= pv)%Q) /\
  (forall (fuel : nat) (A : list Q),
     unannounced false (events (generator radix fuel) A) /\
     events (generator radix fuel) A
       = max_log (map scale_floor A) 0 ++
         events (radix_passes fuel fuel (len A) (radix_max (map scale_floor A))
                   (map scale_floor A) 1 ;; yield done ;; Ret tt) A).
Proof.
  split; [|split; [|split]].
  - intros fuel A. split; [|split].
    + apply bubbleGen_announced.
    + apply mergeGen_announced.
    + apply heapGen_announced.
  - intros a pv s i fuel. apply scan_left_events.
  - intros a pv s j fuel. apply scan_right_events.
  - intros fuel A. split; [apply radixGen_unannounced | apply radixGen_events].
Qed.

(** C4 at the left scan of [1,3,2] for pivot 3 from slot 0: one slot
    passed and reported, the stopping slot read and compared only. *)
Lemma C4_compare_steps_witness :
  0 <= 0 /\ 0 <= 1 /\ 1 < len [1 # 1; 3 # 1; 2 # 1]%Q /\
  (3 # 1 <= val [1 # 1; 3 # 1; 2 # 1]%Q 1)%Q /\
  (Z.to_nat (1 - 0) < 4)%nat /\
  exists passed : nat,
    events (scan_left 4 (Some (3 # 1)%Q) 0) [1 # 1; 3 # 1; 2 # 1]%Q
      = scan_log Lt [1 # 1; 3 # 1; 2 # 1]%Q (Some (3 # 1)%Q) passed 0 1.
Proof.
  assert (H3 : 1 < len [1 # 1; 3 # 1; 2 # 1]%Q) by (vm_compute; reflexivity).
  assert (H4 : (3 # 1 <= val [1 # 1; 3 # 1; 2 # 1]%Q 1)%Q)
    by (vm_compute; discriminate).
  assert (H5 : (Z.to_nat (1 - 0) < 4)%nat) by (simpl; lia).
  split; [lia|]. split; [lia|]. split; [exact H3|]. split; [exact H4|].
  split; [exact H5|].
  destruct (proj1 (proj2 C4_compare_steps) _ (3 # 1)%Q 1 0 4%nat
              ltac:(lia) ltac:(lia) H3 H4 H5) as (passed & Hev & _).
  exists passed. exact Hev.
Defined.

(** C4 as stated fails for quickGen and for radixGen.  On [1,2] the
    partition of quickGen compares a slot with the pivot three times, and
    only one of the three comparisons has a [compare] step, emitted after
    it; the first comparison of the run, which ends the left scan at
    once, is preceded and followed by no step.  On [0.5] radixGen
    compares before its first step, and each of its three [compare(0)]
    steps is followed by a write, not by a comparison. *)
Lemma C4_counterexample :
  (events (scan_left 16 (Some (1 # 1)%Q) 0) [1 # 1; 2 # 1]%Q
     = [ELoad 0; ECmp Lt (Some (1 # 1)%Q) (Some (1 # 1)%Q)] /\
   steps_of (generator quick 16) [1 # 1; 2 # 1]%Q
     = [compare 1 None; swap 0 0; done] /\
   length (List.filter (fun e => match e with ECmp _ _ _ => true | _ => false end)
             (events (generator quick 16) [1 # 1; 2 # 1]%Q)) = 3%nat /\
   ~ announced false (events (generator quick 16) [1 # 1; 2 # 1]%Q) /\
   forall fuel, enough [1 # 1; 2 # 1]%Q fuel ->
     events (generator quick fuel) [1 # 1; 2 # 1]%Q
       = [ELoad 0; ELoad 0; ECmp Lt (Some (1 # 1)%Q) (Some (1 # 1)%Q);
          ELoad 1; ECmp Gt (Some (2 # 1)%Q) (Some (1 # 1)%Q);
          EYield (compare 1 None);
          ELoad 0; ECmp Gt (Some (1 # 1)%Q) (Some (1 # 1)%Q);
          ELoad 0; ELoad 0; EStore 0 (Some (1 # 1)%Q);
          EStore 0 (Some (1 # 1)%Q);
          EYield (swap 0 0); EYield done]) /\
  (in_domain radix [1 # 2]%Q /\
   ~ announced false (events (generator radix 16) [1 # 2]%Q) /\
   forall fuel, enough [1 # 2]%Q fuel ->
     events (generator radix fuel) [1 # 2]%Q
       = [ECmp Gt (Some (500 # 1)%Q) (Some (0 # 1)%Q);
          ECmp Gt (Some (500 # 1)%Q) (Some (0 # 1)%Q);
          EYield (compare 0 None); EStore 0 (Some (500 # 1000)%Q);
          ELoad 0; EYield (set 0 (Some (500 # 1000)%Q));
          ECmp Gt (Some (50 # 1)%Q) (Some (0 # 1)%Q);
          EYield (compare 0 None); EStore 0 (Some (500 # 1000)%Q);
          ELoad 0; EYield (set 0 (Some (500 # 1000)%Q));
          ECmp Gt (Some (5 # 1)%Q) (Some (0 # 1)%Q);
          EYield (compare 0 None); EStore 0 (Some (500 # 1000)%Q);
          ELoad 0; EYield (set 0 (Some (500 # 1000)%Q));
          ECmp Gt (Some (0 # 1)%Q) (Some (0 # 1)%Q); EYield done]).
Proof.
  split.
  - split; [vm_compute; reflexivity|]. split; [vm_compute; reflexivity|].
    split; [vm_compute; reflexivity|].
    assert (E : forall fuel, enough [1 # 1; 2 # 1]%Q fuel ->
              events (generator quick fuel) [1 # 1; 2 # 1]%Q
              = [ELoad 0; ELoad 0; ECmp Lt (Some (1 # 1)%Q) (Some (1 # 1)%Q);
                 ELoad 1; ECmp Gt (Some (2 # 1)%Q) (Some (1 # 1)%Q);
                 EYield (compare 1 None);
                 ELoad 0; ECmp Gt (Some (1 # 1)%Q) (Some (1 # 1)%Q);
                 ELoad 0; ELoad 0; EStore 0 (Some (1 # 1)%Q);
                 EStore 0 (Some (1 # 1)%Q);
                 EYield (swap 0 0); EYield done]).
    { intros fuel Hfuel. unfold enough in Hfuel. simpl in Hfuel.
      destruct (fuel_split 16 fuel Hfuel) as [k ->]. vm_compute. reflexivity. }
    split; [|exact E]. rewrite E by (unfold enough; simpl; lia).
    simpl. intros [H _]. discriminate.
  - split; [repeat constructor; unfold Qle, Qlt; simpl; lia|].
    assert (E : forall fuel, enough [1 # 2]%Q fuel ->
              events (generator radix fuel) [1 # 2]%Q
              = [ECmp Gt (Some (500 # 1)%Q) (Some (0 # 1)%Q);
                 ECmp Gt (Some (500 # 1)%Q) (Some (0 # 1)%Q);
                 EYield (compare 0 None); EStore 0 (Some (500 # 1000)%Q);
                 ELoad 0; EYield (set 0 (Some (500 # 1000)%Q));
                 ECmp Gt (Some (50 # 1)%Q) (Some (0 # 1)%Q);
                 EYield (compare 0 None); EStore 0 (Some (500 # 1000)%Q);
                 ELoad 0; EYield (set 0 (Some (500 # 1000)%Q));
                 ECmp Gt (Some (5 # 1)%Q) (Some (0 # 1)%Q);
                 EYield (compare 0 None); EStore 0 (Some (500 # 1000)%Q);
                 ELoad 0; EYield (set 0 (Some (500 # 1000)%Q));
                 ECmp Gt (Some (0 # 1)%Q) (Some (0 # 1)%Q); EYield done]).
    { intros fuel Hfuel. unfold enough in Hfuel. simpl in Hfuel.
      destruct (fuel_split 14 fuel Hfuel) as [k ->]. vm_compute. reflexivity. }
    split; [|exact E]. rewrite E by (unfold enough; simpl; lia).
    simpl. intros [H _]. discriminate.
Qed.


(** * The steps each generator can yield *)

Lemma yields_bind {R S} P (g : gen R) (f : R -> gen S) :
  yields P g -> (forall r, yields P (f r)) -> yields P (bind g f).
Proof.
  intros Hg Hf. induction g as [r|s k IH|k IH|i k IH|i v k IH|op x y k IH|k IH|o];
    simpl in *; auto.
  destruct Hg. auto.
Qed.

Lemma yields_steps {R} P (g : gen R) : forall a,
  yields P g -> Forall P (steps_of g a).
Proof.
  unfold steps_of.
  induction g as [r|s k IH|k IH|i k IH|i v k IH|op x y k IH|k IH|o];
    intros a Hg; simpl in *; auto.
  - destruct Hg as [Hs Hk]. specialize (IH a Hk).
    destruct (run k a) as [[tr a'] o]. simpl in *. now constructor.
  - destruct (put a i v); simpl; auto.
Qed.

(** Steps through a loop body up to the calls of loops. *)
Ltac yields_body :=
  cbn; repeat first
    [ progress intros
    | exact I
    | reflexivity
    | match goal with
      | |- _ /\ _ => split
      | |- (_ =? _) = true => apply Z.eqb_refl
      | |- yields _ (if ?c then _ else _) => destruct c; cbn
      | |- yields _ (match ?x with _ => _ end) => destruct x; cbn
      | |- yields _ (swap_ _ _) => unfold swap_; cbn
      | |- yields _ (write_set _ _) => unfold write_set; cbn
      | |- yields _ (bind _ _) => apply yields_bind; cbn
      | H : forall _, _ |- yields _ _ => apply H
      end ].

Lemma bubble_inner_yields : forall fuel n i j sw,
  yields (fun s => vocabulary bubble s = true) (bubble_inner fuel n i j sw).
Proof. induction fuel as [|fuel IH]; intros; yields_body. Qed.

Lemma bubble_outer_yields budget : forall fuel n i,
  yields (fun s => vocabulary bubble s = true) (bubble_outer budget fuel n i).
Proof.
  pose proof bubble_inner_yields as H1.
  induction fuel as [|fuel IH]; intros; yields_body.
Qed.

Lemma scan_left_yields : forall fuel pivot i,
  yields (fun s => vocabulary quick s = true) (scan_left fuel pivot i).
Proof. induction fuel as [|fuel IH]; intros; yields_body. Qed.

Lemma scan_right_yields : forall fuel pivot j,
  yields (fun s => vocabulary quick s = true) (scan_right fuel pivot j).
Proof. induction fuel as [|fuel IH]; intros; yields_body. Qed.

Lemma partition_yields budget : forall fuel pivot i j,
  yields (fun s => vocabulary quick s = true) (partition budget fuel pivot i j).
Proof.
  pose proof scan_left_yields as H1. pose proof scan_right_yields as H2.
  induction fuel as [|fuel IH]; intros; yields_body.
Qed.

Lemma quick_loop_yields budget : forall fuel stack,
  yields (fun s => vocabulary quick s = true) (quick_loop budget fuel stack).
Proof.
  pose proof (partition_yields budget) as H1.
  induction fuel as [|fuel IH]; intros; yields_body.
Qed.

Lemma merge_both_yields : forall fuel left right l m i j k,
  yields (fun s => vocabulary merge s = true)
         (merge_both fuel left right l m i j k).
Proof. induction fuel as [|fuel IH]; intros; yields_body. Qed.

Lemma merge_drain_yields : forall fuel buf i k,
  yields (fun s => vocabulary merge s = true) (merge_drain fuel buf i k).
Proof. induction fuel as [|fuel IH]; intros; yields_body. Qed.

Lemma merge_phase_yields budget l m r :
  yields (fun s => vocabulary merge s = true) (merge_phase budget l m r).
Proof.
  pose proof merge_both_yields as H1. pose proof merge_drain_yields as H2.
  unfold merge_phase. yields_body.
Qed.

Lemma mergeRange_yields budget : forall fuel l r,
  yields (fun s => vocabulary merge s = true) (mergeRange budget fuel l r).
Proof.
  pose proof merge_both_yields as H1. pose proof merge_drain_yields as H2.
  induction fuel as [|fuel IH]; intros; yields_body.
Qed.

Lemma siftDown_yields : forall fuel root end_,
  yields (fun s => vocabulary heap s = true) (siftDown fuel root end_).
Proof. induction fuel as [|fuel IH]; intros; yields_body. Qed.

Lemma heap_build_yields budget : forall fuel n start,
  yields (fun s => vocabulary heap s = true) (heap_build budget fuel n start).
Proof.
  pose proof siftDown_yields as H1.
  induction fuel as [|fuel IH]; intros; yields_body.
Qed.

Lemma heap_extract_yields budget : forall fuel end_,
  yields (fun s => vocabulary heap s = true) (heap_extract budget fuel end_).
Proof.
  pose proof siftDown_yields as H1.
  induction fuel as [|fuel IH]; intros; yields_body.
Qed.

Lemma radix_max_loop_yields P : forall A max, yields P (radix_max_loop A max).
Proof. induction A as [|v A IH]; intros; yields_body. Qed.

Lemma radix_distribute_yields : forall fuel n A exp buckets i,
  yields (fun s => vocabulary radix s = true)
         (radix_distribute fuel n A exp buckets i).
Proof. induction fuel as [|fuel IH]; intros; yields_body. Qed.

Lemma radix_collect_bucket_yields : forall bucket A idx,
  yields (fun s => vocabulary radix s = true)
         (radix_collect_bucket bucket A idx).
Proof. induction bucket as [|v bucket IH]; intros; yields_body. Qed.

Lemma radix_collect_yields : forall fuel buckets b A idx,
  yields (fun s => vocabulary radix s = true)
         (radix_collect fuel buckets b A idx).
Proof.
  pose proof radix_collect_bucket_yields as H1.
  induction fuel as [|fuel IH]; intros; yields_body.
Qed.

Lemma radix_passes_yields budget : forall fuel n max A exp,
  yields (fun s => vocabulary radix s = true)
         (radix_passes budget fuel n max A exp).
Proof.
  pose proof radix_distribute_yields as H1.
  pose proof radix_collect_yields as H2.
  induction fuel as [|fuel IH]; intros; yields_body.
Qed.

Lemma generator_yields alg fuel :
  yields (fun s => vocabulary alg s = true) (generator alg fuel).
Proof.
  destruct alg; simpl.
  - pose proof bubble_outer_yields as H1. unfold bubbleGen. yields_body.
  - pose proof quick_loop_yields as H1. unfold quickGen. yields_body.
  - pose proof mergeRange_yields as H1. unfold mergeGen. yields_body.
  - pose proof heap_build_yields as H1. pose proof heap_extract_yields as H2.
    unfold heapGen. yields_body.
  - pose proof radix_passes_yields as H1.
    pose proof (radix_max_loop_yields (fun s => vocabulary radix s = true)) as H2.
    unfold radixGen. yields_body.
Qed.

(** X1.  Whatever the array and however far the run gets, a generator
    yields only the step descriptors of its own vocabulary: bubbleGen
    only [compare(j, j+1)], [swap(j, j+1)] and [done]; quickGen only
    single-index [compare], [swap] and [done]; heapGen only two-index
    [compare], [swap] and [done]; mergeGen only two-index [compare],
    [set] and [done]; radixGen only single-index [compare], [set] and
    [done].  So mergeGen and radixGen never report a swap, and the other
    three never report a set. *)
Theorem X1_step_vocabulary (alg : algo) (fuel : nat) (A : list Q) :
  Forall (fun s => vocabulary alg s = true) (steps_of (generator alg fuel) A) /\
  (forall k, Forall (fun s => vocabulary alg s = true)
               (pulls k (Some (generator alg fuel)) A).1.1).
Proof.
  pose proof (yields_steps _ _ A (generator_yields alg fuel)) as H.
  split; [exact H|]. intros k. rewrite pulls_steps. now apply Forall_take.
Qed.


(** * bubbleGen: how much it does *)

(** ** Inversions *)

Lemma below_cons x y l :
  below x (y :: l) = ((if Qltb y x then 1 else 0) + below x l)%nat.
Proof. unfold below. cbn [List.filter]. now destruct (Qltb y x). Qed.

Lemma below_app x l1 l2 : below x (l1 ++ l2) = (below x l1 + below x l2)%nat.
Proof. unfold below. now rewrite List.filter_app, length_app. Qed.

Lemma inversions_app l1 : forall l2,
  inversions (l1 ++ l2)
  = (inversions l1 + list_sum (map (fun x => below x l2) l1) + inversions l2)%nat.
Proof.
  induction l1 as [|x l1 IH]; intros l2; simpl; [reflexivity|].
  rewrite below_app, IH. lia.
Qed.

(** Exchanging two neighbours that are strictly out of order removes
    exactly one inversion. *)
Lemma inversions_adjacent l1 x y l2 :
  Qltb y x = true ->
  inversions (l1 ++ x :: y :: l2) = S (inversions (l1 ++ y :: x :: l2)).
Proof.
  intros Hyx. rewrite !inversions_app.
  assert (Hxy : Qltb x y = false).
  { apply Qltb_false. apply Qlt_le_weak. now apply Qltb_true. }
  assert (Hc : map (fun z => below z (x :: y :: l2)) l1
               = map (fun z => below z (y :: x :: l2)) l1).
  { apply map_ext. intros z. rewrite !below_cons. lia. }
  rewrite Hc. cbn [inversions]. rewrite !below_cons, Hyx, Hxy. lia.
Qed.

Lemma below_none x l : Forall (Qle x) l -> below x l = 0%nat.
Proof.
  induction 1 as [|y l Hy Hl IH]; [reflexivity|].
  rewrite below_cons, IH. now rewrite (proj2 (Qltb_false y x) Hy).
Qed.

Lemma inversions_sorted l : StronglySorted Qle l -> inversions l = 0%nat.
Proof.
  induction 1 as [|x l Hl IH Hx]; simpl; [reflexivity|].
  now rewrite IH, below_none.
Qed.

(** The array as the slots before [j], the two slots [j] and [j + 1],
    and the rest. *)
Lemma split_at_pair (a : list Q) j :
  0 <= j -> j + 1 < len a ->
  a = take (Z.to_nat j) a ++ val a j :: val a (j + 1) :: drop (Z.to_nat j + 2) a.
Proof.
  intros Hj Hj1.
  assert (I1 : inb (len a) j) by (unfold inb; lia).
  assert (I2 : inb (len a) (j + 1)) by (unfold inb; lia).
  pose proof (get_inb a j I1) as G1. pose proof (get_inb a (j + 1) I2) as G2.
  unfold get in G1, G2.
  destruct (Z.ltb_spec j 0); [lia|]. destruct (Z.ltb_spec (j + 1) 0); [lia|].
  replace (Z.to_nat (j + 1)) with (S (Z.to_nat j)) in G2 by lia.
  rewrite <- (take_drop (Z.to_nat j) a) at 1. f_equal.
  rewrite (drop_S _ _ _ G1). f_equal.
  rewrite (drop_S _ _ _ G2). f_equal. f_equal. lia.
Qed.

Lemma exchange_at_pair (a : list Q) j :
  0 <= j -> j + 1 < len a ->
  exchange a j (j + 1)
  = take (Z.to_nat j) a ++ val a (j + 1) :: val a j :: drop (Z.to_nat j + 2) a.
Proof.
  intros Hj Hj1. unfold exchange, upd.
  set (x := val a j). set (y := val a (j + 1)).
  assert (Hl : length (take (Z.to_nat j) a) = Z.to_nat j).
  { rewrite length_take. unfold len in Hj1. lia. }
  assert (H : forall b,
             b = take (Z.to_nat j) a ++ x :: y :: drop (Z.to_nat j + 2) a ->
             <[Z.to_nat (j + 1) := x]> (<[Z.to_nat j := y]> b)
             = take (Z.to_nat j) a ++ y :: x :: drop (Z.to_nat j + 2) a).
  { intros b ->. rewrite insert_app_r_alt by lia. rewrite Hl, Nat.sub_diag. simpl.
    rewrite insert_app_r_alt by lia. rewrite Hl.
    replace (Z.to_nat (j + 1) - Z.to_nat j)%nat with 1%nat by lia. reflexivity. }
  apply H. now apply split_at_pair.
Qed.

Lemma inversions_exchange (a : list Q) j :
  0 <= j -> j + 1 < len a -> (val a (j + 1) < val a j)%Q ->
  inversions a = S (inversions (exchange a j (j + 1))).
Proof.
  intros Hj Hj1 Hlt. rewrite exchange_at_pair by assumption.
  rewrite (split_at_pair a j Hj Hj1) at 1.
  apply inversions_adjacent. now apply Qltb_true.
Qed.

Lemma below_zero x l : below x l = 0%nat -> Forall (Qle x) l.
Proof.
  induction l as [|y l IH]; [constructor|].
  rewrite below_cons. destruct (Qltb y x) eqn:E; [discriminate|].
  intros H. constructor; [now apply Qltb_false | now apply IH].
Qed.

Lemma inversions_zero l : inversions l = 0%nat -> StronglySorted Qle l.
Proof.
  induction l as [|x l IH]; simpl; intros H; constructor.
  - apply IH. lia.
  - apply below_zero. lia.
Qed.

Lemma StronglySorted_lookup_le (l : list Q) : StronglySorted Qle l ->
  forall i j x y, (i <= j)%nat -> l !! i = Some x -> l !! j = Some y -> (x <= y)%Q.
Proof.
  induction 1 as [|z l Hl IH Hz]; intros i j x y Hij Hx Hy; [discriminate|].
  destruct i as [|i], j as [|j]; simpl in *; try lia.
  - injection Hx as <-. injection Hy as <-. apply Qle_refl.
  - injection Hx as <-. apply (proj1 (Forall_forall _ _) Hz).
    now apply list_elem_of_lookup_2 in Hy.
  - apply (IH i j); auto. lia.
Qed.

Lemma Sorted_sorted_on (a : list Q) : Sorted Qle a -> sorted_on a 0 (len a - 1).
Proof.
  intros HS. apply Sorted_StronglySorted in HS; [|intros x y z; apply Qle_trans].
  intros i j Hi Hij Hj. unfold val, get.
  destruct (Z.ltb_spec i 0); [lia|]. destruct (Z.ltb_spec j 0); [lia|].
  destruct (a !! Z.to_nat i) as [x|] eqn:Ex;
    [|apply lookup_ge_None in Ex; unfold len in Hj; lia].
  destruct (a !! Z.to_nat j) as [y|] eqn:Ey;
    [|apply lookup_ge_None in Ey; unfold len in Hj; lia].
  simpl. apply (StronglySorted_lookup_le a HS (Z.to_nat i) (Z.to_nat j)); auto. lia.
Qed.

(** ** Swaps and inversions along a trace of bubbleGen *)

Lemma count_steps_cons p s ss :
  count_steps p (s :: ss) = ((if p s then 1 else 0) + count_steps p ss)%nat.
Proof. unfold count_steps. cbn [List.filter]. now destruct (p s). Qed.

Lemma count_steps_app p ss1 ss2 :
  count_steps p (ss1 ++ ss2) = (count_steps p ss1 + count_steps p ss2)%nat.
Proof. unfold count_steps. now rewrite List.filter_app, length_app. Qed.

Lemma bubble_trace_inversions n : forall tr a a',
  len a = n -> faithful a tr a' -> Forall (bubble_item n) tr ->
  inversions a = (count_steps is_swap (map fst tr) + inversions a')%nat.
Proof.
  induction tr as [|[s b] tr IH]; intros a a' Hlen Hf HI; simpl in Hf.
  - now subst.
  - destruct Hf as [Hb Hf]. apply Forall_cons in HI as [[Hok Hs] HI].
    destruct Hok as (Hstep & Hlenb & _). simpl in *.
    specialize (IH b a' Hlenb Hf HI). cbn [map fst]. rewrite count_steps_cons.
    destruct s as [x [y|]|x y|i v|]; try contradiction; simpl in *.
    + subst b. exact IH.
    + destruct Hs as [-> Hlt]. destruct Hstep as [Ix Iy].
      rewrite <- Hlen in Ix, Iy.
      rewrite (get_inb a x Ix), (get_inb a (x + 1) Iy) in Hb.
      fold (exchange a x (x + 1)) in Hb. subst b.
      rewrite val_exchange_l, val_exchange_r in Hlt by assumption.
      unfold inb in *. rewrite (inversions_exchange a x) by (assumption || lia).
      lia.
Qed.

(** X2.  The number of [swap] steps of a run of bubbleGen is the number
    of inversions of the input array (the pairs of slots whose values
    are strictly out of order); so bubbleGen yields no swap exactly when
    the input is already in order. *)
Theorem X2_bubble_swaps_inversions (A : list Q) (fuel : nat) :
  enough A fuel ->
  count_steps is_swap (steps_of (bubbleGen fuel) A) = inversions A /\
  (count_steps is_swap (steps_of (bubbleGen fuel) A) = 0%nat <-> Sorted Qle A).
Proof.
  intros Hfuel. unfold enough in Hfuel.
  destruct (bubbleGen_run A fuel) as (tr & A' & Hrun & Hf & HI & _ & HP & Hs);
    [lia|].
  assert (E : count_steps is_swap (steps_of (bubbleGen fuel) A) = inversions A).
  { unfold steps_of. rewrite Hrun. cbn [fst]. rewrite map_app, count_steps_app.
    rewrite (bubble_trace_inversions (len A) tr A A' eq_refl Hf HI).
    rewrite (inversions_sorted A').
    - unfold count_steps. simpl. lia.
    - apply sorted_on_StronglySorted. now rewrite <- (Permutation_len _ _ HP). }
  split; [exact E|]. rewrite E. split.
  - intros H0. now apply StronglySorted_Sorted, inversions_zero.
  - intros HS. apply inversions_sorted.
    apply Sorted_StronglySorted; [|exact HS]. intros x y z. apply Qle_trans.
Qed.

(** X2 on [3,1,2]: two inversions, two swaps. *)
Lemma X2_bubble_swaps_inversions_witness :
  enough [3 # 1; 1 # 1; 2 # 1]%Q 18 /\
  count_steps is_swap (steps_of (bubbleGen 18) [3 # 1; 1 # 1; 2 # 1]%Q) = 2%nat.
Proof.
  assert (E : enough [3 # 1; 1 # 1; 2 # 1]%Q 18) by (unfold enough; simpl; lia).
  split; [exact E|].
  exact (proj1 (X2_bubble_swaps_inversions _ 18 E)).
Defined.

(** ** Compare steps *)

Lemma run_swap_ i j a :
  inb (len a) i -> inb (len a) j ->
  run (swap_ i j) a = ([], exchange a i j, Returned tt).
Proof.
  intros Ii Ij. unfold swap_. cbn [run].
  rewrite (get_inb a i Ii), (get_inb a j Ij).
  rewrite (put_inb a i _ Ii).
  rewrite put_inb by (now rewrite len_upd). reflexivity.
Qed.

(** One pass over the slots [j ..] makes one comparison per pair of
    neighbours it still has to visit, and at most as many swaps. *)
Lemma bubble_inner_compares n i : forall fuel j sw a tr a' sw',
  len a = n -> 0 <= j -> j <= n - 1 - i -> 0 <= i ->
  run (bubble_inner fuel n i j sw) a = (tr, a', Returned sw') ->
  count_steps is_compare (map fst tr) = Z.to_nat (n - 1 - i - j) /\
  (count_steps is_swap (map fst tr) <= count_steps is_compare (map fst tr))%nat /\
  len a' = n.
Proof.
  induction fuel as [|fuel IH]; intros j sw a tr a' sw' Hlen Hj Hji Hi;
    [discriminate|].
  cbn [bubble_inner]. destruct (Z.ltb_spec j (n - 1 - i)) as [Hlt|Hge].
  - cbn [run].
    assert (Ij : inb (len a) j) by (unfold inb; lia).
    assert (Ij1 : inb (len a) (j + 1)) by (unfold inb; lia).
    destruct (js_cmp Gt (get a j) (get a (j + 1))).
    + rewrite run_bind, (run_swap_ j (j + 1) a Ij Ij1). cbn [run].
      destruct (run (bubble_inner fuel n i (j + 1) true) (exchange a j (j + 1)))
        as [[tr1 a1] o1] eqn:E.
      intros [= <- <- ->].
      assert (Hlen' : len (exchange a j (j + 1)) = n) by now rewrite len_exchange.
      assert (Hj' : 0 <= j + 1) by lia. assert (Hji' : j + 1 <= n - 1 - i) by lia.
      destruct (IH (j + 1) true _ _ _ _ Hlen' Hj' Hji' Hi E) as (Hc & Hsw & Hl).
      cbn [map fst app]. rewrite !count_steps_cons. simpl.
      rewrite Hc in *. repeat split; try lia; exact Hl.
    + destruct (run (bubble_inner fuel n i (j + 1) sw) a) as [[tr1 a1] o1] eqn:E.
      intros [= <- <- ->].
      assert (Hj' : 0 <= j + 1) by lia. assert (Hji' : j + 1 <= n - 1 - i) by lia.
      destruct (IH (j + 1) sw _ _ _ _ Hlen Hj' Hji' Hi E) as (Hc & Hsw & Hl).
      cbn [map fst]. rewrite !count_steps_cons. simpl.
      rewrite Hc in *. repeat split; try lia; exact Hl.
  - cbn [run]. intros [= <- <- <-]. split; [|split; [reflexivity | exact Hlen]].
    replace (n - 1 - i - j) with 0 by lia. reflexivity.
Qed.

(** The passes [i, i + 1, ...]: at least the pass [i], at most all of
    them. *)
Lemma bubble_outer_compares n budget : forall fuel i a tr a',
  len a = n -> 0 <= i -> i <= n ->
  run (bubble_outer budget fuel n i) a = (tr, a', Returned tt) ->
  (i < n -> n - 1 - i <= Z.of_nat (count_steps is_compare (map fst tr))) /\
  2 * Z.of_nat (count_steps is_compare (map fst tr)) <= (n - i) * (n - i - 1) /\
  (count_steps is_swap (map fst tr) <= count_steps is_compare (map fst tr))%nat.
Proof.
  induction fuel as [|fuel IH]; intros i a tr a' Hlen Hi Hin; [discriminate|].
  cbn [bubble_outer]. destruct (Z.ltb_spec i n) as [Hlt|Hge].
  - rewrite run_bind.
    destruct (run (bubble_inner budget n i 0 false) a) as [[tr1 a1] [sw| | |]] eqn:E;
      try discriminate.
    assert (H0 : 0 <= 0) by lia. assert (H1 : 0 <= n - 1 - i) by lia.
    destruct (bubble_inner_compares n i _ _ _ _ _ _ _ Hlen H0 H1 Hi E)
      as (Hc & Hsw & Hl).
    destruct sw; cbn [negb].
    + destruct (run (bubble_outer budget fuel n (i + 1)) a1) as [[tr2 a2] o2] eqn:E2.
      intros [= <- <- ->].
      assert (Hi' : 0 <= i + 1) by lia. assert (Hin' : i + 1 <= n) by lia.
      destruct (IH (i + 1) _ _ _ Hl Hi' Hin' E2) as (_ & Hu & Hsw2).
      rewrite map_app, !count_steps_app, Hc in *. split; [lia|]. split; [nia | lia].
    + cbn [run]. intros [= <- <-]. rewrite app_nil_r, Hc in *.
      split; [lia|]. split; [nia | lia].
  - cbn [run]. intros [= <- <-]. assert (i = n) by lia. subst i.
    split; [lia|]. split; [|reflexivity]. unfold count_steps. simpl. lia.
Qed.

(** On an array that is in order, a pass compares every pair of
    neighbours it visits, changes nothing and reports no swap. *)
Lemma bubble_inner_sorted n i a : sorted_on a 0 (n - 1) -> len a = n -> 0 <= i ->
  forall fuel j sw, 0 <= j -> j <= n - 1 - i ->
  (Z.to_nat (n - 1 - i - j) < fuel)%nat ->
  run (bubble_inner fuel n i j sw) a
    = (map (fun s => (s, a)) (compares_from j (Z.to_nat (n - 1 - i - j))), a,
       Returned sw).
Proof.
  intros Hs Hlen Hi. induction fuel as [|fuel IH]; intros j sw Hj Hjn Hfuel; [lia|].
  cbn [bubble_inner].
  destruct (Z.ltb_spec j (n - 1 - i)) as [Hlt|Hge].
  - cbn [run].
    assert (Ij : inb (len a) j) by (unfold inb; lia).
    assert (Ij1 : inb (len a) (j + 1)) by (unfold inb; lia).
    rewrite (get_inb a j Ij), (get_inb a (j + 1) Ij1). cbn [js_cmp].
    rewrite (proj2 (Qltb_false (val a (j + 1)) (val a j))) by (apply Hs; lia).
    rewrite IH by lia.
    replace (Z.to_nat (n - 1 - i - j))
      with (S (Z.to_nat (n - 1 - i - (j + 1)))) by lia.
    reflexivity.
  - replace (n - 1 - i - j) with 0 by lia. reflexivity.
Qed.

(** X3.  bubbleGen stops after the first pass that exchanges nothing: on
    an array that is already in order it yields one [compare(j, j+1)]
    per pair of neighbours, from left to right, then [done], and leaves
    the array as it was.  On every array of [n >= 1] values it yields at
    least [n - 1] and at most [n (n - 1) / 2] compare steps, and never
    more swaps than compares. *)
Theorem X3_bubble_compares (A : list Q) (fuel : nat) :
  enough A fuel ->
  (Sorted Qle A ->
   steps_of (bubbleGen fuel) A
     = compares_from 0 (length A - 1) ++ [done] /\
   final_of (bubbleGen fuel) A = A) /\
  ((1 <= length A)%nat ->
   Z.of_nat (length A) - 1
     <= Z.of_nat (count_steps is_compare (steps_of (bubbleGen fuel) A))) /\
  2 * Z.of_nat (count_steps is_compare (steps_of (bubbleGen fuel) A))
    <= Z.of_nat (length A) * (Z.of_nat (length A) - 1) /\
  (count_steps is_swap (steps_of (bubbleGen fuel) A)
   <= count_steps is_compare (steps_of (bubbleGen fuel) A))%nat.
Proof.
  intros Hfuel. pose proof Hfuel as Hfuel'. unfold enough in Hfuel'.
  split; [|split; [|split]].
  - intros HS.
    pose proof (Sorted_sorted_on A HS) as Hs.
    unfold steps_of, final_of, bubbleGen. cbn [run]. rewrite run_bind.
    destruct fuel as [|fuel0]; [lia|]. cbn [bubble_outer].
    destruct (Z.ltb_spec 0 (len A)) as [Hpos|H0].
    + rewrite run_bind.
      rewrite (bubble_inner_sorted (len A) 0 A Hs eq_refl) by (unfold len in *; lia).
      cbn [negb run]. rewrite app_nil_r. cbn [fst snd].
      rewrite map_app, map_map. cbn [fst map]. rewrite map_id.
      replace (Z.to_nat (len A - 1 - 0 - 0)) with (length A - 1)%nat
        by (unfold len; lia).
      split; reflexivity.
    + assert (length A = 0%nat) as -> by (unfold len in H0; lia).
      split; reflexivity.
  - intros Hn.
    destruct (bubbleGen_run A fuel) as (tr & A' & Hrun & _); [lia|].
    unfold bubbleGen in Hrun. cbn [run] in Hrun. rewrite run_bind in Hrun.
    destruct (run (bubble_outer fuel fuel (len A) 0) A) as [[tr1 a1] [[]| | |]] eqn:E;
      try discriminate.
    assert (H0 : 0 <= 0) by lia. assert (H1 : 0 <= len A) by apply len_nonneg.
    destruct (bubble_outer_compares (len A) fuel fuel 0 A tr1 a1 eq_refl H0 H1 E)
      as (Hlo & _).
    unfold steps_of, bubbleGen. cbn [run]. rewrite run_bind, E. cbn [run fst].
    rewrite map_app, count_steps_app. unfold len in Hlo. lia.
  - destruct (bubbleGen_run A fuel) as (tr & A' & Hrun & _); [lia|].
    unfold bubbleGen in Hrun. cbn [run] in Hrun. rewrite run_bind in Hrun.
    destruct (run (bubble_outer fuel fuel (len A) 0) A) as [[tr1 a1] [[]| | |]] eqn:E;
      try discriminate.
    assert (H0 : 0 <= 0) by lia. assert (H1 : 0 <= len A) by apply len_nonneg.
    destruct (bubble_outer_compares (len A) fuel fuel 0 A tr1 a1 eq_refl H0 H1 E)
      as (_ & Hup & _).
    unfold steps_of, bubbleGen. cbn [run]. rewrite run_bind, E. cbn [run fst].
    rewrite map_app, count_steps_app. unfold count_steps at 2. simpl.
    unfold len in Hup. lia.
  - destruct (bubbleGen_run A fuel) as (tr & A' & Hrun & _); [lia|].
    unfold bubbleGen in Hrun. cbn [run] in Hrun. rewrite run_bind in Hrun.
    destruct (run (bubble_outer fuel fuel (len A) 0) A) as [[tr1 a1] [[]| | |]] eqn:E;
      try discriminate.
    assert (H0 : 0 <= 0) by lia. assert (H1 : 0 <= len A) by apply len_nonneg.
    destruct (bubble_outer_compares (len A) fuel fuel 0 A tr1 a1 eq_refl H0 H1 E)
      as (_ & _ & Hsw).
    unfold steps_of, bubbleGen. cbn [run]. rewrite run_bind, E. cbn [run fst].
    rewrite map_app, !count_steps_app. unfold count_steps at 2 4. simpl. lia.
Qed.

(** X3 on an array that is in order. *)
Lemma X3_bubble_compares_witness :
  enough [1 # 1; 2 # 1; 2 # 1; 5 # 1]%Q 20 /\
  Sorted Qle [1 # 1; 2 # 1; 2 # 1; 5 # 1]%Q /\
  steps_of (bubbleGen 20) [1 # 1; 2 # 1; 2 # 1; 5 # 1]%Q
    = [compare 0 (Some 1); compare 1 (Some 2); compare 2 (Some 3); done].
Proof.
  assert (E : enough [1 # 1; 2 # 1; 2 # 1; 5 # 1]%Q 20)
    by (unfold enough; simpl; lia).
  assert (S : Sorted Qle [1 # 1; 2 # 1; 2 # 1; 5 # 1]%Q).
  { repeat constructor; unfold Qle; simpl; lia. }
  split; [exact E|]. split; [exact S|].
  exact (proj1 (proj1 (X3_bubble_compares _ 20 E) S)).
Defined.

(** * bubbleSync *)

(** A pass of bubbleSync does to the array what the pass of bubbleGen
    does. *)
Lemma bubbleSync_inner_run n i : forall fuel j sw a tr a' sw',
  len a = n -> 0 <= j -> 0 <= i ->
  run (bubble_inner fuel n i j sw) a = (tr, a', Returned sw') ->
  run (bubbleSync_inner fuel i j) a = ([], a', Returned tt).
Proof.
  induction fuel as [|fuel IH]; intros j sw a tr a' sw' Hlen Hj Hi; [discriminate|].
  cbn [bubble_inner bubbleSync_inner run]. rewrite Hlen.
  destruct (Z.ltb_spec j (n - 1 - i)) as [Hlt|Hge].
  - cbn [run].
    assert (Ij : inb (len a) j) by (unfold inb; lia).
    assert (Ij1 : inb (len a) (j + 1)) by (unfold inb; lia).
    destruct (js_cmp Gt (get a j) (get a (j + 1))).
    + rewrite run_bind, (run_swap_ j (j + 1) a Ij Ij1). cbn [run].
      rewrite (get_inb a j Ij), (get_inb a (j + 1) Ij1).
      rewrite (put_inb a j _ Ij).
      rewrite put_inb by (now rewrite len_upd).
      fold (exchange a j (j + 1)).
      destruct (run (bubble_inner fuel n i (j + 1) true) (exchange a j (j + 1)))
        as [[tr1 a1] o1] eqn:E.
      intros [= <- <- ->].
      assert (Hlen' : len (exchange a j (j + 1)) = n) by now rewrite len_exchange.
      assert (Hj' : 0 <= j + 1) by lia.
      exact (IH (j + 1) true _ _ _ _ Hlen' Hj' Hi E).
    + destruct (run (bubble_inner fuel n i (j + 1) sw) a) as [[tr1 a1] o1] eqn:E.
      intros [= <- <- ->].
      assert (Hj' : 0 <= j + 1) by lia.
      exact (IH (j + 1) sw _ _ _ _ Hlen Hj' Hi E).
  - cbn [run]. now intros [= <- <- <-].
Qed.

(** On an array that is in order the remaining passes of bubbleSync
    change nothing. *)
Lemma bubbleSync_outer_sorted n a budget :
  sorted_on a 0 (n - 1) -> len a = n -> (Z.to_nat n < budget)%nat ->
  forall fuel i, 0 <= i -> i <= n -> (Z.to_nat (n - i) < fuel)%nat ->
  run (bubbleSync_outer budget fuel i) a = ([], a, Returned tt).
Proof.
  intros Hs Hlen Hbud. induction fuel as [|fuel IH]; intros i Hi Hin Hfuel; [lia|].
  cbn [bubbleSync_outer run]. rewrite Hlen.
  destruct (Z.ltb_spec i n) as [Hlt|Hge]; [|reflexivity].
  rewrite run_bind.
  rewrite (bubbleSync_inner_run n i budget 0 false a _ a false Hlen
             ltac:(lia) Hi
             (bubble_inner_sorted n i a Hs Hlen Hi budget 0 false
                ltac:(lia) ltac:(lia) ltac:(lia))).
  rewrite IH by lia. reflexivity.
Qed.

(** bubbleSync and bubbleGen, pass by pass: the generator stops at the
    first pass without a swap, the synchronous loop goes on over an
    array that is in order by then. *)
Lemma bubbleSync_outer_agrees A n (m : nat) : forall budget fuel i a,
  Z.to_nat (n - i) = m -> (m < fuel)%nat -> (Z.to_nat n < budget)%nat ->
  len a = n -> 0 <= i -> i <= n ->
  Permutation A a ->
  suffix_done a n i ->
  exists tr a',
    run (bubble_outer budget fuel n i) a = (tr, a', Returned tt) /\
    run (bubbleSync_outer budget fuel i) a = ([], a', Returned tt) /\
    Permutation A a' /\ sorted_on a' 0 (n - 1) /\ len a' = n.
Proof.
  induction m as [|m IH]; intros budget fuel i a Hm Hfuel Hbud Hlen Hi Hin HP Hsuf;
    (destruct fuel as [|fuel]; [lia|]); cbn [bubble_outer bubbleSync_outer run];
    rewrite Hlen.
  - assert (i = n) by lia. subst i.
    destruct (Z.ltb_spec n n); [lia|].
    exists [], a. repeat split; auto. now apply sorted_on_from_suffix.
  - destruct (Z.ltb_spec i n); [|lia].
    destruct (bubble_inner_spec A n i (Z.to_nat (n - 1 - i)) budget 0 false a)
      as (tr1 & a1 & sw & Hrun1 & _ & _ & _ & Hlen1 & HP1 & Hsuf1 & Hsw1);
      auto; try lia.
    { intros k Hk Hk0. assert (k = 0) by lia. subst k. apply Qle_refl. }
    { intros _ p q Hp Hpq Hq. assert (p = q) by lia. subst. apply Qle_refl. }
    rewrite !run_bind, Hrun1.
    rewrite (bubbleSync_inner_run n i budget 0 false a tr1 a1 sw Hlen
               ltac:(lia) Hi Hrun1).
    destruct sw; cbn [negb].
    + destruct (IH budget fuel (i + 1) a1) as (tr2 & a2 & R1 & R2 & HP2 & Hs2 & Hl2);
        auto; try lia.
      rewrite R1, R2. exists (tr1 ++ tr2), a2. repeat split; auto.
    + cbn [run]. specialize (Hsw1 eq_refl).
      rewrite (bubbleSync_outer_sorted n a1 budget Hsw1 Hlen1 Hbud) by lia.
      exists (tr1 ++ []), a1. repeat split; auto.
Qed.

Lemma bubbleSync_run (A : list Q) (fuel : nat) :
  (length A < fuel)%nat ->
  exists a',
    bubbleSync fuel A = Returned a' /\ final_of (bubbleGen fuel) A = a' /\
    Permutation A a' /\ Sorted Qle a'.
Proof.
  intros Hfuel.
  destruct (bubbleSync_outer_agrees A (len A) (length A) fuel fuel 0 A)
    as (tr & a' & R1 & R2 & HP & Hs & Hl); auto; try (unfold len; lia).
  { intros k m ? ? ? ?. lia. }
  exists a'. unfold bubbleSync, final_of, bubbleGen. cbn [run].
  rewrite R2, run_bind, R1. cbn. repeat split; auto.
  apply sorted_on_Sorted. now rewrite Hl.
Qed.

(** X4.  bubbleSync returns, for every array, an array that is in
    non-decreasing order and is a permutation of its argument. *)
Theorem X4_bubbleSync_sorts (A : list Q) (fuel : nat) :
  enough A fuel ->
  exists a',
    bubbleSync fuel A = Returned a' /\ Sorted Qle a' /\ Permutation A a'.
Proof.
  intros Hfuel. unfold enough in Hfuel.
  destruct (bubbleSync_run A fuel) as (a' & H1 & _ & H3 & H4); [lia|]. eauto.
Qed.

(** X4 on [3,1,2]. *)
Lemma X4_bubbleSync_sorts_witness :
  enough [3 # 1; 1 # 1; 2 # 1]%Q 18 /\
  exists a', bubbleSync 18 [3 # 1; 1 # 1; 2 # 1]%Q = Returned a' /\ Sorted Qle a'.
Proof.
  assert (E : enough [3 # 1; 1 # 1; 2 # 1]%Q 18) by (unfold enough; simpl; lia).
  split; [exact E|].
  destruct (X4_bubbleSync_sorts _ 18 E) as (a' & H1 & H2 & _). eauto.
Defined.

(** X5.  The array bubbleSync returns is, slot by slot, the array a
    complete run of bubbleGen leaves behind: the early exit of the
    generator skips only passes that would change nothing. *)
Theorem X5_bubbleSync_agrees (A : list Q) (fuel : nat) :
  enough A fuel ->
  bubbleSync fuel A = Returned (final_of (bubbleGen fuel) A).
Proof.
  intros Hfuel. unfold enough in Hfuel.
  destruct (bubbleSync_run A fuel) as (a' & H1 & H2 & _); [lia|]. congruence.
Qed.

(** X5 on an array with equal values. *)
Lemma X5_bubbleSync_agrees_witness :
  enough [2 # 1; 1 # 1; 2 # 1; 1 # 1]%Q 20 /\
  bubbleSync 20 [2 # 1; 1 # 1; 2 # 1; 1 # 1]%Q
    = Returned (final_of (bubbleGen 20) [2 # 1; 1 # 1; 2 # 1; 1 # 1]%Q).
Proof.
  assert (E : enough [2 # 1; 1 # 1; 2 # 1; 1 # 1]%Q 20)
    by (unfold enough; simpl; lia).
  split; [exact E|]. exact (X5_bubbleSync_agrees _ 20 E).
Defined.


(** * radixGen outside [0,1) *)

(** X6.  The upper bound of the domain radixGen documents is not
    needed: on every array of non-negative numbers up to [10^12] (scaled
    values stay far below [2^53], where the digits are computed exactly)
    it ends normally, leaves the array as it was when every element is
    below 0.001, and otherwise leaves it in non-decreasing order, a
    rearrangement of the input in which every value has moved by less
    than 0.002. *)
Theorem X6_radix_nonnegative (A : list Q) (fuel : nat) :
  Forall (fun x => (0 <= x)%Q /\ (x <= inject_Z (10 ^ 12))%Q) A ->
  (length A + 28 <= fuel)%nat ->
  outcome_of (radixGen fuel) A = Returned tt /\
  (Forall (fun x => (x < 1 # 1000)%Q) A -> final_of (radixGen fuel) A = A) /\
  (Exists (fun x => (1 # 1000 <= x)%Q) A ->
   Sorted Qle (final_of (radixGen fuel) A) /\
   exists B, Permutation A B /\ Forall2 near B (final_of (radixGen fuel) A)).
Proof.
  intros Hdom Hfuel.
  assert (Hnn : Forall (fun x => (0 <= x)%Q) A).
  { eapply Forall_impl; [exact Hdom|]. simpl. tauto. }
  assert (Hmax : radix_max (map scale_floor A) < 10 ^ (Z.of_nat fuel - 1)).
  { assert (radix_max (map scale_floor A) <= 10 ^ 15).
    { apply radix_max_le; [lia|]. apply Forall_fmap.
      eapply Forall_impl; [exact Hdom|]. simpl. intros x [_ Hx].
      unfold scale_floor, scale.
      change (10 ^ 15) with (Qfloor (inject_Z (10 ^ 15))).
      apply Qfloor_resp_le.
      change (inject_Z (10 ^ 15)) with (inject_Z (10 ^ 12) * inject_Z 1000)%Q.
      apply Qmult_le_compat_r; [exact Hx | discriminate]. }
    assert (10 ^ 16 <= 10 ^ (Z.of_nat fuel - 1))
      by (apply Z.pow_le_mono_r; lia).
    assert (10 ^ 15 < 10 ^ 16) by (apply Z.pow_lt_mono_r; lia).
    lia. }
  destruct (radixGen_run A fuel Hnn ltac:(lia) Hmax)
    as (tr & A' & Hrun & _ & _ & _ & S & HS1 & HS2 & HS3 & HS4).
  unfold outcome_of, final_of. rewrite Hrun. simpl. split; [reflexivity|]. split.
  - intros Hz. apply HS3, radix_max_zero. apply Forall_fmap.
    rewrite Forall_forall in Hz, Hnn. apply Forall_forall. intros x Hx. simpl.
    apply scale_floor_small; auto.
  - intros Hex. rewrite HS4.
    + split; [now apply Sorted_unscale|].
      symmetry in HS1. apply Permutation_map_inv in HS1 as (B & -> & HB).
      exists B. split; [exact HB | apply Forall2_near_unscale].
    + apply radix_max_pos. apply Exists_exists in Hex as (x & Hx & Hx1).
      apply Exists_exists. exists (scale_floor x).
      split; [apply list_elem_of_fmap; eauto | now apply scale_floor_atleast].
Qed.

(** X6 on a staircase of three values, which holds the value 1. *)
Lemma X6_radix_nonnegative_witness :
  Forall (fun x => (0 <= x)%Q /\ (x <= inject_Z (10 ^ 12))%Q)
    [1 # 2; 1 # 1; 0 # 1]%Q /\
  (length [1 # 2; 1 # 1; 0 # 1]%Q + 28 <= 31)%nat /\
  outcome_of (radixGen 31) [1 # 2; 1 # 1; 0 # 1]%Q = Returned tt.
Proof.
  assert (H1 : Forall (fun x => (0 <= x)%Q /\ (x <= inject_Z (10 ^ 12))%Q)
                 [1 # 2; 1 # 1; 0 # 1]%Q).
  { repeat constructor; vm_compute; discriminate. }
  assert (H3 : (length [1 # 2; 1 # 1; 0 # 1]%Q + 28 <= 31)%nat)
    by (simpl; lia).
  split; [exact H1|]. split; [exact H3|].
  exact (proj1 (X6_radix_nonnegative _ 31 H1 H3)).
Defined.

(** ** Negative values *)

(** At the first pass the digit of the source is the remainder of the
    truncating division by 10, with the sign of the value. *)
Lemma digit_one v : digit v 1 = Z.rem v 10.
Proof.
  unfold digit, js_rem.
  assert (Hx : (inject_Z v / inject_Z 1 == inject_Z v)%Q) by (field; discriminate).
  assert (Ht : Qtrunc (inject_Z v / inject_Z 1 / inject_Z 10) = Z.quot v 10).
  { unfold Qtrunc. destruct (Z_lt_ge_dec v 0) as [Hneg|Hpos].
    - assert (Hlt : (inject_Z v / inject_Z 1 / inject_Z 10 < 0)%Q).
      { rewrite Hx. apply Qlt_shift_div_r; [reflexivity|]. rewrite Qmult_0_l.
        change 0%Q with (inject_Z 0). now rewrite <- Zlt_Qlt. }
      rewrite (proj2 (Qltb_true _ _) Hlt). unfold Qceiling.
      assert (E : (- (inject_Z v / inject_Z 1 / inject_Z 10)
                   == inject_Z (- v) / inject_Z 10)%Q).
      { rewrite inject_Z_opp. field. }
      rewrite (Qfloor_comp _ _ E), <- Zdiv_Qdiv.
      replace v with (- - v) at 2 by lia.
      rewrite Z.quot_opp_l by lia. rewrite Z.quot_div_nonneg by lia. reflexivity.
    - assert (Hge : (0 <= inject_Z v / inject_Z 1 / inject_Z 10)%Q).
      { rewrite Hx. apply Qle_shift_div_l; [reflexivity|]. rewrite Qmult_0_l.
        change 0%Q with (inject_Z 0). rewrite <- Zle_Qle. lia. }
      rewrite (proj2 (Qltb_false _ _) Hge).
      assert (E : (inject_Z v / inject_Z 1 / inject_Z 10
                   == inject_Z v / inject_Z 10)%Q) by (field).
      rewrite (Qfloor_comp _ _ E), <- Zdiv_Qdiv.
      rewrite Z.quot_div_nonneg by lia. reflexivity. }
  rewrite Ht, <- inject_Z_mult, Qfloor_sub_Z.
  rewrite (Qfloor_comp _ _ Hx), Qfloor_Z.
  pose proof (Z.quot_rem' v 10). lia.
Qed.

Lemma bucket_push_negative buckets d v : d < 0 -> bucket_push buckets d v = None.
Proof.
  intros Hd. unfold bucket_push. destruct (Z.leb_spec 0 d); [lia|]. reflexivity.
Qed.

(** Bucketing by the first digit, up to the first value whose digit is
    negative: [buckets[d]] is [undefined] there and [push] throws. *)
Lemma radix_distribute_fault (A1 A2 : list Z) (w : Z) (a : list Q) :
  Forall (fun v => 0 <= Z.rem v 10) A1 -> Z.rem w 10 < 0 ->
  forall fuel i,
  0 <= i -> i <= len A1 -> (Z.to_nat (len A1 - i) < fuel)%nat ->
  run (radix_distribute fuel (len (A1 ++ w :: A2)) (A1 ++ w :: A2) 1
         (map (bucket_of 1 (take (Z.to_nat i) (A1 ++ w :: A2))) digits10) i) a
    = (map (fun s => (s, a)) (compares1_from i (S (Z.to_nat (len A1 - i)))),
       a, TypeError).
Proof.
  intros Hpre Hw. induction fuel as [|fuel IH]; intros i Hi0 Hi Hfuel; [lia|].
  cbn [radix_distribute].
  assert (Hn : len (A1 ++ w :: A2) = len A1 + 1 + len A2).
  { unfold len. rewrite length_app. simpl. lia. }
  pose proof (len_nonneg A2) as HA2.
  destruct (Z.ltb_spec i (len (A1 ++ w :: A2))); [|lia].
  destruct (Z.ltb_spec i 0); [lia|].
  destruct (Z_lt_ge_dec i (len A1)) as [Hlt|Hge].
  - destruct (lookup_lt_is_Some_2 A1 (Z.to_nat i)) as [v Hv];
      [unfold len in *; lia|].
    assert (Hv' : (A1 ++ w :: A2) !! Z.to_nat i = Some v).
    { rewrite lookup_app_l; [exact Hv | unfold len in *; lia]. }
    rewrite Hv'. cbn [run].
    assert (Hd : 0 <= digit v 1 < 10).
    { rewrite digit_one. split.
      - apply (proj1 (Forall_forall _ _) Hpre). eapply list_elem_of_lookup_2; eauto.
      - pose proof (Z.rem_bound_abs v 10 ltac:(lia)). lia. }
    rewrite (bucket_push_spec 1 _ v Hd).
    rewrite <- (Zlookup_take_S _ i v Hv' Hi0).
    rewrite IH by lia.
    replace (Z.to_nat (len A1 - i)) with (S (Z.to_nat (len A1 - (i + 1)))) by lia.
    reflexivity.
  - assert (i = len A1) by lia. subst i.
    assert (Hv' : (A1 ++ w :: A2) !! Z.to_nat (len A1) = Some w).
    { unfold len. rewrite Nat2Z.id. now rewrite list_lookup_middle. }
    rewrite Hv'. cbn [run].
    rewrite bucket_push_negative by (now rewrite digit_one).
    replace (len A1 - len A1) with 0 by lia. reflexivity.
Qed.

(** The run of radixGen up to the first element whose scaled value has
    a negative last digit. *)
Lemma radixGen_negative_run (A1 A2 : list Q) (x : Q) (fuel : nat) :
  Forall (fun y => 0 <= Z.rem (scale_floor y) 10) A1 ->
  Z.rem (scale_floor x) 10 < 0 ->
  Exists (fun y => 1 <= scale_floor y) (A1 ++ x :: A2) ->
  (length A1 + 2 <= fuel)%nat ->
  run (radixGen fuel) (A1 ++ x :: A2)
    = (map (fun s => (s, A1 ++ x :: A2)) (compares1_from 0 (S (length A1))),
       A1 ++ x :: A2, TypeError).
Proof.
  intros Hpre Hx Hex Hfuel. set (A := A1 ++ x :: A2).
  assert (Hmax : 1 <= radix_max (map scale_floor A)).
  { apply radix_max_pos. apply Exists_exists in Hex as (y & Hy & Hy1).
    apply Exists_exists. exists (scale_floor y). split; [|exact Hy1].
    apply list_elem_of_fmap. eauto. }
  destruct fuel as [|fuel]; [lia|].
  unfold radixGen. cbn [run].
  change (map (fun x => Qfloor (x * inject_Z scale)) A) with (map scale_floor A).
  rewrite run_bind, radix_max_loop_run. fold (radix_max (map scale_floor A)).
  rewrite run_bind. cbn [radix_passes run]. rewrite pass_cmp by lia.
  destruct (Z.leb_spec 1 (radix_max (map scale_floor A))); [|lia].
  rewrite run_bind.
  assert (Hlen : len A = len (map scale_floor A1 ++ scale_floor x :: map scale_floor A2)).
  { unfold A, len. rewrite !length_app. simpl. now rewrite !length_map. }
  assert (HA : map scale_floor A
               = map scale_floor A1 ++ scale_floor x :: map scale_floor A2).
  { unfold A. now rewrite map_app. }
  rewrite HA, Hlen.
  pose proof (radix_distribute_fault (map scale_floor A1) (map scale_floor A2)
                (scale_floor x) A) as Hf.
  specialize (Hf ltac:(now apply Forall_fmap) Hx (S fuel) 0).
  change (take (Z.to_nat 0) (map scale_floor A1 ++ scale_floor x :: map scale_floor A2))
    with (@nil Z) in Hf.
  change (map (bucket_of 1 []) digits10) with (@replicate (list Z) 10 []) in Hf.
  rewrite Hf; [| lia | apply len_nonneg | unfold len; rewrite length_map; lia].
  replace (Z.to_nat (len (map scale_floor A1) - 0)) with (length A1)
    by (unfold len; rewrite length_map; lia).
  reflexivity.
Qed.

Lemma scales_to_floor x v : scales_to x v -> scale_floor x = v.
Proof.
  intros [H1 H2]. unfold scale_floor. apply Qfloor_unique.
  - eapply Qle_trans; [|exact H1].
    rewrite <- (Qplus_0_r (inject_Z v)) at 1. apply Qplus_le_r. discriminate.
  - eapply Qle_lt_trans; [exact H2|]. rewrite inject_Z_plus.
    apply Qplus_lt_r. reflexivity.
Qed.

(** X7.  radixGen has no guard against negative numbers.  When some
    element is at least 0.001, so that a pass is made, the elements
    before [x] are non-negative (and below [10^300]: their scaled
    values are finite), and [x] is negative with a scaled value [v]
    whose last digit is not 0 (and [x * 1000] not so close to an
    integer that rounding could decide [v]), the run yields
    [compare(0)], ..., [compare(i)] up to the slot [i] of [x] and then
    ends with a [TypeError] ([buckets[d]] is [undefined] for the
    negative digit [d]), the array being left as it was. *)
Theorem X7_radix_negative_faults (A1 A2 : list Q) (x : Q) (v : Z) (fuel : nat) :
  Forall (fun y => (0 <= y)%Q /\ (y <= inject_Z (10 ^ 300))%Q) A1 ->
  scales_to x v -> - 10 ^ 15 <= v -> Z.rem v 10 < 0 ->
  Exists (fun y => (1 # 1000 <= y)%Q) (A1 ++ x :: A2) ->
  (length A1 + 2 <= fuel)%nat ->
  run (radixGen fuel) (A1 ++ x :: A2)
    = (map (fun s => (s, A1 ++ x :: A2)) (compares1_from 0 (S (length A1))),
       A1 ++ x :: A2, TypeError).
Proof.
  intros HA1 Hx Hv Hrem Hex Hfuel.
  apply radixGen_negative_run; [| | |exact Hfuel].
  - eapply Forall_impl; [exact HA1|]. simpl. intros y [Hy _].
    apply Z.rem_nonneg; [lia|]. now apply scale_floor_nonneg.
  - now rewrite (scales_to_floor x v Hx).
  - eapply Exists_impl; [exact Hex|]. simpl. intros y Hy.
    now apply scale_floor_atleast.
Qed.

(** X7 on [0.5, -0.1235]. *)
Lemma X7_radix_negative_faults_witness :
  Forall (fun y => (0 <= y)%Q /\ (y <= inject_Z (10 ^ 300))%Q) [1 # 2]%Q /\
  scales_to (- 1235 # 10000) (- 124) /\ - 10 ^ 15 <= - 124 /\
  Z.rem (- 124) 10 < 0 /\
  Exists (fun y => (1 # 1000 <= y)%Q) ([1 # 2] ++ (- 1235 # 10000) :: [])%Q /\
  (length [1 # 2]%Q + 2 <= 3)%nat /\
  outcome_of (radixGen 3) ([1 # 2] ++ (- 1235 # 10000) :: [])%Q = TypeError.
Proof.
  assert (H1 : Forall (fun y => (0 <= y)%Q /\ (y <= inject_Z (10 ^ 300))%Q)
                 [1 # 2]%Q).
  { repeat constructor; vm_compute; discriminate. }
  assert (H2 : scales_to (- 1235 # 10000) (- 124))
    by (split; vm_compute; discriminate).
  assert (H2' : - 10 ^ 15 <= - 124) by (vm_compute; discriminate).
  assert (H2'' : Z.rem (- 124) 10 < 0) by (vm_compute; reflexivity).
  assert (H3 : Exists (fun y => (1 # 1000 <= y)%Q)
                 ([1 # 2] ++ (- 1235 # 10000) :: [])%Q).
  { apply Exists_cons_hd. vm_compute. discriminate. }
  assert (H4 : (length [1 # 2]%Q + 2 <= 3)%nat) by (simpl; lia).
  split; [exact H1|]. split; [exact H2|]. split; [exact H2'|].
  split; [exact H2''|]. split; [exact H3|]. split; [exact H4|].
  unfold outcome_of.
  now rewrite (X7_radix_negative_faults [1 # 2]%Q [] (- 1235 # 10000)%Q (- 124) 3
                 H1 H2 H2' H2'' H3 H4).
Defined.

(** * radixGen: the steps of a run *)

Lemma put_Some_inv a i q a1 :
  put a i (Some q) = Some a1 -> inb (len a) i /\ a1 = upd a i q.
Proof.
  unfold put, inb, upd.
  destruct (Z.leb_spec 0 i); destruct (Z.ltb_spec i (len a)); simpl;
    try discriminate.
  intros [= <-]. split; [lia | reflexivity].
Qed.

Lemma radix_distribute_steps n A exp : forall fuel i buckets a tr a' bs,
  run (radix_distribute fuel n A exp buckets i) a = (tr, a', Returned bs) ->
  map fst tr = compares1_from i (Z.to_nat (n - i)).
Proof.
  induction fuel as [|fuel IH]; intros i buckets a tr a' bs; [discriminate|].
  cbn [radix_distribute]. destruct (Z.ltb_spec i n) as [Hlt|Hge].
  - destruct (if i <? 0 then None else A !! Z.to_nat i) as [v|]; cbn [run].
    + destruct (bucket_push buckets (digit v exp) v) as [buckets'|];
        [|discriminate].
      destruct (run (radix_distribute fuel n A exp buckets' (i + 1)) a)
        as [[tr1 a1] o1] eqn:E.
      intros [= <- <- ->]. cbn [map fst]. rewrite (IH _ _ _ _ _ _ E).
      replace (Z.to_nat (n - i)) with (S (Z.to_nat (n - (i + 1)))) by lia.
      reflexivity.
    + discriminate.
  - cbn [run]. intros [= <- <- <-].
    replace (Z.to_nat (n - i)) with 0%nat by lia. reflexivity.
Qed.

Lemma radix_collect_bucket_steps : forall bucket A idx a tr a' r,
  run (radix_collect_bucket bucket A idx) a = (tr, a', Returned r) ->
  map fst tr = sets_from idx bucket /\ r.2 = idx + len bucket.
Proof.
  induction bucket as [|v bucket IH]; intros A idx a tr a' r; cbn [radix_collect_bucket].
  - cbn [run]. intros [= <- <- <-]. simpl. split; [reflexivity|].
    change (len (@nil Z)) with 0. lia.
  - destruct (local_set A idx v) as [A1|]; [|discriminate].
    rewrite run_bind. unfold write_set. cbn [run].
    destruct (put a idx (Some (inject_Z v / inject_Z scale)%Q)) as [a1|] eqn:Hput;
      [|discriminate].
    apply put_Some_inv in Hput as [Hin ->].
    rewrite get_upd_eq by exact Hin.
    destruct (run (radix_collect_bucket bucket A1 (idx + 1))
                (upd a idx (inject_Z v / inject_Z scale)%Q))
      as [[tr1 a2] [r1| | |]] eqn:E; try discriminate.
    intros [= <- <- <-]. destruct (IH _ _ _ _ _ _ E) as [H1 H2].
    cbn [map fst app sets_from]. rewrite H1, H2. split; [reflexivity|].
    unfold len. simpl. lia.
Qed.

Lemma sets_from_app vs1 : forall idx vs2,
  sets_from idx (vs1 ++ vs2) = sets_from idx vs1 ++ sets_from (idx + len vs1) vs2.
Proof.
  induction vs1 as [|v vs1 IH]; intros idx vs2; simpl.
  - change (len (@nil Z)) with 0. now rewrite Z.add_0_r.
  - rewrite IH. do 3 f_equal. unfold len. simpl. lia.
Qed.

Lemma radix_collect_steps buckets : forall fuel b A idx a tr a' A',
  0 <= b ->
  run (radix_collect fuel buckets b A idx) a = (tr, a', Returned A') ->
  map fst tr = sets_from idx (concat (drop (Z.to_nat b) (take 10 buckets))).
Proof.
  induction fuel as [|fuel IH]; intros b A idx a tr a' A' Hb; [discriminate|].
  cbn [radix_collect]. destruct (Z.ltb_spec b 10) as [Hlt|Hge].
  - destruct (Z.ltb_spec b 0); [lia|].
    destruct (buckets !! Z.to_nat b) as [bucket|] eqn:Hbk; [|discriminate].
    rewrite run_bind.
    destruct (run (radix_collect_bucket bucket A idx) a)
      as [[tr1 a1] [[A1 idx1]| | |]] eqn:E1; try discriminate.
    destruct (radix_collect_bucket_steps _ _ _ _ _ _ _ E1) as [H1 H2].
    cbn [fst snd] in *.
    destruct (run (radix_collect fuel buckets (b + 1) A1 idx1) a1)
      as [[tr2 a2] o2] eqn:E2.
    intros [= <- <- ->]. rewrite map_app, H1.
    assert (Hb1 : 0 <= b + 1) by lia.
    rewrite (IH _ _ _ _ _ _ _ Hb1 E2), H2.
    assert (Hbk' : take 10 buckets !! Z.to_nat b = Some bucket).
    { rewrite lookup_take_lt by lia. exact Hbk. }
    rewrite (drop_S _ _ _ Hbk'). cbn [concat]. rewrite sets_from_app.
    replace (Z.to_nat (b + 1)) with (S (Z.to_nat b)) by lia. reflexivity.
  - cbn [run]. intros [= <- <- <-].
    rewrite drop_ge by (rewrite length_take; lia). reflexivity.
Qed.

Lemma count_compares1_from i : forall m,
  count_steps is_compare (compares1_from i m) = m /\
  count_steps is_set (compares1_from i m) = 0%nat.
Proof.
  intros m. revert i. induction m as [|m IH]; intros i; cbn [compares1_from];
    [split; reflexivity|].
  rewrite !count_steps_cons. destruct (IH (i + 1)) as [-> ->]. split; reflexivity.
Qed.

Lemma count_sets_from vs : forall idx,
  count_steps is_compare (sets_from idx vs) = 0%nat /\
  count_steps is_set (sets_from idx vs) = length vs.
Proof.
  induction vs as [|v vs IH]; intros idx; cbn [sets_from]; [split; reflexivity|].
  rewrite !count_steps_cons. destruct (IH (idx + 1)) as [-> ->]. split; reflexivity.
Qed.

(** Every pass yields as many compare steps and as many set steps as
    the array has slots. *)
Lemma count_radix_steps : forall p exp S,
  0 < exp -> Forall (fun v => 0 <= v) S ->
  count_steps is_compare (radix_steps p exp S) = (p * length S)%nat /\
  count_steps is_set (radix_steps p exp S) = (p * length S)%nat.
Proof.
  induction p as [|p IH]; intros exp S He HS; cbn [radix_steps];
    [split; reflexivity|].
  pose proof (radix_pass_Permutation exp S He HS) as HP.
  assert (HS' : Forall (fun v => 0 <= v) (radix_pass exp S)) by now rewrite <- HP.
  destruct (IH (exp * 10) _ ltac:(lia) HS') as [E1 E2].
  rewrite !count_steps_app, E1, E2.
  destruct (count_compares1_from 0 (length S)) as [-> ->].
  destruct (count_sets_from (radix_pass exp S) 0) as [-> ->].
  rewrite <- (Permutation_length HP). split; lia.
Qed.

(** The passes, as steps: [p] passes are made, where [p] is the number
    of decimal digits of [max] from the digit at [exp] on. *)
Lemma radix_passes_steps n A0 max budget : forall fuel exp Acur a,
  len Acur = n -> len a = n -> 0 < exp -> 0 <= max ->
  Forall (fun v => 0 <= v /\ v <= max) Acur ->
  Permutation A0 Acur ->
  (1 <= fuel)%nat -> max < exp * 10 ^ (Z.of_nat fuel - 1) ->
  (Z.to_nat n + 11 < budget)%nat ->
  exists p : nat,
    max < exp * 10 ^ Z.of_nat p /\
    ((0 < p)%nat -> exp * 10 ^ (Z.of_nat p - 1) <= max) /\
    steps_of (radix_passes budget fuel n max Acur exp) a = radix_steps p exp Acur.
Proof.
  induction fuel as [|fuel IH];
    intros exp Acur a HlenA Hlen He Hmax HA HP Hf1 Hfuel Hbud; [lia|].
  assert (Hnn : Forall (fun v => 0 <= v) Acur).
  { eapply Forall_impl; [exact HA|]. simpl. intros v ?. lia. }
  unfold steps_of. cbn [radix_passes run]. rewrite pass_cmp by lia.
  destruct (Z.leb_spec exp max) as [Hgo|Hstop].
  - assert (Hf : (1 <= fuel)%nat).
    { destruct fuel; [|lia]. simpl in Hfuel. lia. }
    assert (Hfuel' : max < exp * 10 * 10 ^ (Z.of_nat fuel - 1)).
    { replace (Z.of_nat (S fuel) - 1) with (Z.succ (Z.of_nat fuel - 1)) in Hfuel by lia.
      rewrite Z.pow_succ_r in Hfuel by lia. lia. }
    pose proof (radix_pass_Permutation exp Acur He Hnn) as Hperm.
    pose proof (len_nonneg a) as Hn0.
    destruct (radix_distribute_spec n Acur exp a budget 0 (replicate 10 []))
      as (tr1 & a1 & bs & Hrun1 & _ & _ & _ & -> & ->); auto; try lia.
    pose proof (radix_distribute_steps _ _ _ _ _ _ _ _ _ _ Hrun1) as Hs1.
    destruct (radix_collect_spec n (map (bucket_of exp Acur) digits10)
                budget 0 Acur 0 a)
      as (tr2 & a2 & A2 & Hrun2 & _ & _ & _ & -> & ->); auto; try lia.
    { fold (radix_pass exp Acur). unfold len in *.
      now rewrite <- (Permutation_length Hperm). }
    assert (H00 : 0 <= 0) by lia.
    pose proof (radix_collect_steps _ _ _ _ _ _ _ _ _ H00 Hrun2) as Hs2.
    fold (radix_pass exp Acur) in *.
    destruct (IH (exp * 10) (radix_pass exp Acur) (map unscale (radix_pass exp Acur)))
      as (p & Hp1 & Hp2 & Hp3); auto; try lia.
    { unfold len in *. now rewrite <- (Permutation_length Hperm). }
    { unfold len in *. now rewrite length_map, <- (Permutation_length Hperm). }
    { now rewrite <- Hperm. }
    { etransitivity; eauto. }
    exists (S p). split; [|split].
    + replace (Z.of_nat (S p)) with (Z.succ (Z.of_nat p)) by lia.
      rewrite Z.pow_succ_r by lia. lia.
    + intros _. replace (Z.of_nat (S p) - 1) with (Z.of_nat p) by lia.
      destruct p as [|p]; [simpl; lia|].
      specialize (Hp2 ltac:(lia)).
      replace (Z.of_nat (S p)) with (Z.succ (Z.of_nat (S p) - 1)) by lia.
      rewrite Z.pow_succ_r by lia. lia.
    + rewrite run_bind, Hrun1. cbv beta iota. rewrite run_bind, Hrun2. cbv beta iota.
      unfold steps_of in Hp3.
      destruct (run (radix_passes budget fuel n max (radix_pass exp Acur) (exp * 10))
                  (map unscale (radix_pass exp Acur))) as [[tr3 a3] o3].
      change (Z.to_nat 0) with 0%nat in Hs2. rewrite drop_0 in Hs2.
      rewrite take_ge in Hs2 by (unfold digits10; simpl; lia).
      fold (radix_pass exp Acur) in Hs2.
      cbn [fst snd] in *. rewrite !map_app, Hs1, Hs2, Hp3.
      cbn [radix_steps]. rewrite Z.sub_0_r.
      replace (Z.to_nat n) with (length Acur) by (unfold len in *; lia).
      reflexivity.
  - exists 0%nat. cbn [run radix_steps]. split; [simpl; lia|].
    split; [lia | reflexivity].
Qed.

(** The steps of a run of radixGen on non-negative numbers, in the
    exact arithmetic of the model: [p] passes, [p] the number of
    decimal digits of the largest scaled value. *)
Lemma radixGen_steps (A : list Q) (d fuel : nat) :
  Forall (fun x => (0 <= x)%Q) A ->
  Forall (fun x => scale_floor x < 10 ^ Z.of_nat d) A ->
  (length A + 12 <= fuel)%nat -> (d < fuel)%nat ->
  exists p : nat,
    (p <= d)%nat /\
    radix_max (map scale_floor A) < 10 ^ Z.of_nat p /\
    ((0 < p)%nat -> 10 ^ (Z.of_nat p - 1) <= radix_max (map scale_floor A)) /\
    steps_of (radixGen fuel) A = radix_steps p 1 (map scale_floor A) ++ [done] /\
    count_steps is_compare (steps_of (radixGen fuel) A) = (p * length A)%nat /\
    count_steps is_set (steps_of (radixGen fuel) A) = (p * length A)%nat.
Proof.
  intros Hnn Hd Hfuel Hdf.
  set (A0 := map scale_floor A). set (max := radix_max A0).
  assert (H10 : 0 < 10 ^ Z.of_nat d) by (apply Z.pow_pos_nonneg; lia).
  assert (Hmaxd : max < 10 ^ Z.of_nat d).
  { assert (max <= 10 ^ Z.of_nat d - 1); [|lia].
    apply radix_max_le; [lia|]. apply Forall_fmap.
    eapply Forall_impl; [exact Hd|]. simpl. intros x Hx. lia. }
  assert (Hmaxf : max < 1 * 10 ^ (Z.of_nat fuel - 1)).
  { assert (10 ^ Z.of_nat d <= 10 ^ (Z.of_nat fuel - 1))
      by (apply Z.pow_le_mono_r; lia).
    lia. }
  destruct (radix_max_spec A0) as [Hmax0 Hmax]. fold max in Hmax0, Hmax.
  assert (HA0 : Forall (fun v => 0 <= v /\ v <= max) A0).
  { apply Forall_forall. intros v Hv.
    split; [|now apply (proj1 (Forall_forall _ _) Hmax)].
    unfold A0 in Hv. apply list_elem_of_fmap in Hv as (x & -> & Hx).
    apply scale_floor_nonneg. now apply (proj1 (Forall_forall _ _) Hnn). }
  assert (HA0' : Forall (fun v => 0 <= v) A0).
  { eapply Forall_impl; [exact HA0|]. simpl. intros v ?. lia. }
  assert (HlenA0 : len A0 = len A) by (unfold A0, len; now rewrite length_map).
  destruct (radix_passes_steps (len A) A0 max fuel fuel 1 A0 A)
    as (p & Hp1 & Hp2 & Hp3); auto; try lia.
  { unfold len. lia. }
  assert (Hsorted1 : StronglySorted (le_mod 1) A0).
  { apply (StronglySorted_on (fun _ => True) (fun _ _ => True)).
    - intros x y _ _ _. unfold le_mod. now rewrite !Z.mod_1_r.
    - now apply Forall_forall.
    - clear. induction A0; constructor; auto. now apply Forall_forall. }
  destruct (radix_passes_spec (len A) A0 max fuel fuel 1 A0 A)
    as (tr & a' & [] & Hrun & _); auto; try lia.
  { unfold len. lia. }
  assert (Hsteps : steps_of (radixGen fuel) A = radix_steps p 1 A0 ++ [done]).
  { unfold steps_of in *. unfold radixGen. cbn [run]. fold A0.
    change (map (fun x => Qfloor (x * inject_Z scale)) A) with A0.
    rewrite run_bind, radix_max_loop_run. fold (radix_max A0). fold max.
    cbv beta iota. rewrite run_bind, Hrun. rewrite Hrun in Hp3. cbn [run fst] in *.
    rewrite app_nil_l, map_app, Hp3. reflexivity. }
  exists p. rewrite Z.mul_1_l in Hp1, Hp2.
  split; [|split; [exact Hp1 | split; [exact Hp2 | split; [exact Hsteps|]]]].
  - destruct p as [|p]; [lia|]. specialize (Hp2 ltac:(lia)).
    assert (10 ^ (Z.of_nat (S p) - 1) < 10 ^ Z.of_nat d) by lia.
    apply Z.pow_lt_mono_r_iff in H; lia.
  - rewrite Hsteps, !count_steps_app.
    destruct (count_radix_steps p 1 A0 ltac:(lia) HA0') as [-> ->].
    unfold A0. rewrite length_map. unfold count_steps. simpl. lia.
Qed.

Lemma unvalued_compares1_from i : forall m,
  map unvalued (compares1_from i m) = compares1_from i m.
Proof.
  intros m. revert i. induction m as [|m IH]; intros i; [reflexivity|].
  cbn [compares1_from map unvalued]. now rewrite IH.
Qed.

Lemma unvalued_sets_from vs : forall idx,
  map unvalued (sets_from idx vs)
  = map (fun i => set i None) (seqZ idx (Z.of_nat (length vs))).
Proof.
  induction vs as [|v vs IH]; intros idx; [reflexivity|].
  cbn [sets_from map unvalued length]. rewrite seqZ_cons by lia.
  cbn [map]. rewrite IH. repeat f_equal; lia.
Qed.

Lemma radix_steps_shape : forall p exp S,
  0 < exp -> Forall (fun v => 0 <= v) S ->
  map unvalued (radix_steps p exp S) = radix_shape p (length S).
Proof.
  induction p as [|p IH]; intros exp S He HS; [reflexivity|].
  cbn [radix_steps radix_shape].
  pose proof (radix_pass_Permutation exp S He HS) as HP.
  rewrite !map_app, unvalued_compares1_from, unvalued_sets_from.
  rewrite IH; [| lia |].
  - now rewrite <- (Permutation_length HP).
  - eapply Permutation_Forall; [exact HP | exact HS].
Qed.

(** X8.  The shape of a run of radixGen on its domain [0,1): [p]
    passes, at most three, each a [compare(i)] for every slot from left
    to right followed by a [set(i, _)] for every slot from left to
    right, then [done]; so a run yields [p * n] compare steps and
    [p * n] set steps.  No pass is made exactly when every element is
    below 0.001. *)
Theorem X8_radix_steps (A : list Q) (fuel : nat) :
  in_domain radix A -> enough A fuel ->
  exists p : nat,
    (p <= 3)%nat /\
    (p = 0%nat <-> Forall (fun x => (x < 1 # 1000)%Q) A) /\
    map unvalued (steps_of (radixGen fuel) A)
      = radix_shape p (length A) ++ [done] /\
    count_steps is_compare (steps_of (radixGen fuel) A) = (p * length A)%nat /\
    count_steps is_set (steps_of (radixGen fuel) A) = (p * length A)%nat.
Proof.
  intros Hdom Hfuel. unfold enough in Hfuel. cbn [in_domain] in Hdom.
  assert (Hnn : Forall (fun x => (0 <= x)%Q) A).
  { eapply Forall_impl; [exact Hdom|]. simpl. tauto. }
  assert (Hd : Forall (fun x => scale_floor x < 10 ^ Z.of_nat 3) A).
  { eapply Forall_impl; [exact Hdom|]. simpl. intros x [_ Hx].
    pose proof (scale_floor_lt_scale x Hx). change (10 ^ Z.of_nat 3) with 1000. lia. }
  destruct (radixGen_steps A 3 fuel Hnn Hd ltac:(lia) ltac:(lia))
    as (p & Hp & Hp1 & Hp2 & Hsteps & Hc & Hs).
  exists p. split; [exact Hp|]. split; [|split; [|split; [exact Hc | exact Hs]]].
  - split.
    + intros ->. change (10 ^ Z.of_nat 0) with 1 in Hp1.
      destruct (radix_max_spec (map scale_floor A)) as [H0 Hmax].
      apply Forall_forall. intros x Hx.
      rewrite Forall_forall in Hmax.
      assert (Hsx : scale_floor x <= radix_max (map scale_floor A)).
      { apply Hmax. apply list_elem_of_fmap. eauto. }
      apply Qnot_le_lt. intros Hge.
      pose proof (scale_floor_atleast x Hge). lia.
    + intros Hall. destruct p as [|p]; [reflexivity|]. exfalso.
      specialize (Hp2 ltac:(lia)).
      assert (Hz : radix_max (map scale_floor A) = 0).
      { apply radix_max_zero. apply Forall_fmap.
        apply Forall_forall. intros x Hx. simpl.
        apply scale_floor_small;
          [exact (proj1 (Forall_forall _ _) Hnn x Hx)
          | exact (proj1 (Forall_forall _ _) Hall x Hx)]. }
      rewrite Hz in Hp2.
      assert (0 < 10 ^ (Z.of_nat (S p) - 1)) by (apply Z.pow_pos_nonneg; lia).
      lia.
  - rewrite Hsteps, map_app. cbn [map unvalued].
    rewrite radix_steps_shape; [now rewrite length_map | lia |].
    apply Forall_fmap. eapply Forall_impl; [exact Hnn|]. simpl.
    intros x Hx. now apply scale_floor_nonneg.
Qed.

(** X8 on three values of [0,1): three passes. *)
Lemma X8_radix_steps_witness :
  in_domain radix [1 # 2; 1 # 4; 3 # 4]%Q /\ enough [1 # 2; 1 # 4; 3 # 4]%Q 18 /\
  exists p : nat,
    (p <= 3)%nat /\
    count_steps is_set (steps_of (radixGen 18) [1 # 2; 1 # 4; 3 # 4]%Q)
      = (p * 3)%nat.
Proof.
  assert (H1 : in_domain radix [1 # 2; 1 # 4; 3 # 4]%Q).
  { repeat constructor; vm_compute; (discriminate || reflexivity). }
  assert (H2 : enough [1 # 2; 1 # 4; 3 # 4]%Q 18) by (unfold enough; simpl; lia).
  split; [exact H1|]. split; [exact H2|].
  destruct (X8_radix_steps _ 18 H1 H2) as (p & Hp & _ & _ & _ & Hc).
  exists p. split; [exact Hp | exact Hc].
Defined.


(** * mergeGen: the steps of a merge *)

(** A write followed by its [set] step, in a run that ends normally. *)
Lemma run_write_set_bind {R} k v (rest : gen R) a tr a' r :
  run (write_set k v ;; rest) a = (tr, a', Returned r) ->
  exists q tr1,
    v = Some q /\ inb (len a) k /\
    tr = (set k (Some q), upd a k q) :: tr1 /\
    run rest (upd a k q) = (tr1, a', Returned r).
Proof.
  rewrite run_bind. unfold write_set. cbn [run].
  destruct v as [q|]; [|discriminate].
  destruct (put a k (Some q)) as [a1|] eqn:Hput; [|discriminate].
  apply put_Some_inv in Hput as [Hin ->]. rewrite get_upd_eq by exact Hin.
  cbn [app]. destruct (run rest (upd a k q)) as [[tr1 a2] o] eqn:E.
  intros [= <- <- ->]. exists q, tr1. auto.
Qed.

Lemma set_indices_cons_set i v ss :
  set_indices (set i v :: ss) = i :: set_indices ss.
Proof. reflexivity. Qed.

Lemma set_indices_cons_compare x y ss :
  set_indices (compare x y :: ss) = set_indices ss.
Proof. reflexivity. Qed.

Lemma set_indices_app ss1 ss2 :
  set_indices (ss1 ++ ss2) = set_indices ss1 ++ set_indices ss2.
Proof. unfold set_indices. apply omap_app. Qed.

Lemma length_set_indices ss : length (set_indices ss) = count_steps is_set ss.
Proof.
  induction ss as [|s ss IH]; [reflexivity|].
  rewrite count_steps_cons. destruct s; simpl in *; lia.
Qed.

(** A drain loop writes the slots [k, k + 1, ...], one per value left in
    its buffer, and compares nothing. *)
Lemma merge_drain_steps buf : forall fuel i k a tr a' k',
  0 <= i -> i <= len buf ->
  run (merge_drain fuel buf i k) a = (tr, a', Returned k') ->
  k' = k + (len buf - i) /\
  set_indices (map fst tr) = seqZ k (len buf - i) /\
  count_steps is_compare (map fst tr) = 0%nat /\ len a' = len a /\
  Forall (fun it => valued it.1 = true) tr.
Proof.
  induction fuel as [|fuel IH]; intros i k a tr a' k' Hi0 Hi; [discriminate|].
  cbn [merge_drain]. destruct (Z.ltb_spec i (len buf)) as [Hlt|Hge].
  - intros Hrun. apply run_write_set_bind in Hrun
      as (q & tr1 & _ & Hin & -> & Hrun).
    assert (Hi0' : 0 <= i + 1) by lia. assert (Hi' : i + 1 <= len buf) by lia.
    destruct (IH _ _ _ _ _ _ Hi0' Hi' Hrun) as (-> & Hs & Hc & Hl & Hv).
    cbn [map fst]. rewrite set_indices_cons_set, count_steps_cons, Hs, Hc.
    rewrite Hl, len_upd. repeat split; try lia.
    + rewrite (seqZ_cons k) by lia. repeat (f_equal; try lia).
    + now constructor.
  - cbn [run]. intros [= <- <- <-]. replace (len buf - i) with 0 by lia.
    repeat split; try lia; try reflexivity. constructor.
Qed.

Lemma merge_both_exit left right l m fuel i j k a tr a' i' j' k' :
  len left <= i \/ len right <= j ->
  run (merge_both fuel left right l m i j k) a = (tr, a', Returned (i', j', k')) ->
  i' = i /\ j' = j /\ k' = k /\ tr = [] /\ a' = a.
Proof.
  intros Hout. destruct fuel as [|fuel]; [discriminate|]. cbn [merge_both].
  assert (E : (i <? len left) && (j <? len right) = false).
  { destruct (Z.ltb_spec i (len left)), (Z.ltb_spec j (len right)); simpl; lia. }
  rewrite E. cbn [run]. intros H. inversion H; subst. auto.
Qed.

(** The merging loop writes the slots [k, k + 1, ...], one per
    comparison, and stops with one of the two buffers not yet used up. *)
Lemma merge_both_steps left right l m : forall fuel i j k a tr a' i' j' k',
  run (merge_both fuel left right l m i j k) a = (tr, a', Returned (i', j', k')) ->
  i <= i' /\ j <= j' /\ k' - k = (i' - i) + (j' - j) /\
  set_indices (map fst tr) = seqZ k (k' - k) /\
  Z.of_nat (count_steps is_compare (map fst tr)) = k' - k /\
  len a' = len a /\ Forall (fun it => valued it.1 = true) tr /\
  (i < len left -> j < len right ->
   (i' < len left \/ j' < len right) /\ i' <= len left /\ j' <= len right /\
   k < k').
Proof.
  induction fuel as [|fuel IH]; intros i j k a tr a' i' j' k'; [discriminate|].
  destruct (Z_lt_ge_dec i (len left)) as [Hil|Hil];
    [destruct (Z_lt_ge_dec j (len right)) as [Hjl|Hjl]|].
  - cbn [merge_both].
    destruct (Z.ltb_spec i (len left)); [|lia].
    destruct (Z.ltb_spec j (len right)); [|lia]. cbn [andb run].
    destruct (js_cmp Le (get left i) (get right j)).
    + destruct (run (write_set k (get left i);;
                     merge_both fuel left right l m (i + 1) j (k + 1)) a)
        as [[tr0 a0] o0] eqn:E.
      intros Heq. inversion Heq; subst. clear Heq. apply run_write_set_bind in E
        as (q & tr1 & _ & Hin & -> & Hrun).
      destruct (IH _ _ _ _ _ _ _ _ _ Hrun) as (H1 & H2 & H3 & H4 & H5 & H6 & Hv & H7).
      assert (Hend : (i' < len left \/ j' < len right) /\
                     i' <= len left /\ j' <= len right).
      { destruct (Z_lt_ge_dec (i + 1) (len left)) as [Ha|Ha].
        - destruct (H7 Ha Hjl) as (X1 & X2 & X3 & _). auto.
        - assert (Ho : len left <= i + 1 \/ len right <= j) by lia.
          destruct (merge_both_exit _ _ _ _ _ _ _ _ _ _ _ _ _ _ Ho Hrun)
            as (-> & -> & _). lia. }
      cbn [map fst].
      rewrite set_indices_cons_compare, set_indices_cons_set, !count_steps_cons.
      cbn [is_compare]. rewrite H4, H6, len_upd.
      repeat split; try lia.
      * rewrite (seqZ_cons k) by lia. repeat (f_equal; try lia).
      * now repeat constructor.
    + destruct (run (write_set k (get right j);;
                     merge_both fuel left right l m i (j + 1) (k + 1)) a)
        as [[tr0 a0] o0] eqn:E.
      intros Heq. inversion Heq; subst. clear Heq. apply run_write_set_bind in E
        as (q & tr1 & _ & Hin & -> & Hrun).
      destruct (IH _ _ _ _ _ _ _ _ _ Hrun) as (H1 & H2 & H3 & H4 & H5 & H6 & Hv & H7).
      assert (Hend : (i' < len left \/ j' < len right) /\
                     i' <= len left /\ j' <= len right).
      { destruct (Z_lt_ge_dec (j + 1) (len right)) as [Ha|Ha].
        - destruct (H7 Hil Ha) as (X1 & X2 & X3 & _). auto.
        - assert (Ho : len left <= i \/ len right <= j + 1) by lia.
          destruct (merge_both_exit _ _ _ _ _ _ _ _ _ _ _ _ _ _ Ho Hrun)
            as (-> & -> & _). lia. }
      cbn [map fst].
      rewrite set_indices_cons_compare, set_indices_cons_set, !count_steps_cons.
      cbn [is_compare]. rewrite H4, H6, len_upd.
      repeat split; try lia.
      * rewrite (seqZ_cons k) by lia. repeat (f_equal; try lia).
      * now repeat constructor.
  - intros Hrun. assert (Ho : len left <= i \/ len right <= j) by lia.
    destruct (merge_both_exit _ _ _ _ _ _ _ _ _ _ _ _ _ _ Ho Hrun)
      as (-> & -> & -> & -> & ->).
    rewrite Z.sub_diag. repeat split; try lia; try reflexivity. constructor.
  - intros Hrun. assert (Ho : len left <= i \/ len right <= j) by lia.
    destruct (merge_both_exit _ _ _ _ _ _ _ _ _ _ _ _ _ _ Ho Hrun)
      as (-> & -> & -> & -> & ->).
    rewrite Z.sub_diag. repeat split; try lia; try reflexivity. constructor.
Qed.

(** In a faithful trace whose [set] steps write the slots [k, k + 1, ...]
    one after the other, the values they report are what these slots
    hold at the end, and the slots before [k] are not touched. *)
Lemma sets_in_order n : forall tr a a' k c,
  faithful a tr a' -> Forall (item_ok n) tr -> len a = n ->
  Forall (fun it => valued it.1 = true) tr ->
  set_indices (map fst tr) = seqZ k c -> 0 <= k -> 0 <= c -> k + c <= n ->
  seg a' k (k + c) = set_values (map fst tr) /\
  (forall t, t < k -> get a' t = get a t) /\ len a' = n.
Proof.
  induction tr as [|[s b] tr IH]; intros a a' k c Hf HI Hlen Hns Hidx Hk Hc Hfit.
  - simpl in Hf. subst a'. destruct (Z.eq_dec c 0) as [->|Hne].
    + rewrite Z.add_0_r, seg_nil by lia. auto.
    + rewrite (seqZ_cons k c) in Hidx by lia. discriminate.
  - destruct Hf as [Hb Hf]. apply Forall_cons in HI as [Hok HI].
    apply Forall_cons in Hns as [Hns1 Hns]. simpl in Hns1.
    destruct Hok as (Hstep & Hlenb & _). simpl in Hstep, Hlenb.
    destruct s as [x y|x y|i [q|]|]; try discriminate; cbn [map fst] in *.
    + rewrite set_indices_cons_compare in Hidx. simpl in Hb. subst b.
      exact (IH a a' k c Hf HI Hlen Hns Hidx Hk Hc Hfit).
    + rewrite set_indices_cons_set in Hidx.
      destruct (Z.eq_dec c 0) as [->|Hne]; [discriminate|].
      rewrite (seqZ_cons k c) in Hidx by lia. injection Hidx as -> Hidx.
      simpl in Hb. rewrite put_inb in Hb by (unfold inb; lia). subst b.
      assert (Hlen' : len (upd a k q) = n) by now rewrite len_upd.
      assert (Hk' : 0 <= Z.succ k) by lia. assert (Hc' : 0 <= Z.pred c) by lia.
      assert (Hfit' : Z.succ k + Z.pred c <= n) by lia.
      destruct (IH (upd a k q) a' (Z.succ k) (Z.pred c) Hf HI Hlen' Hns Hidx
                  Hk' Hc' Hfit') as (H1 & H2 & H3).
      split; [|split; [|exact H3]].
      * unfold set_values. cbn [omap list_omap]. fold (set_values (map fst tr)).
        rewrite <- H1. rewrite (seg_app a' k (k + 1) (k + c)) by lia.
        replace (Z.succ k + Z.pred c) with (k + c) by lia.
        replace (Z.succ k) with (k + 1) by lia.
        change (q :: seg a' (k + 1) (k + c)) with ([q] ++ seg a' (k + 1) (k + c)).
        f_equal. apply get_ext. intros t.
        destruct (Z.eq_dec t 0) as [->|Hne0].
        -- rewrite get_seg by lia. rewrite Z.add_0_r, H2 by lia.
           now rewrite get_upd_eq by (unfold inb; lia).
        -- destruct (Z_lt_ge_dec t 0).
           ++ unfold get. now destruct (Z.ltb_spec t 0); [|lia].
           ++ rewrite !get_None_out; auto.
              ** unfold inb, len. simpl. lia.
              ** rewrite len_seg by lia. unfold inb. lia.
      * intros t Ht. rewrite H2 by lia. apply get_upd_ne; lia.
Qed.

Lemma set_values_app ss1 ss2 :
  set_values (ss1 ++ ss2) = set_values ss1 ++ set_values ss2.
Proof. unfold set_values. apply omap_app. Qed.

(** One merge, as steps. *)
Lemma merge_phase_steps n l m r budget a :
  0 <= l -> l <= m -> m < r -> r < n -> len a = n ->
  (Z.to_nat n + 1 < budget)%nat ->
  exists tr a',
    run (merge_phase budget l m r) a = (tr, a', Returned tt) /\
    len a' = n /\
    set_indices (map fst tr) = seqZ l (r - l + 1) /\
    set_values (map fst tr)
      = list_merge Qle (seg a l (m + 1)) (seg a (m + 1) (r + 1)) /\
    1 <= Z.of_nat (count_steps is_compare (map fst tr)) <= r - l /\
    Z.of_nat (count_steps is_set (map fst tr)) = r - l + 1.
Proof.
  intros Hl Hlm Hmr Hrn Hlen Hbud.
  destruct (merge_phase_spec n l m r budget a Hl Hlm Hmr Hrn Hlen Hbud)
    as (tr & a' & [] & Hrun & Hf & HI & _ & Hlen' & _ & Hseg).
  exists tr, a'. split; [exact Hrun|]. split; [exact Hlen'|].
  unfold merge_phase in Hrun. cbn [run] in Hrun.
  rewrite !js_slice_seg in Hrun by lia.
  set (left := seg a l (m + 1)) in *. set (right := seg a (m + 1) (r + 1)) in *.
  assert (Hll : len left = m + 1 - l) by (unfold left; rewrite len_seg; lia).
  assert (Hlr : len right = r - m) by (unfold right; rewrite len_seg; lia).
  rewrite run_bind in Hrun.
  destruct (run (merge_both budget left right l m 0 0 l) a)
    as [[tr1 a1] [[[i j] k]| | |]] eqn:E1; try discriminate.
  destruct (merge_both_steps _ _ _ _ _ _ _ _ _ _ _ _ _ _ E1)
    as (Hi & Hj & Hk & Hs1 & Hc1 & Hl1 & Hv1 & Hend).
  destruct Hend as (Hnot & Hile & Hjle & Hkk); [lia | lia |].
  rewrite run_bind in Hrun.
  destruct (run (merge_drain budget left i k) a1)
    as [[tr2 a2] [k1| | |]] eqn:E2; try discriminate.
  destruct (merge_drain_steps _ _ _ _ _ _ _ _ Hi Hile E2)
    as (-> & Hs2 & Hc2 & Hl2 & Hv2).
  rewrite run_bind in Hrun.
  destruct (run (merge_drain budget right j (k + (len left - i))) a2)
    as [[tr3 a3] [k2| | |]] eqn:E3; try discriminate.
  destruct (merge_drain_steps _ _ _ _ _ _ _ _ Hj Hjle E3)
    as (-> & Hs3 & Hc3 & Hl3 & Hv3).
  cbn [run] in Hrun. rewrite app_nil_r in Hrun.
  injection Hrun as <- <-.
  assert (Hidx : set_indices (map fst (tr1 ++ tr2 ++ tr3)) = seqZ l (r - l + 1)).
  { rewrite !map_app, !set_indices_app, Hs1, Hs2, Hs3.
    rewrite <- seqZ_app by lia.
    replace (seqZ k (len left - i + (len right - j)))
      with (seqZ (l + (k - l)) (len left - i + (len right - j)))
      by (f_equal; lia).
    rewrite <- seqZ_app by lia. f_equal. lia. }
  assert (Hval : Forall (fun it => valued it.1 = true) (tr1 ++ tr2 ++ tr3)).
  { rewrite !Forall_app. auto. }
  split; [exact Hidx|]. split; [|split].
  - assert (HI' : Forall (item_ok n) (tr1 ++ tr2 ++ tr3)).
    { eapply Forall_impl; [exact HI|]. now intros it [H _]. }
    destruct (sets_in_order n _ a a3 l (r - l + 1) Hf HI' Hlen Hval Hidx)
      as (Hsv & _); try lia.
    rewrite <- Hsv. replace (l + (r - l + 1)) with (r + 1) by lia. exact Hseg.
  - rewrite !map_app, !count_steps_app, Hc2, Hc3. lia.
  - rewrite <- length_set_indices, Hidx, length_seqZ. lia.
Qed.

(** X9.  One merge of [mergeRange], of the halves [l..m] and [m+1..r]
    (sorted or not): its [set] steps write the slots [l, l + 1, ..., r]
    in this order, each slot once, and the values they report are, in
    order, the merge of the two halves as lists (the left value first
    on a tie); these values are what the slots hold at the end.  It
    yields at least one and at most [r - l] compare steps, and
    [r - l + 1] set steps. *)
Theorem X9_merge_phase_steps (a : list Q) (l m r : Z) (budget : nat) :
  0 <= l -> l <= m -> m < r -> r < len a ->
  (Z.to_nat (len a) + 1 < budget)%nat ->
  set_indices (steps_of (merge_phase budget l m r) a) = seqZ l (r - l + 1) /\
  set_values (steps_of (merge_phase budget l m r) a)
    = list_merge Qle (seg a l (m + 1)) (seg a (m + 1) (r + 1)) /\
  seg (final_of (merge_phase budget l m r) a) l (r + 1)
    = set_values (steps_of (merge_phase budget l m r) a) /\
  1 <= Z.of_nat (count_steps is_compare (steps_of (merge_phase budget l m r) a))
    <= r - l /\
  Z.of_nat (count_steps is_set (steps_of (merge_phase budget l m r) a))
    = r - l + 1.
Proof.
  intros Hl Hlm Hmr Hrn Hbud.
  destruct (merge_phase_steps (len a) l m r budget a Hl Hlm Hmr Hrn eq_refl Hbud)
    as (tr & a' & Hrun & Hlen & H1 & H2 & H3 & H4).
  destruct (merge_phase_spec (len a) l m r budget a Hl Hlm Hmr Hrn eq_refl Hbud)
    as (tr0 & a0 & [] & Hrun0 & _ & _ & _ & _ & _ & Hseg).
  rewrite Hrun in Hrun0. injection Hrun0 as <- <-.
  unfold steps_of, final_of. rewrite Hrun. cbn [fst snd].
  repeat split; auto; try lia. now rewrite H2.
Qed.

(** X9 on [1,4,2,3]: the merge of [1,4] and [2,3]. *)
Lemma X9_merge_phase_steps_witness :
  0 <= 0 /\ 0 <= 1 /\ 1 < 3 /\ 3 < len [1 # 1; 4 # 1; 2 # 1; 3 # 1]%Q /\
  (Z.to_nat (len [1 # 1; 4 # 1; 2 # 1; 3 # 1]%Q) + 1 < 6)%nat /\
  set_indices (steps_of (merge_phase 6 0 1 3) [1 # 1; 4 # 1; 2 # 1; 3 # 1]%Q)
    = seqZ 0 (3 - 0 + 1).
Proof.
  assert (H4 : 3 < len [1 # 1; 4 # 1; 2 # 1; 3 # 1]%Q) by (vm_compute; reflexivity).
  assert (H5 : (Z.to_nat (len [1 # 1; 4 # 1; 2 # 1; 3 # 1]%Q) + 1 < 6)%nat)
    by (vm_compute; lia).
  split; [lia|]. split; [lia|]. split; [lia|]. split; [exact H4|]. split; [exact H5|].
  assert (H1 : 0 <= 0) by lia. assert (H2 : 0 <= 1) by lia.
  assert (H3 : 1 < 3) by lia.
  exact (proj1 (X9_merge_phase_steps _ 0 1 3 6 H1 H2 H3 H4 H5)).
Defined.

(** ** How many steps a run of mergeGen yields *)

Lemma mergeRange_counts n budget : forall fuel l r a,
  0 <= l -> r < n -> len a = n ->
  (Z.to_nat (r - l) < fuel)%nat -> (Z.to_nat n + 1 < budget)%nat ->
  exists tr a',
    run (mergeRange budget fuel l r) a = (tr, a', Returned tt) /\
    len a' = n /\
    (count_steps is_compare (map fst tr) <= count_steps is_set (map fst tr))%nat /\
    forall k : Z, 0 <= k -> r - l + 1 <= 2 ^ k ->
      Z.of_nat (count_steps is_set (map fst tr)) <= k * Z.max 0 (r - l + 1).
Proof.
  induction fuel as [|fuel IH]; intros l r a Hl Hrn Hlen Hfuel Hbud; [lia|].
  cbn [mergeRange]. rewrite Z.geb_leb. destruct (Z.leb_spec r l) as [Hrl|Hlr].
  - exists [], a. cbn [run]. repeat split; auto. intros k Hk _.
    unfold count_steps. simpl. nia.
  - set (m := (l + r) / 2).
    assert (Hm : l <= m /\ m < r).
    { unfold m. split; [apply Z.div_le_lower_bound | apply Z.div_lt_upper_bound]; lia. }
    assert (Hm2 : 2 * m <= l + r < 2 * m + 2).
    { unfold m. pose proof (Z.div_mod (l + r) 2 ltac:(lia)).
      pose proof (Z.mod_pos_bound (l + r) 2 ltac:(lia)). lia. }
    destruct (IH l m a) as (tr1 & a1 & R1 & L1 & C1 & B1); auto; try lia.
    destruct (IH (m + 1) r a1) as (tr2 & a2 & R2 & L2 & C2 & B2); auto; try lia.
    destruct (merge_phase_steps n l m r budget a2)
      as (tr3 & a3 & R3 & L3 & _ & _ & C3 & S3); auto; try lia.
    exists (tr1 ++ tr2 ++ tr3), a3. rewrite !run_bind, R1. cbv beta iota.
    rewrite run_bind, R2. cbv beta iota. rewrite R3.
    split; [reflexivity|]. split; [exact L3|].
    rewrite !map_app, !count_steps_app. split; [lia|].
    intros k Hk Hsize.
    assert (Hk1 : 1 <= k).
    { destruct (Z.eq_dec k 0) as [->|]; [simpl in Hsize; lia | lia]. }
    assert (Hpow : 2 ^ k = 2 * 2 ^ (k - 1)).
    { replace k with (Z.succ (k - 1)) at 1 by lia. apply Z.pow_succ_r. lia. }
    assert (Hk' : 0 <= k - 1) by lia.
    specialize (B1 (k - 1) Hk' ltac:(lia)).
    specialize (B2 (k - 1) Hk' ltac:(lia)).
    rewrite Z.max_r in * by lia. nia.
Qed.

Lemma no_swap_in_merge ss :
  Forall (fun s => vocabulary merge s = true) ss -> count_steps is_swap ss = 0%nat.
Proof.
  induction 1 as [|s ss Hs Hv IH]; [reflexivity|].
  rewrite count_steps_cons, IH.
  destruct s as [x [y|]|x y|i v|]; simpl in *; try discriminate; reflexivity.
Qed.

(** X10.  A run of mergeGen on an array of [n <= 2^k] values yields at
    most [k * n] set steps, and never more compare steps than set
    steps. *)
Theorem X10_merge_work (A : list Q) (fuel : nat) (k : Z) :
  enough A fuel -> 0 <= k -> Z.of_nat (length A) <= 2 ^ k ->
  Z.of_nat (count_steps is_set (steps_of (mergeGen fuel) A))
    <= k * Z.of_nat (length A) /\
  (count_steps is_compare (steps_of (mergeGen fuel) A)
   <= count_steps is_set (steps_of (mergeGen fuel) A))%nat /\
  count_steps is_swap (steps_of (mergeGen fuel) A) = 0%nat.
Proof.
  intros Hfuel Hk Hn. unfold enough in Hfuel.
  pose proof (len_nonneg A) as Hlen0.
  destruct (mergeRange_counts (len A) fuel fuel 0 (len A - 1) A)
    as (tr & a' & Hrun & _ & Hc & Hb); auto; try (unfold len in *; lia).
  specialize (Hb k Hk ltac:(unfold len; lia)).
  assert (Hsteps : steps_of (mergeGen fuel) A = map fst tr ++ [done]).
  { unfold steps_of, mergeGen. cbn [run]. rewrite run_bind, Hrun. cbn [run fst].
    now rewrite map_app. }
  split; [|split].
  - rewrite Hsteps, count_steps_app. unfold count_steps at 2. simpl.
    unfold len in Hb. lia.
  - rewrite Hsteps, !count_steps_app. unfold count_steps at 2 4. simpl. lia.
  - apply no_swap_in_merge.
    exact (yields_steps _ _ A (generator_yields merge fuel)).
Qed.

(** X10 on five values, at most 2^3. *)
Lemma X10_merge_work_witness :
  enough [5 # 1; 3 # 1; 1 # 1; 4 # 1; 2 # 1]%Q 22 /\ 0 <= 3 /\
  Z.of_nat (length [5 # 1; 3 # 1; 1 # 1; 4 # 1; 2 # 1]%Q) <= 2 ^ 3 /\
  Z.of_nat (count_steps is_set
              (steps_of (mergeGen 22) [5 # 1; 3 # 1; 1 # 1; 4 # 1; 2 # 1]%Q))
    <= 3 * Z.of_nat (length [5 # 1; 3 # 1; 1 # 1; 4 # 1; 2 # 1]%Q).
Proof.
  assert (E : enough [5 # 1; 3 # 1; 1 # 1; 4 # 1; 2 # 1]%Q 22)
    by (unfold enough; simpl; lia).
  assert (H1 : 0 <= 3) by lia.
  assert (H2 : Z.of_nat (length [5 # 1; 3 # 1; 1 # 1; 4 # 1; 2 # 1]%Q) <= 2 ^ 3)
    by (simpl; lia).
  split; [exact E|]. split; [exact H1|]. split; [exact H2|].
  exact (proj1 (X10_merge_work _ 22 3 E H1 H2)).
Defined.


(** * quickGen: the swaps of a partition *)

(** The left scan: it yields compare steps only, changes nothing, and
    stops at the first slot whose value is not below the pivot. *)
Lemma scan_left_struct pv a : forall fuel i tr a' o,
  run (scan_left fuel (Some pv) i) a = (tr, a', o) ->
  a' = a /\ Forall swap_ordered tr /\
  count_steps is_swap (map fst tr) = 0%nat /\
  forall i', o = Returned i' ->
    i <= i' /\ js_cmp Lt (get a i') (Some pv) = false /\
    forall s, i <= s -> js_cmp Lt (get a s) (Some pv) = false -> i' <= s.
Proof.
  induction fuel as [|fuel IH]; intros i tr a' o Hrun.
  - cbn in Hrun. injection Hrun as <- <- <-.
    repeat split; auto; discriminate.
  - cbn [scan_left run] in Hrun.
    destruct (js_cmp Lt (get a i) (Some pv)) eqn:E.
    + cbn [run] in Hrun.
      destruct (run (scan_left fuel (Some pv) (i + 1)) a) as [[tr1 a1] o1] eqn:E1.
      injection Hrun as <- <- <-.
      destruct (IH _ _ _ _ E1) as (-> & F & C & R).
      split; [reflexivity|]. split; [constructor; [exact I | exact F]|].
      split; [cbn [map fst]; rewrite count_steps_cons; exact C|].
      intros i' Ho. destruct (R i' Ho) as (R1 & R2 & R3).
      split; [lia|]. split; [exact R2|].
      intros s Hs Hc. apply R3; [|exact Hc].
      destruct (Z.eq_dec s i) as [->|]; [congruence | lia].
    + cbn [run] in Hrun. injection Hrun as <- <- <-.
      split; [reflexivity|]. split; [constructor|]. split; [reflexivity|].
      intros i' [= <-]. split; [lia|]. split; [exact E|]. auto.
Qed.

Lemma scan_right_struct pv a : forall fuel j tr a' o,
  run (scan_right fuel (Some pv) j) a = (tr, a', o) ->
  a' = a /\ Forall swap_ordered tr /\
  count_steps is_swap (map fst tr) = 0%nat /\
  forall j', o = Returned j' ->
    j' <= j /\ js_cmp Gt (get a j') (Some pv) = false /\
    forall s, s <= j -> js_cmp Gt (get a s) (Some pv) = false -> s <= j'.
Proof.
  induction fuel as [|fuel IH]; intros j tr a' o Hrun.
  - cbn in Hrun. injection Hrun as <- <- <-.
    repeat split; auto; discriminate.
  - cbn [scan_right run] in Hrun.
    destruct (js_cmp Gt (get a j) (Some pv)) eqn:E.
    + cbn [run] in Hrun.
      destruct (run (scan_right fuel (Some pv) (j - 1)) a) as [[tr1 a1] o1] eqn:E1.
      injection Hrun as <- <- <-.
      destruct (IH _ _ _ _ E1) as (-> & F & C & R).
      split; [reflexivity|]. split; [constructor; [exact I | exact F]|].
      split; [cbn [map fst]; rewrite count_steps_cons; exact C|].
      intros j' Ho. destruct (R j' Ho) as (R1 & R2 & R3).
      split; [lia|]. split; [exact R2|].
      intros s Hs Hc. apply R3; [|exact Hc].
      destruct (Z.eq_dec s j) as [->|]; [congruence | lia].
    + cbn [run] in Hrun. injection Hrun as <- <- <-.
      split; [reflexivity|]. split; [constructor|]. split; [reflexivity|].
      intros j' [= <-]. split; [lia|]. split; [exact E|]. auto.
Qed.

(** [swap(arr, i, j)] with an index outside the array. *)
Lemma run_swap_out i j a :
  ~ (inb (len a) i /\ inb (len a) j) -> run (swap_ i j) a = ([], a, Escaped).
Proof.
  intros Hn. unfold swap_. cbn [run].
  destruct (put a i (get a j)) as [a1|] eqn:E; [|reflexivity].
  exfalso. apply Hn. unfold put in E.
  destruct (get a j) as [q|] eqn:Ej; [|discriminate].
  assert (Hj : inb (len a) j).
  { unfold get in Ej. unfold inb, len.
    destruct (Z.ltb_spec j 0); [discriminate|].
    apply lookup_lt_Some in Ej. lia. }
  split; [|exact Hj]. unfold inb.
  destruct (Z.leb_spec 0 i); destruct (Z.ltb_spec i (len a));
    simpl in E; try discriminate. lia.
Qed.

Lemma classic_inb (a : list Q) i j :
  (inb (len a) i /\ inb (len a) j) \/ ~ (inb (len a) i /\ inb (len a) j).
Proof.
  unfold inb.
  destruct (Z_le_dec 0 i); destruct (Z_lt_dec i (len a));
    destruct (Z_le_dec 0 j); destruct (Z_lt_dec j (len a));
    try (left; lia); right; lia.
Qed.

(** The partition loop with a pivot that is a number: every swap it
    reports has left the pair in order, and the two pointers only move
    towards each other. *)
Lemma partition_struct budget pv : forall fuel i j a tr a' o,
  run (partition budget fuel (Some pv) i j) a = (tr, a', o) ->
  Forall swap_ordered tr /\ len a' = len a /\
  forall i' j', o = Returned (i', j') -> i <= i' /\ j' <= j.
Proof.
  induction fuel as [|fuel IH]; intros i j a tr a' o Hrun.
  - cbn in Hrun. injection Hrun as <- <- <-.
    repeat split; auto; discriminate.
  - cbn [partition] in Hrun. destruct (Z.leb_spec i j) as [Hij|Hij].
    + rewrite run_bind in Hrun.
      destruct (run (scan_left budget (Some pv) i) a) as [[tr1 a1] o1] eqn:E1.
      destruct (scan_left_struct _ _ _ _ _ _ _ E1) as (-> & F1 & _ & R1).
      destruct o1 as [i1| | |];
        try (injection Hrun as <- <- <-;
             split; [exact F1 | split; [reflexivity | discriminate]]).
      destruct (R1 i1 eq_refl) as (Hi1 & Ci1 & _).
      rewrite run_bind in Hrun.
      destruct (run (scan_right budget (Some pv) j) a) as [[tr2 a2] o2] eqn:E2.
      destruct (scan_right_struct _ _ _ _ _ _ _ E2) as (-> & F2 & _ & R2).
      destruct o2 as [j1| | |];
        try (injection Hrun as <- <- <-;
             split; [apply Forall_app; split; [exact F1 | exact F2]
                    | split; [reflexivity | discriminate]]).
      destruct (R2 j1 eq_refl) as (Hj1 & Cj1 & _).
      destruct (Z.leb_spec i1 j1) as [Hij1|Hij1].
      * rewrite run_bind in Hrun.
        destruct (classic_inb a i1 j1) as [[Ii Ij]|Hout].
        -- rewrite (run_swap_ _ _ a Ii Ij) in Hrun. cbn [run] in Hrun.
           destruct (run (partition budget fuel (Some pv) (i1 + 1) (j1 - 1))
                       (exchange a i1 j1)) as [[tr3 a3] o3] eqn:E3.
           destruct (IH _ _ _ _ _ _ E3) as (F3 & L3 & R3).
           injection Hrun as <- <- <-.
           split; [|split].
           ++ apply Forall_app. split; [exact F1|].
              apply Forall_app. split; [exact F2|].
              cbn [app]. constructor; [|exact F3].
              unfold swap_ordered. cbn [fst snd]. split; [exact Hij1|].
              rewrite val_exchange_l, val_exchange_r by assumption.
              rewrite (get_inb a i1 Ii) in Ci1. rewrite (get_inb a j1 Ij) in Cj1.
              cbn [js_cmp] in Ci1, Cj1.
              apply Qltb_false in Ci1. apply Qltb_false in Cj1.
              eapply Qle_trans; eauto.
           ++ rewrite L3. apply len_exchange.
           ++ intros i' j' Ho. destruct (R3 i' j' Ho). lia.
        -- rewrite (run_swap_out _ _ a Hout) in Hrun.
           injection Hrun as <- <- <-.
           split; [|split; [reflexivity | discriminate]].
           apply Forall_app. split; [exact F1|].
           apply Forall_app. split; [exact F2 | constructor].
      * destruct (run (partition budget fuel (Some pv) i1 j1) a)
          as [[tr3 a3] o3] eqn:E3.
        destruct (IH _ _ _ _ _ _ E3) as (F3 & L3 & R3).
        injection Hrun as <- <- <-.
        split; [|split; [exact L3|]].
        -- apply Forall_app. split; [exact F1|].
           apply Forall_app. split; [exact F2 | exact F3].
        -- intros i' j' Ho. destruct (R3 i' j' Ho). lia.
    + cbn [run] in Hrun. injection Hrun as <- <- <-.
      split; [constructor|]. split; [reflexivity|].
      intros i' j' [= <- <-]. lia.
Qed.

Lemma mid_between l r : l < r -> l <= (l + r) / 2 /\ (l + r) / 2 < r.
Proof.
  intros H. split.
  - apply Z.div_le_lower_bound; lia.
  - apply Z.div_lt_upper_bound; lia.
Qed.

(** The loop over the stack of pending ranges, all of them inside the
    array. *)
Lemma quick_loop_struct budget : forall fuel stack a tr a' o,
  Forall (fun lr : Z * Z => 0 <= fst lr /\ snd lr < len a) stack ->
  run (quick_loop budget fuel stack) a = (tr, a', o) ->
  Forall swap_ordered tr.
Proof.
  induction fuel as [|fuel IH]; intros stack a tr a' o Hst Hrun.
  - cbn in Hrun. injection Hrun as <- <- <-. constructor.
  - cbn [quick_loop] in Hrun. destruct stack as [|[l r] stack0].
    + cbn in Hrun. injection Hrun as <- <- <-. constructor.
    + inversion Hst as [|? ? [Hl Hr] Hst0]; subst. cbn [fst snd] in Hl, Hr.
      destruct (Z.geb_spec l r) as [Hge|Hlt].
      * exact (IH _ _ _ _ _ Hst0 Hrun).
      * cbn [run] in Hrun. destruct (mid_between l r Hlt) as [M1 M2].
        rewrite get_inb in Hrun by (unfold inb; lia).
        rewrite run_bind in Hrun.
        destruct (run (partition budget budget (Some (val a ((l + r) / 2))) l r) a)
          as [[tr1 a1] o1] eqn:E1.
        destruct (partition_struct _ _ _ _ _ _ _ _ _ E1) as (F1 & L1 & R1).
        destruct o1 as [[i j]| | |]; try (injection Hrun as <- <- <-; exact F1).
        destruct (R1 i j eq_refl) as [Hi Hj].
        destruct (run (quick_loop budget fuel
                         (if i <? r
                          then (i, r) :: (if l <? j then (l, j) :: stack0 else stack0)
                          else if l <? j then (l, j) :: stack0 else stack0)) a1)
          as [[tr2 a2] o2] eqn:E2.
        injection Hrun as <- <- <-. apply Forall_app. split; [exact F1|].
        refine (IH _ _ _ _ _ _ E2). rewrite L1.
        destruct (i <? r); destruct (l <? j);
          repeat (constructor; [cbn [fst snd]; lia|]); exact Hst0.
Qed.

(** The first round of a partition around the value of a slot [mid] of
    the range: both scans stop at [mid] at the latest, so the round
    ends in a swap. *)
Lemma partition_first_swap budget a l r mid : forall fuel tr a' ij,
  l <= mid -> mid <= r -> inb (len a) mid ->
  run (partition budget (S fuel) (Some (val a mid)) l r) a
    = (tr, a', Returned ij) ->
  (1 <= count_steps is_swap (map fst tr))%nat.
Proof.
  intros fuel tr a' ij Hl Hr Hm Hrun.
  assert (Hc1 : js_cmp Lt (get a mid) (Some (val a mid)) = false).
  { rewrite (get_inb a mid Hm). cbn [js_cmp]. apply Qltb_false, Qle_refl. }
  assert (Hc2 : js_cmp Gt (get a mid) (Some (val a mid)) = false).
  { rewrite (get_inb a mid Hm). cbn [js_cmp]. apply Qltb_false, Qle_refl. }
  cbn [partition] in Hrun. destruct (Z.leb_spec l r); [|lia].
  rewrite run_bind in Hrun.
  destruct (run (scan_left budget (Some (val a mid)) l) a) as [[tr1 a1] o1] eqn:E1.
  destruct (scan_left_struct _ _ _ _ _ _ _ E1) as (-> & _ & _ & R1).
  destruct o1 as [i1| | |]; try discriminate.
  destruct (R1 i1 eq_refl) as (_ & _ & S1). specialize (S1 mid Hl Hc1).
  rewrite run_bind in Hrun.
  destruct (run (scan_right budget (Some (val a mid)) r) a) as [[tr2 a2] o2] eqn:E2.
  destruct (scan_right_struct _ _ _ _ _ _ _ E2) as (-> & _ & _ & R2).
  destruct o2 as [j1| | |]; try discriminate.
  destruct (R2 j1 eq_refl) as (_ & _ & S2). specialize (S2 mid Hr Hc2).
  destruct (Z.leb_spec i1 j1); [|lia].
  rewrite run_bind in Hrun.
  destruct (classic_inb a i1 j1) as [[Ii Ij]|Hout].
  - rewrite (run_swap_ _ _ a Ii Ij) in Hrun. cbn [run] in Hrun.
    destruct (run (partition budget fuel (Some (val a mid)) (i1 + 1) (j1 - 1))
                (exchange a i1 j1)) as [[tr3 a3] o3].
    injection Hrun as <- _ _.
    rewrite !map_app, !count_steps_app. cbn [app map fst].
    rewrite count_steps_cons. cbn [is_swap]. lia.
  - rewrite (run_swap_out _ _ a Hout) in Hrun. discriminate.
Qed.

(** X18.  The swaps of quickGen.  Every swap step [swap(i, j)] that
    quickGen reports has [i <= j], and the array it has just changed
    holds at [i] a value that is at most the value at [j]: no swap
    moves a larger value to the left (a slot may be exchanged with
    itself, or two equal values with each other).  And on an array of
    two elements or more a run reports at least one swap, even when
    the array is in order already. *)
Theorem X18_quick_swaps (A : list Q) (fuel : nat) :
  Forall swap_ordered (run (quickGen fuel) A).1.1 /\
  (2 <= len A -> enough A fuel ->
   (1 <= count_steps is_swap (steps_of (quickGen fuel) A))%nat).
Proof.
  split.
  - unfold quickGen. cbn [run]. rewrite run_bind.
    destruct (run (quick_loop fuel fuel [(0, len A - 1)]) A)
      as [[tr a1] o] eqn:E.
    assert (F : Forall swap_ordered tr).
    { refine (quick_loop_struct _ _ _ _ _ _ _ _ E).
      repeat constructor; cbn [fst snd]; lia. }
    destruct o as [[]| | |]; cbn [fst snd]; try exact F.
    cbn [run fst]. apply Forall_app. split; [exact F|].
    repeat constructor.
  - intros Hn Hfuel. unfold enough in Hfuel.
    destruct (quickGen_run A fuel) as (tr & A' & Hrun & _); [lia|].
    unfold steps_of. revert Hrun.
    unfold quickGen. cbn [run]. rewrite run_bind.
    destruct (run (quick_loop fuel fuel [(0, len A - 1)]) A)
      as [[tr1 a1] o] eqn:E.
    destruct o as [[]| | |]; try discriminate. cbn [run].
    intros _. cbn [fst]. rewrite map_app, count_steps_app.
    enough (1 <= count_steps is_swap (map fst tr1))%nat by lia.
    destruct fuel as [|fuel]; [lia|].
    cbn [quick_loop] in E. destruct (Z.geb_spec 0 (len A - 1)); [lia|].
    cbn [run] in E. destruct (mid_between 0 (len A - 1)) as [M1 M2]; [lia|].
    assert (Hm : inb (len A) ((0 + (len A - 1)) / 2)) by (unfold inb; lia).
    rewrite (get_inb A _ Hm) in E. rewrite run_bind in E.
    destruct (run (partition (S fuel) (S fuel)
                     (Some (val A ((0 + (len A - 1)) / 2))) 0 (len A - 1)) A)
      as [[tr2 a2] o2] eqn:E2.
    destruct o2 as [ij| | |]; try discriminate.
    assert (M3 : (0 + (len A - 1)) / 2 <= len A - 1) by lia.
    pose proof (partition_first_swap _ _ _ _ _ _ _ _ _ M1 M3 Hm E2) as Hc.
    destruct ij as [i j].
    destruct (run (quick_loop (S fuel) fuel
                     (if i <? len A - 1
                      then (i, len A - 1) :: (if 0 <? j then [(0, j)] else [])
                      else if 0 <? j then [(0, j)] else [])) a2)
      as [[tr3 a3] o3].
    injection E as <- _ _. rewrite map_app, count_steps_app. lia.
Qed.

(** X18 on the sorted array [1, 2, 3]: the one swap of the run
    exchanges slot 1 with itself. *)
Lemma X18_quick_swaps_witness :
  2 <= len [1; 2; 3]%Q /\ enough [1; 2; 3]%Q 18 /\
  (1 <= count_steps is_swap (steps_of (quickGen 18) [1; 2; 3]%Q))%nat /\
  List.filter is_swap (steps_of (quickGen 18) [1; 2; 3]%Q) = [swap 1 1].
Proof.
  assert (H1 : 2 <= len [1; 2; 3]%Q) by (vm_compute; discriminate).
  assert (H2 : enough [1; 2; 3]%Q 18) by (unfold enough; simpl; lia).
  split; [exact H1|]. split; [exact H2|]. split.
  - exact (proj2 (X18_quick_swaps [1; 2; 3]%Q 18) H1 H2).
  - vm_compute. reflexivity.
Defined.


(** * heapGen: how many steps *)







(** * The driver *)

(** ** Class lists *)

Lemma class_contains_app c l1 l2 :
  class_contains c (l1 ++ l2) = class_contains c l1 || class_contains c l2.
Proof. unfold class_contains. apply existsb_app. Qed.

Lemma class_contains_add c l : class_contains c (class_add c l) = true.
Proof.
  unfold class_add. destruct (class_contains c l) eqn:E; [exact E|].
  rewrite class_contains_app, E. simpl. now rewrite String.eqb_refl.
Qed.

Lemma class_contains_add_ne c d l :
  c <> d -> class_contains c (class_add d l) = class_contains c l.
Proof.
  intros Hne. unfold class_add. destruct (class_contains d l); [reflexivity|].
  rewrite class_contains_app. simpl.
  destruct (String.eqb_spec c d); [contradiction|]. now rewrite !orb_false_r.
Qed.

Lemma class_contains_remove c l : class_contains c (class_remove c l) = false.
Proof.
  unfold class_contains, class_remove. induction l as [|d l IH]; [reflexivity|].
  simpl. destruct (String.eqb c d) eqn:E; simpl; [exact IH|]. now rewrite E.
Qed.

Lemma class_contains_remove_ne c d l :
  c <> d -> class_contains c (class_remove d l) = class_contains c l.
Proof.
  intros Hne. unfold class_contains, class_remove.
  induction l as [|e l IH]; [reflexivity|]. simpl.
  destruct (String.eqb d e) eqn:E; simpl; [|now rewrite IH].
  apply String.eqb_eq in E. subst e.
  destruct (String.eqb_spec c d); [contradiction|]. exact IH.
Qed.

(** ** Bars *)

Lemma bar_at_Some bars i b : bar_at bars i = Some b -> inb (len bars) i.
Proof.
  unfold bar_at, inb, len. destruct (Z.ltb_spec i 0) as [Hi|Hi]; [discriminate|].
  intros Hb. apply lookup_lt_Some in Hb. lia.
Qed.

Lemma bar_at_inb bars i : inb (len bars) i -> exists b, bar_at bars i = Some b.
Proof.
  unfold bar_at, inb, len. intros [H0 H1].
  destruct (Z.ltb_spec i 0) as [Hi|Hi]; [lia|].
  apply lookup_lt_is_Some_2. lia.
Qed.

Lemma length_with_bar i f bars : length (with_bar i f bars) = length bars.
Proof.
  unfold with_bar. destruct (bar_at bars i); [apply length_insert | reflexivity].
Qed.

Lemma heights_with_bar i f bars :
  (forall b, height (f b) = height b) ->
  map height (with_bar i f bars) = map height bars.
Proof.
  intros Hf. unfold with_bar. destruct (bar_at bars i) as [b|] eqn:E; [|reflexivity].
  rewrite list_fmap_insert, Hf. apply list_insert_id.
  rewrite list_lookup_fmap. unfold bar_at in E.
  destruct (i <? 0); [discriminate|]. now rewrite E.
Qed.

Lemma heights_mark i cls bars : map height (mark i cls bars) = map height bars.
Proof. now apply heights_with_bar. Qed.

Lemma heights_unmark i cls bars : map height (unmark i cls bars) = map height bars.
Proof. now apply heights_with_bar. Qed.

Lemma length_mark i cls bars : length (mark i cls bars) = length bars.
Proof. apply length_with_bar. Qed.

Lemma length_unmark i cls bars : length (unmark i cls bars) = length bars.
Proof. apply length_with_bar. Qed.

(** A change to one bar's class list, seen on the class [c] of all. *)
Lemma with_bar_classes (P : list String.string -> Prop) i f bars :
  (forall b, P (classList b) -> P (classList (f b))) ->
  Forall (fun b => P (classList b)) bars ->
  Forall (fun b => P (classList b)) (with_bar i f bars).
Proof.
  intros Hf H. unfold with_bar. destruct (bar_at bars i) as [b|] eqn:E; [|exact H].
  apply Forall_insert; [exact H|]. apply Hf.
  unfold bar_at in E. destruct (i <? 0); [discriminate|].
  exact (Forall_lookup_1 _ _ _ _ H E).
Qed.

Lemma fold_mark_heights cls ks : forall bars,
  map height (fold_left (fun bs k => mark k cls bs) ks bars) = map height bars /\
  length (fold_left (fun bs k => mark k cls bs) ks bars) = length bars.
Proof.
  induction ks as [|k ks IH]; intros bars; simpl; [auto|].
  destruct (IH (mark k cls bars)) as [-> ->].
  now rewrite heights_mark, length_mark.
Qed.

Lemma heights_mark_all cls bars : map height (mark_all cls bars) = map height bars.
Proof. apply fold_mark_heights. Qed.

Lemma length_mark_all cls bars : length (mark_all cls bars) = length bars.
Proof. apply fold_mark_heights. Qed.

Lemma mark_classes (P : list String.string -> Prop) i cls bars :
  (forall l, P l -> P (class_add cls l)) ->
  Forall (fun b => P (classList b)) bars ->
  Forall (fun b => P (classList b)) (mark i cls bars).
Proof. intros Hf. apply with_bar_classes. intros b. apply Hf. Qed.

Lemma unmark_classes (P : list String.string -> Prop) i cls bars :
  (forall l, P l -> P (class_remove cls l)) ->
  Forall (fun b => P (classList b)) bars ->
  Forall (fun b => P (classList b)) (unmark i cls bars).
Proof. intros Hf. apply with_bar_classes. intros b. apply Hf. Qed.

Lemma setHeight_classes (P : list String.string -> Prop) ch i v bars :
  Forall (fun b => P (classList b)) bars ->
  Forall (fun b => P (classList b)) (setHeight ch i v bars).
Proof.
  intros H. unfold setHeight. destruct v as [q|]; [|exact H].
  now apply with_bar_classes.
Qed.

Lemma swapVisual_classes (P : list String.string -> Prop) i j bars bars' :
  swapVisual i j bars = Some bars' ->
  Forall (fun b => P (classList b)) bars ->
  Forall (fun b => P (classList b)) bars'.
Proof.
  unfold swapVisual. destruct (bar_at bars i) as [bi|] eqn:Ei; [|discriminate].
  destruct (bar_at bars j) as [bj|]; [|discriminate].
  intros [= <-] H. apply with_bar_classes; [auto|].
  apply Forall_insert; [exact H|]. simpl.
  unfold bar_at in Ei. destruct (i <? 0); [discriminate|].
  exact (Forall_lookup_1 _ _ _ _ H Ei).
Qed.

(** After [unmark(i, cls)] of a bar that was the only one to carry
    [cls], no bar carries it. *)
Lemma unmark_mark_unmarked cls i bars :
  unmarked cls bars -> unmarked cls (unmark i cls (mark i cls bars)).
Proof.
  intros H. unfold unmarked, unmark, mark, with_bar.
  destruct (bar_at bars i) as [b|] eqn:E; [|now rewrite E].
  assert (Hi : inb (len bars) i) by (eapply bar_at_Some; eauto).
  assert (E' : bar_at (<[Z.to_nat i := Bar (height b) (class_add cls (classList b))]> bars) i
               = Some (Bar (height b) (class_add cls (classList b)))).
  { unfold bar_at. destruct (Z.ltb_spec i 0) as [Hn|Hn]; [unfold inb in Hi; lia|].
    apply list_lookup_insert_eq. unfold inb, len in Hi. lia. }
  rewrite E'. rewrite list_insert_insert_eq.
  apply Forall_insert; [exact H|]. simpl. apply class_contains_remove.
Qed.

Lemma fold_mark_from cls : forall (c m : nat) bs,
  (m + c)%nat = length bs ->
  Forall (fun b => class_contains cls (classList b) = true) (take m bs) ->
  Forall (fun b => class_contains cls (classList b) = true)
    (fold_left (fun bs k => mark k cls bs) (seqZ (Z.of_nat m) (Z.of_nat c)) bs).
Proof.
  induction c as [|c IH]; intros m bs Hlen Hm.
  - simpl. rewrite take_ge in Hm by lia. exact Hm.
  - rewrite seqZ_cons by lia. cbn [fold_left].
    replace (Z.succ (Z.of_nat m)) with (Z.of_nat (S m)) by lia.
    replace (Z.pred (Z.of_nat (S c))) with (Z.of_nat c) by lia.
    apply IH; [rewrite length_mark; lia|].
    unfold mark, with_bar, bar_at.
    destruct (Z.ltb_spec (Z.of_nat m) 0) as [Hn|Hn]; [lia|].
    rewrite Nat2Z.id.
    assert (Hlt : (m < length bs)%nat) by lia.
    destruct (lookup_lt_is_Some_2 bs m Hlt) as [b Hb]. rewrite Hb.
    rewrite (take_S_r _ _ (Bar (height b) (class_add cls (classList b))))
      by (apply list_lookup_insert_eq; lia).
    rewrite take_insert_ge by lia.
    apply Forall_app. split; [exact Hm|].
    repeat constructor. simpl. apply class_contains_add.
Qed.

Lemma mark_all_marked cls bars : all_marked cls (mark_all cls bars).
Proof.
  unfold all_marked, mark_all, len.
  apply (fold_mark_from cls (length bars) 0 bars); [reflexivity | constructor].
Qed.

Lemma map_insert {A B} (f : A -> B) (l : list A) i x :
  map f (<[i := x]> l) = <[i := f x]> (map f l).
Proof. exact (list_fmap_insert f l i x). Qed.

(** ** The board shows the array *)

Lemma shows_length bh bars a : shows bh bars a -> len bars = len a.
Proof.
  unfold shows, len. intros H. apply (f_equal length) in H.
  rewrite !length_map in H. lia.
Qed.

Lemma shows_lookup bh bars a i b x :
  shows bh bars a -> bar_at bars i = Some b -> get a i = Some x ->
  height b = hpx bh x.
Proof.
  unfold shows, bar_at, get. intros H Hb Hx.
  destruct (i <? 0); [discriminate|].
  assert (E : map height bars !! Z.to_nat i = map (hpx bh) a !! Z.to_nat i)
    by now rewrite H.
  rewrite !list_lookup_fmap, Hb, Hx in E. simpl in E. now injection E.
Qed.

Lemma shows_setHeight ch bars a i v :
  shows (board_height ch) bars a -> inb (len a) i ->
  shows (board_height ch) (setHeight ch i (Some v) bars) (upd a i v).
Proof.
  intros H Hi. pose proof (shows_length _ _ _ H) as Hl.
  destruct (bar_at_inb bars i) as [b Hb]; [now rewrite Hl|].
  unfold shows, setHeight, with_bar, upd in *. rewrite Hb.
  now rewrite !map_insert, H.
Qed.

Lemma shows_swapVisual bh bars a i j :
  shows bh bars a -> inb (len a) i -> inb (len a) j ->
  exists bars',
    swapVisual i j bars = Some bars' /\ shows bh bars' (exchange a i j).
Proof.
  intros H Hi Hj. pose proof (shows_length _ _ _ H) as Hl.
  destruct (bar_at_inb bars i) as [bi Hbi]; [now rewrite Hl|].
  destruct (bar_at_inb bars j) as [bj Hbj]; [now rewrite Hl|].
  pose proof (shows_lookup _ _ _ _ _ _ H Hbi (get_inb a i Hi)) as Ei.
  pose proof (shows_lookup _ _ _ _ _ _ H Hbj (get_inb a j Hj)) as Ej.
  unfold swapVisual. rewrite Hbi, Hbj. eexists. split; [reflexivity|].
  unfold with_bar.
  destruct (bar_at_inb (<[Z.to_nat i := Bar (height bj) (classList bi)]> bars) j)
    as [b' Hb']; [unfold len; rewrite length_insert; now rewrite <- Hl in Hj|].
  rewrite Hb'. unfold shows, exchange, upd in *.
  rewrite !map_insert, H. simpl. now rewrite Ei, Ej.
Qed.

(** ** Bars, looked at one by one *)

Lemma lookup_with_bar i f bars (k : nat) :
  with_bar i f bars !! k
  = if bool_decide (0 <= i /\ k = Z.to_nat i) then f <$> bars !! k else bars !! k.
Proof.
  unfold with_bar, bar_at. destruct (Z.ltb_spec i 0) as [Hn|Hn].
  - rewrite bool_decide_eq_false_2 by lia. reflexivity.
  - destruct (bars !! Z.to_nat i) as [b|] eqn:E.
    + destruct (decide (k = Z.to_nat i)) as [->|Hne].
      * rewrite bool_decide_eq_true_2 by lia. rewrite E. simpl.
        apply list_lookup_insert_eq. now apply lookup_lt_Some in E.
      * rewrite bool_decide_eq_false_2 by lia. now apply list_lookup_insert_ne.
    + destruct (decide (k = Z.to_nat i)) as [->|Hne].
      * rewrite bool_decide_eq_true_2 by lia. now rewrite E.
      * now rewrite bool_decide_eq_false_2 by lia.
Qed.

Lemma swapVisual_classList i j bars bars' (k : nat) :
  swapVisual i j bars = Some bars' ->
  classList <$> bars' !! k = classList <$> bars !! k.
Proof.
  unfold swapVisual. destruct (bar_at bars i) as [bi|] eqn:Ei; [|discriminate].
  destruct (bar_at bars j) as [bj|]; [|discriminate]. intros [= <-].
  rewrite lookup_with_bar.
  assert (Hi : bars !! Z.to_nat i = Some bi).
  { unfold bar_at in Ei. now destruct (i <? 0). }
  assert (E : classList <$> <[Z.to_nat i := Bar (height bj) (classList bi)]> bars !! k
              = classList <$> bars !! k).
  { destruct (decide (k = Z.to_nat i)) as [->|Hne].
    - rewrite list_lookup_insert_eq by (now apply lookup_lt_Some in Hi).
      now rewrite Hi.
    - now rewrite list_lookup_insert_ne. }
  destruct (bool_decide (0 <= j /\ k = Z.to_nat j)); [|exact E].
  rewrite <- E.
  now destruct (<[Z.to_nat i := Bar (height bj) (classList bi)]> bars !! k).
Qed.

Lemma unmarked_lookup cls bars :
  unmarked cls bars <->
  forall (k : nat) l, classList <$> bars !! k = Some l -> class_contains cls l = false.
Proof.
  unfold unmarked. rewrite Forall_lookup. split.
  - intros H k l Hl. destruct (bars !! k) as [b|] eqn:E; [|discriminate].
    injection Hl as <-. eauto.
  - intros H k b Hb. apply (H k). now rewrite Hb.
Qed.

(** The two bars of a compare step are highlighted and the highlight is
    taken off again: no bar stays highlighted. *)
Lemma compare_unmarked cls x (y : option Z) bars :
  unmarked cls bars ->
  unmarked cls
    (let both (f : Z -> String.string -> list bar -> list bar) bs :=
       let bs1 := f x cls bs in
       match y with Some y' => f y' cls bs1 | None => bs1 end in
     both unmark (both mark bars)).
Proof.
  rewrite !unmarked_lookup. intros H k l. cbv zeta.
  destruct y as [y|]; unfold mark, unmark; rewrite !lookup_with_bar;
    repeat match goal with
           | |- context [bool_decide ?P] => destruct (bool_decide P)
           end;
    destruct (bars !! k) as [b|] eqn:E; simpl; try discriminate;
    intros [= <-];
    rewrite ?class_contains_remove; try reflexivity;
    apply (H k); now rewrite E.
Qed.

Lemma swap_unmarked cls x y bars swapped :
  unmarked cls bars ->
  swapVisual x y (mark y cls (mark x cls bars)) = Some swapped ->
  unmarked cls (unmark y cls (unmark x cls swapped)).
Proof.
  rewrite !unmarked_lookup. intros H Hsw k l.
  unfold unmark. rewrite !lookup_with_bar.
  pose proof (swapVisual_classList _ _ _ _ k Hsw) as Hc.
  unfold mark in Hc. rewrite !lookup_with_bar in Hc.
  repeat match goal with
         | |- context [bool_decide ?P] => destruct (bool_decide P)
         end;
    destruct (swapped !! k) as [b'|] eqn:E'; simpl in *; try discriminate;
    destruct (bars !! k) as [b|] eqn:E; simpl in *; try discriminate;
    intros [= <-];
    rewrite ?class_contains_remove; try reflexivity;
    injection Hc as ->; apply (H k); now rewrite E.
Qed.

(** ** One turn of the loop *)

Lemma keeps_false_add c d l :
  c <> d -> class_contains c l = false -> class_contains c (class_add d l) = false.
Proof. intros Hne H. now rewrite class_contains_add_ne. Qed.

Lemma keeps_false_remove c d l :
  class_contains c l = false -> class_contains c (class_remove d l) = false.
Proof.
  intros H. destruct (String.eqb_spec c d) as [->|Hne].
  - apply class_contains_remove.
  - now rewrite class_contains_remove_ne.
Qed.

Ltac keep_class c :=
  repeat first
    [ apply (unmark_classes (fun l => class_contains c l = false));
      [intros ?l; apply keeps_false_remove|]
    | apply (mark_classes (fun l => class_contains c l = false));
      [intros ?l; apply keeps_false_add; discriminate|] ].

(** What one turn does, on a step whose indices are indices of the
    array, when the board shows the array. *)
Lemma handle_ok ch s u a :
  step_ok (len a) s -> shows (board_height ch) (bars u) a ->
  exists u1,
    handle ch s u = (u1, false) /\
    shows (board_height ch) (bars u1) (replay1 s a) /\
    comparisons u1 = comparisons u + (if is_compare s then 1 else 0) /\
    swaps u1 = swaps u + (if is_swap s then 1 else 0) /\
    (comparisons_text u = comparisons u -> swaps_text u = swaps u ->
     comparisons_text u1 = comparisons u1 /\ swaps_text u1 = swaps u1) /\
    same_controls u u1 /\
    (unmarked "compared"%string (bars u) -> unmarked "compared"%string (bars u1)) /\
    (unmarked "active"%string (bars u) -> unmarked "active"%string (bars u1)) /\
    (is_done s = true -> all_marked "sorted"%string (bars u1)).
Proof.
  intros Hok Hsh. unfold same_controls.
  destruct s as [x y|x y|i v|]; cbn [handle is_compare is_swap is_done replay1].
  - (* compare *)
    eexists. split; [reflexivity|]. cbn.
    split; [|split; [lia|split; [lia|split; [auto|split; [tauto|]]]]].
    { unfold shows in *. rewrite <- Hsh.
      destruct y as [y|]; now rewrite ?heights_unmark, ?heights_mark. }
    split; [|split; [|discriminate]].
    + intros Hu. exact (compare_unmarked "compared"%string x y (bars u) Hu).
    + intros Hu. unfold unmarked in *.
      destruct y as [y|]; keep_class "active"%string; exact Hu.
  - (* swap *)
    destruct Hok as [Hx Hy]. cbn [bars setStats set_counters].
    assert (Hsh' : shows (board_height ch)
                     (mark y "active"%string (mark x "active"%string (bars u))) a).
    { unfold shows in *. now rewrite !heights_mark. }
    destruct (shows_swapVisual _ _ _ x y Hsh' Hx Hy) as (swapped & Hsw & Hsh2).
    rewrite Hsw. eexists. split; [reflexivity|]. cbn.
    rewrite (get_inb a x Hx), (get_inb a y Hy). fold (exchange a x y).
    split; [|split; [lia|split; [lia|split; [auto|split; [tauto|]]]]].
    { unfold shows in *. now rewrite !heights_unmark. }
    split; [|split; [|discriminate]].
    + intros Hu. unfold unmarked in *.
      keep_class "compared"%string.
      apply (swapVisual_classes (fun l => class_contains "compared"%string l = false)
               _ _ _ _ Hsw).
      keep_class "compared"%string. exact Hu.
    + intros Hu. exact (swap_unmarked "active"%string x y (bars u) swapped Hu Hsw).
  - (* set *)
    eexists. split; [reflexivity|]. cbn.
    split; [|split; [lia|split; [lia|split; [auto|split; [tauto|]]]]].
    { destruct v as [q|]; simpl in *.
      - rewrite put_inb by exact Hok. now apply shows_setHeight.
      - exact Hsh. }
    split; [|split; [|discriminate]]; intros Hu; unfold unmarked in *.
    + now apply (setHeight_classes (fun l => class_contains "compared"%string l = false)).
    + now apply (setHeight_classes (fun l => class_contains "active"%string l = false)).
  - (* done *)
    eexists. split; [reflexivity|]. cbn.
    split; [|split; [lia|split; [lia|split; [auto|split; [tauto|]]]]].
    { unfold shows in *. now rewrite heights_mark_all. }
    split; [|split; [|intros _; apply mark_all_marked]].
    + intros Hu. unfold unmarked, mark_all in *.
      generalize (seqZ 0 (len (bars u))). intros ks. revert Hu.
      generalize (bars u). induction ks as [|k ks IH]; intros bs Hu; [exact Hu|].
      simpl. apply IH.
      apply (mark_classes (fun l => class_contains "compared"%string l = false));
        [intros l; apply keeps_false_add; discriminate | exact Hu].
    + intros Hu. unfold unmarked, mark_all in *.
      generalize (seqZ 0 (len (bars u))). intros ks. revert Hu.
      generalize (bars u). induction ks as [|k ks IH]; intros bs Hu; [exact Hu|].
      simpl. apply IH.
      apply (mark_classes (fun l => class_contains "active"%string l = false));
        [intros l; apply keeps_false_add; discriminate | exact Hu].
Qed.

(** A step that is no ["done"] step touches no class but ["compared"]
    and ["active"]. *)
Lemma handle_classes (P : list String.string -> Prop) ch s u :
  (forall c l, P l -> P (class_add c l)) ->
  (forall c l, P l -> P (class_remove c l)) ->
  Forall (fun b => P (classList b)) (bars u) ->
  Forall (fun b => P (classList b)) (bars (handle ch s u).1).
Proof.
  intros Hadd Hrem Hu.
  assert (Hm : forall i c bs, Forall (fun b => P (classList b)) bs ->
                 Forall (fun b => P (classList b)) (mark i c bs)).
  { intros i c bs. apply mark_classes. apply Hadd. }
  assert (Hn : forall i c bs, Forall (fun b => P (classList b)) bs ->
                 Forall (fun b => P (classList b)) (unmark i c bs)).
  { intros i c bs. apply unmark_classes. apply Hrem. }
  destruct s as [x y|x y|i v|]; cbn [handle].
  - cbn. destruct y as [y|]; auto.
  - cbn [bars setStats set_counters].
    destruct (swapVisual x y _) as [swapped|] eqn:Hsw; cbn.
    + apply Hn, Hn. apply (swapVisual_classes P _ _ _ _ Hsw). auto.
    + auto.
  - cbn. now apply setHeight_classes.
  - cbn. unfold mark_all. generalize (seqZ 0 (len (bars u))). intros ks.
    revert Hu. generalize (bars u).
    induction ks as [|k ks IH]; intros bs Hb; [exact Hb|]. simpl. auto.
Qed.

Lemma sorted_kept_add (d : String.string) l :
  d <> "sorted"%string ->
  class_contains "sorted"%string l = false ->
  class_contains "sorted"%string (class_add d l) = false.
Proof. intros Hd H. rewrite class_contains_add_ne; auto. Qed.

(** The steps before ["done"] mark no bar ["sorted"]. *)
Lemma handle_unsorted ch s u :
  is_done s = false ->
  unmarked "sorted"%string (bars u) ->
  unmarked "sorted"%string (bars (handle ch s u).1).
Proof.
  intros Hd Hu. unfold unmarked in *.
  destruct s as [x y|x y|i v|]; [| | |discriminate]; cbn [handle].
  - cbn. destruct y as [y|]; keep_class "sorted"%string; exact Hu.
  - cbn [bars setStats set_counters].
    destruct (swapVisual x y _) as [swapped|] eqn:Hsw; cbn.
    + keep_class "sorted"%string.
      apply (swapVisual_classes
               (fun l => class_contains "sorted"%string l = false) _ _ _ _ Hsw).
      keep_class "sorted"%string. exact Hu.
    + keep_class "sorted"%string. exact Hu.
  - cbn.
    now apply (setHeight_classes
                 (fun l => class_contains "sorted"%string l = false)).
Qed.

Lemma same_controls_refl u : same_controls u u.
Proof. unfold same_controls. tauto. Qed.

Lemma same_controls_trans u v w :
  same_controls u v -> same_controls v w -> same_controls u w.
Proof.
  unfold same_controls.
  intros (a1 & a2 & a3 & a4 & a5 & a6 & a7 & a8 & a9 & a10)
         (b1 & b2 & b3 & b4 & b5 & b6 & b7 & b8 & b9 & b10).
  repeat split; congruence.
Qed.

(** ** The loop on the steps of a run *)

Lemma handle_all_ok ch : forall tr a a' u,
  faithful a tr a' -> Forall (item_ok (len a)) tr ->
  shows (board_height ch) (bars u) a ->
  shows (board_height ch) (bars (handle_all ch (map fst tr) u)) a' /\
  comparisons (handle_all ch (map fst tr) u)
    = comparisons u + Z.of_nat (count_steps is_compare (map fst tr)) /\
  swaps (handle_all ch (map fst tr) u)
    = swaps u + Z.of_nat (count_steps is_swap (map fst tr)) /\
  (comparisons_text u = comparisons u -> swaps_text u = swaps u ->
   comparisons_text (handle_all ch (map fst tr) u)
     = comparisons (handle_all ch (map fst tr) u) /\
   swaps_text (handle_all ch (map fst tr) u)
     = swaps (handle_all ch (map fst tr) u)) /\
  same_controls u (handle_all ch (map fst tr) u) /\
  (unmarked "compared"%string (bars u) ->
   unmarked "compared"%string (bars (handle_all ch (map fst tr) u))) /\
  (unmarked "active"%string (bars u) ->
   unmarked "active"%string (bars (handle_all ch (map fst tr) u))) /\
  (unmarked "sorted"%string (bars u) ->
   unmarked "sorted"%string (bars (handle_all ch (map fst tr) u))).
Proof.
  induction tr as [|[s b] tr IH]; intros a a' u Hf Hok Hsh.
  - simpl in *. subst a'. unfold count_steps. simpl.
    repeat split; auto using same_controls_refl; lia.
  - destruct Hf as [Hb Hf]. inversion Hok as [|? ? Hit Hok']; subst.
    destruct Hit as (Hs & Hlen & Hnd). simpl in Hs, Hlen, Hnd.
    destruct (handle_ok ch s u a Hs Hsh)
      as (u1 & Hh & Hsh1 & Hc & Hw & Ht & Hsame & Hcm & Hac & _).
    cbn [map fst handle_all fold_left]. rewrite Hh. cbn [fst].
    fold (handle_all ch (map fst tr) u1).
    assert (Hu1 : u1 = (handle ch s u).1) by now rewrite Hh.
    rewrite <- Hlen in Hok'.
    destruct (IH _ a' u1 Hf Hok' Hsh1)
      as (I1 & I2 & I3 & I4 & I5 & I6 & I7 & I8).
    rewrite !count_steps_cons.
    split; [exact I1|]. split; [rewrite I2, Hc; destruct (is_compare s); lia|].
    split; [rewrite I3, Hw; destruct (is_swap s); lia|].
    split; [intros T1 T2; destruct (Ht T1 T2); auto|].
    split; [eapply same_controls_trans; eauto|].
    split; [auto|]. split; [auto|].
    intros Hso. apply I8. rewrite Hu1. now apply handle_unsorted.
Qed.

(** *** The clicks leave the board alone, the steps leave the flags alone *)

Lemma same_board_refl u : same_board u u.
Proof. unfold same_board. tauto. Qed.

Lemma same_board_trans u v w : same_board u v -> same_board v w -> same_board u w.
Proof.
  unfold same_board. intros (a1 & a2 & a3 & a4 & a5) (b1 & b2 & b3 & b4 & b5).
  repeat split; congruence.
Qed.

Lemma keeps_run_refl u : keeps_run u u.
Proof. unfold keeps_run. tauto. Qed.

Lemma keeps_run_trans u v w : keeps_run u v -> keeps_run v w -> keeps_run u w.
Proof.
  unfold keeps_run.
  intros (a1 & a2 & a3 & a4 & a5 & a6 & a7 & a8)
         (b1 & b2 & b3 & b4 & b5 & b6 & b7 & b8).
  repeat split; congruence.
Qed.

Lemma handle_controls ch s u : same_controls u (handle ch s u).1.
Proof.
  unfold same_controls. destruct s as [x y|x y|i v|]; cbn [handle].
  - cbn. tauto.
  - cbn [bars setStats set_counters].
    destruct (swapVisual x y _); cbn; tauto.
  - cbn. tauto.
  - cbn. tauto.
Qed.

Lemma handle_keeps ch s u : keeps_run u (handle ch s u).1.
Proof.
  destruct (handle_controls ch s u) as (a1 & a2 & a3 & a4 & a5 & a6 & a7 & a8 & a9 & a10).
  unfold keeps_run. tauto.
Qed.

Lemma handle_paused ch s u : paused (handle ch s u).1 = paused u.
Proof. now destruct (handle_controls ch s u) as (_ & -> & _). Qed.

Lemma handle_same_board ch s u v :
  same_board u v ->
  (handle ch s v).2 = (handle ch s u).2 /\
  same_board (handle ch s u).1 (handle ch s v).1.
Proof.
  unfold same_board. intros (Hb & Hc & Hs & Hct & Hst).
  destruct s as [x y|x y|i w|]; cbn [handle].
  - cbn. rewrite Hb, Hc, Hs. tauto.
  - cbn [bars setStats set_counters]. rewrite Hb.
    destruct (swapVisual x y _); cbn; rewrite Hc, Hs; tauto.
  - cbn. rewrite Hb. tauto.
  - cbn. rewrite Hb. tauto.
Qed.

Lemma pause_click_board u : same_board u (pause_click u).
Proof. unfold same_board, pause_click. destruct (running u); cbn; tauto. Qed.

Lemma pause_click_keeps u : keeps_run u (pause_click u).
Proof.
  unfold keeps_run, pause_click. destruct (running u) eqn:E; cbn; tauto.
Qed.

Lemma stop_click_board u : same_board u (stop_click u).
Proof. unfold same_board. cbn. tauto. Qed.

Lemma iter_pause_board n u : same_board u (Nat.iter n pause_click u).
Proof.
  induction n as [|n IH]; [apply same_board_refl|]. cbn [Nat.iter].
  eapply same_board_trans; [exact IH | apply pause_click_board].
Qed.

Lemma iter_pause_keeps n u : keeps_run u (Nat.iter n pause_click u).
Proof.
  induction n as [|n IH]; [apply keeps_run_refl|]. cbn [Nat.iter].
  eapply keeps_run_trans; [exact IH | apply pause_click_keeps].
Qed.

(** While the run is on, each click on Pause flips [paused]. *)
Lemma iter_pause_paused n u :
  running u = true ->
  paused (Nat.iter n pause_click u) = xorb (paused u) (Nat.odd n).
Proof.
  intros Hr. induction n as [|n IH]; [now rewrite xorb_false_r|].
  change (Nat.iter (S n) pause_click u)
    with (pause_click (Nat.iter n pause_click u)).
  rewrite Nat.odd_succ, <- Nat.negb_odd.
  assert (Hrn : running (Nat.iter n pause_click u) = true).
  { destruct (iter_pause_keeps n u) as (-> & _). exact Hr. }
  revert IH Hrn. generalize (Nat.iter n pause_click u). intros w IH Hrn.
  unfold pause_click. rewrite Hrn. cbn. rewrite IH.
  now destruct (paused u), (Nat.odd n).
Qed.

(** Once the run is off, a click on Pause does nothing. *)
Lemma iter_pause_off n u : running u = false -> Nat.iter n pause_click u = u.
Proof.
  intros Hr. induction n as [|n IH]; [reflexivity|].
  change (Nat.iter (S n) pause_click u)
    with (pause_click (Nat.iter n pause_click u)).
  rewrite IH. unfold pause_click. now rewrite Hr.
Qed.

Lemma during_board usr t u : same_board u (during usr t u).
Proof.
  unfold during. destruct (stop usr) as [|t'|t'];
    try apply iter_pause_board.
  destruct (Nat.eqb t' t); [|apply iter_pause_board].
  eapply same_board_trans; [apply iter_pause_board | apply stop_click_board].
Qed.

Lemma stop_click_stopped u v : keeps_run u v -> stopped_from u (stop_click v).
Proof.
  intros (a1 & a2 & a3 & a4 & a5 & a6 & a7 & a8).
  unfold stopped_from. cbn. tauto.
Qed.

Lemma stopped_from_keeps u v w :
  stopped_from u v -> same_controls v w -> stopped_from u w.
Proof.
  unfold stopped_from, same_controls.
  intros (a1 & a2 & a3 & a4 & a5 & a6 & a7 & a8 & a9)
         (b1 & b2 & b3 & b4 & b5 & b6 & b7 & b8 & b9 & b10).
  repeat split; congruence.
Qed.

(** The top of the loop in a run that is on: the loop goes on to pull
    the next step, after a wait if it is paused and the user resumes. *)
Lemma top_of_loop usr t u :
  resumes usr t = true -> stop usr <> WhilePaused t ->
  exists uw,
    (if paused u then waitWhilePaused usr t u else Some u) = Some uw /\
    same_board u uw /\ keeps_run u uw /\
    (running u = true -> paused uw = false).
Proof.
  intros Hres Hst. destruct (paused u) eqn:Hp.
  - exists (pause_click u). split.
    + unfold waitWhilePaused. rewrite Hres.
      destruct (stop usr) as [|t'|t']; try reflexivity.
      destruct (Nat.eqb_spec t' t) as [->|]; [contradiction | reflexivity].
    + split; [apply pause_click_board|]. split; [apply pause_click_keeps|].
      intros Hr. unfold pause_click. rewrite Hr, Hp. reflexivity.
  - exists u. split; [reflexivity|].
    split; [apply same_board_refl|]. split; [apply keeps_run_refl|]. auto.
Qed.

Lemma play_trace_off ch usr t tr o a_end a u :
  running u = false -> play_trace ch usr t tr o a_end a u = (u, a, Stopped).
Proof. intros Hr. destruct tr; cbn [play_trace]; now rewrite Hr. Qed.

Lemma play_loop_trace ch usr : forall tr fuel t (g : gen unit) a a' o u,
  run g a = (tr, a', o) -> (length tr < fuel)%nat ->
  play_loop fuel ch usr t g a u = play_trace ch usr t tr o a' a u.
Proof.
  induction tr as [|[s b] tr IH]; intros fuel t g a a' o u Hrun Hfuel.
  - destruct fuel as [|fuel]; [simpl in Hfuel; lia|].
    cbn [play_loop play_trace]. destruct (negb (running u)); [reflexivity|].
    destruct (if paused u then waitWhilePaused usr t u else Some u) as [uw|];
      [|reflexivity].
    destruct (next g a) as [s g' a1|o1 a1] eqn:Hn.
    + destruct (run_next_Item _ _ _ _ _ _ _ _ Hrun Hn) as (tr' & Htr & _).
      discriminate.
    + destruct (run_next_End _ _ _ _ _ _ _ Hrun Hn) as (_ & -> & ->).
      now destruct o1.
  - destruct fuel as [|fuel]; [simpl in Hfuel; lia|].
    cbn [play_loop play_trace]. destruct (negb (running u)); [reflexivity|].
    destruct (if paused u then waitWhilePaused usr t u else Some u) as [uw|];
      [|reflexivity].
    destruct (next g a) as [s' g' a1|o1 a1] eqn:Hn.
    + destruct (run_next_Item _ _ _ _ _ _ _ _ Hrun Hn) as (tr' & Htr & Hrun').
      injection Htr as <- <- <-.
      destruct (handle ch s uw) as [u1 threw]. destruct threw; [reflexivity|].
      destruct (is_done s); [reflexivity|].
      apply IH; [exact Hrun' | simpl in Hfuel; lia].
    + destruct (run_next_End _ _ _ _ _ _ _ Hrun Hn) as (Htr & _). discriminate.
Qed.

(** One turn of the loop on a step that is no ["done"] step. *)
Lemma turn ch usr t s b tr o a_end a u v :
  step_ok (len a) s -> is_done s = false ->
  shows (board_height ch) (bars v) a -> same_board v u ->
  running u = true -> resumes usr t = true -> stop usr <> WhilePaused t ->
  exists uw u1,
    keeps_run u uw /\ paused uw = false /\
    keeps_run u u1 /\ paused u1 = false /\
    same_board (handle ch s v).1 u1 /\
    shows (board_height ch) (bars (handle ch s v).1) (replay1 s a) /\
    play_trace ch usr t ((s, b) :: tr) o a_end a u
      = play_trace ch usr (S t) tr o a_end b (during usr t u1).
Proof.
  intros Hs Hnd Hsh Hsb Hr Hres Hst.
  destruct (top_of_loop usr t u Hres Hst) as (uw & Hw & Hb1 & Hk1 & Hp1).
  destruct (handle_ok ch s v a Hs Hsh) as (v1 & Hh & Hsh1 & _).
  assert (Hsbw : same_board v uw) by (eapply same_board_trans; eauto).
  destruct (handle_same_board ch s v uw Hsbw) as [Hthrew Hsb1].
  rewrite Hh in Hthrew, Hsb1. cbn [fst snd] in Hthrew, Hsb1.
  exists uw, (handle ch s uw).1.
  split; [exact Hk1|]. split; [auto|].
  split; [eapply keeps_run_trans; [exact Hk1 | apply handle_keeps]|].
  split; [rewrite handle_paused; auto|].
  rewrite Hh. cbn [fst]. split; [exact Hsb1|]. split; [exact Hsh1|].
  cbn [play_trace]. rewrite Hr. cbn [negb]. rewrite Hw.
  destruct (handle ch s uw) as [u1 threw]. cbn [snd fst] in *. subst threw.
  now rewrite Hnd.
Qed.

(** No Stop: the loop gets to the ["done"] step. *)
Lemma play_trace_through ch usr : forall tr t a a' u v A' o a_end,
  stop usr = NoStop -> (forall k, resumes usr k = true) ->
  faithful a tr a' -> Forall (item_ok (len a)) tr ->
  shows (board_height ch) (bars v) a -> same_board v u -> running u = true ->
  exists u_end,
    play_trace ch usr t (tr ++ [(done, A')]) o a_end a u = (u_end, A', Finished) /\
    same_board (handle ch done (handle_all ch (map fst tr) v)).1 u_end /\
    keeps_run u u_end.
Proof.
  intros tr t a a' u v A' o a_end Hns Hres.
  revert t a u v.
  induction tr as [|[s b] tr IH]; intros t a u v Hf Hok Hsh Hsb Hr.
  - assert (Hst : stop usr <> WhilePaused t) by (rewrite Hns; discriminate).
    destruct (top_of_loop usr t u (Hres t) Hst) as (uw & Hw & Hb1 & Hk1 & _).
    exists (handle ch done uw).1. cbn [app play_trace].
    rewrite Hr. cbn [negb]. rewrite Hw. cbn [handle is_done fst].
    split; [reflexivity|]. split.
    + cbn [map handle_all fold_left].
      apply (handle_same_board ch done v uw).
      eapply same_board_trans; eauto.
    + eapply keeps_run_trans; [exact Hk1 | apply (handle_keeps ch done uw)].
  - destruct Hf as [Hb Hf]. inversion Hok as [|? ? Hit Hok']; subst.
    destruct Hit as (Hs & Hlen & Hnd). simpl in Hs, Hlen, Hnd.
    assert (Hst : stop usr <> WhilePaused t) by (rewrite Hns; discriminate).
    destruct (turn ch usr t s (replay1 s a) (tr ++ [(done, A')]) o a_end a u v
                Hs Hnd Hsh Hsb Hr (Hres t) Hst)
      as (uw & u1 & Hk1 & _ & Hk2 & _ & Hsb1 & Hsh1 & E).
    cbn [app]. rewrite E.
    assert (Hd : during usr t u1 = Nat.iter (toggles usr t) pause_click u1).
    { unfold during. now rewrite Hns. }
    rewrite <- Hlen in Hok'.
    destruct (IH (S t) (replay1 s a) (during usr t u1) (handle ch s v).1
                Hf Hok' Hsh1) as (u_end & E2 & Hsb2 & Hk3).
    { eapply same_board_trans; [exact Hsb1 | apply during_board]. }
    { rewrite Hd. destruct (iter_pause_keeps (toggles usr t) u1) as (-> & _).
      destruct Hk2 as (-> & _). exact Hr. }
    exists u_end. split; [exact E2|]. split; [exact Hsb2|].
    eapply keeps_run_trans; [exact Hk2|].
    eapply keeps_run_trans; [|exact Hk3]. rewrite Hd. apply iter_pause_keeps.
Qed.

(** Stop while step number [s] is on show. *)
Lemma play_trace_stop ch usr s : forall tr t a a' u v A' o a_end,
  stop usr = DuringStep s -> (forall k, resumes usr k = true) ->
  faithful a tr a' -> Forall (item_ok (len a)) tr ->
  shows (board_height ch) (bars v) a -> same_board v u -> running u = true ->
  (t <= s < t + length tr)%nat ->
  exists u_end,
    play_trace ch usr t (tr ++ [(done, A')]) o a_end a u
      = (u_end, replay (take (S (s - t)) (map fst tr)) a, Stopped) /\
    same_board (handle_all ch (take (S (s - t)) (map fst tr)) v) u_end /\
    stopped_from u u_end.
Proof.
  intros tr t a a' u v A' o a_end Hds Hres.
  revert t a u v.
  induction tr as [|[s0 b] tr IH]; intros t a u v Hf Hok Hsh Hsb Hr Hst.
  - simpl in Hst. lia.
  - destruct Hf as [Hb Hf]. inversion Hok as [|? ? Hit Hok']; subst.
    destruct Hit as (Hs & Hlen & Hnd). simpl in Hs, Hlen, Hnd.
    assert (Hnw : stop usr <> WhilePaused t) by (rewrite Hds; discriminate).
    destruct (turn ch usr t s0 (replay1 s0 a) (tr ++ [(done, A')]) o a_end a u v
                Hs Hnd Hsh Hsb Hr (Hres t) Hnw)
      as (uw & u1 & Hk1 & _ & Hk2 & _ & Hsb1 & Hsh1 & E).
    cbn [app]. rewrite E.
    destruct (decide (s = t)) as [->|Hne].
    + assert (Hd : during usr t u1
                   = stop_click (Nat.iter (toggles usr t) pause_click u1)).
      { unfold during. now rewrite Hds, Nat.eqb_refl. }
      rewrite Hd, play_trace_off by reflexivity.
      replace (t - t)%nat with 0%nat by lia.
      cbn [map fst take handle_all fold_left replay].
      eexists. split; [reflexivity|]. split.
      * eapply same_board_trans; [exact Hsb1|]. rewrite <- Hd. apply during_board.
      * apply stop_click_stopped.
        eapply keeps_run_trans; [exact Hk2 | apply iter_pause_keeps].
    + assert (Hd : during usr t u1 = Nat.iter (toggles usr t) pause_click u1).
      { unfold during. rewrite Hds.
        destruct (Nat.eqb_spec s t); [contradiction | reflexivity]. }
      rewrite <- Hlen in Hok'.
      destruct (IH (S t) (replay1 s0 a) (during usr t u1) (handle ch s0 v).1
                  Hf Hok' Hsh1) as (u_end & E2 & Hsb2 & Hk3).
      { eapply same_board_trans; [exact Hsb1 | apply during_board]. }
      { rewrite Hd. destruct (iter_pause_keeps (toggles usr t) u1) as (-> & _).
        destruct Hk2 as (-> & _). exact Hr. }
      { simpl in Hst. lia. }
      replace (s - t)%nat with (S (s - S t)) by lia.
      cbn [map fst take handle_all fold_left replay].
      exists u_end. split; [exact E2|]. split; [exact Hsb2|].
      assert (Hk4 : keeps_run u (during usr t u1)).
      { eapply keeps_run_trans; [exact Hk2|]. rewrite Hd. apply iter_pause_keeps. }
      destruct Hk3 as (c1 & c2 & c3 & c4 & c5 & c6 & c7 & c8 & c9).
      destruct Hk4 as (d1 & d2 & d3 & d4 & d5 & d6 & d7 & d8).
      unfold stopped_from. repeat split; congruence.
Qed.

(** Stop while the loop, paused during step number [s], waits: step
    number [s + 1] is pulled and shown all the same. *)
Lemma play_trace_stop_paused ch usr s : forall tr t a a' u v A' o a_end,
  stop usr = WhilePaused (S s) -> (forall k, resumes usr k = true) ->
  Nat.odd (toggles usr s) = true ->
  faithful a tr a' -> Forall (item_ok (len a)) tr ->
  shows (board_height ch) (bars v) a -> same_board v u -> running u = true ->
  (t <= s)%nat -> (S s < t + length tr)%nat ->
  exists u_end,
    play_trace ch usr t (tr ++ [(done, A')]) o a_end a u
      = (u_end, replay (take (S (S s - t)) (map fst tr)) a, Stopped) /\
    same_board (handle_all ch (take (S (S s - t)) (map fst tr)) v) u_end /\
    stopped_from u u_end.
Proof.
  intros tr t a a' u v A' o a_end Hds Hres Hodd.
  revert t a u v.
  induction tr as [|[s0 b] tr IH]; intros t a u v Hf Hok Hsh Hsb Hr Hts Hst.
  - simpl in Hst. lia.
  - destruct Hf as [Hb Hf]. inversion Hok as [|? ? Hit Hok']; subst.
    destruct Hit as (Hs & Hlen & Hnd). simpl in Hs, Hlen, Hnd.
    assert (Hnw : stop usr <> WhilePaused t).
    { rewrite Hds. intros [= E]. lia. }
    destruct (turn ch usr t s0 (replay1 s0 a) (tr ++ [(done, A')]) o a_end a u v
                Hs Hnd Hsh Hsb Hr (Hres t) Hnw)
      as (uw & u1 & Hk1 & _ & Hk2 & Hp2 & Hsb1 & Hsh1 & E).
    cbn [app]. rewrite E.
    assert (Hd : during usr t u1 = Nat.iter (toggles usr t) pause_click u1).
    { unfold during. now rewrite Hds. }
    assert (Hr1 : running u1 = true) by (destruct Hk2 as (-> & _); exact Hr).
    assert (Hrd : running (during usr t u1) = true).
    { rewrite Hd. now destruct (iter_pause_keeps (toggles usr t) u1) as (-> & _). }
    assert (Hk4 : keeps_run u (during usr t u1)).
    { eapply keeps_run_trans; [exact Hk2|]. rewrite Hd. apply iter_pause_keeps. }
    assert (Hsbd : same_board (handle ch s0 v).1 (during usr t u1)).
    { eapply same_board_trans; [exact Hsb1 | apply during_board]. }
    rewrite <- Hlen in Hok'.
    destruct (decide (s = t)) as [->|Hne].
    + (* the wait that follows this step is ended by the click on Stop *)
      assert (Hpd : paused (during usr t u1) = true).
      { rewrite Hd, iter_pause_paused by exact Hr1. now rewrite Hp2, Hodd. }
      destruct tr as [|[s1 b1] tr]; [simpl in Hst; lia|].
      destruct Hf as [Hb1 Hf]. inversion Hok' as [|? ? Hit1 Hok'']; subst.
      destruct Hit1 as (Hs1 & Hlen1 & Hnd1). simpl in Hs1, Hlen1, Hnd1.
      destruct (handle_ok ch s1 (handle ch s0 v).1 (replay1 s0 a) Hs1 Hsh1)
        as (v2 & Hh2 & _).
      set (us := stop_click (during usr t u1)).
      assert (Hsbs : same_board (handle ch s0 v).1 us).
      { eapply same_board_trans; [exact Hsbd | apply stop_click_board]. }
      destruct (handle_same_board ch s1 _ us Hsbs) as [Hthrew Hsb2].
      rewrite Hh2 in Hthrew, Hsb2. cbn [fst snd] in Hthrew, Hsb2.
      cbn [app play_trace]. rewrite Hrd, Hpd. cbn [negb].
      unfold waitWhilePaused. rewrite Hds, Nat.eqb_refl. fold us.
      destruct (handle ch s1 us) as [u2 threw] eqn:Hu2.
      cbn [fst snd] in Hthrew, Hsb2. subst threw. rewrite Hnd1.
      assert (Hst2 : stopped_from u u2).
      { eapply stopped_from_keeps; [apply (stop_click_stopped u); exact Hk4|].
        pose proof (handle_controls ch s1 us) as Hc. now rewrite Hu2 in Hc. }
      assert (Hd2 : during usr (S t) u2 = u2).
      { unfold during. rewrite Hds. apply iter_pause_off. apply Hst2. }
      rewrite Hd2, play_trace_off by apply Hst2.
      replace (S t - t)%nat with 1%nat by lia.
      cbn [map fst take handle_all fold_left replay]. rewrite Hh2. cbn [fst].
      exists u2. split; [reflexivity|]. split; [exact Hsb2 | exact Hst2].
    + destruct (IH (S t) (replay1 s0 a) (during usr t u1) (handle ch s0 v).1
                  Hf Hok' Hsh1 Hsbd Hrd) as (u_end & E2 & Hsb2 & Hk3);
        [lia | simpl in Hst; lia |].
      replace (S s - t)%nat with (S (S s - S t)) by lia.
      cbn [map fst take handle_all fold_left replay].
      exists u_end. split; [exact E2|]. split; [exact Hsb2|].
      destruct Hk3 as (c1 & c2 & c3 & c4 & c5 & c6 & c7 & c8 & c9).
      destruct Hk4 as (d1 & d2 & d3 & d4 & d5 & d6 & d7 & d8).
      unfold stopped_from. repeat split; congruence.
Qed.

Lemma faithful_take k : forall a tr a',
  faithful a tr a' ->
  faithful a (take k tr) (replay (map fst (take k tr)) a).
Proof.
  induction k as [|k IH]; intros a tr a' Hf; [reflexivity|].
  destruct tr as [|[s b] tr]; [reflexivity|].
  destruct Hf as [-> Hf]. cbn [take map fst replay fold_left faithful].
  split; [reflexivity|]. exact (IH _ _ _ Hf).
Qed.

Lemma faithful_replay : forall tr a a',
  faithful a tr a' -> a' = replay (map fst tr) a.
Proof.
  induction tr as [|[s b] tr IH]; intros a a' Hf; [exact Hf|].
  destruct Hf as [-> Hf]. exact (IH _ _ Hf).
Qed.

Lemma all_marked_isSortedVisible bars :
  all_marked "sorted"%string bars -> isSortedVisible bars = true.
Proof.
  intros H. unfold isSortedVisible.
  replace (forallb _ bars) with true; [reflexivity|].
  symmetry. apply forallb_forall. intros b Hb.
  unfold all_marked in H. rewrite Forall_forall in H. apply H.
  now apply list_elem_of_In.
Qed.

Lemma shows_renderArray ch A : shows (board_height ch) (renderArray ch A) A.
Proof.
  unfold shows, renderArray. rewrite map_map. reflexivity.
Qed.

Lemma renderArray_unmarked ch A c :
  c <> "bar"%string -> unmarked c (renderArray ch A).
Proof.
  intros Hc. unfold unmarked, renderArray. apply Forall_fmap, Forall_forall.
  intros v _. cbn. destruct (String.eqb_spec c "bar"%string); [contradiction|].
  reflexivity.
Qed.

(** * playGenerator *)

(** The state in which a run that nobody stops leaves the page. *)
Lemma playGenerator_complete (alg : algo) (A : list Q) (gfuel fuel : nat)
  (ch : Z) (usr : user) (u : ui) :
  in_domain alg A -> enough A gfuel ->
  shows (board_height ch) (bars u) A ->
  (length (steps_of (generator alg gfuel) A) < fuel)%nat ->
  staircaseOn u && negb (staircaseReverted u) && negb (staircasePrepared u)
    = false ->
  stop usr = NoStop -> (forall t, resumes usr t = true) ->
  exists u',
    playGenerator fuel ch usr (generator alg gfuel) A u
      = (u', final_of (generator alg gfuel) A, Finished) /\
    shows (board_height ch) (bars u') (final_of (generator alg gfuel) A) /\
    all_marked "sorted"%string (bars u') /\
    comparisons u'
      = Z.of_nat (count_steps is_compare (steps_of (generator alg gfuel) A)) /\
    swaps u'
      = Z.of_nat (count_steps is_swap (steps_of (generator alg gfuel) A)) /\
    comparisons_text u' = comparisons u' /\ swaps_text u' = swaps u' /\
    running u' = false /\ paused u' = false /\ stoppedByUser u' = false /\
    staircasePrepared u' = false /\ spinner u' = false /\
    startStop_text u' = "Start"%string /\
    (unmarked "compared"%string (bars u) -> unmarked "compared"%string (bars u')) /\
    (unmarked "active"%string (bars u) -> unmarked "active"%string (bars u')).
Proof.
  intros Hdom Hfuel Hsh Hlen Hov Hns Hres.
  destruct (generator_run alg A gfuel Hdom Hfuel) as (tr & A' & Hrun & Hf & Hok & _).
  unfold steps_of, final_of in *. rewrite Hrun in *. cbn [fst snd] in *.
  rewrite map_app in *. cbn [map fst] in *.
  set (u0 := addSpinner (setStats (set_counters 0 0 (set_flags true false false u)))).
  assert (Hsh0 : shows (board_height ch) (bars u0) A) by exact Hsh.
  assert (Hr0 : running u0 = true) by reflexivity.
  destruct (play_trace_through ch usr tr 0%nat A A' u0 u0 A' (Returned tt) A'
              Hns Hres Hf Hok Hsh0 (same_board_refl u0) Hr0)
    as (ue & Hpt & Hsb & Hk).
  assert (Hloop : play_loop fuel ch usr 0 (generator alg gfuel) A u0
                  = (ue, A', Finished)).
  { rewrite (play_loop_trace ch usr _ fuel 0%nat _ A A' _ u0 Hrun); [exact Hpt|].
    rewrite length_app in *. rewrite length_map in Hlen. exact Hlen. }
  destruct (handle_all_ok ch tr A A' u0 Hf Hok Hsh0)
    as (I1 & I2 & I3 & I4 & I5 & I6 & I7 & _).
  destruct (I4 eq_refl eq_refl) as [T1 T2].
  revert Hsb I1 I2 I3 I5 I6 I7 T1 T2.
  generalize (handle_all ch (map fst tr) u0). intros u1 Hsb I1 I2 I3 I5 I6 I7 T1 T2.
  cbn [handle fst] in Hsb.
  destruct Hsb as (B1 & B2 & B3 & B4 & B5).
  cbn [bars comparisons swaps comparisons_text swaps_text set_bars] in B1, B2, B3, B4, B5.
  destruct Hk as (K1 & K2 & K3 & K4 & K5 & K6 & K7 & K8).
  cbn in K1, K2, K3, K4, K5, K6, K7, I2, I3.
  unfold playGenerator. fold u0. rewrite Hloop. cbv beta iota.
  cbn [stoppedByUser staircaseOn staircaseReverted staircasePrepared
       set_flags set_bars].
  rewrite K2, K3, K4, K5. cbn [negb andb]. rewrite Hov.
  eexists. split; [reflexivity|].
  cbn [bars comparisons swaps comparisons_text swaps_text running paused
       stoppedByUser staircasePrepared spinner startStop_text
       button_start removeSpinner set_spinner set_prepared set_flags set_bars].
  rewrite B1, B2, B3, B4, B5.
  assert (Hm : all_marked "sorted"%string (mark_all "sorted"%string (bars u1)))
    by apply mark_all_marked.
  split; [unfold shows in *; now rewrite heights_mark_all|].
  split; [exact Hm|].
  rewrite !count_steps_app.
  change (count_steps is_compare [done]) with 0%nat.
  change (count_steps is_swap [done]) with 0%nat. rewrite !Nat.add_0_r.
  split; [lia|]. split; [lia|]. split; [exact T1|]. split; [exact T2|].
  repeat (split; [reflexivity|]).
  split; intros Hu; unfold unmarked, mark_all in *.
  - specialize (I6 Hu). revert I6. generalize (seqZ 0 (len (bars u1))).
    generalize (bars u1). intros bs ks. revert bs.
    induction ks as [|k ks IH]; intros bs Hb; [exact Hb|]. simpl. apply IH.
    keep_class "compared"%string. exact Hb.
  - specialize (I7 Hu). revert I7. generalize (seqZ 0 (len (bars u1))).
    generalize (bars u1). intros bs ks. revert bs.
    induction ks as [|k ks IH]; intros bs Hb; [exact Hb|]. simpl. apply IH.
    keep_class "active"%string. exact Hb.
Qed.

(** The state in which a click on Stop leaves the page: during step
    number [s], or, when [late], during the wait of the loop that was
    paused during step number [s]. *)
Lemma playGenerator_stopped (alg : algo) (A : list Q) (gfuel fuel : nat)
  (ch : Z) (usr : user) (u : ui) (s : nat) (late : bool) :
  let steps := steps_of (generator alg gfuel) A in
  let k := if late then S (S s) else S s in
  in_domain alg A -> enough A gfuel ->
  shows (board_height ch) (bars u) A ->
  (length steps < fuel)%nat ->
  (forall t, resumes usr t = true) ->
  stop usr = (if late then WhilePaused (S s) else DuringStep s) ->
  (late = true -> Nat.odd (toggles usr s) = true) ->
  (k < length steps)%nat ->
  exists u',
    playGenerator fuel ch usr (generator alg gfuel) A u
      = (u', replay (take k steps) A, Stopped) /\
    shows (board_height ch) (bars u') (replay (take k steps) A) /\
    comparisons u' = Z.of_nat (count_steps is_compare (take k steps)) /\
    swaps u' = Z.of_nat (count_steps is_swap (take k steps)) /\
    comparisons_text u' = comparisons u' /\ swaps_text u' = swaps u' /\
    running u' = false /\ paused u' = false /\ stoppedByUser u' = true /\
    staircasePrepared u' = false /\ spinner u' = false /\
    startStop_text u' = "Start"%string /\ pause_text u' = "Pause"%string /\
    (unmarked "sorted"%string (bars u) -> unmarked "sorted"%string (bars u')) /\
    (unmarked "compared"%string (bars u) -> unmarked "compared"%string (bars u')) /\
    (unmarked "active"%string (bars u) -> unmarked "active"%string (bars u')).
Proof.
  intros steps k Hdom Hfuel Hsh Hlen Hres Hstop Hodd Hk. subst steps.
  destruct (generator_run alg A gfuel Hdom Hfuel) as (tr & A' & Hrun & Hf & Hok & _).
  unfold steps_of, final_of in *. rewrite Hrun in *. cbn [fst snd] in *.
  rewrite map_app in *. cbn [map fst] in *.
  rewrite length_app, length_map in Hlen, Hk. simpl in Hlen, Hk.
  rewrite take_app_le by (rewrite length_map; lia).
  set (u0 := addSpinner (setStats (set_counters 0 0 (set_flags true false false u)))).
  assert (Hsh0 : shows (board_height ch) (bars u0) A) by exact Hsh.
  assert (Hr0 : running u0 = true) by reflexivity.
  assert (Hpt : exists ue,
            play_trace ch usr 0 (tr ++ [(done, A')]) (Returned tt) A' A u0
              = (ue, replay (take k (map fst tr)) A, Stopped) /\
            same_board (handle_all ch (take k (map fst tr)) u0) ue /\
            stopped_from u0 ue).
  { subst k. destruct late.
    - destruct (play_trace_stop_paused ch usr s tr 0%nat A A' u0 u0 A'
                  (Returned tt) A' Hstop Hres (Hodd eq_refl) Hf Hok Hsh0
                  (same_board_refl u0) Hr0) as (ue & E & H1 & H2); [lia | lia |].
      rewrite Nat.sub_0_r in E, H1. eauto.
    - destruct (play_trace_stop ch usr s tr 0%nat A A' u0 u0 A'
                  (Returned tt) A' Hstop Hres Hf Hok Hsh0
                  (same_board_refl u0) Hr0) as (ue & E & H1 & H2); [lia|].
      rewrite Nat.sub_0_r in E, H1. eauto. }
  destruct Hpt as (ue & Hpt & Hsb & Hst).
  assert (Hloop : play_loop fuel ch usr 0 (generator alg gfuel) A u0
                  = (ue, replay (take k (map fst tr)) A, Stopped)).
  { rewrite (play_loop_trace ch usr _ fuel 0%nat _ A A' _ u0 Hrun); [exact Hpt|].
    rewrite length_app. simpl. lia. }
  pose proof (faithful_take k A tr A' Hf) as Hf'.
  assert (Hok' : Forall (item_ok (len A)) (take k tr)) by now apply Forall_take.
  destruct (handle_all_ok ch (take k tr) A _ u0 Hf' Hok' Hsh0)
    as (I1 & I2 & I3 & I4 & I5 & I6 & I7 & I8).
  destruct (I4 eq_refl eq_refl) as [T1 T2].
  rewrite <- !fmap_take in *.
  change (fmap fst (take k tr)) with (map fst (take k tr)) in *.
  revert Hsb I1 I2 I3 I5 I6 I7 I8 T1 T2.
  generalize (handle_all ch (map fst (take k tr)) u0).
  intros u1 Hsb I1 I2 I3 I5 I6 I7 I8 T1 T2.
  destruct Hsb as (B1 & B2 & B3 & B4 & B5).
  destruct Hst as (S1 & S2 & S3 & S4 & S5 & S6 & S7 & S8 & S9).
  cbn in I2, I3.
  unfold playGenerator. fold u0. rewrite Hloop. cbv beta iota.
  cbn [stoppedByUser staircaseOn staircaseReverted staircasePrepared
       set_flags set_bars]. rewrite S3. cbn [negb andb].
  eexists. split; [reflexivity|].
  cbn [bars comparisons swaps comparisons_text swaps_text running paused
       stoppedByUser staircasePrepared spinner startStop_text pause_text
       button_start removeSpinner set_spinner set_prepared set_flags set_bars
       set_pause_text].
  rewrite B1, B2, B3, B4, B5.
  split; [exact I1|]. split; [lia|]. split; [lia|].
  split; [exact T1|]. split; [exact T2|].
  repeat (split; [reflexivity|]).
  split; [exact S4|].
  split; [exact I8|]. split; [exact I6|exact I7].
Qed.

(** X11.  A run nobody stops.  On an array in the generator's domain
    that the board shows, with the staircase override off and a user
    who does not click Stop and who, whenever they have paused the run,
    resumes it, playGenerator leaves the loop by the ["done"] step,
    however often Pause is clicked on the way: every bar is marked
    ["sorted"] (so [isSortedVisible] holds and [run] refuses to start
    again), the two statistics elements show the two counters, the
    flags are down, the spinner is gone and the button reads ["Start"];
    no bar is left ["compared"] or ["active"].  For the four comparison
    sorts the array is the generator's final array and the counters
    give the numbers of compare and of swap steps of the run; for the
    three that only swap, the board shows the array. *)
Theorem X11_play_complete (alg : algo) (A : list Q) (gfuel fuel : nat)
  (ch : Z) (usr : user) (u : ui) :
  in_domain alg A -> enough A gfuel ->
  shows (board_height ch) (bars u) A ->
  (length (steps_of (generator alg gfuel) A) < fuel)%nat ->
  staircaseOn u && negb (staircaseReverted u) && negb (staircasePrepared u)
    = false ->
  stop usr = NoStop -> (forall t, resumes usr t = true) ->
  exists u' A',
    playGenerator fuel ch usr (generator alg gfuel) A u = (u', A', Finished) /\
    (alg <> radix ->
     A' = final_of (generator alg gfuel) A /\
     comparisons u'
       = Z.of_nat (count_steps is_compare (steps_of (generator alg gfuel) A)) /\
     swaps u'
       = Z.of_nat (count_steps is_swap (steps_of (generator alg gfuel) A))) /\
    (alg <> radix -> alg <> merge -> shows (board_height ch) (bars u') A') /\
    all_marked "sorted"%string (bars u') /\
    isSortedVisible (bars u') = true /\
    comparisons_text u' = comparisons u' /\ swaps_text u' = swaps u' /\
    running u' = false /\ paused u' = false /\ stoppedByUser u' = false /\
    staircasePrepared u' = false /\ spinner u' = false /\
    startStop_text u' = "Start"%string /\
    (unmarked "compared"%string (bars u) -> unmarked "compared"%string (bars u')) /\
    (unmarked "active"%string (bars u) -> unmarked "active"%string (bars u')).
Proof.
  intros Hdom Hfuel Hsh Hlen Hov Hns Hres.
  destruct (playGenerator_complete alg A gfuel fuel ch usr u
              Hdom Hfuel Hsh Hlen Hov Hns Hres)
    as (u' & E & H1 & H2 & H3 & H4 & H5).
  exists u', (final_of (generator alg gfuel) A).
  split; [exact E|]. split; [intros _; auto|]. split; [intros _ _; exact H1|].
  split; [exact H2|].
  split; [now apply all_marked_isSortedVisible | exact H5].
Qed.

(** X11 on bubble sort of [0.75, 0.25, 0.5] on a board 400 pixels
    high, with a user who clicks Pause during every step and resumes. *)
Lemma X11_play_complete_witness :
  let A := [3 # 4; 1 # 4; 1 # 2]%Q in
  let u := Ui (renderArray 400 A) 7 7 7 7 false false false false false false
              false "Stop"%string ["danger"%string] "Pause"%string in
  let usr := User (fun _ => 1%nat) NoStop (fun _ => true) in
  in_domain bubble A /\ enough A 18 /\
  shows (board_height 400) (bars u) A /\
  (length (steps_of (generator bubble 18) A) < 20)%nat /\
  staircaseOn u && negb (staircaseReverted u) && negb (staircasePrepared u)
    = false /\
  stop usr = NoStop /\ (forall t, resumes usr t = true) /\
  exists u' A',
    playGenerator 20 400 usr (generator bubble 18) A u = (u', A', Finished) /\
    A' = [1 # 4; 1 # 2; 3 # 4]%Q /\
    map height (bars u') = [100; 200; 300] /\
    comparisons u' = 3 /\ swaps u' = 2.
Proof.
  intros A u usr.
  assert (H1 : in_domain bubble A) by exact I.
  assert (H2 : enough A 18) by (unfold enough; simpl; lia).
  assert (H3 : shows (board_height 400) (bars u) A) by (vm_compute; reflexivity).
  assert (H4 : (length (steps_of (generator bubble 18) A) < 20)%nat)
    by (vm_compute; lia).
  assert (H5 : staircaseOn u && negb (staircaseReverted u)
               && negb (staircasePrepared u) = false) by reflexivity.
  assert (H6 : stop usr = NoStop) by reflexivity.
  assert (H7 : forall t, resumes usr t = true) by reflexivity.
  split; [exact H1|]. split; [exact H2|]. split; [exact H3|].
  split; [exact H4|]. split; [exact H5|]. split; [exact H6|]. split; [exact H7|].
  destruct (X11_play_complete bubble A 18 20 400 usr u H1 H2 H3 H4 H5 H6 H7)
    as (u' & A' & E & HA & Hsh & _).
  assert (Hb : bubble <> radix) by discriminate.
  assert (Hm : bubble <> merge) by discriminate.
  destruct (HA Hb) as (HA' & Hc & Hw).
  exists u', A'. split; [exact E|].
  split; [rewrite HA'; vm_compute; reflexivity|].
  split; [rewrite (Hsh Hb Hm), HA'; vm_compute; reflexivity|].
  split; [rewrite Hc | rewrite Hw]; vm_compute; reflexivity.
Defined.

(** X12.  Stop, during one of the four comparison sorts.  When the
    user clicks Stop while step number [s] of the run is on show (a
    step before ["done"]), playGenerator leaves the loop before it
    pulls the next step: [s + 1] steps have been played.  When the user
    has paused the run during step number [s] and clicks Stop while the
    loop waits, the loop pulls and plays one step more before it sees
    that it is stopped: [s + 2] steps have been played, if step number
    [s + 1] is not the ["done"] step.  In both cases the array is the
    input with the [k] steps played replayed on it; the counters and
    the statistics elements count the compare and the swap steps among
    them; [stoppedByUser] is up, so [animateStaircase] is skipped
    whatever the staircase flags are; the spinner is gone, the buttons
    read ["Start"] and ["Pause"]; and no bar has been marked
    ["sorted"].  For the three sorts that only swap, the board shows
    the array. *)
Theorem X12_play_stopped (alg : algo) (A : list Q) (gfuel fuel : nat)
  (ch : Z) (usr : user) (u : ui) (s : nat) (late : bool) :
  let steps := steps_of (generator alg gfuel) A in
  let k := if late then S (S s) else S s in
  alg <> radix -> enough A gfuel ->
  shows (board_height ch) (bars u) A ->
  (length steps < fuel)%nat ->
  (forall t, resumes usr t = true) ->
  stop usr = (if late then WhilePaused (S s) else DuringStep s) ->
  (late = true -> Nat.odd (toggles usr s) = true) ->
  (k < length steps)%nat ->
  exists u',
    playGenerator fuel ch usr (generator alg gfuel) A u
      = (u', replay (take k steps) A, Stopped) /\
    (alg <> merge ->
     shows (board_height ch) (bars u') (replay (take k steps) A)) /\
    comparisons u' = Z.of_nat (count_steps is_compare (take k steps)) /\
    swaps u' = Z.of_nat (count_steps is_swap (take k steps)) /\
    comparisons_text u' = comparisons u' /\ swaps_text u' = swaps u' /\
    running u' = false /\ paused u' = false /\ stoppedByUser u' = true /\
    staircasePrepared u' = false /\ spinner u' = false /\
    startStop_text u' = "Start"%string /\ pause_text u' = "Pause"%string /\
    (unmarked "sorted"%string (bars u) -> unmarked "sorted"%string (bars u')) /\
    (unmarked "compared"%string (bars u) -> unmarked "compared"%string (bars u')) /\
    (unmarked "active"%string (bars u) -> unmarked "active"%string (bars u')).
Proof.
  intros steps k Halg Hfuel Hsh Hlen Hres Hstop Hodd Hk.
  assert (Hdom : in_domain alg A) by (destruct alg; cbn; auto; contradiction).
  destruct (playGenerator_stopped alg A gfuel fuel ch usr u s late
              Hdom Hfuel Hsh Hlen Hres Hstop Hodd Hk)
    as (u' & E & H1 & H2).
  exists u'. split; [exact E|]. split; [intros _; exact H1|]. exact H2.
Qed.

(** X12 on bubble sort of [0.75, 0.25, 0.5]: paused during the first
    step and stopped during the wait, the run plays the second step,
    the swap. *)
Lemma X12_play_stopped_witness :
  let A := [3 # 4; 1 # 4; 1 # 2]%Q in
  let u := Ui (renderArray 400 A) 0 0 0 0 false false false true false true
              false "Stop"%string ["danger"%string] "Pause"%string in
  let usr := User (fun t => if Nat.eqb t 0 then 1%nat else 0%nat)
                  (WhilePaused 1) (fun _ => true) in
  bubble <> radix /\ enough A 18 /\
  shows (board_height 400) (bars u) A /\
  (length (steps_of (generator bubble 18) A) < 20)%nat /\
  (forall t, resumes usr t = true) /\
  stop usr = WhilePaused 1 /\
  (true = true -> Nat.odd (toggles usr 0) = true) /\
  (2 < length (steps_of (generator bubble 18) A))%nat /\
  exists u',
    playGenerator 20 400 usr (generator bubble 18) A u
      = (u', [1 # 4; 3 # 4; 1 # 2]%Q, Stopped) /\
    comparisons u' = 1 /\ swaps u' = 1 /\ stoppedByUser u' = true /\
    map height (bars u') = [100; 300; 200].
Proof.
  intros A u usr.
  assert (H1 : bubble <> radix) by discriminate.
  assert (H2 : enough A 18) by (unfold enough; simpl; lia).
  assert (H3 : shows (board_height 400) (bars u) A) by (vm_compute; reflexivity).
  assert (H4 : (length (steps_of (generator bubble 18) A) < 20)%nat)
    by (vm_compute; lia).
  assert (H5 : forall t, resumes usr t = true) by reflexivity.
  assert (H6 : stop usr = WhilePaused 1) by reflexivity.
  assert (H7 : true = true -> Nat.odd (toggles usr 0) = true) by reflexivity.
  assert (H8 : (2 < length (steps_of (generator bubble 18) A))%nat)
    by (vm_compute; lia).
  split; [exact H1|]. split; [exact H2|]. split; [exact H3|].
  split; [exact H4|]. split; [exact H5|]. split; [exact H6|].
  split; [exact H7|]. split; [exact H8|].
  destruct (X12_play_stopped bubble A 18 20 400 usr u 0 true
              H1 H2 H3 H4 H5 H6 H7 H8)
    as (u' & E & Hsh & Hc & Hw & _ & _ & _ & _ & Hst & _).
  assert (Hm : bubble <> merge) by discriminate.
  exists u'. split; [exact E|].
  split; [rewrite Hc; vm_compute; reflexivity|].
  split; [rewrite Hw; vm_compute; reflexivity|]. split; [exact Hst|].
  rewrite (Hsh Hm). vm_compute. reflexivity.
Defined.


(** * The board: pixel heights *)

Lemma js_round_le x y : (x <= y)%Q -> js_round x <= js_round y.
Proof.
  intros H. unfold js_round. apply Qfloor_resp_le.
  now apply Qplus_le_compat; [|apply Qle_refl].
Qed.

Lemma hpx_le bh v w : 0 <= bh -> (v <= w)%Q -> hpx bh v <= hpx bh w.
Proof.
  intros Hb H. unfold hpx. apply Z.max_le_compat_l, js_round_le.
  apply Qmult_le_compat_r; [exact H|].
  change 0%Q with (inject_Z 0). now rewrite <- Zle_Qle.
Qed.

Lemma hpx_min bh v : 8 <= hpx bh v.
Proof. unfold hpx. lia. Qed.

Lemma js_round_inject_Z z : js_round (inject_Z z) = z.
Proof.
  unfold js_round. apply Z.le_antisymm.
  - apply Z.lt_succ_r. rewrite Zlt_Qlt.
    eapply Qle_lt_trans; [apply Qfloor_le|].
    rewrite <- Z.add_1_r, inject_Z_plus.
    apply Qplus_lt_r. reflexivity.
  - rewrite <- (Qfloor_Z z) at 1. apply Qfloor_resp_le.
    rewrite <- (Qplus_0_r (inject_Z z)) at 1.
    apply Qplus_le_r. discriminate.
Qed.

Lemma hpx_one bh : hpx bh 1 = Z.max 8 bh.
Proof.
  unfold hpx. rewrite <- (js_round_inject_Z bh) at 2. f_equal.
  unfold js_round. apply Qfloor_comp. now rewrite Qmult_1_l.
Qed.

Lemma hpx_small bh v : (v * inject_Z bh < 17 # 2)%Q -> hpx bh v = 8.
Proof.
  intros H. unfold hpx, js_round.
  assert (Qfloor (v * inject_Z bh + (1 # 2)) < 9); [|lia].
  apply Z.lt_nge. intros Hge.
  assert (Hq : (inject_Z 9 <= v * inject_Z bh + (1 # 2))%Q).
  { eapply Qle_trans; [|apply Qfloor_le]. now rewrite <- Zle_Qle. }
  assert (H2 : (v * inject_Z bh + (1 # 2) < (17 # 2) + (1 # 2))%Q)
    by now apply Qplus_lt_l.
  apply (Qlt_irrefl (inject_Z 9)).
  eapply Qle_lt_trans; [exact Hq|].
  eapply Qlt_le_trans; [exact H2|]. vm_compute. discriminate.
Qed.

Lemma heights_in_order_Sorted bh : forall A,
  0 <= bh -> Sorted Qle A -> heights_in_order (map (hpx bh) A) = true.
Proof.
  intros A Hb. induction A as [|x A IH]; intros Hs; [reflexivity|].
  inversion Hs as [|? ? Hs' Hhd]; subst.
  destruct A as [|y A]; [reflexivity|].
  cbn [map heights_in_order]. inversion Hhd; subst.
  destruct (Z.gtb_spec (hpx bh x) (hpx bh y)) as [Hgt|Hle].
  - pose proof (hpx_le bh x y Hb ltac:(assumption)). lia.
  - apply IH. exact Hs'.
Qed.

Lemma heights_in_order_const c : forall hs,
  Forall (fun h => h = c) hs -> heights_in_order hs = true.
Proof.
  induction hs as [|x hs IH]; intros H; [reflexivity|].
  inversion H as [|? ? Hx Hr]; subst.
  destruct hs as [|y hs]; [reflexivity|].
  cbn [heights_in_order]. inversion Hr; subst.
  rewrite Z.gtb_ltb, Z.ltb_irrefl. now apply IH.
Qed.

Lemma board_height_nonneg ch : 0 <= ch -> 0 < board_height ch.
Proof.
  intros H. unfold board_height. destruct (Z.eqb_spec ch 0); lia.
Qed.

Lemma hpx_low bh v : (v * inject_Z bh <= 8)%Q -> hpx bh v = 8.
Proof.
  intros H. apply hpx_small. eapply Qle_lt_trans; [exact H|]. reflexivity.
Qed.

Lemma heights_in_order_mono (px : Q -> Z) : forall A,
  (forall v w, (v <= w)%Q -> px v <= px w) ->
  Sorted Qle A -> heights_in_order (map px A) = true.
Proof.
  intros A Hpx. induction A as [|x A IH]; intros Hs; [reflexivity|].
  inversion Hs as [|? ? Hs' Hhd]; subst.
  destruct A as [|y A]; [reflexivity|].
  cbn [map heights_in_order]. inversion Hhd as [|? ? Hxy]; subst.
  destruct (Z.gtb_spec (px x) (px y)) as [Hgt|Hle].
  - pose proof (Hpx x y Hxy). lia.
  - apply IH. exact Hs'.
Qed.

(** X13.  [isSortedVisible] judges by the pixel heights of the bars.
    Let the height that the page gives to the bar of a value be any
    function [px] that is monotone and gives 8 pixels to every value
    [v] with [v * bh <= 8], as [Math.max(8, Math.round(v * bh))] is,
    whether the product is exact or rounded.  On a page whose bars have
    these heights for the array, [isSortedVisible] answers [true] for
    every array in non-decreasing order, and also, whatever their
    order, when all the values are that small; [run()] then returns at
    once, with page and array as they were: an array that is not in
    order is left as it is. *)
Theorem X13_isSortedVisible (px : Q -> Z) (bh : Z) (u : ui) (A : list Q)
  (fuel : nat) (ch : Z) (usr : user) (rnd : nat -> Q) (size : Z)
  (genCtor : option (gen unit)) :
  (forall v w, (v <= w)%Q -> px v <= px w) ->
  (forall v, (v * inject_Z bh <= 8)%Q -> px v = 8) ->
  map height (bars u) = map px A ->
  Sorted Qle A \/ Forall (fun v => (v * inject_Z bh <= 8)%Q) A ->
  isSortedVisible (bars u) = true /\
  run_page fuel ch usr rnd size genCtor A u = (u, A, AlreadySorted).
Proof.
  intros Hmono Hlow Hsh Hcase.
  assert (Hvis : isSortedVisible (bars u) = true).
  { unfold isSortedVisible. rewrite Hsh.
    destruct (forallb _ (bars u)); [reflexivity|].
    destruct Hcase as [Hs|Hs].
    - now apply heights_in_order_mono.
    - apply (heights_in_order_const 8). apply Forall_fmap.
      eapply Forall_impl; [exact Hs|]. intros v Hv. now apply Hlow. }
  split; [exact Hvis|]. unfold run_page. now rewrite Hvis.
Qed.

(** X13 on the board of [0.01, 0.005], 400 pixels high, with the
    heights of [hpx]: the array is not in order, both bars are 8 pixels
    high, and [run()] does not sort it. *)
Lemma X13_isSortedVisible_witness :
  let A := [1 # 100; 1 # 200]%Q in
  let u := Ui (renderArray 400 A) 0 0 0 0 false false false false false false
              false "Stop"%string ["danger"%string] "Pause"%string in
  (forall v w, (v <= w)%Q -> hpx 400 v <= hpx 400 w) /\
  (forall v, (v * inject_Z 400 <= 8)%Q -> hpx 400 v = 8) /\
  map height (bars u) = map (hpx 400) A /\
  (Sorted Qle A \/ Forall (fun v => (v * inject_Z 400 <= 8)%Q) A) /\
  ~ Sorted Qle A /\
  isSortedVisible (bars u) = true /\
  run_page 20 400 nobody (fun _ => 1 # 2) 2 (Some (generator bubble 18)) A u
    = (u, A, AlreadySorted).
Proof.
  intros A u.
  assert (H1 : forall v w, (v <= w)%Q -> hpx 400 v <= hpx 400 w).
  { intros v w. apply hpx_le. lia. }
  assert (H2 : forall v, (v * inject_Z 400 <= 8)%Q -> hpx 400 v = 8).
  { intros v. apply hpx_low. }
  assert (H3 : map height (bars u) = map (hpx 400) A) by (vm_compute; reflexivity).
  assert (H4 : Sorted Qle A \/ Forall (fun v => (v * inject_Z 400 <= 8)%Q) A).
  { right. repeat constructor; vm_compute; discriminate. }
  split; [exact H1|]. split; [exact H2|]. split; [exact H3|]. split; [exact H4|].
  split.
  - intros Hs. inversion Hs as [|? ? _ Hhd]; subst. inversion Hhd as [|? ? Hle]; subst.
    vm_compute in Hle. now apply Hle.
  - exact (X13_isSortedVisible (hpx 400) 400 u A 20 400 nobody (fun _ => 1 # 2)%Q 2
             (Some (generator bubble 18)) H1 H2 H3 H4).
Defined.

(** X14.  The bars of [renderArray] carry the class ["bar"] only, they
    are never lower than 8 pixels, and for values up to 1 never higher
    than the board (or than 8 pixels on a board lower than that). *)
Theorem X14_renderArray_fits (ch : Z) (A : list Q) :
  0 <= ch -> Forall (fun v => (v <= 1)%Q) A ->
  Forall (fun b => 8 <= height b <= Z.max 8 (board_height ch) /\
                   classList b = ["bar"%string]) (renderArray ch A).
Proof.
  intros Hch HA. pose proof (board_height_nonneg ch Hch) as Hb.
  unfold renderArray. apply Forall_fmap.
  eapply Forall_impl; [exact HA|]. intros v Hv. cbn.
  split; [|reflexivity]. split; [apply hpx_min|].
  rewrite <- hpx_one. apply hpx_le; [lia | exact Hv].
Qed.

(** X14 on [0.75, 0.25, 1] and a board 400 pixels high. *)
Lemma X14_renderArray_fits_witness :
  0 <= 400 /\ Forall (fun v => (v <= 1)%Q) [3 # 4; 1 # 4; 1]%Q /\
  Forall (fun b => 8 <= height b <= Z.max 8 (board_height 400) /\
                   classList b = ["bar"%string])
    (renderArray 400 [3 # 4; 1 # 4; 1]%Q).
Proof.
  assert (H1 : 0 <= 400) by lia.
  assert (H2 : Forall (fun v => (v <= 1)%Q) [3 # 4; 1 # 4; 1]%Q)
    by (repeat constructor; vm_compute; discriminate).
  split; [exact H1|]. split; [exact H2|].
  exact (X14_renderArray_fits 400 _ H1 H2).
Defined.

(** * animateStaircase *)

Lemma heights_setHeight ch i v bs :
  inb (len bs) i ->
  map height (setHeight ch i (Some v) bs)
    = <[Z.to_nat i := hpx (board_height ch) v]> (map height bs).
Proof.
  intros Hi. destruct (bar_at_inb bs i Hi) as [b Hb].
  unfold setHeight, with_bar. rewrite Hb. now rewrite map_insert.
Qed.

Lemma fold_stair_heights ch (v : Z -> Q) : forall (c m : nat) bs,
  (m + c)%nat = length bs ->
  map height
    (fold_left
       (fun bs i =>
          unmark i "active"%string
            (mark i "active"%string (setHeight ch i (Some (v i)) bs)))
       (seqZ (Z.of_nat m) (Z.of_nat c)) bs)
  = take m (map height bs)
    ++ map (fun i => hpx (board_height ch) (v i)) (seqZ (Z.of_nat m) (Z.of_nat c)).
Proof.
  induction c as [|c IH]; intros m bs Hlen.
  - simpl. rewrite app_nil_r, take_ge; [reflexivity|]. rewrite length_map. lia.
  - rewrite seqZ_cons by lia. cbn [fold_left map].
    replace (Z.succ (Z.of_nat m)) with (Z.of_nat (S m)) by lia.
    replace (Z.pred (Z.of_nat (S c))) with (Z.of_nat c) by lia.
    rewrite IH.
    2:{ rewrite length_unmark, length_mark.
        unfold setHeight. rewrite length_with_bar. lia. }
    rewrite heights_unmark, heights_mark, heights_setHeight
      by (unfold inb, len; lia).
    rewrite Nat2Z.id.
    rewrite (take_S_r _ _ (hpx (board_height ch) (v (Z.of_nat m)))).
    2:{ apply list_lookup_insert_eq. rewrite length_map. lia. }
    rewrite take_insert_ge by lia. now rewrite <- app_assoc.
Qed.

Lemma fold_stair_unactive ch (v : Z -> Q) : forall (c m : nat) bs,
  (m + c)%nat = length bs ->
  Forall (fun b => class_contains "active"%string (classList b) = false) (take m bs) ->
  Forall (fun b => class_contains "active"%string (classList b) = false)
    (fold_left
       (fun bs i =>
          unmark i "active"%string
            (mark i "active"%string (setHeight ch i (Some (v i)) bs)))
       (seqZ (Z.of_nat m) (Z.of_nat c)) bs).
Proof.
  induction c as [|c IH]; intros m bs Hlen Hm.
  - simpl. rewrite take_ge in Hm by lia. exact Hm.
  - rewrite seqZ_cons by lia. cbn [fold_left].
    replace (Z.succ (Z.of_nat m)) with (Z.of_nat (S m)) by lia.
    replace (Z.pred (Z.of_nat (S c))) with (Z.of_nat c) by lia.
    apply IH.
    { rewrite length_unmark, length_mark.
      unfold setHeight. rewrite length_with_bar. lia. }
    apply Forall_lookup. intros k b Hk.
    apply lookup_take_Some in Hk as [Hk Hlt].
    unfold unmark, mark, setHeight in Hk. rewrite !lookup_with_bar in Hk.
    rewrite Nat2Z.id in Hk.
    destruct (decide (k = m)) as [->|Hne].
    + rewrite bool_decide_eq_true_2 in Hk by lia.
      destruct (bs !! m) as [b0|]; [|discriminate].
      cbn [fmap option_fmap option_map] in Hk. injection Hk as <-.
      cbn [classList]. apply class_contains_remove.
    + rewrite bool_decide_eq_false_2 in Hk by lia.
      rewrite Forall_lookup in Hm. apply (Hm k).
      apply lookup_take_Some. split; [exact Hk | lia].
Qed.

Lemma staircase_Sorted n : 2 <= n -> Sorted Qle (staircase n).
Proof.
  intros Hn. unfold staircase.
  assert (Hgen : forall (c : nat) (m : Z),
            Sorted Qle (map (fun i => (inject_Z i / inject_Z (n - 1))%Q)
                          (seqZ m (Z.of_nat c)))).
  { induction c as [|c IH]; intros m; [constructor|].
    rewrite seqZ_cons by lia. cbn [map].
    replace (Z.pred (Z.of_nat (S c))) with (Z.of_nat c) by lia.
    constructor; [apply IH|].
    destruct c as [|c]; [constructor|].
    rewrite seqZ_cons by lia. cbn [map]. constructor.
    unfold Qdiv. apply Qmult_le_compat_r.
    - rewrite <- Zle_Qle. lia.
    - apply Qinv_le_0_compat. change 0%Q with (inject_Z 0).
      rewrite <- Zle_Qle. lia. }
  specialize (Hgen (Z.to_nat n) 0). now rewrite Z2Nat.id in Hgen by lia.
Qed.

Lemma hpx_zero bh v : (v == 0)%Q -> hpx bh v = 8.
Proof.
  intros Hv. apply hpx_low. rewrite Hv, Qmult_0_l. discriminate.
Qed.

Lemma hpx_unit bh v : (v == 1)%Q -> hpx bh v = Z.max 8 bh.
Proof.
  intros Hv. rewrite <- hpx_one. unfold hpx, js_round. f_equal.
  apply Qfloor_comp. now rewrite Hv.
Qed.

(** X15.  [animateStaircase] does nothing to a board of at most one
    bar: that bar is not even marked ["sorted"].  On a board of [n >= 2]
    bars, whatever the bars showed before, the heights end in
    non-decreasing order, from the 8 pixels of the first bar to the
    height of the board (or 8 pixels on a board lower than that) for
    the last; every bar is marked ["sorted"], and no bar is left
    ["active"]. *)
Theorem X15_animateStaircase (ch : Z) (bs : list bar) :
  0 <= ch ->
  (len bs <= 1 -> animateStaircase ch bs = bs) /\
  (2 <= len bs ->
   heights_in_order (map height (animateStaircase ch bs)) = true /\
   map height (animateStaircase ch bs) !! 0%nat = Some 8 /\
   map height (animateStaircase ch bs) !! Z.to_nat (len bs - 1)
     = Some (Z.max 8 (board_height ch)) /\
   length (animateStaircase ch bs) = length bs /\
   all_marked "sorted"%string (animateStaircase ch bs) /\
   unmarked "active"%string (animateStaircase ch bs)).
Proof.
  intros Hch. pose proof (board_height_nonneg ch Hch) as Hb.
  split; intros Hn.
  - unfold animateStaircase. destruct (Z.leb_spec (len bs) 1); [reflexivity | lia].
  - assert (Hh : map height (animateStaircase ch bs)
                 = map (hpx (board_height ch)) (staircase (len bs))).
    { unfold animateStaircase. destruct (Z.leb_spec (len bs) 1); [lia|].
      rewrite heights_mark_all.
      pose proof (fold_stair_heights ch
                    (fun i => (inject_Z i / inject_Z (len bs - 1))%Q)
                    (length bs) 0 bs eq_refl) as Hf.
      cbn [take app] in Hf. unfold len at 2. change (Z.of_nat 0) with 0 in Hf.
      rewrite Hf. unfold staircase. now rewrite map_map. }
    assert (Hne : ~ (inject_Z (len bs - 1) == 0)%Q).
    { intros H0.
      assert (Hp0 : (0 < inject_Z (len bs - 1))%Q).
      { change 0%Q with (inject_Z 0). rewrite <- Zlt_Qlt. lia. }
      rewrite H0 in Hp0. now apply Qlt_irrefl in Hp0. }
    split; [|split; [|split; [|split; [|split]]]].
    + rewrite Hh.
      apply heights_in_order_Sorted; [lia | now apply staircase_Sorted].
    + rewrite Hh. unfold staircase. rewrite !list_lookup_fmap.
      rewrite lookup_seqZ_lt by lia. cbn.
      f_equal. apply hpx_zero. unfold Qdiv. now rewrite Qmult_0_l.
    + rewrite Hh. unfold staircase. rewrite !list_lookup_fmap.
      rewrite lookup_seqZ_lt by lia. cbn.
      f_equal. apply hpx_unit. rewrite Z2Nat.id by lia.
      unfold Qdiv. rewrite Z.add_0_l. now apply Qmult_inv_r.
    + apply (f_equal (@length Z)) in Hh.
      rewrite !length_map in Hh. rewrite Hh.
      unfold staircase. rewrite length_map, length_seqZ. unfold len. lia.
    + unfold animateStaircase. destruct (Z.leb_spec (len bs) 1); [lia|].
      apply mark_all_marked.
    + unfold animateStaircase. destruct (Z.leb_spec (len bs) 1); [lia|].
      unfold unmarked, mark_all.
      assert (Hy : Forall (fun b => class_contains "active"%string (classList b) = false)
                     (fold_left
                        (fun bs0 i =>
                           unmark i "active"%string
                             (mark i "active"%string
                                (setHeight ch i
                                   (Some (inject_Z i / inject_Z (len bs - 1))%Q) bs0)))
                        (seqZ 0 (len bs)) bs)).
      { apply (fold_stair_unactive ch
                 (fun i => (inject_Z i / inject_Z (len bs - 1))%Q)
                 (length bs) 0 bs eq_refl). constructor. }
      revert Hy.
      match goal with
      | |- Forall _ ?y -> Forall _ (fold_left _ (seqZ 0 (len ?x)) ?y) =>
          generalize (seqZ 0 (len x)); generalize y
      end.
      intros cs ks. revert cs.
      induction ks as [|k ks IH]; intros cs Hc; [exact Hc|].
      cbn [fold_left]. apply IH. keep_class "active"%string. exact Hc.
Qed.

(** X15 on the board of [0.75, 0.25, 0.5], 400 pixels high, and on a
    board of one bar. *)
Lemma X15_animateStaircase_witness :
  let bs := renderArray 400 [3 # 4; 1 # 4; 1 # 2]%Q in
  0 <= 400 /\ 2 <= len bs /\
  map height bs = [300; 100; 200] /\
  heights_in_order (map height (animateStaircase 400 bs)) = true /\
  map height (animateStaircase 400 bs) !! 0%nat = Some 8 /\
  map height (animateStaircase 400 bs) !! 2%nat = Some 400 /\
  animateStaircase 400 (renderArray 400 [3 # 4]%Q) = renderArray 400 [3 # 4]%Q.
Proof.
  intros bs.
  assert (H1 : 0 <= 400) by lia.
  assert (H2 : 2 <= len bs) by (vm_compute; discriminate).
  split; [exact H1|]. split; [exact H2|]. split; [vm_compute; reflexivity|].
  destruct (X15_animateStaircase 400 bs H1) as [_ H3].
  destruct (X15_animateStaircase 400 (renderArray 400 [3 # 4]%Q) H1) as [H4 _].
  destruct (H3 H2) as (Ho & Hf & Hl & _).
  split; [exact Ho|]. split; [exact Hf|]. split; [exact Hl|].
  apply H4. vm_compute. discriminate.
Defined.

(** * staircaseArray *)

Lemma shuffle_run rnd : forall (i t : nat) a,
  (forall k, (0 <= rnd k)%Q /\ (rnd k < 1)%Q) ->
  (i < length a)%nat ->
  exists a',
    run (shuffle rnd t i) a = ([], a', Returned tt) /\
    Permutation a a' /\ length a' = length a.
Proof.
  induction i as [|i IH]; intros t a Hr Hi.
  - exists a. cbn [shuffle run]. auto.
  - cbn [shuffle]. rewrite run_bind.
    set (j := Qfloor (rnd t * inject_Z (Z.of_nat (S i) + 1))).
    assert (Hj : 0 <= j <= Z.of_nat (S i)).
    { destruct (Hr t) as [H0 H1]. unfold j. split.
      - change 0 with (Qfloor 0). apply Qfloor_resp_le.
        apply Qmult_le_0_compat; [exact H0|].
        change 0%Q with (inject_Z 0). rewrite <- Zle_Qle. lia.
      - apply Z.lt_succ_r. rewrite <- Z.add_1_r.
        rewrite Zlt_Qlt. eapply Qle_lt_trans; [apply Qfloor_le|].
        rewrite <- (Qmult_1_l (inject_Z (Z.of_nat (S i) + 1))) at 2.
        apply Qmult_lt_compat_r; [|exact H1].
        change 0%Q with (inject_Z 0). rewrite <- Zlt_Qlt. lia. }
    assert (Ii : inb (len a) (Z.of_nat (S i))) by (unfold inb, len; lia).
    assert (Ij : inb (len a) j) by (unfold inb, len; lia).
    rewrite (run_swap_ _ _ a Ii Ij). cbv beta iota.
    destruct (IH (S t) (exchange a (Z.of_nat (S i)) j) Hr) as (a' & Hrun & Hp & Hl).
    { pose proof (len_exchange a (Z.of_nat (S i)) j) as He. unfold len in He. lia. }
    exists a'. rewrite Hrun. split; [reflexivity|]. split.
    + etransitivity; [|exact Hp]. now apply exchange_Permutation.
    + rewrite Hl. pose proof (len_exchange a (Z.of_nat (S i)) j) as He.
      unfold len in He. lia.
Qed.

Lemma staircase_range n : 2 <= n ->
  Forall (fun x => (0 <= x)%Q /\ (x <= 1)%Q) (staircase n).
Proof.
  intros Hn. unfold staircase. apply Forall_fmap, Forall_forall.
  intros i Hi. apply elem_of_seqZ in Hi. cbn.
  assert (Hp : (0 < inject_Z (n - 1))%Q).
  { change 0%Q with (inject_Z 0). rewrite <- Zlt_Qlt. lia. }
  split.
  - apply Qle_shift_div_l; [exact Hp|]. rewrite Qmult_0_l.
    change 0%Q with (inject_Z 0). rewrite <- Zle_Qle. lia.
  - apply Qle_shift_div_r; [exact Hp|]. rewrite Qmult_1_l.
    rewrite <- Zle_Qle. lia.
Qed.

(** X16.  [staircaseArray(n)] is [[0]] for every [n <= 1], also for
    [n = 0] and negative [n].  For [n >= 2], [Math.random] returning
    values in [0,1), every index the shuffle picks is inside the array,
    and the result is a rearrangement of the [n] values [i / (n - 1)]:
    all of them lie between 0 and 1 and the value 1 is among them, so
    the array is outside the range [0,1) that radixGen documents. *)
Theorem X16_staircaseArray (rnd : nat -> Q) (n : Z) :
  (forall k, (0 <= rnd k)%Q /\ (rnd k < 1)%Q) ->
  (n <= 1 -> staircaseArray rnd n = Returned [0%Q]) /\
  (2 <= n ->
   exists arr,
     staircaseArray rnd n = Returned arr /\
     Permutation (staircase n) arr /\ len arr = n /\
     Forall (fun x => (0 <= x)%Q /\ (x <= 1)%Q) arr /\
     Exists (fun x => (x == 1)%Q) arr /\
     ~ in_domain radix arr).
Proof.
  intros Hr. unfold staircaseArray. split; intros Hn.
  - destruct (Z.leb_spec n 1); [reflexivity | lia].
  - destruct (Z.leb_spec n 1); [lia|].
    assert (Hlen : length (staircase n) = Z.to_nat n).
    { unfold staircase. now rewrite length_map, length_seqZ. }
    destruct (shuffle_run rnd (Z.to_nat (n - 1)) 0 (staircase n) Hr)
      as (arr & Hrun & Hp & Hl); [lia|].
    rewrite Hrun. exists arr. split; [reflexivity|]. split; [exact Hp|].
    split; [unfold len; lia|].
    assert (Hrange : Forall (fun x => (0 <= x)%Q /\ (x <= 1)%Q) arr).
    { rewrite Forall_forall. intros x Hx.
      pose proof (staircase_range n Hn) as Hs. rewrite Forall_forall in Hs.
      apply Hs. apply list_elem_of_In. eapply Permutation_in; [symmetry; exact Hp|].
      now apply list_elem_of_In. }
    assert (Hone : Exists (fun x => (x == 1)%Q) arr).
    { apply Exists_exists.
      exists (inject_Z (n - 1) / inject_Z (n - 1))%Q. split.
      - apply list_elem_of_In. eapply Permutation_in; [exact Hp|].
        unfold staircase. apply in_map_iff. exists (n - 1). split; [reflexivity|].
        apply list_elem_of_In, elem_of_seqZ. lia.
      - unfold Qdiv. apply Qmult_inv_r. intros H0.
        assert (Hp0 : (0 < inject_Z (n - 1))%Q).
        { change 0%Q with (inject_Z 0). rewrite <- Zlt_Qlt. lia. }
        rewrite H0 in Hp0. now apply Qlt_irrefl in Hp0. }
    split; [exact Hrange|]. split; [exact Hone|].
    intros Hdom. cbn [in_domain] in Hdom.
    apply Exists_exists in Hone as (x & Hx & Hx1).
    rewrite Forall_forall in Hdom. destruct (Hdom x Hx) as [_ Hlt].
    rewrite Hx1 in Hlt. now apply Qlt_irrefl in Hlt.
Qed.

(** X16 on [n = 3], [Math.random] returning 0.5 each time. *)
Lemma X16_staircaseArray_witness :
  (forall k : nat, (0 <= (fun _ => 1 # 2) k)%Q /\ ((fun _ => 1 # 2) k < 1)%Q) /\
  staircaseArray (fun _ => 1 # 2) 0 = Returned [0%Q] /\
  exists arr,
    staircaseArray (fun _ => 1 # 2) 3 = Returned arr /\
    Permutation (staircase 3) arr /\ ~ in_domain radix arr.
Proof.
  assert (H1 : forall k : nat,
            (0 <= (fun _ => 1 # 2) k)%Q /\ ((fun _ => 1 # 2) k < 1)%Q).
  { intros k. split; [vm_compute; discriminate | vm_compute; reflexivity]. }
  split; [exact H1|].
  destruct (X16_staircaseArray (fun _ => 1 # 2)%Q 0 H1) as [H2 _].
  destruct (X16_staircaseArray (fun _ => 1 # 2)%Q 3 H1) as [_ H3].
  split; [apply H2; lia|].
  destruct H3 as (arr & E & Hp & _ & _ & _ & Hd); [lia|].
  exists arr. auto.
Defined.

(** * playGenerator when the generator throws *)

Lemma play_trace_fault ch usr : forall tr t a a' u v (o : outcome unit),
  stop usr = NoStop -> (forall k, resumes usr k = true) ->
  faithful a tr a' -> Forall (item_ok (len a)) tr ->
  shows (board_height ch) (bars v) a -> same_board v u -> running u = true ->
  (forall r, o <> Returned r) ->
  exists u_end,
    play_trace ch usr t tr o a' a u = (u_end, a', Threw) /\
    same_board (handle_all ch (map fst tr) v) u_end /\
    keeps_run u u_end.
Proof.
  intros tr t a a' u v o Hns Hres. revert t a u v.
  induction tr as [|[s b] tr IH]; intros t a u v Hf Hok Hsh Hsb Hr Ho.
  - assert (Hst : stop usr <> WhilePaused t) by (rewrite Hns; discriminate).
    destruct (top_of_loop usr t u (Hres t) Hst) as (uw & Hw & Hb1 & Hk1 & _).
    exists uw. cbn [play_trace map handle_all fold_left].
    rewrite Hr. cbn [negb]. rewrite Hw.
    split; [|split; [eapply same_board_trans; eauto | exact Hk1]].
    destruct o as [r| | |]; [now destruct (Ho r) | reflexivity ..].
  - destruct Hf as [Hb Hf]. inversion Hok as [|? ? Hit Hok']; subst.
    destruct Hit as (Hs & Hlen & Hnd). simpl in Hs, Hlen, Hnd.
    assert (Hst : stop usr <> WhilePaused t) by (rewrite Hns; discriminate).
    destruct (turn ch usr t s (replay1 s a) tr o a' a u v
                Hs Hnd Hsh Hsb Hr (Hres t) Hst)
      as (uw & u1 & Hk1 & _ & Hk2 & _ & Hsb1 & Hsh1 & E).
    rewrite E.
    assert (Hd : during usr t u1 = Nat.iter (toggles usr t) pause_click u1).
    { unfold during. now rewrite Hns. }
    rewrite <- Hlen in Hok'.
    destruct (IH (S t) (replay1 s a) (during usr t u1) (handle ch s v).1
                Hf Hok' Hsh1) as (u_end & E2 & Hsb2 & Hk3); [| |exact Ho|].
    { eapply same_board_trans; [exact Hsb1 | apply during_board]. }
    { rewrite Hd. destruct (iter_pause_keeps (toggles usr t) u1) as (-> & _).
      destruct Hk2 as (-> & _). exact Hr. }
    exists u_end. split; [exact E2|]. split; [exact Hsb2|].
    eapply keeps_run_trans; [exact Hk2|].
    eapply keeps_run_trans; [|exact Hk3]. rewrite Hd. apply iter_pause_keeps.
Qed.

Lemma compares1_trace (A : list Q) : forall (m : nat) (i : Z),
  0 <= i -> i + Z.of_nat m <= len A ->
  faithful A (map (fun s => (s, A)) (compares1_from i m)) A /\
  Forall (item_ok (len A)) (map (fun s => (s, A)) (compares1_from i m)).
Proof.
  induction m as [|m IH]; intros i H0 Hm; cbn [compares1_from map faithful].
  - split; [reflexivity | constructor].
  - destruct (IH (i + 1)) as [F1 F2]; [lia | lia |]. split.
    + split; [reflexivity | exact F1].
    + constructor; [|exact F2]. unfold item_ok, inb. cbn. repeat split; lia.
Qed.

(** X17.  A generator that throws leaves the page running.  When
    radixGen meets a negative element as in X7, and the user does not
    click Stop and resumes whenever they have paused, the promise of
    playGenerator is rejected inside the loop and the code after the
    loop is not run: [running] stays up, the spinner stays in the
    button and the button keeps its text; the counter of comparisons
    stands at the number of slots read up to the negative one, no swap
    is counted, and the array and the heights of the bars are as before
    the run. *)
Theorem X17_play_radix_negative (A1 A2 : list Q) (x : Q) (v : Z)
  (gfuel fuel : nat) (ch : Z) (usr : user) (u : ui) :
  Forall (fun y => (0 <= y)%Q /\ (y <= inject_Z (10 ^ 300))%Q) A1 ->
  scales_to x v -> - 10 ^ 15 <= v -> Z.rem v 10 < 0 ->
  Exists (fun y => (1 # 1000 <= y)%Q) (A1 ++ x :: A2) ->
  (length A1 + 2 <= gfuel)%nat ->
  (length A1 + 1 < fuel)%nat ->
  shows (board_height ch) (bars u) (A1 ++ x :: A2) ->
  stop usr = NoStop -> (forall t, resumes usr t = true) ->
  exists u',
    playGenerator fuel ch usr (radixGen gfuel) (A1 ++ x :: A2) u
      = (u', A1 ++ x :: A2, Threw) /\
    running u' = true /\ spinner u' = true /\ stoppedByUser u' = false /\
    startStop_text u' = startStop_text u /\
    comparisons u' = Z.of_nat (length A1) + 1 /\ swaps u' = 0 /\
    comparisons_text u' = comparisons u' /\ swaps_text u' = swaps u' /\
    map height (bars u') = map height (bars u).
Proof.
  intros HA1 Hxv Hv Hrem Hex Hgf Hfuel Hsh Hns Hres. set (A := A1 ++ x :: A2) in *.
  assert (Hrun : run (radixGen gfuel) A
                 = (map (fun s => (s, A)) (compares1_from 0 (S (length A1))),
                    A, TypeError)).
  { apply radixGen_negative_run; [| | |exact Hgf].
    - eapply Forall_impl; [exact HA1|]. simpl. intros y [Hy _].
      apply Z.rem_nonneg; [lia|]. now apply scale_floor_nonneg.
    - now rewrite (scales_to_floor x v Hxv).
    - eapply Exists_impl; [exact Hex|]. simpl. intros y Hy.
      now apply scale_floor_atleast. }
  destruct (compares1_trace A (S (length A1)) 0) as [Hf Hok]; [lia | |].
  { unfold A, len. rewrite length_app. simpl. lia. }
  set (tr := map (fun s => (s, A)) (compares1_from 0 (S (length A1)))) in *.
  set (u0 := addSpinner (setStats (set_counters 0 0 (set_flags true false false u)))).
  assert (Hsh0 : shows (board_height ch) (bars u0) A) by exact Hsh.
  assert (Hr0 : running u0 = true) by reflexivity.
  destruct (play_trace_fault ch usr tr 0%nat A A u0 u0 TypeError
              Hns Hres Hf Hok Hsh0 (same_board_refl u0) Hr0)
    as (ue & Hpt & Hsb & Hk); [discriminate|].
  assert (Hloop : play_loop fuel ch usr 0 (radixGen gfuel) A u0 = (ue, A, Threw)).
  { rewrite (play_loop_trace ch usr _ fuel 0%nat _ A A _ u0 Hrun); [exact Hpt|].
    unfold tr. rewrite length_map.
    assert (Hl : forall m i, length (compares1_from i m) = m).
    { induction m as [|m IHm]; intros i; simpl; [reflexivity|]. now rewrite IHm. }
    rewrite Hl. lia. }
  destruct (handle_all_ok ch tr A A u0 Hf Hok Hsh0)
    as (I1 & I2 & I3 & I4 & _).
  destruct (I4 eq_refl eq_refl) as [T1 T2].
  assert (Hst : map fst tr = compares1_from 0 (S (length A1))).
  { unfold tr. rewrite map_map. cbn [fst]. apply map_id. }
  rewrite Hst in *.
  destruct (count_compares1_from 0 (S (length A1))) as [Hc _].
  assert (Hw : count_steps is_swap (compares1_from 0 (S (length A1))) = 0%nat).
  { generalize 0. generalize (S (length A1)).
    induction n as [|n IHn]; intros i; [reflexivity|].
    cbn [compares1_from]. rewrite count_steps_cons. cbn [is_swap]. apply IHn. }
  rewrite Hc in I2. rewrite Hw in I3.
  revert Hsb I1 I2 I3 T1 T2.
  generalize (handle_all ch (compares1_from 0 (S (length A1))) u0).
  intros u1 Hsb I1 I2 I3 T1 T2.
  destruct Hsb as (B1 & B2 & B3 & B4 & B5).
  destruct Hk as (K1 & K2 & K3 & K4 & K5 & K6 & K7 & K8).
  cbn in K1, K2, K6, K7, I2, I3.
  unfold playGenerator. fold u0. rewrite Hloop. cbv beta iota.
  exists ue. split; [reflexivity|].
  split; [exact K1|]. split; [exact K6|]. split; [exact K2|].
  split; [exact K7|]. rewrite B1, B2, B3, B4, B5.
  split; [lia|]. split; [lia|].
  split; [exact T1|]. split; [exact T2|].
  unfold shows in *. cbn [bars] in Hsh0. now rewrite I1, Hsh.
Qed.

(** X17 on [0.5, -0.1235] and a board 400 pixels high. *)
Lemma X17_play_radix_negative_witness :
  let A1 := [1 # 2]%Q in
  let x := (- 1235 # 10000)%Q in
  let u := Ui (renderArray 400 (A1 ++ [x])) 0 0 0 0 false false false false
              false false false "Stop"%string ["danger"%string] "Pause"%string in
  Forall (fun y => (0 <= y)%Q /\ (y <= inject_Z (10 ^ 300))%Q) A1 /\
  scales_to x (- 124) /\ - 10 ^ 15 <= - 124 /\ Z.rem (- 124) 10 < 0 /\
  Exists (fun y => (1 # 1000 <= y)%Q) (A1 ++ x :: []) /\
  (length A1 + 2 <= 3)%nat /\ (length A1 + 1 < 3)%nat /\
  shows (board_height 400) (bars u) (A1 ++ x :: []) /\
  stop nobody = NoStop /\ (forall t, resumes nobody t = true) /\
  exists u',
    playGenerator 3 400 nobody (radixGen 3) (A1 ++ x :: []) u
      = (u', A1 ++ x :: [], Threw) /\
    running u' = true /\ spinner u' = true /\ comparisons u' = 2.
Proof.
  intros A1 x u.
  assert (H1 : Forall (fun y => (0 <= y)%Q /\ (y <= inject_Z (10 ^ 300))%Q) A1).
  { repeat constructor; vm_compute; discriminate. }
  assert (H2 : scales_to x (- 124)) by (split; vm_compute; discriminate).
  assert (H2' : - 10 ^ 15 <= - 124) by (vm_compute; discriminate).
  assert (H2'' : Z.rem (- 124) 10 < 0) by (vm_compute; reflexivity).
  assert (H3 : Exists (fun y => (1 # 1000 <= y)%Q) (A1 ++ x :: [])).
  { apply Exists_cons_hd. vm_compute. discriminate. }
  assert (H4 : (length A1 + 2 <= 3)%nat) by (simpl; lia).
  assert (H5 : (length A1 + 1 < 3)%nat) by (simpl; lia).
  assert (H6 : shows (board_height 400) (bars u) (A1 ++ x :: []))
    by (vm_compute; reflexivity).
  assert (H7 : stop nobody = NoStop) by reflexivity.
  assert (H8 : forall t, resumes nobody t = true) by reflexivity.
  split; [exact H1|]. split; [exact H2|]. split; [exact H2'|].
  split; [exact H2''|]. split; [exact H3|].
  split; [exact H4|]. split; [exact H5|]. split; [exact H6|].
  split; [exact H7|]. split; [exact H8|].
  destruct (X17_play_radix_negative A1 [] x (- 124) 3 3 400 nobody u
              H1 H2 H2' H2'' H3 H4 H5 H6 H7 H8)
    as (u' & E & R & S & _ & _ & C & _).
  exists u'. auto.
Defined.

(** * randomArray *)

(** X20.  [randomArray(n)] with [Math.random] returning values in
    [0,1): the array has [n] elements (none for a negative [n]), it is
    in the domain of each of the five generators, so that each of them
    runs to its end on it, and none of its bars is lower than 8 pixels
    or higher than the board (than 8 pixels on a board lower than
    that). *)
Theorem X20_randomArray (rnd : nat -> Q) (n : Z) (alg : algo) (ch : Z)
  (fuel : nat) :
  (forall k, (0 <= rnd k)%Q /\ (rnd k < 1)%Q) -> 0 <= ch ->
  enough (randomArray rnd n) fuel ->
  len (randomArray rnd n) = Z.max 0 n /\
  in_domain alg (randomArray rnd n) /\
  outcome_of (generator alg fuel) (randomArray rnd n) = Returned tt /\
  Forall (fun b => 8 <= height b <= Z.max 8 (board_height ch))
    (renderArray ch (randomArray rnd n)).
Proof.
  intros Hr Hch Hfuel. pose proof (board_height_nonneg ch Hch) as Hb.
  assert (Hall : Forall (fun x => (0 <= x)%Q /\ (x < 1)%Q) (randomArray rnd n)).
  { unfold randomArray. apply Forall_fmap, Forall_forall. intros k _. apply Hr. }
  assert (Hdom : in_domain alg (randomArray rnd n)).
  { destruct alg; cbn [in_domain]; auto. }
  split; [|split; [exact Hdom|split]].
  - unfold randomArray, len. rewrite length_map, length_seq. lia.
  - destruct (generator_run alg _ fuel Hdom Hfuel) as (tr & A' & Hrun & _).
    unfold outcome_of. now rewrite Hrun.
  - unfold renderArray. apply Forall_fmap.
    eapply Forall_impl; [exact Hall|]. intros v [Hv0 Hv1]. cbn.
    split; [apply hpx_min|]. rewrite <- hpx_one.
    apply hpx_le; [lia | now apply Qlt_le_weak].
Qed.

(** X20 on three calls of [Math.random] that return 0.5. *)
Lemma X20_randomArray_witness :
  (forall k : nat, (0 <= (fun _ => 1 # 2) k)%Q /\ ((fun _ => 1 # 2) k < 1)%Q) /\
  0 <= 400 /\ enough (randomArray (fun _ => 1 # 2) 3) 18 /\
  randomArray (fun _ => 1 # 2) 3 = [1 # 2; 1 # 2; 1 # 2]%Q /\
  outcome_of (generator radix 18) (randomArray (fun _ => 1 # 2) 3) = Returned tt.
Proof.
  assert (H1 : forall k : nat,
            (0 <= (fun _ => 1 # 2) k)%Q /\ ((fun _ => 1 # 2) k < 1)%Q).
  { intros k. split; [vm_compute; discriminate | vm_compute; reflexivity]. }
  assert (H2 : 0 <= 400) by lia.
  assert (H3 : enough (randomArray (fun _ => 1 # 2) 3) 18)
    by (unfold enough; simpl; lia).
  split; [exact H1|]. split; [exact H2|]. split; [exact H3|].
  split; [reflexivity|].
  exact (proj1 (proj2 (proj2
    (X20_randomArray (fun _ => 1 # 2)%Q 3 radix 400 18 H1 H2 H3)))).
Defined.


(** * run *)

(** Two arrangements of the same values, one in non-decreasing and one
    in strictly increasing order, are the same list. *)
Lemma sorted_unique : forall l1 l2 : list Q,
  StronglySorted Qle l1 -> StronglySorted Qlt l2 -> Permutation l1 l2 ->
  l1 = l2.
Proof.
  induction l1 as [|x l1 IH]; intros l2 H1 H2 HP.
  - apply Permutation_nil in HP. now subst.
  - destruct l2 as [|y l2].
    { symmetry in HP. apply Permutation_nil in HP. discriminate. }
    inversion H1 as [|? ? H1' F1]; subst. inversion H2 as [|? ? H2' F2]; subst.
    assert (Hx : In x (y :: l2)) by (eapply Permutation_in; [exact HP | now left]).
    assert (Hy : In y (x :: l1))
      by (eapply Permutation_in; [symmetry; exact HP | now left]).
    assert (E : y = x).
    { destruct Hx as [E|Hx]; [exact E|]. exfalso.
      assert (Hlt : (y < x)%Q).
      { rewrite Forall_forall in F2. apply F2. now apply list_elem_of_In. }
      destruct Hy as [E|Hy]; [subst; now apply Qlt_irrefl in Hlt|].
      assert (Hle : (x <= y)%Q).
      { rewrite Forall_forall in F1. apply F1. now apply list_elem_of_In. }
      eapply Qlt_not_le; eauto. }
    subst y. f_equal. apply IH; auto. eapply Permutation_cons_inv; eauto.
Qed.

Lemma staircase_strict n : 2 <= n -> StronglySorted Qlt (staircase n).
Proof.
  intros Hn. unfold staircase.
  assert (Hp : (0 < / inject_Z (n - 1))%Q).
  { apply Qinv_lt_0_compat. change 0%Q with (inject_Z 0).
    rewrite <- Zlt_Qlt. lia. }
  assert (Hgen : forall (c : nat) (m : Z),
            StronglySorted Qlt
              (map (fun i => (inject_Z i / inject_Z (n - 1))%Q)
                 (seqZ m (Z.of_nat c)))).
  { induction c as [|c IH]; intros m; [constructor|].
    rewrite seqZ_cons by lia. cbn [map].
    replace (Z.pred (Z.of_nat (S c))) with (Z.of_nat c) by lia.
    constructor; [apply IH|].
    apply Forall_fmap, Forall_forall. intros k Hk.
    apply elem_of_seqZ in Hk. cbn. unfold Qdiv.
    apply Qmult_lt_compat_r; [exact Hp|]. rewrite <- Zlt_Qlt. lia. }
  specialize (Hgen (Z.to_nat n) 0). now rewrite Z2Nat.id in Hgen by lia.
Qed.

(** The four comparison sorts leave the array in order, a permutation
    of the input. *)
Lemma generator_sorts alg (A : list Q) (fuel : nat) :
  alg <> radix -> enough A fuel ->
  Sorted Qle (final_of (generator alg fuel) A) /\
  Permutation A (final_of (generator alg fuel) A).
Proof.
  intros Halg Hfuel. unfold enough in Hfuel. unfold final_of.
  destruct alg; cbn [generator]; [| | | |contradiction].
  - destruct (bubbleGen_run A fuel) as (tr & A' & -> & _ & _ & _ & HP & Hs); [lia|].
    cbn. split; [|exact HP]. apply sorted_on_Sorted.
    now rewrite <- (Permutation_len _ _ HP).
  - destruct (quickGen_run A fuel) as (tr & A' & -> & _ & _ & _ & HP & Hs); [lia|].
    cbn. split; [|exact HP]. apply sorted_on_Sorted.
    now rewrite <- (Permutation_len _ _ HP).
  - destruct (mergeGen_run A fuel) as (tr & A' & -> & _ & _ & _ & HP & Hs); [lia|].
    cbn. auto.
  - destruct (heapGen_run A fuel) as (tr & A' & -> & _ & _ & _ & HP & Hs); [lia|].
    cbn. split; [|exact HP]. apply sorted_on_Sorted.
    now rewrite <- (Permutation_len _ _ HP).
Qed.

Lemma staircaseArray_shuffled rnd n :
  (forall k, (0 <= rnd k)%Q /\ (rnd k < 1)%Q) -> 2 <= n ->
  exists arr,
    staircaseArray rnd n = Returned arr /\
    Permutation (staircase n) arr /\ length arr = Z.to_nat n.
Proof.
  intros Hr Hn. unfold staircaseArray. destruct (Z.leb_spec n 1); [lia|].
  assert (Hlen : length (staircase n) = Z.to_nat n).
  { unfold staircase. now rewrite length_map, length_seqZ. }
  destruct (shuffle_run rnd (Z.to_nat (n - 1)) 0 (staircase n) Hr)
    as (arr & Hrun & Hp & Hl); [lia|].
  rewrite Hrun. exists arr. split; [reflexivity|]. split; [exact Hp | lia].
Qed.

Lemma isSortedVisible_false_two bs : isSortedVisible bs = false -> 2 <= len bs.
Proof.
  unfold isSortedVisible, len. destruct bs as [|b [|b' bs]]; cbn.
  - discriminate.
  - destruct (class_contains _ _); discriminate.
  - lia.
Qed.

(** X21.  Staircase mode.  With the staircase switch on, [run()]
    throws the array away: on a board that it does not take for sorted
    (which has at least two bars) it takes a shuffled staircase of as
    many values as there are bars, renders it and plays the generator
    on it.  With [Math.random] in [0,1), one of the four comparison
    sorts, and a user who does not click Stop and resumes whenever they
    have paused, the array ends as the staircase [0, 1/(n-1), ..., 1]
    itself, whatever the shuffle was; the heights of the bars are in
    non-decreasing order, every bar is marked ["sorted"], and
    [staircasePrepared] is down again.  The loop of the model needs
    fuel beyond the number of steps of the run. *)
Theorem X21_run_staircase (alg : algo) (rnd : nat -> Q) (size : Z)
  (array : list Q) (gfuel : nat) (ch : Z) (usr : user) (u : ui) :
  (forall k, (0 <= rnd k)%Q /\ (rnd k < 1)%Q) -> 0 <= ch ->
  alg <> radix -> staircaseOn u = true -> isSortedVisible (bars u) = false ->
  (2 * length (bars u) + 12 <= gfuel)%nat ->
  stop usr = NoStop -> (forall t, resumes usr t = true) ->
  2 <= len (bars u) /\
  exists N : nat, forall fuel, (N < fuel)%nat ->
    exists u',
      run_page fuel ch usr rnd size (Some (generator alg gfuel)) array u
        = (u', staircase (len (bars u)), Played Finished) /\
      length (bars u') = length (bars u) /\
      heights_in_order (map height (bars u')) = true /\
      all_marked "sorted"%string (bars u') /\
      running u' = false /\ stoppedByUser u' = false /\
      staircasePrepared u' = false /\ spinner u' = false.
Proof.
  intros Hr Hch Halg Hon Hvis Hgf Hns Hres.
  pose proof (isSortedVisible_false_two _ Hvis) as Hn. split; [exact Hn|].
  set (n := len (bars u)) in *.
  assert (Hnz : (n =? 0) = false) by (apply Z.eqb_neq; lia).
  destruct (staircaseArray_shuffled rnd n Hr Hn) as (arr & Harr & Hp & Hl).
  assert (Hfuel : enough arr gfuel) by (unfold enough, n, len in *; lia).
  destruct (generator_sorts alg arr gfuel Halg Hfuel) as [Hs HP2].
  assert (Hfinal : final_of (generator alg gfuel) arr = staircase n).
  { apply sorted_unique.
    - apply Sorted_StronglySorted; [|exact Hs]. intros x y z. apply Qle_trans.
    - now apply staircase_strict.
    - symmetry. etransitivity; [exact Hp | exact HP2]. }
  exists (length (steps_of (generator alg gfuel) arr)). intros fuel Hlen.
  set (u1 := set_prepared true (set_bars (fun _ => renderArray ch arr) u)).
  assert (Hdom : in_domain alg arr) by (destruct alg; cbn; auto; contradiction).
  assert (Hsh : shows (board_height ch) (bars u1) arr) by apply shows_renderArray.
  assert (Hov : staircaseOn u1 && negb (staircaseReverted u1)
                && negb (staircasePrepared u1) = false).
  { cbn. now rewrite andb_false_r. }
  destruct (playGenerator_complete alg arr gfuel fuel ch usr u1
              Hdom Hfuel Hsh Hlen Hov Hns Hres)
    as (u' & E & H1 & H2 & _ & _ & _ & _ & H3 & _ & H4 & H5 & H6 & _).
  exists u'. unfold run_page. rewrite Hvis, Hon. fold n. rewrite Hnz, Harr.
  fold u1. rewrite E, Hfinal. split; [reflexivity|].
  rewrite Hfinal in H1. unfold shows in H1.
  pose proof (board_height_nonneg ch Hch) as Hb.
  split.
  { apply (f_equal (@length Z)) in H1. rewrite !length_map in H1. rewrite H1.
    unfold staircase. rewrite length_map, length_seqZ. unfold n, len. lia. }
  split.
  { rewrite H1. apply heights_in_order_Sorted; [lia | now apply staircase_Sorted]. }
  auto 10.
Qed.

(** X21 on a board of three bars, [Math.random] returning 0.5 each
    time, heap sort. *)
Lemma X21_run_staircase_witness :
  let u := Ui (renderArray 400 [3 # 4; 1 # 4; 1 # 2]%Q) 0 0 0 0 false false
              false true false false false "Stop"%string ["danger"%string]
              "Pause"%string in
  (forall k : nat, (0 <= (fun _ => 1 # 2) k)%Q /\ ((fun _ => 1 # 2) k < 1)%Q) /\
  0 <= 400 /\
  heap <> radix /\ staircaseOn u = true /\ isSortedVisible (bars u) = false /\
  (2 * length (bars u) + 12 <= 18)%nat /\
  stop nobody = NoStop /\ (forall t, resumes nobody t = true) /\
  exists N : nat, forall fuel, (N < fuel)%nat ->
    exists u',
      run_page fuel 400 nobody (fun _ => 1 # 2) 50 (Some (generator heap 18))
        [3 # 4; 1 # 4; 1 # 2]%Q u
        = (u', [0 / 2; 1 / 2; 2 / 2]%Q, Played Finished) /\
      all_marked "sorted"%string (bars u').
Proof.
  intros u.
  assert (H1 : forall k : nat,
            (0 <= (fun _ => 1 # 2) k)%Q /\ ((fun _ => 1 # 2) k < 1)%Q).
  { intros k. split; [vm_compute; discriminate | vm_compute; reflexivity]. }
  assert (H1' : 0 <= 400) by lia.
  assert (H2 : heap <> radix) by discriminate.
  assert (H3 : staircaseOn u = true) by reflexivity.
  assert (H4 : isSortedVisible (bars u) = false) by (vm_compute; reflexivity).
  assert (H5 : (2 * length (bars u) + 12 <= 18)%nat) by (vm_compute; lia).
  assert (H6 : stop nobody = NoStop) by reflexivity.
  assert (H7 : forall t, resumes nobody t = true) by reflexivity.
  split; [exact H1|]. split; [exact H1'|]. split; [exact H2|].
  split; [exact H3|]. split; [exact H4|]. split; [exact H5|].
  split; [exact H6|]. split; [exact H7|].
  destruct (X21_run_staircase heap (fun _ => 1 # 2)%Q 50 [3 # 4; 1 # 4; 1 # 2]%Q
              18 400 nobody u H1 H1' H2 H3 H4 H5 H6 H7) as (_ & N & HN).
  exists N. intros fuel Hf. destruct (HN fuel Hf) as (u' & E & _ & _ & Hm & _).
  exists u'. split; [exact E | exact Hm].
Defined.



